(** * ndn-js: Face core, segment fetcher and pipelined fetcher

    A shallow embedding of

    - [js/face.js] (the Face: pending interest table, removal requests,
      interest filters, prefix registration, connection life cycle),
    - the segment fetcher ([SegmentFetcher]),
    - the pipelined fetcher of
      [examples/browser/test-throughput-ws-pipeline.html] ([ContentContext]),

    together with the properties that the specification states about them.

    JavaScript numbers are integers here ([Z]); a byte is a [Z] in
    [0, 256); a JavaScript array is a list ([push] appends at the end,
    [splice(i, 1)] deletes position [i]); the sparse array [ooo_table] is a
    finite map from slot to segment number. *)

From Stdlib Require Import ZArith List Bool Lia.
From stdpp Require Import base numbers option list gmap.

Local Open Scope Z_scope.

(** ** Names and name components *)

Module Names.

(** A name component is an opaque byte string, a name is a sequence of
    components. *)
Definition Component := list Z.
Definition Name := list Component.

(** [name.size()] *)
Definition Name_size (n : Name) : Z := Z.of_nat (length n).

(** Modelled from the spec: [Name.get(-1)] ([name.js] is not part of the
    sources): "read the i-th component (supporting negative indices)".
    The last component, when the name has one. *)
Definition get_last (n : Name) : option Component := last n.

(** Modelled from the spec: [Name.getPrefix(-1)]: "take a prefix of length
    k (supporting negative k meaning drop last |k|)". *)
Definition getPrefix_drop_last (n : Name) : Name := removelast n.

(** Modelled from the spec: [Name.match]: the prefix-match test
    [this.match(name)], true when every component of [this] equals the
    component of [name] at the same position. *)
Fixpoint Name_match (this name : Name) : bool :=
  match this, name with
  | [], _ => true
  | _ :: _, [] => false
  | c :: this', d :: name' => bool_decide (c = d) && Name_match this' name'
  end.

(** Modelled from the spec: [DataUtils.bigEndianToUnsignedInt]: the
    big-endian value of a byte string. *)
Fixpoint bigEndianToUnsignedInt_from (result : Z) (bytes : list Z) : Z :=
  match bytes with
  | [] => result
  | b :: rest => bigEndianToUnsignedInt_from (result * 256 + b) rest
  end.

Definition bigEndianToUnsignedInt (bytes : list Z) : Z :=
  bigEndianToUnsignedInt_from 0 bytes.

(** Modelled from the spec: [DataUtils.nonNegativeIntToBigEndian]: "a
    minimal big-endian encoding of the integer", the empty string for 0.
    The loop peels off the low byte until the value is 0; [fuel] bounds
    the number of bytes. *)
Fixpoint nonNegativeIntToBigEndian_loop
    (fuel : nat) (value : Z) (result : list Z) : list Z :=
  match fuel with
  | O => result
  | S fuel' =>
      if value =? 0 then result
      else nonNegativeIntToBigEndian_loop fuel' (value / 256)
             (value mod 256 :: result)
  end.

Definition nonNegativeIntToBigEndian (value : Z) : list Z :=
  if value <=? 0 then []
  else nonNegativeIntToBigEndian_loop (S (Z.to_nat (Z.log2 value))) value [].

(** Modelled from the spec: [Name.Component.toSegment]: "interpret a
    component as a non-negative integer segment number (big-endian,
    leading 0x00 marker byte)". [None] stands for the exception thrown
    when the marker is missing. *)
Definition toSegment (c : Component) : option Z :=
  match c with
  | 0 :: rest => Some (bigEndianToUnsignedInt rest)
  | _ => None
  end.

(** The segment component built in the pipelined fetcher: "Put a 0 byte
    in front" of [nonNegativeIntToBigEndian(segment)]; the same component
    as [Name.appendSegment] appends. *)
Definition segmentComponent (segment : Z) : Component :=
  0 :: nonNegativeIntToBigEndian segment.

Definition appendSegment (n : Name) (segment : Z) : Name :=
  n ++ [segmentComponent segment].

(** [SegmentFetcher.endsWithSegmentNumber] *)
Definition endsWithSegmentNumber (n : Name) : bool :=
  (1 <=? Name_size n) &&
  match get_last n with
  | Some (b :: _) => b =? 0
  | _ => false
  end.

End Names.

(** ** Packets *)

Import Names.

(** An Interest: its name and the selectors that the modelled code reads or
    writes. The nonce is the empty string when unset. *)
Record Interest := mkInterest {
  interest_name : Name;
  childSelector : option Z;
  mustBeFresh : bool;
  interestLifetimeMilliseconds : option Z;
  nonce : list Z
}.

(** Modelled from the spec: the setters of [interest.js] (not part of the
    sources): "Changing any selector MUST invalidate the Nonce". *)
Definition setName (i : Interest) (n : Name) : Interest :=
  {| interest_name := n; childSelector := childSelector i;
     mustBeFresh := mustBeFresh i;
     interestLifetimeMilliseconds := interestLifetimeMilliseconds i;
     nonce := [] |}.

Definition setChildSelector (i : Interest) (c : Z) : Interest :=
  {| interest_name := interest_name i; childSelector := Some c;
     mustBeFresh := mustBeFresh i;
     interestLifetimeMilliseconds := interestLifetimeMilliseconds i;
     nonce := [] |}.

Definition setMustBeFresh (i : Interest) (b : bool) : Interest :=
  {| interest_name := interest_name i; childSelector := childSelector i;
     mustBeFresh := b;
     interestLifetimeMilliseconds := interestLifetimeMilliseconds i;
     nonce := [] |}.

Definition setInterestLifetimeMilliseconds (i : Interest) (ms : Z) : Interest :=
  {| interest_name := interest_name i; childSelector := childSelector i;
     mustBeFresh := mustBeFresh i;
     interestLifetimeMilliseconds := Some ms;
     nonce := [] |}.

(** [new Interest(name)] *)
Definition Interest_of_name (n : Name) : Interest :=
  {| interest_name := n; childSelector := None; mustBeFresh := true;
     interestLifetimeMilliseconds := None; nonce := [] |}.

(** A Data packet. [data_content] is [None] for a null Blob;
    [data_finalBlockId] is the empty component when MetaInfo carries no
    FinalBlockId. *)
Record Data := mkData {
  data_name : Name;
  data_content : option (list Z);
  data_finalBlockId : Component
}.

#[global] Instance Interest_eq_dec : EqDecision Interest.
Proof. solve_decision. Defined.

#[global] Instance Data_eq_dec : EqDecision Data.
Proof. solve_decision. Defined.

(** ** The segment fetcher *)

Module SegmentFetcher.

Inductive ErrorCode :=
| INTEREST_TIMEOUT
| DATA_HAS_NO_SEGMENT
| SEGMENT_VERIFICATION_FAILED.

(** The one mutable field of a [SegmentFetcher]: [this.contentParts], the
    buffers pushed so far ([None] for the null buffer of a null Blob). *)
Record t := mk { contentParts : list (option (list Z)) }.

(** What one call of a handler does to the outside: it expresses one more
    Interest through the face, or it reports through [onComplete] or
    [onError]. [Throws] is the exception of [Buffer.concat] on a null
    part. *)
Inductive Action :=
| ExpressInterest (interest : Interest)
| CallOnComplete (content : list Z)
| CallOnError (code : ErrorCode)
| Throws.

(** [Buffer.concat(list)] *)
Fixpoint Buffer_concat (parts : list (option (list Z))) : option (list Z) :=
  match parts with
  | [] => Some []
  | None :: _ => None
  | Some b :: rest =>
      match Buffer_concat rest with
      | Some r => Some (b ++ r)
      | None => None
      end
  end.

(** [new SegmentFetcher(face, verifySegment, onComplete, onError)] *)
Definition create : t := {| contentParts := [] |}.

Definition fetchFirstSegment (baseInterest : Interest) : Action :=
  let interest := baseInterest in
  let interest := setChildSelector interest 1 in
  let interest := setMustBeFresh interest true in
  ExpressInterest interest.

Definition fetchNextSegment
    (originalInterest : Interest) (dataName : Name) (segment : Z) : Action :=
  let interest := originalInterest in
  let interest := setMustBeFresh interest false in
  let interest :=
    setName interest (appendSegment (getPrefix_drop_last dataName) segment) in
  ExpressInterest interest.

Section Handlers.

(** The user-supplied [verifySegment] callback. *)
Variable verifySegment : Data → bool.

Definition onData (this : t) (originalInterest : Interest) (data : Data)
  : t * Action :=
  if negb (verifySegment data) then
    (this, CallOnError SEGMENT_VERIFICATION_FAILED)
  else if negb (endsWithSegmentNumber (data_name data)) then
    (this, CallOnError DATA_HAS_NO_SEGMENT)
  else
    match get_last (data_name data) ≫= toSegment with
    | None => (this, CallOnError DATA_HAS_NO_SEGMENT)
    | Some currentSegment =>
        let expectedSegmentNumber :=
          Z.of_nat (length (contentParts this)) in
        if negb (currentSegment =? expectedSegmentNumber) then
          (this, fetchNextSegment originalInterest (data_name data)
                   expectedSegmentNumber)
        else
          let this' :=
            {| contentParts := contentParts this ++ [data_content data] |} in
          let fetchNext :=
            fetchNextSegment originalInterest (data_name data)
              (expectedSegmentNumber + 1) in
          if 0 <? Z.of_nat (length (data_finalBlockId data)) then
            match toSegment (data_finalBlockId data) with
            | None => (this', CallOnError DATA_HAS_NO_SEGMENT)
            | Some finalSegmentNumber =>
                if currentSegment =? finalSegmentNumber then
                  match Buffer_concat (contentParts this') with
                  | Some content => (this', CallOnComplete content)
                  | None => (this', Throws)
                  end
                else (this', fetchNext)
            end
          else (this', fetchNext)
    end.

Definition onTimeout (this : t) (interest : Interest) : t * Action :=
  (this, CallOnError INTEREST_TIMEOUT).

(** What the face hands back for an expressed Interest: a Data packet or
    a timeout. *)
Inductive Response :=
| GotData (data : Data)
| TimedOut.

Inductive Outcome :=
| Completed (content : list Z)
| Failed (code : ErrorCode)
| Crashed
| Fetching (this : t) (pending : Interest).

(** A run of the fetcher: each response is delivered to the handler of
    the Interest in flight, whose action either puts one more Interest
    in flight or ends the run. *)
Fixpoint run (this : t) (pending : Interest) (responses : list Response)
  : Outcome :=
  match responses with
  | [] => Fetching this pending
  | r :: rest =>
      let '(this', action) :=
        match r with
        | GotData data => onData this pending data
        | TimedOut => onTimeout this pending
        end in
      match action with
      | ExpressInterest interest => run this' interest rest
      | CallOnComplete content => Completed content
      | CallOnError code => Failed code
      | Throws => Crashed
      end
  end.

(** [SegmentFetcher.fetch(face, baseInterest, verifySegment, onComplete,
    onError)] followed by the responses of the network. *)
Definition fetch (baseInterest : Interest) (responses : list Response)
  : Outcome :=
  match fetchFirstSegment baseInterest with
  | ExpressInterest interest => run create interest responses
  | _ => Crashed
  end.

Definition arrivals (responses : list Response) : list Data :=
  omap (λ r, match r with GotData d => Some d | TimedOut => None end)
    responses.

(** The segment number carried by the last name component of [d]. *)
Definition segmentOf (d : Data) : option Z :=
  get_last (data_name d) ≫= toSegment.

(** [ds] holds segments 0, 1, 2, ... in this order. *)
Definition consecutive_from_zero (ds : list Data) : Prop :=
  ∀ (i : nat) d, ds !! i = Some d → segmentOf d = Some (Z.of_nat i).

End Handlers.

End SegmentFetcher.

(** ** The pipelined fetcher *)

Module ContentContext.

(** The fields of a [ContentContext], as its constructor lists them
    ([T0] and [face] are left out: the start time is only printed, and the
    calls to the face are returned as the list of expressed names). *)
Record t := mk {
  totalBlocks : Z;
  ooo_count : Z;
  pkt_recved : Z;
  timed_out : Z;
  interest_sent : Z;
  dups : Z;
  max_window : Z;
  max_retrans : Z;
  snd_una : Z;
  snd_wnd : Z;
  snd_nxt : Z;
  ooo_table_size : Z;
  ooo_table : gmap Z Z;
  terminated : bool
}.

(** [new ContentContext(face, T0)] *)
Definition create : t :=
  {| totalBlocks := 0; ooo_count := 0; pkt_recved := 0; timed_out := 0;
     interest_sent := 1; dups := 0; max_window := 32; max_retrans := 5;
     snd_una := 0; snd_wnd := 1; snd_nxt := 1;
     ooo_table_size := 128; ooo_table := ∅; terminated := false |}.

(** Field updates. *)
Definition set_pkt_recved (v : Z) (c : t) : t :=
  mk (totalBlocks c) (ooo_count c) v (timed_out c) (interest_sent c)
     (dups c) (max_window c) (max_retrans c) (snd_una c) (snd_wnd c)
     (snd_nxt c) (ooo_table_size c) (ooo_table c) (terminated c).
Definition set_timed_out (v : Z) (c : t) : t :=
  mk (totalBlocks c) (ooo_count c) (pkt_recved c) v (interest_sent c)
     (dups c) (max_window c) (max_retrans c) (snd_una c) (snd_wnd c)
     (snd_nxt c) (ooo_table_size c) (ooo_table c) (terminated c).
Definition set_interest_sent (v : Z) (c : t) : t :=
  mk (totalBlocks c) (ooo_count c) (pkt_recved c) (timed_out c) v
     (dups c) (max_window c) (max_retrans c) (snd_una c) (snd_wnd c)
     (snd_nxt c) (ooo_table_size c) (ooo_table c) (terminated c).
Definition set_ooo_count (v : Z) (c : t) : t :=
  mk (totalBlocks c) v (pkt_recved c) (timed_out c) (interest_sent c)
     (dups c) (max_window c) (max_retrans c) (snd_una c) (snd_wnd c)
     (snd_nxt c) (ooo_table_size c) (ooo_table c) (terminated c).
Definition set_snd_wnd (v : Z) (c : t) : t :=
  mk (totalBlocks c) (ooo_count c) (pkt_recved c) (timed_out c)
     (interest_sent c) (dups c) (max_window c) (max_retrans c) (snd_una c) v
     (snd_nxt c) (ooo_table_size c) (ooo_table c) (terminated c).
Definition set_snd_nxt (v : Z) (c : t) : t :=
  mk (totalBlocks c) (ooo_count c) (pkt_recved c) (timed_out c)
     (interest_sent c) (dups c) (max_window c) (max_retrans c) (snd_una c)
     (snd_wnd c) v (ooo_table_size c) (ooo_table c) (terminated c).
Definition set_ooo_table (v : gmap Z Z) (c : t) : t :=
  mk (totalBlocks c) (ooo_count c) (pkt_recved c) (timed_out c)
     (interest_sent c) (dups c) (max_window c) (max_retrans c) (snd_una c)
     (snd_wnd c) (snd_nxt c) (ooo_table_size c) v (terminated c).
Definition set_terminated (v : bool) (c : t) : t :=
  mk (totalBlocks c) (ooo_count c) (pkt_recved c) (timed_out c)
     (interest_sent c) (dups c) (max_window c) (max_retrans c) (snd_una c)
     (snd_wnd c) (snd_nxt c) (ooo_table_size c) (ooo_table c) v.
(** [this.snd_una++; this.totalBlocks++] *)
Definition advance (c : t) : t :=
  mk (totalBlocks c + 1) (ooo_count c) (pkt_recved c) (timed_out c)
     (interest_sent c) (dups c) (max_window c) (max_retrans c)
     (snd_una c + 1) (snd_wnd c) (snd_nxt c) (ooo_table_size c)
     (ooo_table c) (terminated c).

(** What a handler leaves behind: the context, the names it passed to
    [this.expressInterest], in order, and whether it ended by an exception
    ([toSegment] on a component without the marker). *)
Record Result := mkResult {
  context : t;
  expressed : list Name;
  threw : bool
}.

Definition onTimeout (this : t) (interest : Interest) : Result :=
  let this := set_pkt_recved (pkt_recved this + 1) this in
  if negb (terminated this) then
    let this := set_timed_out (timed_out this + 1) this in
    (* Reduce window size to 1 *)
    let this := set_snd_wnd 1 this in
    (* Retransmit interest for this segment *)
    let this := set_interest_sent (interest_sent this + 1) this in
    mkResult this [interest_name interest] false
  else mkResult this [] false.

(** The loop that slides [snd_una] over the marked slots:
    [while (this.ooo_table[slot] != undefined) { this.ooo_table[slot] =
    undefined; this.snd_una++; this.totalBlocks++; slot = ... }].
    Every round clears a marked slot, so the number of marked slots bounds
    the number of rounds. *)
Fixpoint slide_loop (fuel : nat) (this : t) : t :=
  match fuel with
  | O => this
  | S fuel' =>
      let slot := Z.rem (snd_una this) (ooo_table_size this) in
      match ooo_table this !! slot with
      | Some _ =>
          slide_loop fuel'
            (advance (set_ooo_table (delete slot (ooo_table this)) this))
      | None => this
      end
  end.

Definition slide (this : t) : t :=
  slide_loop (size (ooo_table this)) this.

(** The loop that fills the window:
    [while (this.snd_nxt - this.snd_una < this.snd_wnd) { ... }].
    Every round increments [snd_nxt], so [snd_wnd - (snd_nxt - snd_una)]
    bounds the number of rounds. *)
Fixpoint send_loop (fuel : nat) (this : t) (nextNameComponents : Name)
    (expressed : list Name) : t * list Name :=
  match fuel with
  | O => (this, expressed)
  | S fuel' =>
      if snd_nxt this - snd_una this <? snd_wnd this then
        let nextSegmentNumber := segmentComponent (snd_nxt this) in
        let nextName := nextNameComponents ++ [nextSegmentNumber] in
        let this := set_interest_sent (interest_sent this + 1) this in
        let this := set_snd_nxt (snd_nxt this + 1) this in
        send_loop fuel' this nextNameComponents (expressed ++ [nextName])
      else (this, expressed)
  end.

Definition send (this : t) (nextNameComponents : Name) : t * list Name :=
  send_loop (Z.to_nat (snd_wnd this - (snd_nxt this - snd_una this)))
    this nextNameComponents [].

Definition onData (this : t) (interest : Interest) (data : Data) : Result :=
  let this := set_pkt_recved (pkt_recved this + 1) this in
  match data_content data with
  | None => mkResult this [] false
  | Some _ =>
  (* Use the segmentNumber to load multiple segments. *)
  match get_last (data_name data) ≫= toSegment with
  | None => mkResult this [] true
  | Some segmentNumber =>
  (* Record final seg# if present *)
  match (if 0 <? Z.of_nat (length (data_finalBlockId data))
         then option_map Some (toSegment (data_finalBlockId data))
         else Some None) with
  | None => mkResult this [] true
  | Some finalSegmentNumber =>
  (* Check for out-of-order segment *)
  if negb (segmentNumber =? snd_una this) then
    let this := set_ooo_count (ooo_count this + 1) this in
    if (snd_nxt this <=? segmentNumber) || (segmentNumber <? snd_una this)
    then
      (* Discard segment that is out of window *)
      mkResult this [] false
    else
      (* Mark this segment in hash table *)
      let slot := Z.rem segmentNumber (ooo_table_size this) in
      let this :=
        set_ooo_table (<[slot := segmentNumber]> (ooo_table this)) this in
      mkResult this [] false
  else
    (* In-order segment; slide window forward *)
    let this := advance this in
    let this := slide this in
    if match finalSegmentNumber with
       | Some final => snd_una this =? final + 1
       | None => false
       end
    then
      mkResult (set_terminated true this) [] false
    else
      (* Adjust window size *)
      let this :=
        if snd_wnd this <? max_window this
        then set_snd_wnd (snd_wnd this + 1) this else this in
      (* Send the next interest if allowed by snd_wnd *)
      let nextNameComponents := getPrefix_drop_last (data_name data) in
      let '(this, names) := send this nextNameComponents in
      mkResult this names false
  end end end.

(** *** The fetcher and the Interests it has in flight

    The face answers every expressed Interest at most once, by the Data
    of that name or by a timeout. [inflight] lists the names expressed and
    not yet answered. *)
Record System := mkSystem {
  ctx : t;
  inflight : list Name
}.

Inductive Event :=
| Deliver (i : nat) (content : option (list Z)) (finalBlockId : Component)
| Expire (i : nat).

(** [run()]: a new context and the Interest for the first segment. *)
Definition start (prefix : Name) : System :=
  {| ctx := create; inflight := [appendSegment prefix 0] |}.

Definition step (s : System) (e : Event) : System :=
  match e with
  | Deliver i content finalBlockId =>
      match inflight s !! i with
      | Some name =>
          let r := onData (ctx s) (Interest_of_name name)
                     (mkData name content finalBlockId) in
          {| ctx := context r;
             inflight := delete i (inflight s) ++ expressed r |}
      | None => s
      end
  | Expire i =>
      match inflight s !! i with
      | Some name =>
          let r := onTimeout (ctx s) (Interest_of_name name) in
          {| ctx := context r;
             inflight := delete i (inflight s) ++ expressed r |}
      | None => s
      end
  end.

Definition run (s : System) (events : list Event) : System :=
  fold_left step events s.

Definition is_Expire (e : Event) : bool :=
  match e with Expire _ => true | Deliver _ _ _ => false end.

End ContentContext.


(** ** The Face *)

Module Face.

(** [Face.UNOPEN = 0], [Face.OPEN_REQUESTED = 1], [Face.OPENED = 2],
    [Face.CLOSED = 3] *)
Inductive ReadyStatus :=
| UNOPEN
| OPEN_REQUESTED
| OPENED
| CLOSED.

#[global] Instance ReadyStatus_eq_dec : EqDecision ReadyStatus.
Proof. solve_decision. Defined.

(** A [Transport.ConnectionInfo], compared with [equals]. *)
Definition ConnectionInfo := Z.

(** A function of the application, named by a tag: the model records that
    the Face calls it, and what the application does in the callback shows
    up as later events. *)
Definition AppFunction := nat.

(** The [onRegisterFailed] of [registerPrefix], after
    [if (!onRegisterFailed) onRegisterFailed = function() {}]. *)
Inductive OnRegisterFailed :=
| AppOnRegisterFailed (g : AppFunction)
| EmptyOnRegisterFailed.

(** [new ForwardingFlags()] and friends: opaque here. *)
Definition ForwardingFlags := Z.

(** [Face.RegisterResponse] *)
Record RegisterResponse := mkRegisterResponse {
  response_prefix : Name;
  response_onInterest : option AppFunction;
  response_onRegisterFailed : OnRegisterFailed;
  response_flags : ForwardingFlags
}.

(** The [onData] of a PIT entry: a function of the application, or
    [response.onData.bind(response)]. *)
Inductive OnData :=
| AppOnData (f : AppFunction)
| RegisterResponse_onData (response : RegisterResponse).

(** The [onTimeout] of a PIT entry: a function of the application, the
    [function() {}] that [expressInterest] substitutes for a missing one, or
    [response.onTimeout.bind(response)]. *)
Inductive OnTimeout :=
| AppOnTimeout (f : AppFunction)
| EmptyOnTimeout
| RegisterResponse_onTimeout (response : RegisterResponse).

(** [Face.PendingInterest]. [pendingInterestId] is [None] for the [null]
    that [nfdRegisterPrefix] passes. The entry is stored with the [timerID]
    that [setTimeout] returns for it: the value -1 of the constructor is
    overwritten before any other code runs. An entry is never copied, and
    [setTimeout] returns a fresh handle for each entry, so the identity of
    the object (for [indexOf(pitEntry)]) is its [timerID]. *)
Record PendingInterest := mkPendingInterest {
  pendingInterestId : option Z;
  interest : Interest;
  onData : OnData;
  onTimeout : OnTimeout;
  timerID : Z
}.

(** [Face.RegisteredPrefix] *)
Record RegisteredPrefix := mkRegisteredPrefix {
  registeredPrefixId : Z;
  registeredPrefix_prefix : Name;
  relatedInterestFilterId : Z
}.

(** An [InterestFilter]: a prefix and an optional regular expression, kept
    as its source text. *)
Record InterestFilter := mkInterestFilter {
  filter_prefix : Name;
  filter_regex : option (list Z)
}.

(** [Face.InterestFilterEntry] *)
Record InterestFilterEntry := mkInterestFilterEntry {
  interestFilterId : Z;
  entry_filter : InterestFilter;
  onInterest : AppFunction
}.

(** A closure pushed on [onConnectedCallbacks]:
    [function() { thisFace.expressInterestHelper(pendingInterestId, interest,
    onData, onTimeout); }] *)
Record Deferred := mkDeferred {
  deferred_id : option Z;
  deferred_interest : Interest;
  deferred_onData : OnData;
  deferred_onTimeout : OnTimeout
}.

(** A pending timer of [setTimeout(timeoutCallback, timeoutMilliseconds)]:
    its handle, the entry that the closure [timeoutCallback] holds, and the
    delay. Time itself is not modelled: a pending timer may fire at any
    moment. *)
Record Timer := mkTimer {
  timer_id : Z;
  timer_entry : PendingInterest;
  timer_delay : Z
}.

(** What the Face does to the outside, in order. *)
Inductive Effect :=
| TransportConnect (info : ConnectionInfo)
| TransportSend (bytes : list Z)
| TransportClose
| CallOnData (entry : PendingInterest) (data : Data)
| CallOnTimeout (entry : PendingInterest)
| CallOnInterest (entry : InterestFilterEntry) (i : Interest)
| CallOnRegisterFailed (g : OnRegisterFailed) (p : Name)
| CallOnOpen
| CallOnClose
| ConsoleLogError.

Inductive Error :=
| EncodedInterestTooLarge
| ConnectionNotOpened
| CommandKeyChainNotSet
| CommandCertificateNameNotSet
| TypeError.

(** The result of [transport.isLocal(connectionInfo, onResult, onError)]. *)
Inductive IsLocalResult :=
| IsLocal (isLocal : bool)
| IsLocalError.

(** The collaborators of the Face whose code is outside [face.js]: the TLV
    codec, the selector matching of [Interest] and [InterestFilter], the
    command interest generator with the key chain, and the locality test of
    the transport. *)
Class Collaborators := {
  (** [interest.wireEncode().buf()] *)
  wireEncode : Interest → list Z;
  (** [interest.matchesName(name)] *)
  matchesName : Interest → Name → bool;
  (** [filter.doesMatch(name)] *)
  doesMatch : InterestFilter → Name → bool;
  (** The StatusCode read from the ControlResponse in the content of a
      Data packet; [None] when the decoder throws. *)
  decodeStatusCode : option (list Z) → option Z;
  (** [controlParameters.wireEncode(TlvWireFormat.get())] for the
      parameters with the given name and flags. *)
  encodeControlParameters : Name → ForwardingFlags → Component;
  (** [commandInterestGenerator.generate]: the Interest with the timestamp,
      nonce and signature components appended. *)
  generate : Interest → Interest;
  (** [transport.isLocal] *)
  transport_isLocal : ConnectionInfo → IsLocalResult
}.

(** Modelled from the spec: [NdnCommon.MAX_NDN_PACKET_SIZE]
    ([util/ndn-common.js] is not part of the sources): "the maximum NDN
    packet size (8800 bytes)". *)
Definition MAX_NDN_PACKET_SIZE : Z := 8800.

(** [Face.getMaxNdnPacketSize] *)
Definition getMaxNdnPacketSize : Z := MAX_NDN_PACKET_SIZE.

(** [new Name("/local/timeout")] *)
Definition timeoutPrefix : Name :=
  [[108; 111; 99; 97; 108]; [116; 105; 109; 101; 111; 117; 116]].

(** The fields of a Face that the modelled methods use, the part of the
    transport that the Face reads ([this.transport.connectionInfo], set by
    [transport.connect]), the pending timers and the effects so far. The
    Face is built by [new Face(transport, connectionInfo)], which sets
    [getConnectionInfo] to [null]. On such a Face [expressInterest] and
    [registerPrefix] never reach the branch that calls [connectAndExecute]
    (it needs a [getConnectionInfo]): that method, its probe Interest and
    its retry timer are not described here, and [timers] holds the timers
    that [expressInterestHelper] sets. *)
Record t := mk {
  readyStatus : ReadyStatus;
  connectionInfo : option ConnectionInfo;
  transport_connectionInfo : option ConnectionInfo;
  onConnectedCallbacks : list Deferred;
  commandKeyChain : bool;
  commandCertificateName : Name;
  pendingInterestTable : list PendingInterest;
  pitRemoveRequests : list Z;
  registeredPrefixTable : list RegisteredPrefix;
  registeredPrefixRemoveRequests : list Z;
  interestFilterTable : list InterestFilterEntry;
  lastEntryId : Z;
  timers : list Timer;
  nextTimerID : Z;
  trace : list Effect
}.

(** [new Face(transport, connectionInfo)] *)
Definition create (info : option ConnectionInfo) : t :=
  {| readyStatus := UNOPEN;
     connectionInfo := info;
     transport_connectionInfo := None;
     onConnectedCallbacks := [];
     commandKeyChain := false;
     commandCertificateName := [];
     pendingInterestTable := [];
     pitRemoveRequests := [];
     registeredPrefixTable := [];
     registeredPrefixRemoveRequests := [];
     interestFilterTable := [];
     lastEntryId := 0;
     timers := [];
     nextTimerID := 1;
     trace := [] |}.

(** Field updates. *)
Definition set_readyStatus (v : ReadyStatus) (f : t) : t :=
  mk v (connectionInfo f) (transport_connectionInfo f)
     (onConnectedCallbacks f) (commandKeyChain f) (commandCertificateName f)
     (pendingInterestTable f) (pitRemoveRequests f) (registeredPrefixTable f)
     (registeredPrefixRemoveRequests f) (interestFilterTable f)
     (lastEntryId f) (timers f) (nextTimerID f) (trace f).
Definition set_transport_connectionInfo (v : option ConnectionInfo) (f : t) : t :=
  mk (readyStatus f) (connectionInfo f) v
     (onConnectedCallbacks f) (commandKeyChain f) (commandCertificateName f)
     (pendingInterestTable f) (pitRemoveRequests f) (registeredPrefixTable f)
     (registeredPrefixRemoveRequests f) (interestFilterTable f)
     (lastEntryId f) (timers f) (nextTimerID f) (trace f).
Definition set_onConnectedCallbacks (v : list Deferred) (f : t) : t :=
  mk (readyStatus f) (connectionInfo f) (transport_connectionInfo f)
     v (commandKeyChain f) (commandCertificateName f)
     (pendingInterestTable f) (pitRemoveRequests f) (registeredPrefixTable f)
     (registeredPrefixRemoveRequests f) (interestFilterTable f)
     (lastEntryId f) (timers f) (nextTimerID f) (trace f).
Definition set_commandSigningInfo (k : bool) (n : Name) (f : t) : t :=
  mk (readyStatus f) (connectionInfo f) (transport_connectionInfo f)
     (onConnectedCallbacks f) k n
     (pendingInterestTable f) (pitRemoveRequests f) (registeredPrefixTable f)
     (registeredPrefixRemoveRequests f) (interestFilterTable f)
     (lastEntryId f) (timers f) (nextTimerID f) (trace f).
Definition set_pendingInterestTable (v : list PendingInterest) (f : t) : t :=
  mk (readyStatus f) (connectionInfo f) (transport_connectionInfo f)
     (onConnectedCallbacks f) (commandKeyChain f) (commandCertificateName f)
     v (pitRemoveRequests f) (registeredPrefixTable f)
     (registeredPrefixRemoveRequests f) (interestFilterTable f)
     (lastEntryId f) (timers f) (nextTimerID f) (trace f).
Definition set_pitRemoveRequests (v : list Z) (f : t) : t :=
  mk (readyStatus f) (connectionInfo f) (transport_connectionInfo f)
     (onConnectedCallbacks f) (commandKeyChain f) (commandCertificateName f)
     (pendingInterestTable f) v (registeredPrefixTable f)
     (registeredPrefixRemoveRequests f) (interestFilterTable f)
     (lastEntryId f) (timers f) (nextTimerID f) (trace f).
Definition set_registeredPrefixTable (v : list RegisteredPrefix) (f : t) : t :=
  mk (readyStatus f) (connectionInfo f) (transport_connectionInfo f)
     (onConnectedCallbacks f) (commandKeyChain f) (commandCertificateName f)
     (pendingInterestTable f) (pitRemoveRequests f) v
     (registeredPrefixRemoveRequests f) (interestFilterTable f)
     (lastEntryId f) (timers f) (nextTimerID f) (trace f).
Definition set_registeredPrefixRemoveRequests (v : list Z) (f : t) : t :=
  mk (readyStatus f) (connectionInfo f) (transport_connectionInfo f)
     (onConnectedCallbacks f) (commandKeyChain f) (commandCertificateName f)
     (pendingInterestTable f) (pitRemoveRequests f) (registeredPrefixTable f)
     v (interestFilterTable f)
     (lastEntryId f) (timers f) (nextTimerID f) (trace f).
Definition set_interestFilterTable (v : list InterestFilterEntry) (f : t) : t :=
  mk (readyStatus f) (connectionInfo f) (transport_connectionInfo f)
     (onConnectedCallbacks f) (commandKeyChain f) (commandCertificateName f)
     (pendingInterestTable f) (pitRemoveRequests f) (registeredPrefixTable f)
     (registeredPrefixRemoveRequests f) v
     (lastEntryId f) (timers f) (nextTimerID f) (trace f).
Definition set_lastEntryId (v : Z) (f : t) : t :=
  mk (readyStatus f) (connectionInfo f) (transport_connectionInfo f)
     (onConnectedCallbacks f) (commandKeyChain f) (commandCertificateName f)
     (pendingInterestTable f) (pitRemoveRequests f) (registeredPrefixTable f)
     (registeredPrefixRemoveRequests f) (interestFilterTable f)
     v (timers f) (nextTimerID f) (trace f).
Definition set_timers (v : list Timer) (f : t) : t :=
  mk (readyStatus f) (connectionInfo f) (transport_connectionInfo f)
     (onConnectedCallbacks f) (commandKeyChain f) (commandCertificateName f)
     (pendingInterestTable f) (pitRemoveRequests f) (registeredPrefixTable f)
     (registeredPrefixRemoveRequests f) (interestFilterTable f)
     (lastEntryId f) v (nextTimerID f) (trace f).
Definition set_nextTimerID (v : Z) (f : t) : t :=
  mk (readyStatus f) (connectionInfo f) (transport_connectionInfo f)
     (onConnectedCallbacks f) (commandKeyChain f) (commandCertificateName f)
     (pendingInterestTable f) (pitRemoveRequests f) (registeredPrefixTable f)
     (registeredPrefixRemoveRequests f) (interestFilterTable f)
     (lastEntryId f) (timers f) v (trace f).
Definition set_trace (v : list Effect) (f : t) : t :=
  mk (readyStatus f) (connectionInfo f) (transport_connectionInfo f)
     (onConnectedCallbacks f) (commandKeyChain f) (commandCertificateName f)
     (pendingInterestTable f) (pitRemoveRequests f) (registeredPrefixTable f)
     (registeredPrefixRemoveRequests f) (interestFilterTable f)
     (lastEntryId f) (timers f) (nextTimerID f) v.

(** Appending to the trace. *)
Definition emit (e : Effect) (f : t) : t := set_trace (trace f ++ [e]) f.

(** *** Methods that may throw

    A method maps the Face to the Face it leaves behind, together with its
    return value or the exception it throws. *)
Inductive Outcome (A : Type) :=
| Returned (a : A) (f : t)
| Thrown (e : Error) (f : t).
Arguments Returned {A} a f.
Arguments Thrown {A} e f.

Definition M (A : Type) : Type := t → Outcome A.

Definition ret {A} (a : A) : M A := λ f, Returned a f.
Definition throw {A} (e : Error) : M A := λ f, Thrown e f.
Definition bind {A B} (m : M A) (k : A → M B) : M B :=
  λ f, match m f with
       | Returned a f' => k a f'
       | Thrown e f' => Thrown e f'
       end.
(** A statement that cannot throw. *)
Definition exec (g : t → t) : M unit := λ f, Returned tt (g f).
(** Reading the Face. *)
Definition read {A} (g : t → A) : M A := λ f, Returned (g f) f.

Notation "'let*' x ':=' m 'in' k" := (bind m (λ x, k))
  (at level 10, x name, m at level 100, k at level 200).

(** The Face after the method ends, by return or by exception. *)
Definition after {A} (o : Outcome A) : t :=
  match o with
  | Returned _ f => f
  | Thrown _ f => f
  end.


(** *** Timers *)

(** [setTimeout(timeoutCallback, timeoutMilliseconds)] for the callback
    that holds [pitEntry]; the entry gets the new handle as its
    [timerID]. *)
Definition setTimeout (entry : PendingInterest) (timeoutMilliseconds : Z)
    (f : t) : t :=
  set_nextTimerID (nextTimerID f + 1)
    (set_timers (timers f ++ [mkTimer (timerID entry) entry timeoutMilliseconds])
       f).

(** [clearTimeout(timerID)] *)
Definition clearTimeout (id : Z) (f : t) : t :=
  set_timers (filter (λ tm, timer_id tm ≠ id) (timers f)) f.

(** *** Entry ids *)

(** [getNextEntryId]: [return ++this.lastEntryId] *)
Definition getNextEntryId : M Z :=
  λ f, Returned (lastEntryId f + 1) (set_lastEntryId (lastEntryId f + 1) f).

(** [array.indexOf(x)]: the first position of [x], [None] for -1. *)
Fixpoint indexOf (x : Z) (l : list Z) : option nat :=
  match l with
  | [] => None
  | y :: l' => if bool_decide (y = x) then Some 0%nat
               else option_map S (indexOf x l')
  end.

(** *** The pending interest table *)

Section Methods.

Context `{Collaborators}.

(** The loop of [extractEntriesForExpressedInterest], which goes
    "backwards through the list so we can erase entries": [later] holds the
    entries behind the current position that stay in the table, [result]
    the entries pushed so far. *)
Fixpoint extract_loop (name : Name) (backwards : list PendingInterest)
    (later result : list PendingInterest) (f : t)
  : list PendingInterest * list PendingInterest * t :=
  match backwards with
  | [] => (later, result, f)
  | entry :: rest =>
      if matchesName (interest entry) name then
        (* Cancel the timeout timer. *)
        extract_loop name rest later (result ++ [entry])
          (clearTimeout (timerID entry) f)
      else
        extract_loop name rest (entry :: later) result f
  end.

Definition extractEntriesForExpressedInterest (name : Name)
  : M (list PendingInterest) :=
  λ f,
    let '(table, result, f) :=
      extract_loop name (reverse (pendingInterestTable f)) [] [] f in
    Returned result (set_pendingInterestTable table f).

(** The body of [timeoutCallback] for [pitEntry]. *)
Definition RegisterResponse_onTimeout_body (response : RegisterResponse)
    (f : t) : t :=
  emit (CallOnRegisterFailed (response_onRegisterFailed response)
          (response_prefix response)) f.

Definition timeoutCallback (pitEntry : PendingInterest) (f : t) : t :=
  (* Remove PIT entry from thisFace.pendingInterestTable. *)
  let f :=
    set_pendingInterestTable
      (match list_find (λ e, timerID e = timerID pitEntry)
               (pendingInterestTable f) with
       | Some (index, _) => delete index (pendingInterestTable f)
       | None => pendingInterestTable f
       end) f in
  (* Call onTimeout. *)
  let f := emit (CallOnTimeout pitEntry) f in
  match onTimeout pitEntry with
  | AppOnTimeout _ => f
  | EmptyOnTimeout => f
  | RegisterResponse_onTimeout response =>
      RegisterResponse_onTimeout_body response f
  end.

(** [expressInterestHelper]: "Do the work of reconnectAndExpressInterest
    once we know we are connected." *)
Definition expressInterestHelper (pendingInterestId : option Z)
    (interest : Interest) (onData : OnData) (onTimeout : OnTimeout)
  : M unit :=
  λ f,
    let binaryInterest := wireEncode interest in
    if getMaxNdnPacketSize <? Z.of_nat (length binaryInterest) then
      Thrown EncodedInterestTooLarge f
    else
      let f :=
        match pendingInterestId ≫= (λ id, indexOf id (pitRemoveRequests f)) with
        | Some removeRequestIndex =>
            (* removePendingInterest was called with the pendingInterestId
               returned by expressInterest before we got here, so don't add
               a PIT entry. *)
            set_pitRemoveRequests
              (delete removeRequestIndex (pitRemoveRequests f)) f
        | None =>
            let pitEntry :=
              mkPendingInterest pendingInterestId interest onData onTimeout
                (nextTimerID f) in
            let f :=
              set_pendingInterestTable (pendingInterestTable f ++ [pitEntry])
                f in
            (* Set interest timer. *)
            let timeoutMilliseconds :=
              match interestLifetimeMilliseconds interest with
              | None | Some 0 => 4000
              | Some ms => ms
              end in
            setTimeout pitEntry timeoutMilliseconds f
        end in
      (* Special case: For timeoutPrefix we don't actually send the
         interest. *)
      let f :=
        if negb (Name_match timeoutPrefix (interest_name interest))
        then emit (TransportSend binaryInterest) f
        else f in
      Returned tt f.

(** The closure passed to [transport.connect] as [onopenCallback]. *)
Fixpoint drain (callbacks : list Deferred) (f : t) : t :=
  match callbacks with
  | [] => f
  | d :: rest =>
      (* thisFace.onConnectedCallbacks.shift()() in a try block whose catch
         ignores the exception *)
      let f := set_onConnectedCallbacks rest f in
      let f :=
        after (expressInterestHelper (deferred_id d) (deferred_interest d)
                 (deferred_onData d) (deferred_onTimeout d) f) in
      drain rest f
  end.

Definition onopenCallback (f : t) : t :=
  let f := set_readyStatus OPENED f in
  (* Execute each action requested while the connection was opening. *)
  let f := drain (onConnectedCallbacks f) f in
  (* Call Face.onopen after success *)
  emit CallOnOpen f.

(** [closeByTransport], the [onclosedCallback] passed to
    [transport.connect]. *)
Definition closeByTransport (f : t) : t :=
  emit CallOnClose (set_readyStatus CLOSED f).

(** [reconnectAndExpressInterest]. The call
    [this.connectionInfo.equals(...)] needs a connection info: on [null] it
    is a TypeError. [transport.connect] stores the connection info in the
    transport. *)
Definition reconnectAndExpressInterest (pendingInterestId : option Z)
    (interest : Interest) (onData : OnData) (onTimeout : OnTimeout)
  : M unit :=
  λ f,
    match connectionInfo f with
    | None => Thrown TypeError f
    | Some info =>
        if negb (bool_decide (transport_connectionInfo f = Some info))
           || bool_decide (readyStatus f = UNOPEN)
        then
          let f := set_readyStatus OPEN_REQUESTED f in
          let f :=
            set_onConnectedCallbacks
              (onConnectedCallbacks f
                 ++ [mkDeferred pendingInterestId interest onData onTimeout])
              f in
          let f := set_transport_connectionInfo (Some info) f in
          Returned tt (emit (TransportConnect info) f)
        else
          match readyStatus f with
          | OPEN_REQUESTED =>
              (* The connection is still opening, so add to the interests
                 to express. *)
              Returned tt
                (set_onConnectedCallbacks
                   (onConnectedCallbacks f
                      ++ [mkDeferred pendingInterestId interest onData
                            onTimeout])
                   f)
          | OPENED =>
              expressInterestHelper pendingInterestId interest onData
                onTimeout f
          | _ => Thrown ConnectionNotOpened f
          end
    end.

(** [expressInterest(interest, onData [, onTimeout])]: "Just use a copy of
    the interest." *)
Definition expressInterest (interest : Interest) (onData : AppFunction)
    (onTimeout : option AppFunction) : M Z :=
  let onTimeout :=
    match onTimeout with
    | Some g => AppOnTimeout g
    | None => EmptyOnTimeout
    end in
  let* pendingInterestId := getNextEntryId in
  let* connectionInfo := read connectionInfo in
  let* _ :=
    match connectionInfo with
    | None =>
        (* getConnectionInfo is null: console.log('ERROR: connectionInfo is
           NOT SET') *)
        exec (emit ConsoleLogError)
    | Some _ =>
        reconnectAndExpressInterest (Some pendingInterestId) interest
          (AppOnData onData) onTimeout
    end in
  ret pendingInterestId.

(** [expressInterest(name, onData [, onTimeout])]: the Interest is made
    from the name, with the default interest timeout. *)
Definition expressInterest_name (name : Name) (onData : AppFunction)
    (onTimeout : option AppFunction) : M Z :=
  expressInterest
    (setInterestLifetimeMilliseconds (Interest_of_name name) 4000)
    onData onTimeout.

(** The loop of [removePendingInterest], backwards through the list. *)
Fixpoint removePendingInterest_loop (pendingInterestId : Z)
    (backwards later : list PendingInterest) (count : Z) (f : t)
  : list PendingInterest * Z * t :=
  match backwards with
  | [] => (later, count, f)
  | entry :: rest =>
      if bool_decide (Face.pendingInterestId entry = Some pendingInterestId)
      then
        (* Cancel the timeout timer. *)
        removePendingInterest_loop pendingInterestId rest later (count + 1)
          (clearTimeout (timerID entry) f)
      else
        removePendingInterest_loop pendingInterestId rest (entry :: later)
          count f
  end.

Definition removePendingInterest (pendingInterestId : option Z) (f : t) : t :=
  match pendingInterestId with
  | None => f
  | Some id =>
      let '(table, count, f) :=
        removePendingInterest_loop id (reverse (pendingInterestTable f)) [] 0
          f in
      let f := set_pendingInterestTable table f in
      if count =? 0 then
        (* The pendingInterestId was not found. Perhaps this has been called
           before the callback in expressInterest can add to the PIT. Add
           this removal request which will be checked before adding to the
           PIT. *)
        match indexOf id (pitRemoveRequests f) with
        | None =>
            (* Not already requested, so add the request. *)
            set_pitRemoveRequests (pitRemoveRequests f ++ [id]) f
        | Some _ => f
        end
      else f
  end.

(** [close] *)
Definition close (f : t) : t :=
  match readyStatus f with
  | OPENED => emit TransportClose (set_readyStatus CLOSED f)
  | _ => f
  end.

(** [setCommandSigningInfo] *)
Definition setCommandSigningInfo (certificateName : Name) (f : t) : t :=
  set_commandSigningInfo true certificateName f.

(** *** Interest filters and registered prefixes *)

(** [setInterestFilter(filter, onInterest)] *)
Definition setInterestFilter (filter : InterestFilter)
    (onInterest : AppFunction) : M Z :=
  let* interestFilterId := getNextEntryId in
  let* _ :=
    exec (λ f, set_interestFilterTable
                 (interestFilterTable f
                    ++ [mkInterestFilterEntry interestFilterId filter
                          onInterest]) f) in
  ret interestFilterId.

(** [unsetInterestFilter]: the loop removes every entry with the id and
    keeps the others in their order. *)
Fixpoint unsetInterestFilter_loop (id : Z)
    (backwards later : list InterestFilterEntry) : list InterestFilterEntry :=
  match backwards with
  | [] => later
  | entry :: rest =>
      if bool_decide (interestFilterId entry = id)
      then unsetInterestFilter_loop id rest later
      else unsetInterestFilter_loop id rest (entry :: later)
  end.

Definition unsetInterestFilter (interestFilterId : Z) (f : t) : t :=
  set_interestFilterTable
    (unsetInterestFilter_loop interestFilterId
       (reverse (interestFilterTable f)) []) f.

(** The loop of [removeRegisteredPrefix]. *)
Fixpoint removeRegisteredPrefix_loop (id : Z)
    (backwards later : list RegisteredPrefix) (count : Z) (f : t)
  : list RegisteredPrefix * Z * t :=
  match backwards with
  | [] => (later, count, f)
  | entry :: rest =>
      if bool_decide (registeredPrefixId entry = id) then
        let f :=
          if 0 <? relatedInterestFilterId entry
          then
            (* Remove the related interest filter. *)
            unsetInterestFilter (relatedInterestFilterId entry) f
          else f in
        removeRegisteredPrefix_loop id rest later (count + 1) f
      else
        removeRegisteredPrefix_loop id rest (entry :: later) count f
  end.

Definition removeRegisteredPrefix (registeredPrefixId : Z) (f : t) : t :=
  let '(table, count, f) :=
    removeRegisteredPrefix_loop registeredPrefixId
      (reverse (registeredPrefixTable f)) [] 0 f in
  let f := set_registeredPrefixTable table f in
  if count =? 0 then
    match indexOf registeredPrefixId (registeredPrefixRemoveRequests f) with
    | None =>
        (* Not already requested, so add the request. *)
        set_registeredPrefixRemoveRequests
          (registeredPrefixRemoveRequests f ++ [registeredPrefixId]) f
    | Some _ => f
    end
  else f.

(** [Face.RegisterResponse.prototype.onData] *)
Definition RegisterResponse_onData_body (response : RegisterResponse)
    (responseData : Data) (f : t) : t :=
  (* Decode responseData.getContent() and check for a success code. *)
  match decodeStatusCode (data_content responseData) with
  | None =>
      (* Error decoding the ControlResponse. *)
      emit (CallOnRegisterFailed (response_onRegisterFailed response)
              (response_prefix response)) f
  | Some statusCode =>
      (* Status code 200 is "OK". *)
      if negb (statusCode =? 200) then
        emit (CallOnRegisterFailed (response_onRegisterFailed response)
                (response_prefix response)) f
      else f
  end.

(** The callback [onIsLocalResult] of [nfdRegisterPrefix], with the
    completion callback that it hands to [nodeMakeCommandInterest]. *)
Definition onIsLocalResult (registeredPrefixId : Z) (prefix : Name)
    (onInterest : option AppFunction) (flags : ForwardingFlags)
    (onRegisterFailed : OnRegisterFailed) (isLocal : bool) : M unit :=
  let commandInterest := Interest_of_name [] in
  let commandInterest :=
    if isLocal then
      (* The interest is answered by the local host, so set a short
         timeout. *)
      setInterestLifetimeMilliseconds
        (setName commandInterest
           [[108; 111; 99; 97; 108; 104; 111; 115; 116]; [110; 102; 100];
            [114; 105; 98]; [114; 101; 103; 105; 115; 116; 101; 114]])
        2000
    else
      (* The host is remote, so set a longer timeout. *)
      setInterestLifetimeMilliseconds
        (setName commandInterest
           [[108; 111; 99; 97; 108; 104; 111; 112]; [110; 102; 100];
            [114; 105; 98]; [114; 101; 103; 105; 115; 116; 101; 114]])
        4000 in
  (* NFD only accepts TlvWireFormat packets. *)
  let commandInterest :=
    setName commandInterest
      (interest_name commandInterest
         ++ [encodeControlParameters prefix flags]) in
  let commandInterest := generate commandInterest in
  let* _ :=
    if negb (registeredPrefixId =? 0) then
      let* interestFilterId :=
        match onInterest with
        | Some onInterest =>
            (* registerPrefix was called with the "combined" form that
               includes the callback, so add an InterestFilterEntry. *)
            setInterestFilter (mkInterestFilter prefix None) onInterest
        | None => ret 0
        end in
      exec (λ f, set_registeredPrefixTable
                   (registeredPrefixTable f
                      ++ [mkRegisteredPrefix registeredPrefixId prefix
                            interestFilterId]) f)
    else ret tt in
  (* Send the registration interest. *)
  let response :=
    mkRegisterResponse prefix onInterest onRegisterFailed flags in
  reconnectAndExpressInterest None commandInterest
    (RegisterResponse_onData response) (RegisterResponse_onTimeout response).

(** [isLocal(onResult, onError)], for a transport whose [isLocal] calls
    back before it returns. (A transport may answer later, after network
    I/O; what [onResult] does then happens at that later time. The same
    holds for the signing of the command Interest: [onIsLocalResult] runs
    the completion callback of [nodeMakeCommandInterest] at once.) *)
Definition isLocal (onResult : bool → M unit) (onError : M unit) : M unit :=
  let* connectionInfo := read connectionInfo in
  match connectionInfo with
  | None => onResult false
  | Some info =>
      match transport_isLocal info with
      | IsLocal b => onResult b
      | IsLocalError => onError
      end
  end.

(** [nfdRegisterPrefix]: "Do the work of registerPrefix to register with
    NFD." *)
Definition nfdRegisterPrefix (registeredPrefixId : Z) (prefix : Name)
    (onInterest : option AppFunction) (flags : ForwardingFlags)
    (onRegisterFailed : OnRegisterFailed) (commandKeyChain : bool)
    (commandCertificateName : Name) : M unit :=
  let* removeRequestIndex :=
    read (λ f, indexOf registeredPrefixId (registeredPrefixRemoveRequests f)) in
  match removeRequestIndex with
  | Some removeRequestIndex =>
      (* removeRegisteredPrefix was called with the registeredPrefixId
         returned by registerPrefix before we got here, so don't add a
         registeredPrefixTable entry. *)
      exec (λ f, set_registeredPrefixRemoveRequests
                   (delete removeRequestIndex
                      (registeredPrefixRemoveRequests f)) f)
  | None =>
      if negb commandKeyChain then throw CommandKeyChainNotSet
      else if Name_size commandCertificateName =? 0
      then throw CommandCertificateNameNotSet
      else
        isLocal
          (onIsLocalResult registeredPrefixId prefix onInterest flags
             onRegisterFailed)
          (exec (emit (CallOnRegisterFailed onRegisterFailed prefix)))
  end.

(** [registerPrefix(prefix, onInterest, onRegisterFailed, flags)] *)
Definition registerPrefix (prefix : Name) (onInterest : option AppFunction)
    (onRegisterFailed : option AppFunction) (flags : ForwardingFlags) : M Z :=
  let onRegisterFailed :=
    match onRegisterFailed with
    | Some g => AppOnRegisterFailed g
    | None => EmptyOnRegisterFailed
    end in
  let* registeredPrefixId := getNextEntryId in
  let* connectionInfo := read connectionInfo in
  let* _ :=
    match connectionInfo with
    | None => exec (emit ConsoleLogError)
    | Some _ =>
        let* commandKeyChain := read commandKeyChain in
        let* commandCertificateName := read commandCertificateName in
        nfdRegisterPrefix registeredPrefixId prefix onInterest flags
          onRegisterFailed commandKeyChain commandCertificateName
    end in
  ret registeredPrefixId.

(** *** Incoming elements *)

(** A complete element, decoded "as Interest or Data". *)
Inductive Element :=
| ElementInterest (i : Interest)
| ElementData (d : Data)
| ElementOther.

(** [pendingInterest.onData(pendingInterest.interest, data)] *)
Definition callOnData (data : Data) (f : t) (pendingInterest : PendingInterest)
  : t :=
  let f := emit (CallOnData pendingInterest data) f in
  match onData pendingInterest with
  | AppOnData _ => f
  | RegisterResponse_onData response =>
      RegisterResponse_onData_body response data f
  end.

(** [onReceivedElement]. A callback of the application is recorded as an
    effect; what the callback does when it calls back into the Face is a
    later event. (In the source the loop over the interest filter table
    reads the live table at every round, so an [onInterest] that changes
    the table changes what the later rounds see; the entries for a Data
    packet are taken out of the table before any [onData] is called.) *)
Definition onReceivedElement (element : Element) (f : t) : t :=
  match element with
  | ElementInterest interest =>
      (* Call all interest filter callbacks which match. *)
      fold_left
        (λ f entry,
           if doesMatch (entry_filter entry) (interest_name interest)
           then emit (CallOnInterest entry interest) f
           else f)
        (interestFilterTable f) f
  | ElementData data =>
      match extractEntriesForExpressedInterest (data_name data) f with
      | Returned pendingInterests f =>
          (* Process each matching PIT entry (if any). *)
          fold_left (callOnData data) pendingInterests f
      | Thrown _ f => f
      end
  | ElementOther => f
  end.

(** *** The Face and its surroundings, step by step *)

(** What happens to a Face: the application calls a method, the transport
    reports that the connection is open or closed or delivers an element,
    or a pending timer fires. ([putData] and [send], which hand a packet to
    the transport without looking at the state of the Face, are not among
    the events.) *)
Inductive Event :=
| ExpressInterest (i : Interest) (onData : AppFunction)
    (onTimeout : option AppFunction)
| ExpressInterestName (name : Name) (onData : AppFunction)
    (onTimeout : option AppFunction)
| RemovePendingInterest (pendingInterestId : option Z)
| RegisterPrefix (prefix : Name) (onInterest : option AppFunction)
    (onRegisterFailed : option AppFunction) (flags : ForwardingFlags)
| RemoveRegisteredPrefix (registeredPrefixId : Z)
| SetInterestFilter (filter : InterestFilter) (onInterest : AppFunction)
| UnsetInterestFilter (interestFilterId : Z)
| SetCommandSigningInfo (certificateName : Name)
| Close
| TransportOpened
| TransportClosed
| Received (element : Element)
| TimerFired (timerID : Z).

(** A timer fires once: it leaves the pending timers and its callback
    runs. A handle that is not pending does nothing. *)
Definition fire (id : Z) (f : t) : t :=
  match list_find (λ tm, timer_id tm = id) (timers f) with
  | Some (_, tm) => timeoutCallback (timer_entry tm) (clearTimeout id f)
  | None => f
  end.

(** The transport calls [onopenCallback] only after [transport.connect]. *)
Definition step (f : t) (e : Event) : t :=
  match e with
  | ExpressInterest i onData onTimeout =>
      after (expressInterest i onData onTimeout f)
  | ExpressInterestName name onData onTimeout =>
      after (expressInterest_name name onData onTimeout f)
  | RemovePendingInterest id => removePendingInterest id f
  | RegisterPrefix prefix onInterest onRegisterFailed flags =>
      after (registerPrefix prefix onInterest onRegisterFailed flags f)
  | RemoveRegisteredPrefix id => removeRegisteredPrefix id f
  | SetInterestFilter filter onInterest =>
      after (setInterestFilter filter onInterest f)
  | UnsetInterestFilter id => unsetInterestFilter id f
  | SetCommandSigningInfo certificateName =>
      setCommandSigningInfo certificateName f
  | Close => close f
  | TransportOpened =>
      match transport_connectionInfo f with
      | Some _ => onopenCallback f
      | None => f
      end
  | TransportClosed =>
      match transport_connectionInfo f with
      | Some _ => closeByTransport f
      | None => f
      end
  | Received element => onReceivedElement element f
  | TimerFired id => fire id f
  end.

Definition run (f : t) (events : list Event) : t := fold_left step events f.

End Methods.

End Face.

(** ** More of the sources

    *** The number helpers of the pipelined fetcher's page *)

Module Throughput.

(** [ArrayToNum(bytes)]: "Convert the big endian Uint8Array to an unsigned
    int. Don't check for overflow." The bytes are read as decimal digit
    characters. The source computes in JavaScript numbers (doubles); the
    numbers are integers here, which is what the source computes as long as
    every intermediate result is a safe integer (below 2^53 in absolute
    value). Beyond that a double rounds, and this definition no longer
    describes the source: the theorems about it carry the bound. *)
Definition ArrayToNum (bytes : list Z) : Z :=
  fold_left (λ result b, result * 10 + (b - 48)) bytes 0.

(** [value.toString()] for a positive safe integer [value] (below 2^53):
    its decimal digits, the most significant first. (For larger numbers
    JavaScript prints the digits of the rounded double, and from 10^21 on an
    exponent; this definition does not describe them.) Every round takes
    the last digit off; the number of binary digits bounds the number of
    rounds. *)
Fixpoint toString_loop (fuel : nat) (value : Z) (digits : list Z) : list Z :=
  match fuel with
  | O => digits
  | S fuel' =>
      if value <? 10 then value :: digits
      else toString_loop fuel' (value / 10) (value mod 10 :: digits)
  end.

Definition toString (value : Z) : list Z :=
  toString_loop (S (Z.to_nat (Z.log2 value))) value [].

(** [NumToArray(value)] for a safe integer [value] ([Math.round] leaves it
    as it is): "If value is 0 or negative, return Uint8Array(0)"; otherwise
    the character codes of [value.toString()]. *)
Definition NumToArray (value : Z) : list Z :=
  if value <=? 0 then []
  else map (λ digit, 48 + digit) (toString value).

End Throughput.

(** * Predicates and scenarios used in the statements *)

(** The three ways a call of [onData] can end, seen from [contentParts]. *)
Inductive onData_spec (this : SegmentFetcher.t) (oi : Interest) (d : Data)
  : SegmentFetcher.t → SegmentFetcher.Action → Prop :=
| onData_reject code :
    onData_spec this oi d this (SegmentFetcher.CallOnError code)
| onData_mismatch s :
    SegmentFetcher.segmentOf d = Some s →
    s ≠ Z.of_nat (length (SegmentFetcher.contentParts this)) →
    onData_spec this oi d this
      (SegmentFetcher.fetchNextSegment oi (data_name d)
         (Z.of_nat (length (SegmentFetcher.contentParts this))))
| onData_append a :
    SegmentFetcher.segmentOf d =
      Some (Z.of_nat (length (SegmentFetcher.contentParts this))) →
    let parts' := SegmentFetcher.contentParts this ++ [data_content d] in
    match a with
    | SegmentFetcher.ExpressInterest _ =>
        a = SegmentFetcher.fetchNextSegment oi (data_name d)
              (Z.of_nat (length (SegmentFetcher.contentParts this)) + 1)
    | SegmentFetcher.CallOnComplete content =>
        toSegment (data_finalBlockId d) =
          Some (Z.of_nat (length (SegmentFetcher.contentParts this))) ∧
        SegmentFetcher.Buffer_concat parts' = Some content
    | _ => True
    end →
    onData_spec this oi d (SegmentFetcher.mk parts') a.

(** The segment-fetch scenario: three segments of [/x/<version>], the third
    carrying the FinalBlockId. *)
Definition scenario_name (segment : Z) : Name :=
  [[120]; [253; 1]; segmentComponent segment].

Definition scenario_responses : list SegmentFetcher.Response :=
  [ SegmentFetcher.GotData (mkData (scenario_name 0) (Some [1]) (segmentComponent 2));
    SegmentFetcher.GotData (mkData (scenario_name 1) (Some [2]) []);
    SegmentFetcher.GotData (mkData (scenario_name 2) (Some [3]) (segmentComponent 2)) ].

(** The slots that [n] rounds of the sliding loop visit from [una] on. *)
Definition visited_slots (una size : Z) (n : nat) : list Z :=
  map (λ j : nat, Z.rem (una + Z.of_nat j) size) (seq 0 n).

(** Everything but [snd_una], [totalBlocks] and [ooo_table] is left alone by
    the sliding loop. *)
Definition same_window (a b : ContentContext.t) : Prop :=
  ContentContext.ooo_count b = ContentContext.ooo_count a ∧
  ContentContext.snd_nxt b = ContentContext.snd_nxt a ∧
  ContentContext.snd_wnd b = ContentContext.snd_wnd a ∧
  ContentContext.max_window b = ContentContext.max_window a ∧
  ContentContext.ooo_table_size b = ContentContext.ooo_table_size a ∧
  ContentContext.terminated b = ContentContext.terminated a.

(** The context after the four out-of-order arrivals 1, 2, 3, 4 of the
    reorder scenario ([snd_una = 0], [snd_nxt = 5], [snd_wnd = 5]). *)
Definition reorder_data (segment : Z) : Data :=
  mkData [[120]; segmentComponent segment] (Some [170]) [].

Definition reorder_marked : ContentContext.t :=
  fold_left
    (λ c segment,
       ContentContext.context
         (ContentContext.onData c (Interest_of_name [[120]])
            (reorder_data segment)))
    [1; 2; 3; 4]
    (ContentContext.set_snd_nxt 5
       (ContentContext.set_snd_wnd 5 ContentContext.create)).

(** The claim that an in-order arrival resets [ooo_count] to 0 fails: from
    the start of a fetch, segment 0 arrives, then segment 2 (out of order,
    marked), then segment 1. The last arrival is in order and slides
    [snd_una] from 1 to 3, and [ooo_count] is still 1. The same happens in
    the reorder scenario, where [ooo_count] stays 4. *)
Definition reordered_fetch : ContentContext.System :=
  ContentContext.run (ContentContext.start [[120]])
    [ContentContext.Deliver 0 (Some [170]) [];
     ContentContext.Deliver 1 (Some [170]) []].

(** What the sliding loop needs and keeps: the marks lie between [snd_una]
    and [snd_nxt], each in the slot of its segment number, and this range is
    shorter than the table. *)
Definition marks_from (lo : Z) (c : ContentContext.t) : Prop :=
  ∀ slot seg,
    ContentContext.ooo_table c !! slot = Some seg →
    lo ≤ seg < ContentContext.snd_nxt c ∧ slot = Z.rem seg 128.

Definition sliding (c : ContentContext.t) : Prop :=
  ContentContext.ooo_table_size c = 128 ∧
  0 ≤ ContentContext.snd_una c ≤ ContentContext.snd_nxt c ∧
  ContentContext.snd_nxt c - ContentContext.snd_una c < 128 ∧
  marks_from (ContentContext.snd_una c) c.

(** The invariant of the context. *)
Definition ctx_inv (c : ContentContext.t) : Prop :=
  ContentContext.max_window c = 32 ∧
  ContentContext.ooo_table_size c = 128 ∧
  0 ≤ ContentContext.snd_una c ≤ ContentContext.snd_nxt c ∧
  1 ≤ ContentContext.snd_wnd c ≤ ContentContext.max_window c ∧
  ContentContext.snd_nxt c - ContentContext.snd_una c
    ≤ ContentContext.max_window c ∧
  marks_from (ContentContext.snd_una c + 1) c.

(** The range of outstanding segments fits the current window. *)
Definition tight (c : ContentContext.t) : Prop :=
  ContentContext.snd_nxt c - ContentContext.snd_una c
    ≤ ContentContext.snd_wnd c.

(** A name whose last component is a segment number below [bound]. *)
Definition segment_below (bound : Z) (name : Name) : Prop :=
  ∃ seg, get_last name ≫= toSegment = Some seg ∧ 0 ≤ seg < bound.

(** The invariant of the fetcher together with its Interests in flight:
    every Interest in flight asks for a segment below [snd_nxt]. *)
Definition sys_inv (s : ContentContext.System) : Prop :=
  ctx_inv (ContentContext.ctx s) ∧
  Forall (segment_below (ContentContext.snd_nxt (ContentContext.ctx s)))
    (ContentContext.inflight s).

(** Collaborators for the worked examples: the encoding of an Interest is
    the concatenation of its name components, an Interest matches the names
    it is a prefix of, as does a filter, and the status code is the
    big-endian value of the content. *)
Definition example_collaborators : Face.Collaborators :=
  {| Face.wireEncode := λ i, concat (interest_name i);
     Face.matchesName := λ i n, Name_match (interest_name i) n;
     Face.doesMatch := λ flt n, Name_match (Face.filter_prefix flt) n;
     Face.decodeStatusCode :=
       λ content, match content with
                  | Some (b :: bytes) => Some (bigEndianToUnsignedInt (b :: bytes))
                  | _ => None
                  end;
     Face.encodeControlParameters := λ p _, concat p;
     Face.generate := λ i, i;
     Face.transport_isLocal := λ _, Face.IsLocal true |}.

(** [clearTimeout] for each of the handles [ids]. *)
Definition clearTimeouts (ids : list Z) (f : Face.t) : Face.t :=
  Face.set_timers (filter (λ tm, Face.timer_id tm ∉ ids) (Face.timers f)) f.

(** The entries of the table with the given [pendingInterestId]. *)
Definition entries_with_id (id : Z) (table : list Face.PendingInterest)
  : list Face.PendingInterest :=
  filter (λ e, Face.pendingInterestId e = Some id) table.

Definition entries_without_id (id : Z) (table : list Face.PendingInterest)
  : list Face.PendingInterest :=
  filter (λ e, Face.pendingInterestId e ≠ Some id) table.

(** A Face with one pending Interest, of id 1, as [expressInterest] on an
    open Face leaves it. *)
Definition one_pending : Face.t :=
  Face.run (H := example_collaborators) (Face.create (Some 7))
    [Face.ExpressInterestName [[97]] 1%nat (Some 2%nat);
     Face.TransportOpened].

(** The encoding of the Interest fits a packet. *)
Definition fits `{Face.Collaborators} (i : Interest) : Prop :=
  Z.of_nat (length (Face.wireEncode i)) ≤ Face.getMaxNdnPacketSize.

(** The last step of [expressInterestHelper]: the encoding goes to the
    transport unless the name is under [/local/timeout]. *)
Definition send_unless_timeout `{Face.Collaborators} (i : Interest)
    (f : Face.t) : Face.t :=
  if negb (Name_match Face.timeoutPrefix (interest_name i))
  then Face.emit (Face.TransportSend (Face.wireEncode i)) f
  else f.

(** [interest.getInterestLifetimeMilliseconds() || 4000] *)
Definition timeoutMilliseconds (i : Interest) : Z :=
  match interestLifetimeMilliseconds i with
  | None | Some 0 => 4000
  | Some ms => ms
  end.

(** The PIT entry that [expressInterestHelper] builds on the Face [f]. *)
Definition new_entry (f : Face.t) (id : option Z) (i : Interest)
    (od : Face.OnData) (ot : Face.OnTimeout) : Face.PendingInterest :=
  Face.mkPendingInterest id i od ot (Face.nextTimerID f).

(** The removal request that [expressInterestHelper] finds for the id. *)
Definition removal_request (f : Face.t) (id : option Z) : option nat :=
  id ≫= (λ x, Face.indexOf x (Face.pitRemoveRequests f)).

(** *** Callback invocations in the trace *)

(** The effect is a call of the [onData] or of the [onTimeout] of the PIT
    entry with timer handle [t], the identity of the entry. *)
Definition is_invocation (t : Z) (eff : Face.Effect) : bool :=
  match eff with
  | Face.CallOnData e _ => bool_decide (Face.timerID e = t)
  | Face.CallOnTimeout e => bool_decide (Face.timerID e = t)
  | _ => false
  end.

Definition is_onData_of (t : Z) (eff : Face.Effect) : bool :=
  match eff with
  | Face.CallOnData e _ => bool_decide (Face.timerID e = t)
  | _ => false
  end.

Definition is_onTimeout_of (t : Z) (eff : Face.Effect) : bool :=
  match eff with
  | Face.CallOnTimeout e => bool_decide (Face.timerID e = t)
  | _ => false
  end.

(** The effect is a call of the [onData] or of the [onTimeout] of a PIT
    entry with the given [pendingInterestId]. *)
Definition is_invocation_for_id (id : Z) (eff : Face.Effect) : bool :=
  match eff with
  | Face.CallOnData e _ => bool_decide (Face.pendingInterestId e = Some id)
  | Face.CallOnTimeout e => bool_decide (Face.pendingInterestId e = Some id)
  | _ => false
  end.

(** How many effects of the trace satisfy the test. *)
Definition count (test : Face.Effect → bool) (trace : list Face.Effect) : nat :=
  length (List.filter test trace).

(** Effects that are neither a callback of a PIT entry nor a send. *)
Definition quiet (eff : Face.Effect) : bool :=
  match eff with
  | Face.CallOnData _ _ | Face.CallOnTimeout _ | Face.TransportSend _ => false
  | _ => true
  end.

(** What [pendingInterest.onData(interest, data)] adds to the trace. *)
Definition onData_effects `{Face.Collaborators} (data : Data)
    (e : Face.PendingInterest) : list Face.Effect :=
  Face.CallOnData e data ::
  match Face.onData e with
  | Face.AppOnData _ => []
  | Face.RegisterResponse_onData response =>
      match Face.decodeStatusCode (data_content data) with
      | Some statusCode =>
          if statusCode =? 200 then []
          else [Face.CallOnRegisterFailed
                  (Face.response_onRegisterFailed response)
                  (Face.response_prefix response)]
      | None => [Face.CallOnRegisterFailed
                   (Face.response_onRegisterFailed response)
                   (Face.response_prefix response)]
      end
  end.

(** What [timeoutCallback] adds to the trace. *)
Definition onTimeout_effects (e : Face.PendingInterest) : list Face.Effect :=
  Face.CallOnTimeout e ::
  match Face.onTimeout e with
  | Face.RegisterResponse_onTimeout response =>
      [Face.CallOnRegisterFailed (Face.response_onRegisterFailed response)
         (Face.response_prefix response)]
  | _ => []
  end.

(** The PIT entries that the Data name matches. *)
Definition matching `{Face.Collaborators} (name : Name)
    (table : list Face.PendingInterest) : list Face.PendingInterest :=
  filter (λ e, Face.matchesName (Face.interest e) name = true) table.

Definition not_matching `{Face.Collaborators} (name : Name)
    (table : list Face.PendingInterest) : list Face.PendingInterest :=
  filter (λ e, Face.matchesName (Face.interest e) name ≠ true) table.

(** *** Small steps

    Every event is a sequence of small steps of a few kinds. A frame step
    leaves the pending interest table, the timers, the queue of deferred
    sends and the removal requests alone, adds quiet effects only and does
    not open the Face. *)
Definition frame (f f' : Face.t) : Prop :=
  Face.pendingInterestTable f' = Face.pendingInterestTable f ∧
  Face.timers f' = Face.timers f ∧
  Face.nextTimerID f' = Face.nextTimerID f ∧
  Face.onConnectedCallbacks f' = Face.onConnectedCallbacks f ∧
  Face.pitRemoveRequests f' = Face.pitRemoveRequests f ∧
  Face.lastEntryId f ≤ Face.lastEntryId f' ∧
  (Face.readyStatus f' = Face.OPENED → Face.readyStatus f = Face.OPENED) ∧
  ∃ effects, Face.trace f' = Face.trace f ++ effects ∧
             forallb quiet effects = true.

(** The id of a send: the id that [getNextEntryId] returns now, for a send
    of [expressInterest], or [null], for the send of a command Interest. *)
Definition new_id (f : Face.t) (allocate : bool) : option Z :=
  if allocate then Some (Face.lastEntryId f + 1) else None.

Definition alloc (allocate : bool) (f : Face.t) : Face.t :=
  if allocate then Face.set_lastEntryId (Face.lastEntryId f + 1) f else f.

(** The small steps. [sending] tells whether deferred and direct sends may
    be processed: only when the Face is OPENED or is being opened. *)
Inductive micro `{Face.Collaborators} (sending : bool) (f : Face.t)
  : Face.t → Prop :=
| micro_frame f' :
    frame f f' → micro sending f f'
| micro_opened :
    sending = true → micro sending f (Face.set_readyStatus Face.OPENED f)
| micro_enqueue allocate i od ot :
    micro sending f
      (Face.set_onConnectedCallbacks
         (Face.onConnectedCallbacks f
            ++ [Face.mkDeferred (new_id f allocate) i od ot])
         (alloc allocate f))
| micro_dequeue d rest :
    sending = true →
    Face.onConnectedCallbacks f = d :: rest →
    micro sending f
      (Face.after
         (Face.expressInterestHelper (Face.deferred_id d)
            (Face.deferred_interest d) (Face.deferred_onData d)
            (Face.deferred_onTimeout d)
            (Face.set_onConnectedCallbacks rest f)))
| micro_express allocate i od ot :
    sending = true →
    micro sending f
      (Face.after
         (Face.expressInterestHelper (new_id f allocate) i od ot
            (alloc allocate f)))
| micro_remove id :
    micro sending f (Face.removePendingInterest id f)
| micro_data data :
    micro sending f (Face.onReceivedElement (Face.ElementData data) f)
| micro_fire t :
    micro sending f (Face.fire t f).

(** Every id in the queue, the PIT and the timers has been handed out by
    [getNextEntryId]. *)
Definition id_le (bound : Z) (id : option Z) : Prop :=
  ∀ x, id = Some x → x ≤ bound.

Definition effect_id_le (bound : Z) (eff : Face.Effect) : Prop :=
  match eff with
  | Face.CallOnData e _ => id_le bound (Face.pendingInterestId e)
  | Face.CallOnTimeout e => id_le bound (Face.pendingInterestId e)
  | _ => True
  end.

Definition ids_bounded (f : Face.t) : Prop :=
  Forall (λ e, id_le (Face.lastEntryId f) (Face.pendingInterestId e))
    (Face.pendingInterestTable f) ∧
  Forall (λ d, id_le (Face.lastEntryId f) (Face.deferred_id d))
    (Face.onConnectedCallbacks f) ∧
  Forall (λ tm, id_le (Face.lastEntryId f)
                  (Face.pendingInterestId (Face.timer_entry tm)))
    (Face.timers f) ∧
  Forall (effect_id_le (Face.lastEntryId f)) (Face.trace f).

(** Sends may be processed during the event: the transport reports the
    open connection, or the Face is OPENED already. *)
Definition may_send (f : Face.t) (e : Face.Event) : bool :=
  match e with
  | Face.TransportOpened => true
  | _ => bool_decide (Face.readyStatus f = Face.OPENED)
  end.

(** The three ways [expressInterestHelper] can end. *)
Inductive helper_result `{Face.Collaborators} (f : Face.t) (id : option Z)
    (i : Interest) (od : Face.OnData) (ot : Face.OnTimeout)
  : Face.t → Prop :=
| helper_result_too_large :
    ¬ fits i → helper_result f id i od ot f
| helper_result_suppressed x index :
    fits i → id = Some x →
    Face.indexOf x (Face.pitRemoveRequests f) = Some index →
    helper_result f id i od ot
      (send_unless_timeout i
         (Face.set_pitRemoveRequests
            (delete index (Face.pitRemoveRequests f)) f))
| helper_result_inserted :
    fits i → removal_request f id = None →
    helper_result f id i od ot
      (send_unless_timeout i
         (Face.setTimeout (new_entry f id i od ot) (timeoutMilliseconds i)
            (Face.set_pendingInterestTable
               (Face.pendingInterestTable f ++ [new_entry f id i od ot]) f))).

(** The entry of the pending timer with handle [t], if any. *)
Definition pending_timer (t : Z) (f : Face.t) : option Face.Timer :=
  snd <$> list_find (λ tm, Face.timer_id tm = t) (Face.timers f).

(** The table without its first entry of timer handle [t]. *)
Definition without_first (t : Z) (table : list Face.PendingInterest)
  : list Face.PendingInterest :=
  match list_find (λ e, Face.timerID e = t) table with
  | Some (index, _) => delete index table
  | None => table
  end.

(** Where a callback in the trace comes from: [onData] is called for
    entries taken from the table, [onTimeout] for the entry of a pending
    timer. *)
Definition effect_origin (f : Face.t) (eff : Face.Effect) : Prop :=
  match eff with
  | Face.CallOnData e _ => e ∈ Face.pendingInterestTable f
  | Face.CallOnTimeout e =>
      ∃ tm, tm ∈ Face.timers f ∧ Face.timer_entry tm = e
  | Face.TransportSend _ => False
  | _ => True
  end.

(** A step that only takes entries out of the table and timers out of the
    pending timers, and calls callbacks of what it takes out. *)
Definition shrinks (f f' : Face.t) : Prop :=
  Face.pendingInterestTable f' `sublist_of` Face.pendingInterestTable f ∧
  Face.timers f' `sublist_of` Face.timers f ∧
  Face.nextTimerID f' = Face.nextTimerID f ∧
  Face.onConnectedCallbacks f' = Face.onConnectedCallbacks f ∧
  Face.lastEntryId f ≤ Face.lastEntryId f' ∧
  (Face.pitRemoveRequests f' = Face.pitRemoveRequests f
   ∨ ∃ id, Face.pitRemoveRequests f' = Face.pitRemoveRequests f ++ [id]) ∧
  ∃ effects, Face.trace f' = Face.trace f ++ effects ∧
             Forall (effect_origin f) effects.

(** What [expressInterestHelper] hands to the transport for the Interest. *)
Definition sends `{Face.Collaborators} (i : Interest) : list Face.Effect :=
  if Name_match Face.timeoutPrefix (interest_name i) then []
  else [Face.TransportSend (Face.wireEncode i)].

(** The fields after [expressInterestHelper], case by case. *)
Definition helper_rejected `{Face.Collaborators} (f f' : Face.t)
    (i : Interest) : Prop :=
  ¬ fits i ∧ f' = f.

Definition helper_skipped `{Face.Collaborators} (f f' : Face.t)
    (id : option Z) (i : Interest) : Prop :=
  fits i ∧
  (∃ x index, id = Some x ∧
     Face.indexOf x (Face.pitRemoveRequests f) = Some index ∧
     Face.pitRemoveRequests f' = delete index (Face.pitRemoveRequests f)) ∧
  Face.pendingInterestTable f' = Face.pendingInterestTable f ∧
  Face.timers f' = Face.timers f ∧
  Face.nextTimerID f' = Face.nextTimerID f ∧
  Face.onConnectedCallbacks f' = Face.onConnectedCallbacks f ∧
  Face.lastEntryId f' = Face.lastEntryId f ∧
  Face.readyStatus f' = Face.readyStatus f ∧
  Face.trace f' = Face.trace f ++ sends i.

Definition helper_added `{Face.Collaborators} (f f' : Face.t)
    (id : option Z) (i : Interest) (od : Face.OnData) (ot : Face.OnTimeout)
  : Prop :=
  fits i ∧
  removal_request f id = None ∧
  Face.pitRemoveRequests f' = Face.pitRemoveRequests f ∧
  Face.pendingInterestTable f'
    = Face.pendingInterestTable f ++ [new_entry f id i od ot] ∧
  Face.timers f'
    = Face.timers f
      ++ [Face.mkTimer (Face.nextTimerID f) (new_entry f id i od ot)
            (timeoutMilliseconds i)] ∧
  Face.nextTimerID f' = Face.nextTimerID f + 1 ∧
  Face.onConnectedCallbacks f' = Face.onConnectedCallbacks f ∧
  Face.lastEntryId f' = Face.lastEntryId f ∧
  Face.readyStatus f' = Face.readyStatus f ∧
  Face.trace f' = Face.trace f ++ sends i.

(** The three outcomes of [expressInterestHelper], together. *)
Definition helper_outcome `{Face.Collaborators} (f f' : Face.t)
    (id : option Z) (i : Interest) (od : Face.OnData) (ot : Face.OnTimeout)
  : Prop :=
  helper_rejected f f' i ∨ helper_skipped f f' id i
  ∨ helper_added f f' id i od ot.

(** *** The invariant behind "at most one callback per PIT entry"

    The entries of the table have distinct timer handles, all handed out
    already; a pending timer carries the handle of its entry; a handle that
    is still in the table, still pending or not handed out yet has seen no
    callback; and no handle has seen more than one. *)
Definition callbacks_inv (f : Face.t) : Prop :=
  NoDup (map Face.timerID (Face.pendingInterestTable f)) ∧
  Forall (λ e, Face.timerID e < Face.nextTimerID f)
    (Face.pendingInterestTable f) ∧
  Forall (λ tm, Face.timer_id tm = Face.timerID (Face.timer_entry tm)
                ∧ Face.timer_id tm < Face.nextTimerID f)
    (Face.timers f) ∧
  (∀ t, t ∈ map Face.timerID (Face.pendingInterestTable f)
        ∨ t ∈ map Face.timer_id (Face.timers f)
        ∨ Face.nextTimerID f ≤ t →
        count (is_invocation t) (Face.trace f) = 0%nat) ∧
  (∀ t, (count (is_invocation t) (Face.trace f) ≤ 1)%nat).

(** The events behind [one_pending], its PIT entry and a Data packet that
    matches it. *)
Definition one_pending_events : list Face.Event :=
  [Face.ExpressInterestName [[97]] 1%nat (Some 2%nat); Face.TransportOpened].

Definition one_pending_entry : Face.PendingInterest :=
  Face.mkPendingInterest (Some 1)
    (setInterestLifetimeMilliseconds (Interest_of_name [[97]]) 4000)
    (Face.AppOnData 1%nat) (Face.AppOnTimeout 2%nat) 1.

Definition one_pending_data : Data :=
  mkData [[97]; segmentComponent 0] (Some [170]) (segmentComponent 0).

(** *** The invariant behind the packet ceiling

    The Interest of every PIT entry and of every pending timer fits a
    packet, and so does everything handed to the transport. *)
Definition small_send (eff : Face.Effect) : Prop :=
  match eff with
  | Face.TransportSend bytes =>
      Z.of_nat (length bytes) ≤ Face.getMaxNdnPacketSize
  | _ => True
  end.

Definition small `{Face.Collaborators} (f : Face.t) : Prop :=
  Forall (λ e, fits (Face.interest e)) (Face.pendingInterestTable f) ∧
  Forall (λ tm, fits (Face.interest (Face.timer_entry tm))) (Face.timers f) ∧
  Forall small_send (Face.trace f).

(** An Interest whose example encoding has [n] bytes. *)
Definition interest_of_size (n : Z) : Interest :=
  Interest_of_name [repeat 65 (Z.to_nat n)].

(** Whatever went to the transport is the encoding of an Interest whose
    name is not under [/local/timeout]. *)
Definition not_timeout_send `{Face.Collaborators} (eff : Face.Effect) : Prop :=
  match eff with
  | Face.TransportSend bytes =>
      ∃ i, bytes = Face.wireEncode i ∧
           Name_match Face.timeoutPrefix (interest_name i) = false
  | _ => True
  end.

(** An Interest under [/local/timeout], with a lifetime of 100 ms. *)
Definition timeout_interest : Interest :=
  setInterestLifetimeMilliseconds
    (Interest_of_name (Face.timeoutPrefix ++ [[53]])) 100.

(** An Interest under [/local/timeout] whose example encoding has 8801
    bytes: the two components of the prefix and one of 8789 bytes. *)
Definition oversized_timeout_interest : Interest :=
  Interest_of_name (Face.timeoutPrefix ++ [repeat 65 (Z.to_nat 8789)]).

(** The PIT entry that [expressInterest(interest, onData, onTimeout)] makes
    on the Face [f]: it carries the id that the call returns, the callbacks
    of the call and the handle of the new timer. *)
Definition expressed_entry (f : Face.t) (i : Interest)
    (onData : Face.AppFunction) (onTimeout : option Face.AppFunction)
  : Face.PendingInterest :=
  Face.mkPendingInterest (Some (Face.lastEntryId f + 1)) i
    (Face.AppOnData onData)
    (match onTimeout with
     | Some g => Face.AppOnTimeout g
     | None => Face.EmptyOnTimeout
     end)
    (Face.nextTimerID f).

(** *** Removal before the send

    [removePendingInterest] may be called with the id of an Interest whose
    send is still waiting for the connection. *)

(** No PIT entry and no pending timer carries the id. *)
Definition no_entry (id : Z) (f : Face.t) : Prop :=
  Forall (λ e, Face.pendingInterestId e ≠ Some id)
    (Face.pendingInterestTable f) ∧
  Forall (λ tm, Face.pendingInterestId (Face.timer_entry tm) ≠ Some id)
    (Face.timers f).

(** No callback of an entry with the id has been called. *)
Definition uncalled (id : Z) (f : Face.t) : Prop :=
  count (is_invocation_for_id id) (Face.trace f) = 0%nat.

(** The deferred sends with the id, and the removal requests for it. *)
Definition count_deferred (id : Z) (queue : list Face.Deferred) : nat :=
  length (filter (λ d, Face.deferred_id d = Some id) queue).

Definition count_requests (id : Z) (requests : list Z) : nat :=
  length (filter (λ x, x = id) requests).

(** Before the removal: the id is in no entry, at most one deferred send
    carries it, and none does before [getNextEntryId] has handed it out. *)
Definition waiting (id : Z) (f : Face.t) : Prop :=
  no_entry id f ∧ uncalled id f ∧
  (count_deferred id (Face.onConnectedCallbacks f) ≤ 1)%nat ∧
  (Face.lastEntryId f < id →
   count_deferred id (Face.onConnectedCallbacks f) = 0%nat).

(** After the removal: the id has been handed out, is in no entry, and
    every deferred send that carries it has its removal request. *)
Definition suppressed (id : Z) (f : Face.t) : Prop :=
  id ≤ Face.lastEntryId f ∧ no_entry id f ∧ uncalled id f ∧
  (count_deferred id (Face.onConnectedCallbacks f)
   ≤ count_requests id (Face.pitRemoveRequests f))%nat.

(** The events that do not report an open connection. *)
Definition not_opening (e : Face.Event) : Prop := e ≠ Face.TransportOpened.

(** *** Registering a prefix *)

(** The call of [onRegisterFailed(prefix)] of a [RegisterResponse]. *)
Definition registration_failed (response : Face.RegisterResponse)
  : Face.Effect :=
  Face.CallOnRegisterFailed (Face.response_onRegisterFailed response)
    (Face.response_prefix response).


(** What [registerPrefix] adds to the two tables on the Face [f]: the
    registered prefix gets the next entry id, the filter the one after. *)
Definition new_filters (f : Face.t) (prefix : Name)
    (onInterest : option Face.AppFunction) : list Face.InterestFilterEntry :=
  match onInterest with
  | Some onInterest =>
      [Face.mkInterestFilterEntry (Face.lastEntryId f + 2)
         (Face.mkInterestFilter prefix None) onInterest]
  | None => []
  end.

Definition new_registeredPrefix (f : Face.t) (prefix : Name)
    (onInterest : option Face.AppFunction) : Face.RegisteredPrefix :=
  Face.mkRegisteredPrefix (Face.lastEntryId f + 1) prefix
    match onInterest with
    | Some _ => Face.lastEntryId f + 2
    | None => 0
    end.



(** * Predicates for the further properties *)

(** The names that the window-filling loop of the pipelined fetcher
    expresses: [k] consecutive segments from [first] on, under [prefix]. *)
Definition window_names (prefix : Name) (first : Z) (k : nat) : list Name :=
  map (λ j : nat, prefix ++ [segmentComponent (first + Z.of_nat j)])
    (seq 0 k).

(** The counters of the pipelined fetcher that only a handler itself
    changes: [b] has them as [a] has. *)
Definition same_counters (a b : ContentContext.t) : Prop :=
  ContentContext.pkt_recved b = ContentContext.pkt_recved a ∧
  ContentContext.dups b = ContentContext.dups a ∧
  ContentContext.timed_out b = ContentContext.timed_out a ∧
  ContentContext.max_retrans b = ContentContext.max_retrans a ∧
  ContentContext.totalBlocks b - ContentContext.snd_una b
    = ContentContext.totalBlocks a - ContentContext.snd_una a ∧
  ContentContext.terminated b = ContentContext.terminated a.

(** Every Interest that the pipelined fetcher has sent is either answered
    or in flight; [totalBlocks] counts the segments below [snd_una]; no
    duplicate is ever counted and the retry limit stays as it was set. *)
Definition accounted (s : ContentContext.System) : Prop :=
  ContentContext.interest_sent (ContentContext.ctx s)
    - ContentContext.pkt_recved (ContentContext.ctx s)
  = Z.of_nat (length (ContentContext.inflight s)) ∧
  ContentContext.totalBlocks (ContentContext.ctx s)
  = ContentContext.snd_una (ContentContext.ctx s) ∧
  ContentContext.dups (ContentContext.ctx s) = 0 ∧
  ContentContext.max_retrans (ContentContext.ctx s) = 5.

(** The value of a string of decimal digits. *)
Definition digits_value (digits : list Z) : Z :=
  fold_left (λ result digit, result * 10 + digit) digits 0.

(** A string of digit characters that does not start with the character 0:
    the way [NumToArray] writes a positive number. *)
Definition decimal_string (bytes : list Z) : Prop :=
  Forall (λ b, 48 ≤ b ≤ 57) bytes ∧ hd 49 bytes ≠ 48.

(** The integers that a JavaScript number holds exactly
    ([Number.isSafeInteger]): between [-(2^53 - 1)] and [2^53 - 1]. *)
Definition safe_integer (value : Z) : Prop := - 2 ^ 53 < value < 2 ^ 53.

(** [ArrayToNum(bytes)] rounds nothing: the result after every round of its
    loop is a safe integer that is not negative, so the product by ten and
    the sum of the next round are computed exactly in a double. *)
Definition exact_reading (bytes : list Z) : Prop :=
  ∀ k, 0 ≤ Throughput.ArrayToNum (take k bytes) < 2 ^ 53.

(** *** The Face *)

(** The effect hands a packet to the transport. *)
Definition is_send (eff : Face.Effect) : bool :=
  match eff with
  | Face.TransportSend _ => true
  | _ => false
  end.

(** Since the Face was [f] it has handed nothing to the transport, and it
    has added no PIT entry and no timer. *)
Definition silent_since (f f' : Face.t) : Prop :=
  (∃ effects, Face.trace f' = Face.trace f ++ effects ∧
              forallb (λ eff, negb (is_send eff)) effects = true) ∧
  Face.pendingInterestTable f' `sublist_of` Face.pendingInterestTable f ∧
  Face.timers f' `sublist_of` Face.timers f.

(** The filter entries that match the name of an incoming Interest. *)
Definition matching_filters `{Face.Collaborators} (name : Name)
    (table : list Face.InterestFilterEntry) : list Face.InterestFilterEntry :=
  filter (λ e, Face.doesMatch (Face.entry_filter e) name = true) table.

(** What processing one deferred send hands to the transport: nothing when
    the encoding is too large (the exception is caught), nothing for a name
    under [/local/timeout], else the encoding. *)
Definition deferred_sends `{Face.Collaborators} (d : Face.Deferred)
  : list Face.Effect :=
  if Z.of_nat (length (Face.wireEncode (Face.deferred_interest d)))
     <=? Face.getMaxNdnPacketSize
  then sends (Face.deferred_interest d)
  else [].

(** An open Face with two filters, the second under the first. *)
Definition two_filters : Face.t :=
  Face.run (H := example_collaborators) one_pending
    [Face.SetInterestFilter (Face.mkInterestFilter [[97]] None) 5%nat;
     Face.SetInterestFilter (Face.mkInterestFilter [[97]; [98]] None) 6%nat].

(** The ids of the interest filters that [registerPrefix] made together
    with the registered prefixes of id [id]. *)
Definition related_filters (id : Z) (table : list Face.RegisteredPrefix)
  : list Z :=
  map Face.relatedInterestFilterId
    (filter (λ p, Face.registeredPrefixId p = id
                  ∧ 0 < Face.relatedInterestFilterId p) table).

(** The registered prefixes with the id [id]. *)
Definition prefixes_with_id (id : Z) (table : list Face.RegisteredPrefix)
  : list Face.RegisteredPrefix :=
  filter (λ p, Face.registeredPrefixId p = id) table.

(** The interest filter table, the registered prefix table and the removal
    requests for registered prefixes are in [f'] as they are in [f]. *)
Definition same_tables (f f' : Face.t) : Prop :=
  Face.interestFilterTable f' = Face.interestFilterTable f ∧
  Face.registeredPrefixTable f' = Face.registeredPrefixTable f ∧
  Face.registeredPrefixRemoveRequests f'
  = Face.registeredPrefixRemoveRequests f.

(** The events that work on these tables. *)
Definition table_event (e : Face.Event) : bool :=
  match e with
  | Face.RegisterPrefix _ _ _ _ | Face.RemoveRegisteredPrefix _
  | Face.SetInterestFilter _ _ | Face.UnsetInterestFilter _ => true
  | _ => false
  end.

(** The ids in the two tables have been handed out by [getNextEntryId],
    each to one entry. *)
Definition tables_bounded (f : Face.t) : Prop :=
  0 ≤ Face.lastEntryId f ∧
  Forall (λ e, 0 < Face.interestFilterId e ≤ Face.lastEntryId f)
    (Face.interestFilterTable f) ∧
  Forall (λ p, 0 < Face.registeredPrefixId p ≤ Face.lastEntryId f)
    (Face.registeredPrefixTable f) ∧
  NoDup (map Face.interestFilterId (Face.interestFilterTable f)) ∧
  NoDup (map Face.registeredPrefixId (Face.registeredPrefixTable f)).

(** The value that a call returns, if it returns. *)
Definition returned_value {A} (o : Face.Outcome A) : option A :=
  match o with
  | Face.Returned x _ => Some x
  | Face.Thrown _ _ => None
  end.

(** The entry id that the call [e] returns on the Face [f], for the calls
    that return one: [expressInterest], [registerPrefix] and
    [setInterestFilter]. *)
Definition returned_id `{Face.Collaborators} (f : Face.t) (e : Face.Event)
  : option Z :=
  match e with
  | Face.ExpressInterest i onData onTimeout =>
      returned_value (Face.expressInterest i onData onTimeout f)
  | Face.ExpressInterestName name onData onTimeout =>
      returned_value (Face.expressInterest_name name onData onTimeout f)
  | Face.RegisterPrefix prefix onInterest onRegisterFailed flags =>
      returned_value
        (Face.registerPrefix prefix onInterest onRegisterFailed flags f)
  | Face.SetInterestFilter filter onInterest =>
      returned_value (Face.setInterestFilter filter onInterest f)
  | _ => None
  end.

(** The pending timers are the timers of the entries of the pending
    interest table: one for each entry, in the order of the table, under
    the handle that the entry records. *)
Definition timers_of_table (f : Face.t) : Prop :=
  Face.pendingInterestTable f = map Face.timer_entry (Face.timers f) ∧
  NoDup (map Face.timer_id (Face.timers f)) ∧
  Forall (λ tm, Face.timer_id tm = Face.timerID (Face.timer_entry tm))
    (Face.timers f).

(** The [pendingInterestId]s in use: those of the entries of the pending
    interest table, then those of the sends that wait for the connection.
    The entry of a registration command has none. *)
Definition pending_ids (f : Face.t) : list Z :=
  omap Face.pendingInterestId (Face.pendingInterestTable f)
  ++ omap Face.deferred_id (Face.onConnectedCallbacks f).

(** After [removePendingInterest(id)]: the id has been handed out, no PIT
    entry and no pending timer carries it, every deferred send that carries
    it has its removal request, and the callbacks of entries with the id
    have been called [n] times so far. *)
Definition cancelled (id : Z) (n : nat) (f : Face.t) : Prop :=
  id ≤ Face.lastEntryId f ∧ no_entry id f ∧
  count (is_invocation_for_id id) (Face.trace f) = n ∧
  (count_deferred id (Face.onConnectedCallbacks f)
   ≤ count_requests id (Face.pitRemoveRequests f))%nat.


(** The [RegisterResponse] that [nfdRegisterPrefix] makes. *)
Definition registration_response (prefix : Name)
    (onInterest onRegisterFailed : option Face.AppFunction)
    (flags : Face.ForwardingFlags) : Face.RegisterResponse :=
  Face.mkRegisterResponse prefix onInterest
    (match onRegisterFailed with
     | Some g => Face.AppOnRegisterFailed g
     | None => Face.EmptyOnRegisterFailed
     end) flags.




(** * Properties *)

(** ** Segment numbers and names *)

Lemma loop_decodes fuel :
  ∀ value result,
    0 ≤ value < 2 ^ Z.of_nat fuel →
    bigEndianToUnsignedInt (nonNegativeIntToBigEndian_loop fuel value result)
    = bigEndianToUnsignedInt_from value result.
Proof.
  induction fuel as [|fuel IH]; intros value result Hv.
  - simpl in *. replace value with 0 by lia. reflexivity.
  - cbn [nonNegativeIntToBigEndian_loop].
    destruct (Z.eqb_spec value 0) as [->|Hne]; [reflexivity|].
    rewrite IH.
    + cbn [bigEndianToUnsignedInt_from]. f_equal.
      pose proof (Z.div_mod value 256). lia.
    + rewrite Nat2Z.inj_succ, Z.pow_succ_r in Hv by lia.
      split; [apply Z.div_pos; lia|].
      apply Z.div_lt_upper_bound; lia.
Qed.

(** Segment numbers survive the trip through a name component. *)
Lemma toSegment_segmentComponent (segment : Z) :
  0 ≤ segment → toSegment (segmentComponent segment) = Some segment.
Proof.
  intros Hs. unfold segmentComponent, toSegment, nonNegativeIntToBigEndian.
  destruct (Z.leb_spec segment 0) as [Hle|Hgt].
  - replace segment with 0 by lia. reflexivity.
  - rewrite loop_decodes; [reflexivity|].
    split; [lia|].
    rewrite Nat2Z.inj_succ, Z2Nat.id by (apply Z.log2_nonneg).
    apply Z.log2_spec. lia.
Qed.

Lemma get_last_appendSegment (n : Name) (segment : Z) :
  get_last (appendSegment n segment) = Some (segmentComponent segment).
Proof. unfold get_last, appendSegment. apply last_snoc. Qed.

Lemma Name_match_app (p rest : Name) : Name_match p (p ++ rest) = true.
Proof.
  induction p as [|c p IH]; [reflexivity|].
  simpl. rewrite bool_decide_eq_true_2 by reflexivity. exact IH.
Qed.

(** ** The segment fetcher delivers the segments in order *)

Lemma Buffer_concat_snoc parts part :
  SegmentFetcher.Buffer_concat (parts ++ [part]) =
  match SegmentFetcher.Buffer_concat parts, part with
  | Some b, Some p => Some (b ++ p)
  | _, _ => None
  end.
Proof.
  induction parts as [|[p0|] parts IH]; simpl.
  - destruct part; [rewrite app_nil_r|]; reflexivity.
  - rewrite IH. destruct (SegmentFetcher.Buffer_concat parts), part;
      try reflexivity. by rewrite app_assoc.
  - reflexivity.
Qed.

Lemma Buffer_concat_Some parts blob :
  SegmentFetcher.Buffer_concat parts = Some blob →
  ∃ contents, parts = map Some contents ∧ blob = concat contents.
Proof.
  revert blob. induction parts as [|[p|] parts IH]; simpl; intros blob H.
  - exists []. by inversion H.
  - destruct (SegmentFetcher.Buffer_concat parts) as [r|] eqn:E; [|done].
    destruct (IH r eq_refl) as (cs & -> & ->).
    exists (p :: cs). by inversion H.
  - done.
Qed.

Lemma segmentOf_endsWithSegmentNumber d s :
  SegmentFetcher.segmentOf d = Some s → endsWithSegmentNumber (data_name d) = true.
Proof.
  unfold SegmentFetcher.segmentOf, endsWithSegmentNumber, get_last, Name_size.
  destruct (data_name d) as [|c n] eqn:E; [done|].
  destruct (last (c :: n)) as [[|b comp]|] eqn:L; simpl; try done.
  destruct b; try done.
  intros _. apply andb_true_intro. split; [apply Z.leb_le; lia|reflexivity].
Qed.

Lemma onData_cases verify this oi d :
  onData_spec this oi d
    (SegmentFetcher.onData verify this oi d).1
    (SegmentFetcher.onData verify this oi d).2.
Proof.
  unfold SegmentFetcher.onData.
  destruct (verify d); simpl; [|constructor].
  destruct (endsWithSegmentNumber (data_name d)); simpl; [|constructor].
  destruct (get_last (data_name d) ≫= toSegment) as [s|] eqn:Hs;
    [|constructor].
  destruct (Z.eqb_spec s (Z.of_nat (length (SegmentFetcher.contentParts this))))
    as [->|Hne]; simpl.
  - destruct (0 <? Z.of_nat (length (data_finalBlockId d))).
    + destruct (toSegment (data_finalBlockId d)) as [f|] eqn:Hf.
      * destruct (Z.eqb_spec
                    (Z.of_nat (length (SegmentFetcher.contentParts this))) f)
          as [<-|Hnf].
        -- destruct (SegmentFetcher.Buffer_concat _) eqn:Hc; simpl;
             by apply onData_append.
        -- by apply onData_append.
      * by apply onData_append.
    + by apply onData_append.
  - by apply onData_mismatch with (s := s).
Qed.

Lemma consecutive_snoc accepted d :
  SegmentFetcher.consecutive_from_zero accepted →
  SegmentFetcher.segmentOf d = Some (Z.of_nat (length accepted)) →
  SegmentFetcher.consecutive_from_zero (accepted ++ [d]).
Proof.
  intros Hc Hd i d' Hi.
  destruct (lookup_app_Some accepted [d] i d') as [H _].
  destruct (H Hi) as [Hl|[Hge Hr]]; [by apply Hc|].
  destruct (i - length accepted)%nat as [|k] eqn:Ek; simpl in Hr; [|done].
  inversion Hr; subst d'. replace i with (length accepted) by lia. done.
Qed.

Lemma run_completed verify :
  ∀ rs this pending accepted blob,
    SegmentFetcher.contentParts this = map data_content accepted →
    SegmentFetcher.consecutive_from_zero accepted →
    SegmentFetcher.run verify this pending rs = SegmentFetcher.Completed blob →
    ∃ more dlast,
      sublist more (SegmentFetcher.arrivals rs) ∧
      SegmentFetcher.consecutive_from_zero (accepted ++ more) ∧
      last (accepted ++ more) = Some dlast ∧
      toSegment (data_finalBlockId dlast)
        = Some (Z.of_nat (length (accepted ++ more)) - 1) ∧
      SegmentFetcher.Buffer_concat (map data_content (accepted ++ more))
        = Some blob.
Proof.
  induction rs as [|r rs IH]; intros this pending accepted blob Hparts Hcons Hrun;
    [done|].
  destruct r as [d|]; [|done].
  cbn [SegmentFetcher.run] in Hrun.
  pose proof (onData_cases verify this pending d) as Hspec.
  destruct (SegmentFetcher.onData verify this pending d) as [this' a].
  simpl in Hspec.
  assert (Hlen : length (SegmentFetcher.contentParts this) = length accepted)
    by (by rewrite Hparts, length_map).
  inversion Hspec as [code|s Hs Hne|a' Hseg parts' Ha]; subst.
  - done.
  - unfold SegmentFetcher.fetchNextSegment in Hrun.
    destruct (IH _ _ accepted blob Hparts Hcons Hrun)
      as (more & dlast & Hsub & ?).
    exists more, dlast. split; [|done].
    cbn. by apply sublist_cons.
  - rewrite Hlen in Hseg.
    destruct a as [i|content|code|].
    + assert (Hp' : SegmentFetcher.contentParts (SegmentFetcher.mk parts')
                    = map data_content (accepted ++ [d])).
      { subst parts'. simpl. by rewrite Hparts, map_app. }
      destruct (IH _ _ (accepted ++ [d]) blob Hp'
                  (consecutive_snoc _ _ Hcons Hseg) Hrun)
        as (more & dlast & Hsub & Hc & Hl & Hf & Hb).
      exists (d :: more), dlast.
      rewrite <- !(assoc_L (++)) in *. simpl in *.
      split; [by apply sublist_skip|done].
    + destruct Ha as [Hf Hb]. inversion Hrun; subst content.
      exists [d], d. split; [apply sublist_skip, sublist_nil_l|].
      split; [by apply consecutive_snoc|].
      split; [apply last_snoc|].
      split.
      * rewrite Hf, Hlen, length_app. simpl. f_equal. lia.
      * subst parts'. by rewrite map_app, <- Hparts.
    + done.
    + done.
Qed.

(** C4. A run of the segment fetcher that ends in [onComplete] delivers the
    concatenation of the contents of the accepted Data packets, which are
    segments 0, 1, ..., final in this order, without gap or duplicate, where
    final is the FinalBlockId of the last one. A content is appended only
    when its segment number equals the number of parts collected so far; a
    Data packet with another segment number leaves the parts alone and is
    answered by an Interest for the expected segment. *)
Theorem segment_fetcher_completes_in_order :
  (∀ verify baseInterest responses blob,
     SegmentFetcher.fetch verify baseInterest responses
       = SegmentFetcher.Completed blob →
     ∃ accepted contents dlast,
       sublist accepted (SegmentFetcher.arrivals responses) ∧
       SegmentFetcher.consecutive_from_zero accepted ∧
       last accepted = Some dlast ∧
       toSegment (data_finalBlockId dlast)
         = Some (Z.of_nat (length accepted) - 1) ∧
       map data_content accepted = map Some contents ∧
       blob = concat contents)
  ∧ (∀ verify this originalInterest data,
       let this' :=
         (SegmentFetcher.onData verify this originalInterest data).1 in
       SegmentFetcher.contentParts this' = SegmentFetcher.contentParts this
       ∨ (SegmentFetcher.segmentOf data
            = Some (Z.of_nat (length (SegmentFetcher.contentParts this)))
          ∧ SegmentFetcher.contentParts this'
            = SegmentFetcher.contentParts this ++ [data_content data]))
  ∧ (∀ verify this originalInterest data segment,
       verify data = true →
       SegmentFetcher.segmentOf data = Some segment →
       segment ≠ Z.of_nat (length (SegmentFetcher.contentParts this)) →
       ∃ interest,
         SegmentFetcher.onData verify this originalInterest data
           = (this, SegmentFetcher.ExpressInterest interest)
         ∧ interest_name interest
           = appendSegment (getPrefix_drop_last (data_name data))
               (Z.of_nat (length (SegmentFetcher.contentParts this)))
         ∧ get_last (interest_name interest) ≫= toSegment
           = Some (Z.of_nat (length (SegmentFetcher.contentParts this)))).
Proof.
  split; [|split].
  - intros verify baseInterest responses blob Hrun.
    unfold SegmentFetcher.fetch, SegmentFetcher.fetchFirstSegment in Hrun.
    destruct (run_completed verify responses SegmentFetcher.create
                (setMustBeFresh (setChildSelector baseInterest 1) true)
                [] blob eq_refl)
      as (more & dlast & Hsub & Hc & Hl & Hf & Hb);
      [by intros i d|exact Hrun|].
    simpl in *.
    destruct (Buffer_concat_Some _ _ Hb) as (contents & Hm & ->).
    by exists more, contents, dlast.
  - intros verify this oi d this'. subst this'.
    destruct (onData_cases verify this oi d); auto.
  - intros verify this oi d s Hv Hs Hne.
    eexists. split; [|split].
    + unfold SegmentFetcher.onData.
      rewrite Hv, (segmentOf_endsWithSegmentNumber _ _ Hs). simpl.
      unfold SegmentFetcher.segmentOf in Hs. rewrite Hs.
      destruct (Z.eqb_spec s
        (Z.of_nat (length (SegmentFetcher.contentParts this)))); [done|].
      reflexivity.
    + reflexivity.
    + simpl. rewrite get_last_appendSegment. simpl.
      apply toSegment_segmentComponent. lia.
Qed.

Lemma segment_fetcher_completes_in_order_witness :
  SegmentFetcher.fetch (λ _, true) (Interest_of_name [[120]]) scenario_responses
    = SegmentFetcher.Completed [1; 2; 3]
  ∧ ∃ accepted contents dlast,
      sublist accepted (SegmentFetcher.arrivals scenario_responses) ∧
      SegmentFetcher.consecutive_from_zero accepted ∧
      last accepted = Some dlast ∧
      toSegment (data_finalBlockId dlast)
        = Some (Z.of_nat (length accepted) - 1) ∧
      map data_content accepted = map Some contents ∧
      [1; 2; 3] = concat contents.
Proof.
  split; [reflexivity|].
  apply (proj1 segment_fetcher_completes_in_order
           (λ _, true) (Interest_of_name [[120]]) scenario_responses).
  reflexivity.
Defined.

(** ** The pipelined fetcher: sliding over the marked slots *)

Lemma visited_slots_S una size n :
  visited_slots una size (S n)
  = Z.rem una size :: visited_slots (una + 1) size n.
Proof.
  unfold visited_slots. simpl. rewrite Z.add_0_r. f_equal.
  rewrite <- seq_shift, map_map. apply map_ext. intros j. f_equal. lia.
Qed.

Lemma slide_loop_spec fuel :
  ∀ this,
    (size (ContentContext.ooo_table this) ≤ fuel)%nat →
    let r := ContentContext.slide_loop fuel this in
    let una := ContentContext.snd_una this in
    let sz := ContentContext.ooo_table_size this in
    ∃ n : nat,
      ContentContext.snd_una r = una + Z.of_nat n ∧
      ContentContext.totalBlocks r
        = ContentContext.totalBlocks this + Z.of_nat n ∧
      (∀ j : nat, (j < n)%nat →
         is_Some (ContentContext.ooo_table this
                    !! Z.rem (una + Z.of_nat j) sz)) ∧
      (∀ k, ContentContext.ooo_table r !! k
            = if bool_decide (k ∈ visited_slots una sz n) then None
              else ContentContext.ooo_table this !! k) ∧
      ContentContext.ooo_table r !! Z.rem (ContentContext.snd_una r) sz = None ∧
      same_window this r.
Proof.
  induction fuel as [|fuel IH]; intros this Hsize; cbn zeta.
  - exists 0%nat. simpl.
    assert (ContentContext.ooo_table this = ∅) as Hempty
      by (apply map_size_empty_iff; lia).
    rewrite !Z.add_0_r, Hempty. repeat split; try done; lia.
  - cbn [ContentContext.slide_loop].
    destruct (ContentContext.ooo_table this
                !! Z.rem (ContentContext.snd_una this)
                     (ContentContext.ooo_table_size this)) as [s|] eqn:Hslot.
    + set (this' := ContentContext.advance
                      (ContentContext.set_ooo_table _ this)).
      destruct (IH this') as (n & Huna & Htot & Hmarked & Htbl & Hexit & Hsame).
      { subst this'. simpl.
        rewrite map_size_delete_Some by (by rewrite Hslot). lia. }
      exists (S n). subst this'. simpl in *.
      split; [lia|]. split; [lia|]. split; [|split; [|split]].
      * intros [|j] Hj.
        -- rewrite Z.add_0_r. by rewrite Hslot.
        -- destruct (Hmarked j ltac:(lia)) as [v Hv].
           apply lookup_delete_Some in Hv as [_ Hv].
           replace (ContentContext.snd_una this + Z.of_nat (S j))
             with (ContentContext.snd_una this + 1 + Z.of_nat j) by lia.
           by rewrite Hv.
      * intros k. rewrite Htbl, visited_slots_S.
        destruct (decide (k = Z.rem (ContentContext.snd_una this)
                                 (ContentContext.ooo_table_size this)))
          as [->|Hne].
        -- rewrite (bool_decide_eq_true_2 (_ ∈ _ :: _)) by apply list_elem_of_here.
           case_bool_decide; [done|]. apply lookup_delete_eq.
        -- rewrite lookup_delete_ne by done.
           case_bool_decide as H1; case_bool_decide as H2; try done.
           ++ exfalso. apply H2. by apply list_elem_of_further.
           ++ exfalso. apply elem_of_cons in H2 as [?|?]; done.
      * exact Hexit.
      * exact Hsame.
    + exists 0%nat. simpl. rewrite !Z.add_0_r.
      repeat split; try done. intros j Hj. lia.
Qed.

Lemma reorder_marked_state :
  ContentContext.snd_una reorder_marked = 0 ∧
  ContentContext.ooo_count reorder_marked = 4 ∧
  ContentContext.ooo_table reorder_marked
    = list_to_map [(1, 1); (2, 2); (3, 3); (4, 4)].
Proof. vm_compute. done. Qed.

(** The window-filling loop touches [snd_nxt] and [interest_sent] only. *)
Lemma send_loop_frame fuel prefix :
  ∀ c e,
    let r := (ContentContext.send_loop fuel c prefix e).1 in
    ContentContext.snd_una r = ContentContext.snd_una c ∧
    ContentContext.ooo_table r = ContentContext.ooo_table c ∧
    ContentContext.ooo_count r = ContentContext.ooo_count c ∧
    ContentContext.snd_wnd r = ContentContext.snd_wnd c ∧
    ContentContext.max_window r = ContentContext.max_window c ∧
    ContentContext.ooo_table_size r = ContentContext.ooo_table_size c ∧
    ContentContext.terminated r = ContentContext.terminated c.
Proof.
  induction fuel as [|fuel IH]; intros c e; [done|].
  cbn [ContentContext.send_loop].
  destruct (ContentContext.snd_nxt c - ContentContext.snd_una c
            <? ContentContext.snd_wnd c); [|done].
  match goal with
  | |- context [ContentContext.send_loop fuel ?c' prefix ?e'] =>
      exact (IH c' e')
  end.
Qed.

(** C8 (as the code has it). An in-order arrival (segment = [snd_una], with
    a content and a FinalBlockId that decodes) advances [snd_una] past the
    received segment and past every contiguously marked slot of
    [ooo_table], clearing each of these slots and no other, and stops at
    the first unmarked slot; [ooo_count] is left as it was: no path of
    [onData] resets it. In the reorder scenario (marks 1, 2, 3, 4 set by
    four out-of-order arrivals) the arrival of segment 0 moves [snd_una]
    to 5 and [ooo_count] stays 4. *)
Theorem in_order_arrival_slides_window :
  (∀ this interest data,
     data_content data ≠ None →
     get_last (data_name data) ≫= toSegment
       = Some (ContentContext.snd_una this) →
     (data_finalBlockId data = [] ∨
      is_Some (toSegment (data_finalBlockId data))) →
     let r := ContentContext.onData this interest data in
     let una := ContentContext.snd_una this + 1 in
     let sz := ContentContext.ooo_table_size this in
     ContentContext.threw r = false ∧
     ∃ n : nat,
       ContentContext.snd_una (ContentContext.context r) = una + Z.of_nat n ∧
       (∀ j : nat, (j < n)%nat →
          is_Some (ContentContext.ooo_table this
                     !! Z.rem (una + Z.of_nat j) sz)) ∧
       (∀ k, ContentContext.ooo_table (ContentContext.context r) !! k
             = if bool_decide (k ∈ visited_slots una sz n) then None
               else ContentContext.ooo_table this !! k) ∧
       ContentContext.ooo_table (ContentContext.context r)
         !! Z.rem (una + Z.of_nat n) sz = None ∧
       ContentContext.ooo_count (ContentContext.context r)
         = ContentContext.ooo_count this)
  ∧ (let r := ContentContext.onData reorder_marked (Interest_of_name [[120]])
                (reorder_data 0) in
     ContentContext.snd_una (ContentContext.context r) = 5 ∧
     ContentContext.ooo_table (ContentContext.context r) = ∅ ∧
     ContentContext.ooo_count (ContentContext.context r) = 4).
Proof.
  split; [|by vm_compute].
  intros this interest data Hcontent Hseg Hfinal r una sz.
  subst r. unfold ContentContext.onData.
  destruct (data_content data) as [content|]; [clear Hcontent|done].
  rewrite Hseg.
  set (decoded := if 0 <? Z.of_nat (length (data_finalBlockId data))
                  then option_map Some (toSegment (data_finalBlockId data))
                  else Some None).
  assert (∃ final, decoded = Some final) as [final ->].
  { subst decoded. destruct Hfinal as [->|[f ->]]; simpl; eauto.
    destruct (0 <? _); eauto. }
  cbn [ContentContext.snd_una ContentContext.set_pkt_recved].
  rewrite Z.eqb_refl. cbn [negb].
  set (this1 := ContentContext.advance (ContentContext.set_pkt_recved _ this)).
  destruct (slide_loop_spec (size (ContentContext.ooo_table this1)) this1
              (le_n _))
    as (n & Huna & _ & Hmarked & Htbl & Hexit & Hsame).
  fold (ContentContext.slide this1) in *.
  destruct Hsame as (Hooo & Hnxt & Hwnd & Hmax & Hsz & Hterm).
  assert (Hframe :
    ∀ c, ContentContext.snd_una c
           = ContentContext.snd_una (ContentContext.slide this1) →
         ContentContext.ooo_table c
           = ContentContext.ooo_table (ContentContext.slide this1) →
         ContentContext.ooo_count c
           = ContentContext.ooo_count (ContentContext.slide this1) →
         ∃ n0 : nat,
           ContentContext.snd_una c = una + Z.of_nat n0 ∧
           (∀ j : nat, (j < n0)%nat →
              is_Some (ContentContext.ooo_table this
                         !! Z.rem (una + Z.of_nat j) sz)) ∧
           (∀ k, ContentContext.ooo_table c !! k
                 = if bool_decide (k ∈ visited_slots una sz n0) then None
                   else ContentContext.ooo_table this !! k) ∧
           ContentContext.ooo_table c !! Z.rem (una + Z.of_nat n0) sz = None ∧
           ContentContext.ooo_count c = ContentContext.ooo_count this).
  { intros c H1 H2 H3. exists n. rewrite H1, H2, H3.
    subst this1 una sz. simpl in *.
    rewrite Huna in Hexit. by rewrite Hooo. }
  destruct (match final with
            | Some f => ContentContext.snd_una (ContentContext.slide this1) =? f + 1
            | None => false
            end).
  - split; [done|]. by apply Hframe.
  - match goal with
    | |- context [ContentContext.send ?c _] => set (c0 := c)
    end.
    destruct (ContentContext.send _ _) as [c names] eqn:Hsend.
    split; [done|]. simpl.
    unfold ContentContext.send in Hsend.
    destruct (send_loop_frame
                (Z.to_nat
                   (ContentContext.snd_wnd c0
                    - (ContentContext.snd_nxt c0 - ContentContext.snd_una c0)))
                (getPrefix_drop_last (data_name data)) c0 [])
      as (H1 & H2 & H3 & _).
    rewrite Hsend in H1, H2, H3. simpl in H1, H2, H3.
    apply Hframe.
    + rewrite H1. by destruct (_ <? _).
    + rewrite H2. by destruct (_ <? _).
    + rewrite H3. by destruct (_ <? _).
Qed.

Lemma in_order_arrival_slides_window_witness :
  data_content (reorder_data 0) ≠ None ∧
  get_last (data_name (reorder_data 0)) ≫= toSegment
    = Some (ContentContext.snd_una reorder_marked) ∧
  let r := ContentContext.onData reorder_marked (Interest_of_name [[120]])
             (reorder_data 0) in
  let una := ContentContext.snd_una reorder_marked + 1 in
  let sz := ContentContext.ooo_table_size reorder_marked in
  ContentContext.threw r = false ∧
  ∃ n : nat,
    ContentContext.snd_una (ContentContext.context r) = una + Z.of_nat n ∧
    (∀ j : nat, (j < n)%nat →
       is_Some (ContentContext.ooo_table reorder_marked
                  !! Z.rem (una + Z.of_nat j) sz)) ∧
    (∀ k, ContentContext.ooo_table (ContentContext.context r) !! k
          = if bool_decide (k ∈ visited_slots una sz n) then None
            else ContentContext.ooo_table reorder_marked !! k) ∧
    ContentContext.ooo_table (ContentContext.context r)
      !! Z.rem (una + Z.of_nat n) sz = None ∧
    ContentContext.ooo_count (ContentContext.context r)
      = ContentContext.ooo_count reorder_marked.
Proof.
  split; [done|]. split; [reflexivity|].
  apply (proj1 in_order_arrival_slides_window
           reorder_marked (Interest_of_name [[120]]) (reorder_data 0)).
  - done.
  - reflexivity.
  - left. reflexivity.
Defined.

Lemma in_order_arrival_resets_ooo_count_counterexample :
  ContentContext.snd_una (ContentContext.ctx reordered_fetch) = 1 ∧
  ContentContext.inflight reordered_fetch !! 0%nat
    = Some [[120]; segmentComponent 1] ∧
  (let after := ContentContext.step reordered_fetch
                  (ContentContext.Deliver 0 (Some [170]) []) in
   ContentContext.snd_una (ContentContext.ctx after) = 3 ∧
   ContentContext.ooo_count (ContentContext.ctx after) = 1 ∧
   ContentContext.ooo_count (ContentContext.ctx after) ≠ 0) ∧
  (let r := ContentContext.onData reorder_marked (Interest_of_name [[120]])
              (reorder_data 0) in
   ContentContext.snd_una reorder_marked = 0 ∧
   ContentContext.snd_una (ContentContext.context r) = 5 ∧
   ContentContext.ooo_count (ContentContext.context r) ≠ 0).
Proof. vm_compute. repeat split; done. Qed.

(** ** The pipelined fetcher: window invariants *)

Lemma same_slot_same_segment a b :
  0 ≤ a ≤ b → b - a < 128 → Z.rem b 128 = Z.rem a 128 → b = a.
Proof.
  intros Ha Hb. rewrite !Z.rem_mod_nonneg by lia.
  intros H. Z.div_mod_to_equations. lia.
Qed.

Lemma slide_loop_sliding fuel :
  ∀ c, sliding c → sliding (ContentContext.slide_loop fuel c).
Proof.
  induction fuel as [|fuel IH]; intros c Hc; [done|].
  cbn [ContentContext.slide_loop].
  destruct (ContentContext.ooo_table c !! _) as [seg|] eqn:Hslot; [|done].
  apply IH.
  destruct Hc as (Hsz & Huna & Hlen & Hmarks).
  destruct (Hmarks _ _ Hslot) as [Hseg Hs].
  rewrite Hsz in Hs.
  assert (seg = ContentContext.snd_una c) as ->
    by (apply same_slot_same_segment; [lia|lia|done]).
  unfold sliding, marks_from. simpl.
  split; [done|]. split; [lia|]. split; [lia|].
  intros slot seg Hl.
  apply lookup_delete_Some in Hl as [Hne Hl].
  destruct (Hmarks _ _ Hl) as [Hseg' ->].
  split; [|done].
  destruct (decide (seg = ContentContext.snd_una c)) as [->|]; [|lia].
  by rewrite Hsz in Hne.
Qed.

(** After the loop the slot of [snd_una] is free, so every mark is
    strictly above [snd_una]. *)
Lemma slide_sliding c :
  sliding c →
  let r := ContentContext.slide c in
  sliding r ∧ marks_from (ContentContext.snd_una r + 1) r ∧ same_window c r
  ∧ ContentContext.snd_una c ≤ ContentContext.snd_una r.
Proof.
  intros Hc r.
  pose proof (slide_loop_sliding (size (ContentContext.ooo_table c)) c Hc)
    as Hr.
  destruct (slide_loop_spec (size (ContentContext.ooo_table c)) c (le_n _))
    as (n & Huna & _ & _ & _ & Hexit & Hsame).
  fold (ContentContext.slide c) in *. fold r in Hr, Huna, Hexit, Hsame.
  split; [done|]. split; [|split; [done|lia]].
  destruct Hr as (Hsz & Hu & Hlen & Hmarks).
  destruct Hsame as (_ & _ & _ & _ & Hsz' & _).
  intros slot seg Hl. destruct (Hmarks _ _ Hl) as [Hseg ->].
  split; [|done].
  destruct (decide (seg = ContentContext.snd_una r)) as [->|]; [|lia].
  rewrite <- Hsz', Hsz in Hexit. by rewrite Hexit in Hl.
Qed.

(** The window-filling loop, run for any number of rounds: [snd_nxt] grows
    up to [snd_una + snd_wnd] and no further, and every name it expresses
    carries a segment number between the old and the new [snd_nxt]. *)
Lemma send_loop_spec fuel prefix :
  ∀ c e,
    0 ≤ ContentContext.snd_nxt c →
    let r := (ContentContext.send_loop fuel c prefix e).1 in
    let names := (ContentContext.send_loop fuel c prefix e).2 in
    ContentContext.snd_nxt c ≤ ContentContext.snd_nxt r ∧
    ContentContext.snd_nxt r
      ≤ Z.max (ContentContext.snd_nxt c)
          (ContentContext.snd_una c + ContentContext.snd_wnd c) ∧
    (ContentContext.snd_wnd c
       - (ContentContext.snd_nxt c - ContentContext.snd_una c)
       ≤ Z.of_nat fuel →
     ContentContext.snd_una c + ContentContext.snd_wnd c
       ≤ ContentContext.snd_nxt r) ∧
    (∀ name, name ∈ names →
       name ∈ e ∨
       ∃ seg, ContentContext.snd_nxt c ≤ seg < ContentContext.snd_nxt r ∧
              get_last name ≫= toSegment = Some seg).
Proof.
  induction fuel as [|fuel IH]; intros c e Hnxt; cbn zeta.
  - simpl. repeat split; try lia. intros name Hn. by left.
  - cbn [ContentContext.send_loop].
    destruct (Z.ltb_spec (ContentContext.snd_nxt c - ContentContext.snd_una c)
                (ContentContext.snd_wnd c)) as [Hlt|Hge].
    + match goal with
      | |- context [ContentContext.send_loop fuel ?c' prefix ?e'] =>
          set (c1 := c'); set (e1 := e');
          destruct (IH c1 e1) as (H1 & H2 & H3 & H4); [simpl; lia|]
      end.
      assert (ContentContext.snd_nxt c1 = ContentContext.snd_nxt c + 1)
        as Hn1 by reflexivity.
      assert (ContentContext.snd_una c1 = ContentContext.snd_una c)
        as Hu1 by reflexivity.
      assert (ContentContext.snd_wnd c1 = ContentContext.snd_wnd c)
        as Hw1 by reflexivity.
      rewrite ?Hn1, ?Hu1, ?Hw1 in H1, H2, H3, H4.
      split; [lia|]. split; [lia|]. split; [lia|].
      intros name Hn. destruct (H4 name Hn) as [He|(seg & Hseg & Hs)].
      * subst e1. apply elem_of_app in He as [He|He]; [by left|].
        apply list_elem_of_singleton in He as ->. right.
        exists (ContentContext.snd_nxt c). split; [lia|].
        unfold get_last. rewrite last_snoc. simpl.
        by apply toSegment_segmentComponent.
      * right. exists seg. split; [lia|done].
    + simpl. repeat split; try lia. intros name Hn. by left.
Qed.

Lemma ctx_inv_frame c c' :
  ContentContext.snd_una c' = ContentContext.snd_una c →
  ContentContext.snd_nxt c' = ContentContext.snd_nxt c →
  ContentContext.snd_wnd c' = ContentContext.snd_wnd c →
  ContentContext.max_window c' = ContentContext.max_window c →
  ContentContext.ooo_table_size c' = ContentContext.ooo_table_size c →
  ContentContext.ooo_table c' = ContentContext.ooo_table c →
  ctx_inv c →
  ctx_inv c' ∧
  ContentContext.snd_nxt c ≤ ContentContext.snd_nxt c' ∧
  Forall (segment_below (ContentContext.snd_nxt c')) [] ∧
  (tight c → tight c').
Proof.
  intros Hu Hn Hw Hx Hz Ht (Hmax & Hsz & Huna & Hwnd & Hlen & Hmarks).
  unfold ctx_inv, tight, marks_from. rewrite Hu, Hn, Hw, Hx, Hz, Ht.
  split; [done|]. split; [lia|]. split; [constructor|done].
Qed.

Lemma onData_inv c interest data :
  ctx_inv c →
  segment_below (ContentContext.snd_nxt c) (data_name data) →
  let r := ContentContext.onData c interest data in
  ctx_inv (ContentContext.context r) ∧
  ContentContext.snd_nxt c ≤ ContentContext.snd_nxt (ContentContext.context r) ∧
  Forall (segment_below (ContentContext.snd_nxt (ContentContext.context r)))
    (ContentContext.expressed r) ∧
  (tight c → tight (ContentContext.context r)).
Proof.
  intros Hinv (seg & Hseg & Hbound) r.
  pose proof Hinv as (Hmax & Hsz & Huna & Hwnd & Hlen & Hmarks).
  subst r. unfold ContentContext.onData.
  destruct (data_content data) as [content|];
    [|by apply ctx_inv_frame].
  rewrite Hseg.
  destruct (if 0 <? Z.of_nat (length (data_finalBlockId data))
            then option_map Some (toSegment (data_finalBlockId data))
            else Some None) as [final|];
    [|by apply ctx_inv_frame].
  cbn [ContentContext.snd_una ContentContext.set_pkt_recved].
  destruct (Z.eqb_spec seg (ContentContext.snd_una c)) as [->|Hne]; cbn [negb].
  - (* in order *)
    set (c1 := ContentContext.advance (ContentContext.set_pkt_recved _ c)).
    assert (Hs1 : sliding c1).
    { subst c1. unfold sliding, marks_from. simpl.
      split; [done|]. split; [lia|]. split; [lia|]. exact Hmarks. }
    destruct (slide_sliding c1 Hs1)
      as ((_ & Hu2 & Hl2 & _) & Hm2 & Hsame & Hmono).
    destruct Hsame as (_ & Hnxt2 & Hwnd2 & Hmax2 & Hsz2 & _).
    set (c2 := ContentContext.slide c1) in *.
    assert (ContentContext.snd_una c1 = ContentContext.snd_una c + 1)
      as Hu1 by reflexivity.
    assert (ContentContext.snd_nxt c1 = ContentContext.snd_nxt c)
      as Hn1 by reflexivity.
    assert (ContentContext.snd_wnd c1 = ContentContext.snd_wnd c)
      as Hw1 by reflexivity.
    assert (ContentContext.max_window c1 = ContentContext.max_window c)
      as Hx1 by reflexivity.
    assert (ContentContext.ooo_table_size c1 = ContentContext.ooo_table_size c)
      as Hz1 by reflexivity.
    destruct (match final with
              | Some f => ContentContext.snd_una c2 =? f + 1
              | None => false
              end).
    + split; [|split; [simpl; lia|split; [constructor|unfold tight; simpl; lia]]].
      unfold ctx_inv. simpl.
      split; [lia|]. split; [lia|]. split; [lia|]. split; [lia|].
      split; [lia|]. exact Hm2.
    + set (c3 := if ContentContext.snd_wnd c2 <? ContentContext.max_window c2
                 then ContentContext.set_snd_wnd (ContentContext.snd_wnd c2 + 1) c2
                 else c2).
      assert (ContentContext.snd_una c3 = ContentContext.snd_una c2
              ∧ ContentContext.snd_nxt c3 = ContentContext.snd_nxt c2
              ∧ ContentContext.max_window c3 = ContentContext.max_window c2
              ∧ ContentContext.ooo_table_size c3
                = ContentContext.ooo_table_size c2
              ∧ ContentContext.ooo_table c3 = ContentContext.ooo_table c2
              ∧ 1 ≤ ContentContext.snd_wnd c3 ≤ ContentContext.max_window c2
              ∧ ContentContext.snd_wnd c2 ≤ ContentContext.snd_wnd c3
              ∧ (ContentContext.snd_wnd c2 < ContentContext.max_window c2 →
                 ContentContext.snd_wnd c3 = ContentContext.snd_wnd c2 + 1))
        as (Hu3 & Hn3 & Hx3 & Hz3 & Ht3 & Hw3 & Hw3' & Hw3'').
      { subst c3. destruct (Z.ltb_spec (ContentContext.snd_wnd c2)
                              (ContentContext.max_window c2));
          simpl; repeat split; lia. }
      clearbody c3.
      unfold ContentContext.send.
      set (fuel := Z.to_nat _). set (prefix := getPrefix_drop_last _).
      destruct (send_loop_frame fuel prefix c3 [])
        as (Hu4 & Ht4 & _ & Hw4 & Hx4 & Hz4 & _).
      destruct (send_loop_spec fuel prefix c3 [] ltac:(lia))
        as (Hn4 & Hn4' & _ & Hnames).
      destruct (ContentContext.send_loop fuel c3 prefix []) as [c4 names].
      simpl in *.
      split; [|split; [lia|split]].
      * unfold ctx_inv, marks_from. rewrite Ht4, Ht3.
        split; [lia|]. split; [lia|]. split; [lia|]. split; [lia|].
        split; [lia|].
        intros slot s Hl. destruct (Hm2 _ _ Hl). split; [lia|done].
      * apply Forall_forall. intros name Hin.
        destruct (Hnames name Hin) as [Hnil|(s & Hs & Hl)];
          [by apply elem_of_nil in Hnil|].
        exists s. split; [done|lia].
      * unfold tight. intros Ht. lia.
  - (* out of order *)
    destruct (_ || _) eqn:Hwin.
    + by apply ctx_inv_frame.
    + apply orb_false_elim in Hwin as [H1 H2]. simpl in H1, H2.
      apply Z.leb_gt in H1. apply Z.ltb_ge in H2.
      split; [|split; [simpl; lia|split; [constructor|unfold tight; simpl; lia]]].
      unfold ctx_inv, marks_from. simpl.
      split; [lia|]. split; [lia|]. split; [lia|]. split; [lia|].
      split; [lia|].
      intros slot s Hl.
      apply lookup_insert_Some in Hl as [[<- <-]|[_ Hl]].
      * rewrite Hsz. split; [lia|done].
      * by apply Hmarks.
Qed.

Lemma segment_below_mono lo hi name :
  lo ≤ hi → segment_below lo name → segment_below hi name.
Proof. intros Hle (seg & Hs & Hb). exists seg. split; [done|lia]. Qed.

Lemma start_inv prefix : sys_inv (ContentContext.start prefix)
                         ∧ tight (ContentContext.ctx (ContentContext.start prefix)).
Proof.
  split; [split|].
  - unfold ctx_inv, marks_from. simpl. repeat split; try lia; done.
  - constructor; [|constructor]. exists 0. split; [|simpl; lia].
    rewrite get_last_appendSegment. reflexivity.
  - unfold tight. simpl. lia.
Qed.

Lemma step_inv s e :
  sys_inv s →
  sys_inv (ContentContext.step s e) ∧
  (ContentContext.is_Expire e = false →
   tight (ContentContext.ctx s) →
   tight (ContentContext.ctx (ContentContext.step s e))).
Proof.
  intros [Hc Hin]. destruct e as [i content final|i]; simpl.
  - destruct (ContentContext.inflight s !! i) as [name|] eqn:Hi; [|done].
    assert (Hname : segment_below
                      (ContentContext.snd_nxt (ContentContext.ctx s)) name).
    { eapply Forall_forall; [exact Hin|].
      by eapply list_elem_of_lookup_2. }
    destruct (onData_inv (ContentContext.ctx s) (Interest_of_name name)
                (mkData name content final) Hc Hname)
      as (Hc' & Hmono & Hnew & Ht).
    split; [|by intros _]. split; [done|]. simpl.
    apply Forall_app. split; [|done].
    eapply Forall_impl; [|intros n; by apply segment_below_mono].
    eapply Forall_forall. intros n Hn.
    eapply Forall_forall; [exact Hin|].
    by eapply list_elem_of_delete_inv.
  - destruct (ContentContext.inflight s !! i) as [name|] eqn:Hi; [|done].
    split; [|done].
    assert (Hname : segment_below
                      (ContentContext.snd_nxt (ContentContext.ctx s)) name).
    { eapply Forall_forall; [exact Hin|].
      by eapply list_elem_of_lookup_2. }
    assert (Hrest : Forall (segment_below
                      (ContentContext.snd_nxt (ContentContext.ctx s)))
                      (delete i (ContentContext.inflight s))).
    { eapply Forall_forall. intros n Hn.
      eapply Forall_forall; [exact Hin|].
      by eapply list_elem_of_delete_inv. }
    destruct Hc as (Hmax & Hsz & Huna & Hwnd & Hlen & Hmarks).
    unfold ContentContext.onTimeout. simpl.
    destruct (ContentContext.terminated (ContentContext.ctx s)); simpl.
    + split; [|by rewrite app_nil_r].
      unfold ctx_inv. simpl.
      split; [lia|]. split; [lia|]. split; [lia|]. split; [lia|].
      split; [lia|]. exact Hmarks.
    + split; [|apply Forall_app; split; [done|by constructor]].
      unfold ctx_inv. simpl.
      split; [lia|]. split; [lia|]. split; [lia|]. split; [lia|].
      split; [lia|]. exact Hmarks.
Qed.

Lemma run_inv events :
  ∀ s, sys_inv s →
       sys_inv (ContentContext.run s events) ∧
       (forallb (λ e, negb (ContentContext.is_Expire e)) events = true →
        tight (ContentContext.ctx s) →
        tight (ContentContext.ctx (ContentContext.run s events))).
Proof.
  induction events as [|e events IH]; intros s Hs; [done|].
  simpl. destruct (step_inv s e Hs) as [Hs' Ht'].
  destruct (IH _ Hs') as [Hr Htr]. split; [done|].
  intros Hall Ht. apply andb_prop in Hall as [He Hall].
  apply Htr; [done|]. apply Ht'; [|done].
  by destruct (ContentContext.is_Expire e).
Qed.

(** C3 (as the code has it). In every state that the pipelined fetcher
    reaches from [snd_una = 0], [snd_nxt = 1], [snd_wnd = 1] by Data
    arrivals and timeouts of its Interests in flight:
    [snd_una ≤ snd_nxt], [1 ≤ snd_wnd ≤ max_window = 32] and
    [snd_nxt - snd_una ≤ max_window]. The bound
    [snd_nxt - snd_una ≤ snd_wnd] holds as long as no Interest has timed
    out, and every round of the window-filling loop keeps it; a timeout
    sets [snd_wnd] to 1, leaves [snd_una] and [snd_nxt] alone and expresses
    the Interest again. *)
Theorem pipeline_window_invariant :
  (∀ prefix events,
     let c := ContentContext.ctx
                (ContentContext.run (ContentContext.start prefix) events) in
     ContentContext.snd_una c ≤ ContentContext.snd_nxt c ∧
     1 ≤ ContentContext.snd_wnd c ≤ ContentContext.max_window c ∧
     ContentContext.snd_nxt c - ContentContext.snd_una c
       ≤ ContentContext.max_window c ∧
     ContentContext.max_window c = 32)
  ∧ (∀ prefix events,
       forallb (λ e, negb (ContentContext.is_Expire e)) events = true →
       let c := ContentContext.ctx
                  (ContentContext.run (ContentContext.start prefix) events) in
       ContentContext.snd_nxt c - ContentContext.snd_una c
         ≤ ContentContext.snd_wnd c)
  ∧ (∀ rounds c prefix e,
       0 ≤ ContentContext.snd_nxt c →
       ContentContext.snd_nxt c - ContentContext.snd_una c
         ≤ ContentContext.snd_wnd c →
       let r := (ContentContext.send_loop rounds c prefix e).1 in
       ContentContext.snd_nxt r - ContentContext.snd_una r
         ≤ ContentContext.snd_wnd r)
  ∧ (∀ c interest,
       ContentContext.terminated c = false →
       let r := ContentContext.onTimeout c interest in
       ContentContext.snd_wnd (ContentContext.context r) = 1 ∧
       ContentContext.snd_una (ContentContext.context r)
         = ContentContext.snd_una c ∧
       ContentContext.snd_nxt (ContentContext.context r)
         = ContentContext.snd_nxt c ∧
       ContentContext.expressed r = [interest_name interest]).
Proof.
  split; [|split; [|split]].
  - intros prefix events c.
    destruct (start_inv prefix) as [Hs _].
    destruct (run_inv events _ Hs)
      as [[(Hmax & Hsz & Huna & Hwnd & Hlen & Hmarks) _] _].
    subst c. repeat split; lia.
  - intros prefix events Hall c.
    destruct (start_inv prefix) as [Hs Ht].
    destruct (run_inv events _ Hs) as [_ Htight].
    by apply Htight.
  - intros rounds c prefix e Hnxt Ht r.
    destruct (send_loop_frame rounds prefix c e)
      as (Hu & _ & _ & Hw & _).
    destruct (send_loop_spec rounds prefix c e Hnxt) as (_ & Hle & _).
    subst r. simpl in *. lia.
  - intros c interest Hterm r. subst r.
    unfold ContentContext.onTimeout. simpl. by rewrite Hterm.
Qed.

Lemma pipeline_window_invariant_witness :
  forallb (λ e, negb (ContentContext.is_Expire e))
    [ContentContext.Deliver 0 (Some [170]) [];
     ContentContext.Deliver 1 (Some [170]) [];
     ContentContext.Deliver 0 (Some [170]) []] = true
  ∧ let c := ContentContext.ctx
               (ContentContext.run (ContentContext.start [[120]])
                  [ContentContext.Deliver 0 (Some [170]) [];
                   ContentContext.Deliver 1 (Some [170]) [];
                   ContentContext.Deliver 0 (Some [170]) []]) in
    ContentContext.snd_nxt c - ContentContext.snd_una c
      ≤ ContentContext.snd_wnd c.
Proof.
  split; [reflexivity|].
  apply (proj1 (proj2 pipeline_window_invariant) [[120]]).
  reflexivity.
Defined.

(** The claim that [snd_nxt - snd_una ≤ snd_wnd] in every reachable state
    fails: after the Data of segment 0 (window 2, Interests 1 and 2 in
    flight) the Interest for segment 1 times out. *)
Lemma pipeline_window_invariant_counterexample :
  let c := ContentContext.ctx
             (ContentContext.run (ContentContext.start [[120]])
                [ContentContext.Deliver 0 (Some [170]) [];
                 ContentContext.Expire 0]) in
  ContentContext.snd_una c = 1 ∧
  ContentContext.snd_nxt c = 3 ∧
  ContentContext.snd_wnd c = 1 ∧
  ¬ (ContentContext.snd_nxt c - ContentContext.snd_una c
     ≤ ContentContext.snd_wnd c).
Proof. vm_compute. repeat split; try done. Qed.


(** ** The Face: closing *)

(** C9 (as the code has it). [close()] moves the Face to CLOSED and closes
    the transport when the Face is OPENED; in every other state (UNOPEN,
    OPEN_REQUESTED, CLOSED) it returns at once and changes nothing. *)
Theorem close_only_when_opened (f : Face.t) :
  Face.readyStatus (Face.close f)
    = (if bool_decide (Face.readyStatus f = Face.OPENED)
       then Face.CLOSED else Face.readyStatus f) ∧
  Face.trace (Face.close f)
    = (if bool_decide (Face.readyStatus f = Face.OPENED)
       then Face.trace f ++ [Face.TransportClose] else Face.trace f) ∧
  (Face.readyStatus f ≠ Face.OPENED → Face.close f = f) ∧
  Face.pendingInterestTable (Face.close f) = Face.pendingInterestTable f ∧
  Face.timers (Face.close f) = Face.timers f.
Proof.
  unfold Face.close. destruct (Face.readyStatus f) eqn:E; simpl;
    repeat split; try done.
Qed.

(** The claim that [close()] reaches CLOSED from any state fails: a new
    Face is UNOPEN and stays UNOPEN, and a Face that waits for its
    connection stays OPEN_REQUESTED; the transport is not closed. *)
Lemma close_from_any_state_counterexample :
  Face.readyStatus (Face.close (Face.create (Some 7))) = Face.UNOPEN ∧
  Face.close (Face.create (Some 7)) = Face.create (Some 7) ∧
  (let f := Face.run (H := example_collaborators) (Face.create (Some 7))
              [Face.ExpressInterestName [[97]] 1%nat (Some 2%nat)] in
   Face.readyStatus f = Face.OPEN_REQUESTED ∧
   Face.readyStatus (Face.close f) = Face.OPEN_REQUESTED ∧
   Face.readyStatus (Face.close f) ≠ Face.CLOSED ∧
   Face.TransportClose ∉ Face.trace (Face.close f)).
Proof.
  vm_compute. repeat split; try done.
  intros Hin. apply elem_of_cons in Hin as [Hin|Hin]; [done|].
  by apply elem_of_nil in Hin.
Qed.

(** ** The Face: removing a pending Interest *)

Lemma indexOf_None x l : Face.indexOf x l = None ↔ x ∉ l.
Proof.
  induction l as [|y l IH]; simpl.
  - split; [intros _; apply not_elem_of_nil|done].
  - case_bool_decide as Hy.
    + subst y. split; [done|]. intros Hn. exfalso. apply Hn. left.
    + destruct (Face.indexOf x l) eqn:E; simpl.
      * split; [done|]. intros Hn. exfalso.
        apply not_elem_of_cons in Hn as [_ Hn]. by apply IH in Hn.
      * split; [|done]. intros _. apply not_elem_of_cons.
        split; [done|]. by apply IH.
Qed.

Lemma indexOf_Some x l i :
  Face.indexOf x l = Some i → l !! i = Some x ∧ x ∉ take i l.
Proof.
  revert i. induction l as [|y l IH]; intros i; simpl; [done|].
  case_bool_decide as Hy.
  - intros [= <-]. subst y. split; [done|]. simpl. apply not_elem_of_nil.
  - destruct (Face.indexOf x l) as [j|] eqn:E; simpl; [|done].
    intros [= <-]. destruct (IH j eq_refl) as [Hl Hn]. split; [done|].
    simpl. apply not_elem_of_cons. split; [done|exact Hn].
Qed.

Lemma clearTimeouts_nil f : clearTimeouts [] f = f.
Proof.
  unfold clearTimeouts. destruct f. unfold Face.set_timers. simpl. f_equal.
  induction timers as [|tm l IH]; [done|].
  rewrite filter_cons_True by apply not_elem_of_nil. by f_equal.
Qed.

Lemma clearTimeout_clearTimeouts id ids f :
  Face.clearTimeout id (clearTimeouts ids f) = clearTimeouts (ids ++ [id]) f.
Proof.
  unfold Face.clearTimeout, clearTimeouts, Face.set_timers. simpl. f_equal.
  induction (Face.timers f) as [|tm l IH]; [done|].
  destruct (decide (Face.timer_id tm ∈ ids)) as [Hin|Hnin].
  - rewrite (filter_cons_False (λ tm, Face.timer_id tm ∉ ids)) by tauto.
    rewrite (filter_cons_False (λ tm, Face.timer_id tm ∉ ids ++ [id])).
    + exact IH.
    + intros Hn. apply Hn. apply elem_of_app. by left.
  - rewrite (filter_cons_True (λ tm, Face.timer_id tm ∉ ids)) by done.
    destruct (decide (Face.timer_id tm = id)) as [Heq|Hne].
    + rewrite filter_cons_False by tauto.
      rewrite (filter_cons_False (λ tm, Face.timer_id tm ∉ ids ++ [id])).
      * exact IH.
      * intros Hn. apply Hn. apply elem_of_app. right. subst id. left.
    + rewrite filter_cons_True by done.
      rewrite (filter_cons_True (λ tm, Face.timer_id tm ∉ ids ++ [id])).
      * by f_equal.
      * intros Hn. apply elem_of_app in Hn as [?|Hn]; [done|].
        by apply list_elem_of_singleton in Hn.
Qed.

(** The loop of [removePendingInterest], in closed form. *)
Lemma removePendingInterest_loop_spec id :
  ∀ backwards later count ids f,
    Face.removePendingInterest_loop id backwards later count
      (clearTimeouts ids f)
    = (entries_without_id id (reverse backwards) ++ later,
       count + Z.of_nat (length (entries_with_id id backwards)),
       clearTimeouts
         (ids ++ map Face.timerID (entries_with_id id backwards)) f).
Proof.
  induction backwards as [|e backwards IH]; intros later count ids f.
  - simpl. by rewrite Z.add_0_r, app_nil_r.
  - cbn [Face.removePendingInterest_loop].
    unfold entries_with_id, entries_without_id in *.
    rewrite reverse_cons, filter_app.
    rewrite !filter_cons, filter_nil.
    case_bool_decide as He.
    + rewrite clearTimeout_clearTimeouts, IH.
      destruct (decide (Face.pendingInterestId e ≠ Some id)); [done|].
      destruct (decide (Face.pendingInterestId e = Some id)); [|done].
      rewrite app_nil_r, <- (assoc_L (++)).
      f_equal. f_equal. rewrite length_cons. lia.
    + rewrite IH.
      destruct (decide (Face.pendingInterestId e ≠ Some id)); [|done].
      destruct (decide (Face.pendingInterestId e = Some id)); [done|].
      by rewrite <- (assoc_L (++)).
Qed.

(** [removePendingInterest], in closed form: the entries with the id leave
    the table and their timers are cleared; when there is none and the id
    is not in the removal requests yet, it joins them. *)
Lemma removePendingInterest_spec id f :
  Face.removePendingInterest (Some id) f
  = let matching := entries_with_id id (Face.pendingInterestTable f) in
    let f1 :=
      Face.set_pendingInterestTable
        (entries_without_id id (Face.pendingInterestTable f))
        (clearTimeouts (map Face.timerID (reverse matching)) f) in
    match matching with
    | [] => if bool_decide (id ∈ Face.pitRemoveRequests f) then f1
            else Face.set_pitRemoveRequests
                   (Face.pitRemoveRequests f ++ [id]) f1
    | _ :: _ => f1
    end.
Proof.
  unfold Face.removePendingInterest.
  pose proof (removePendingInterest_loop_spec id
                (reverse (Face.pendingInterestTable f)) [] 0 [] f) as Hloop.
  rewrite clearTimeouts_nil in Hloop. rewrite Hloop. clear Hloop.
  rewrite reverse_involutive, app_nil_r. simpl.
  assert (entries_with_id id (reverse (Face.pendingInterestTable f))
          = reverse (entries_with_id id (Face.pendingInterestTable f)))
    as -> by apply filter_reverse.
  rewrite length_reverse.
  destruct (entries_with_id id (Face.pendingInterestTable f)) as [|e m] eqn:E.
  - simpl. destruct (Face.indexOf id (Face.pitRemoveRequests f)) eqn:Ei;
      simpl.
    + rewrite bool_decide_eq_true_2; [done|].
      destruct (decide (id ∈ Face.pitRemoveRequests f)) as [|Hn]; [done|].
      apply indexOf_None in Hn. congruence.
    + rewrite bool_decide_eq_false_2; [done|]. by apply indexOf_None.
  - replace (0 + Z.of_nat (length (e :: m)) =? 0) with false; [done|].
    symmetry. apply Z.eqb_neq. simpl. lia.
Qed.

Lemma entries_with_without id table :
  entries_with_id id (entries_without_id id table) = [].
Proof.
  unfold entries_with_id, entries_without_id.
  induction table as [|e table IH]; [done|].
  rewrite filter_cons. destruct (decide (Face.pendingInterestId e ≠ Some id)).
  - rewrite filter_cons. by destruct (decide (Face.pendingInterestId e = Some id)).
  - exact IH.
Qed.

Lemma entries_without_all id table :
  entries_with_id id table = [] → entries_without_id id table = table.
Proof.
  unfold entries_with_id, entries_without_id.
  induction table as [|e table IH]; [done|].
  rewrite !filter_cons.
  destruct (decide (Face.pendingInterestId e = Some id)); [done|].
  destruct (decide (Face.pendingInterestId e ≠ Some id)); [|done].
  intros Hnil. by rewrite IH.
Qed.

(** Without an entry of this id, [removePendingInterest] can only record
    the id. *)
Lemma removePendingInterest_absent id g :
  entries_with_id id (Face.pendingInterestTable g) = [] →
  Face.removePendingInterest (Some id) g
  = if bool_decide (id ∈ Face.pitRemoveRequests g) then g
    else Face.set_pitRemoveRequests (Face.pitRemoveRequests g ++ [id]) g.
Proof.
  intros Hnil. rewrite removePendingInterest_spec. cbn zeta.
  rewrite Hnil, (entries_without_all _ _ Hnil). simpl.
  rewrite clearTimeouts_nil.
  assert (Face.set_pendingInterestTable (Face.pendingInterestTable g) g = g)
    as -> by (by destruct g).
  done.
Qed.

(** C10 (as the code has it). A second [removePendingInterest(i)] never
    changes the pending interest table, the timers or the trace. It leaves
    the whole Face as the first call left it when no PIT entry had id [i]
    at the first call (the first call has then recorded [i] in the removal
    requests, or found it there). When an entry had id [i], the first call
    removes it and records nothing, and the second call, finding no entry,
    appends [i] to the removal requests. From the second call on, further
    calls change nothing. *)
Theorem removePendingInterest_twice (f : Face.t) (i : option Z) :
  let f1 := Face.removePendingInterest i f in
  let f2 := Face.removePendingInterest i f1 in
  Face.pendingInterestTable f2 = Face.pendingInterestTable f1 ∧
  Face.timers f2 = Face.timers f1 ∧
  Face.trace f2 = Face.trace f1 ∧
  ((∀ e, e ∈ Face.pendingInterestTable f → Face.pendingInterestId e ≠ i) →
   f2 = f1) ∧
  (∀ id e, i = Some id →
     e ∈ Face.pendingInterestTable f → Face.pendingInterestId e = Some id →
     id ∉ Face.pitRemoveRequests f →
     Face.pitRemoveRequests f1 = Face.pitRemoveRequests f ∧
     Face.pitRemoveRequests f2 = Face.pitRemoveRequests f ++ [id]) ∧
  Face.removePendingInterest i f2 = f2.
Proof.
  destruct i as [id|]; [|by cbn].
  intros f1 f2.
  assert (Hnil1 : entries_with_id id (Face.pendingInterestTable f1) = []).
  { subst f1. rewrite removePendingInterest_spec. cbn zeta.
    destruct (entries_with_id id (Face.pendingInterestTable f));
      [case_bool_decide|]; simpl; apply entries_with_without. }
  assert (Hf2 : f2 = if bool_decide (id ∈ Face.pitRemoveRequests f1) then f1
                     else Face.set_pitRemoveRequests
                            (Face.pitRemoveRequests f1 ++ [id]) f1)
    by (by apply removePendingInterest_absent).
  split; [|split; [|split; [|split; [|split]]]].
  - rewrite Hf2. by case_bool_decide.
  - rewrite Hf2. by case_bool_decide.
  - rewrite Hf2. by case_bool_decide.
  - intros Hnone. rewrite Hf2. rewrite bool_decide_eq_true_2; [done|].
    assert (Hnil : entries_with_id id (Face.pendingInterestTable f) = []).
    { unfold entries_with_id.
      destruct (filter _ _) as [|e l] eqn:E; [done|]. exfalso.
      assert (e ∈ filter (λ e, Face.pendingInterestId e = Some id)
                    (Face.pendingInterestTable f)) as Hin
        by (rewrite E; left).
      apply list_elem_of_filter in Hin as [He Hin]. by apply (Hnone e). }
    clear Hf2 Hnil1. subst f2 f1.
    rewrite (removePendingInterest_absent _ _ Hnil).
    case_bool_decide; [done|]. simpl. apply elem_of_app. right. left.
  - intros id' e [= <-] Hin He Hreq.
    assert (Hsome : ∃ e' m, entries_with_id id (Face.pendingInterestTable f)
                            = e' :: m).
    { unfold entries_with_id.
      destruct (filter _ _) as [|e' m] eqn:E; [|by eauto]. exfalso.
      assert (e ∈ filter (λ e, Face.pendingInterestId e = Some id)
                    (Face.pendingInterestTable f)) as Hin'
        by (by apply list_elem_of_filter).
      rewrite E in Hin'. by apply elem_of_nil in Hin'. }
    destruct Hsome as (e' & m & Hm).
    assert (Hreq1 : Face.pitRemoveRequests f1 = Face.pitRemoveRequests f).
    { subst f1. rewrite removePendingInterest_spec. cbn zeta. by rewrite Hm. }
    split; [done|]. rewrite Hf2, Hreq1.
    by rewrite bool_decide_eq_false_2.
  - assert (Hnil2 : entries_with_id id (Face.pendingInterestTable f2) = []).
    { rewrite Hf2. by case_bool_decide. }
    rewrite (removePendingInterest_absent _ _ Hnil2).
    rewrite bool_decide_eq_true_2; [done|].
    rewrite Hf2. clear Hf2 Hnil2. case_bool_decide; [done|]. simpl.
    apply elem_of_app. right. left.
Qed.

(** The claim that two calls leave the Face as one call does, whether or
    not a PIT entry with the id exists, fails: with the Interest of id 1
    pending, one call leaves the removal requests empty and two calls
    leave the stale request 1 there. *)
Lemma removePendingInterest_twice_counterexample :
  let f1 := Face.removePendingInterest (Some 1) one_pending in
  let f2 := Face.removePendingInterest (Some 1) f1 in
  map Face.pendingInterestId (Face.pendingInterestTable one_pending)
    = [Some 1] ∧
  Face.pitRemoveRequests f1 = [] ∧
  Face.pitRemoveRequests f2 = [1] ∧
  f2 ≠ f1.
Proof.
  vm_compute. repeat split; try done.
Qed.

(** ** The Face: expressing an Interest *)

Section ExpressInterestHelper.

Context `{Face.Collaborators}.

Lemma helper_too_large f id i od ot :
  ¬ fits i →
  Face.expressInterestHelper id i od ot f
  = Face.Thrown Face.EncodedInterestTooLarge f.
Proof.
  intros Hbig. unfold Face.expressInterestHelper, fits in *.
  destruct (Z.ltb_spec Face.getMaxNdnPacketSize
              (Z.of_nat (length (Face.wireEncode i)))); [done|lia].
Qed.

Lemma helper_suppressed f id i od ot index :
  fits i →
  removal_request f id = Some index →
  Face.expressInterestHelper id i od ot f
  = Face.Returned tt
      (send_unless_timeout i
         (Face.set_pitRemoveRequests
            (delete index (Face.pitRemoveRequests f)) f)).
Proof.
  intros Hfits Hreq. unfold Face.expressInterestHelper, fits, removal_request in *.
  destruct (Z.ltb_spec Face.getMaxNdnPacketSize
              (Z.of_nat (length (Face.wireEncode i)))); [lia|].
  by rewrite Hreq.
Qed.

Lemma helper_inserts f id i od ot :
  fits i →
  removal_request f id = None →
  Face.expressInterestHelper id i od ot f
  = Face.Returned tt
      (send_unless_timeout i
         (Face.setTimeout (new_entry f id i od ot) (timeoutMilliseconds i)
            (Face.set_pendingInterestTable
               (Face.pendingInterestTable f ++ [new_entry f id i od ot]) f))).
Proof.
  intros Hfits Hreq. unfold Face.expressInterestHelper, fits, removal_request in *.
  destruct (Z.ltb_spec Face.getMaxNdnPacketSize
              (Z.of_nat (length (Face.wireEncode i)))); [lia|].
  by rewrite Hreq.
Qed.

End ExpressInterestHelper.

(** ** The Face: receiving Data and firing timers, in closed form *)

Section ClosedForms.

Context `{Face.Collaborators}.

Lemma extract_loop_spec name :
  ∀ backwards later result ids f,
    Face.extract_loop name backwards later result (clearTimeouts ids f)
    = (not_matching name (reverse backwards) ++ later,
       result ++ matching name backwards,
       clearTimeouts (ids ++ map Face.timerID (matching name backwards)) f).
Proof.
  induction backwards as [|e backwards IH]; intros later result ids f.
  - simpl. by rewrite !app_nil_r.
  - cbn [Face.extract_loop]. unfold matching, not_matching in *.
    rewrite reverse_cons, filter_app, !filter_cons, filter_nil.
    destruct (Face.matchesName (Face.interest e) name) eqn:Hm.
    + rewrite clearTimeout_clearTimeouts, IH.
      destruct (decide (true ≠ true)); [done|].
      destruct (decide (true = true)); [|done].
      rewrite app_nil_r, <- !(assoc_L (++)). done.
    + rewrite IH.
      destruct (decide (false ≠ true)) as [_|Hn]; [|by destruct Hn].
      destruct (decide (false = true)); [done|].
      by rewrite <- (assoc_L (++)).
Qed.

Lemma extractEntries_spec name f :
  Face.extractEntriesForExpressedInterest name f
  = let matched := matching name (reverse (Face.pendingInterestTable f)) in
    Face.Returned matched
      (Face.set_pendingInterestTable
         (not_matching name (Face.pendingInterestTable f))
         (clearTimeouts (map Face.timerID matched) f)).
Proof.
  unfold Face.extractEntriesForExpressedInterest.
  pose proof (extract_loop_spec name (reverse (Face.pendingInterestTable f))
                [] [] [] f) as Hloop.
  rewrite clearTimeouts_nil in Hloop. rewrite Hloop.
  by rewrite reverse_involutive, app_nil_r.
Qed.

Lemma callOnData_spec data f e :
  Face.callOnData data f e
  = Face.set_trace (Face.trace f ++ onData_effects data e) f.
Proof.
  unfold Face.callOnData, onData_effects, Face.RegisterResponse_onData_body.
  destruct (Face.onData e) as [g|response]; [done|].
  destruct (Face.decodeStatusCode (data_content data)) as [code|];
    [|unfold Face.emit; simpl; by rewrite <- (assoc_L (++))].
  destruct (code =? 200); simpl; [done|].
  unfold Face.emit. simpl. by rewrite <- (assoc_L (++)).
Qed.

Lemma fold_callOnData data entries :
  ∀ f, fold_left (Face.callOnData data) entries f
       = Face.set_trace
           (Face.trace f ++ flat_map (onData_effects data) entries) f.
Proof.
  induction entries as [|e entries IH]; intros f.
  - simpl. rewrite app_nil_r. by destruct f.
  - cbn [fold_left flat_map]. rewrite IH, callOnData_spec.
    unfold Face.set_trace. simpl. by rewrite <- (assoc_L (++)).
Qed.

(** Receiving a Data packet: the matched entries, from last to first, leave
    the table, their timers are cleared, and the [onData] of each is
    called. *)
Lemma onReceivedData_spec data f :
  Face.onReceivedElement (Face.ElementData data) f
  = let matched :=
      matching (data_name data) (reverse (Face.pendingInterestTable f)) in
    Face.set_trace
      (Face.trace f ++ flat_map (onData_effects data) matched)
      (Face.set_pendingInterestTable
         (not_matching (data_name data) (Face.pendingInterestTable f))
         (clearTimeouts (map Face.timerID matched) f)).
Proof.
  unfold Face.onReceivedElement. rewrite extractEntries_spec.
  lazy beta iota zeta. by rewrite fold_callOnData.
Qed.

Lemma timeoutCallback_spec e f :
  Face.timeoutCallback e f
  = Face.set_trace (Face.trace f ++ onTimeout_effects e)
      (Face.set_pendingInterestTable
         (match list_find (λ e', Face.timerID e' = Face.timerID e)
                  (Face.pendingInterestTable f) with
          | Some (index, _) => delete index (Face.pendingInterestTable f)
          | None => Face.pendingInterestTable f
          end) f).
Proof.
  unfold Face.timeoutCallback, onTimeout_effects,
    Face.RegisterResponse_onTimeout_body, Face.emit.
  destruct (Face.onTimeout e); simpl; try done.
  by rewrite <- (assoc_L (++)).
Qed.

End ClosedForms.

(** ** Events as sequences of small steps *)

Lemma frame_refl f : frame f f.
Proof.
  unfold frame. repeat split; try done; try lia.
  exists []. by rewrite app_nil_r.
Qed.

Lemma frame_trans f g h : frame f g → frame g h → frame f h.
Proof.
  intros (H1 & H2 & H3 & H4 & H5 & H6 & Hs & effs1 & H7 & H8)
         (K1 & K2 & K3 & K4 & K5 & K6 & Ks & effs2 & K7 & K8).
  unfold frame. rewrite K1, K2, K3, K4, K5, K7, H7.
  repeat split; try done; try lia; [tauto|].
  exists (effs1 ++ effs2). split; [by rewrite (assoc_L (++))|].
  rewrite forallb_app. by rewrite H8, K8.
Qed.

Lemma frame_emit f eff : quiet eff = true → frame f (Face.emit eff f).
Proof.
  intros Hq. unfold frame. simpl. repeat split; try done; try lia.
  exists [eff]. split; [done|]. simpl. by rewrite Hq.
Qed.

(** A step that changes none of the fields that [frame] watches, and does
    not lower [lastEntryId]. *)
Lemma frame_same f f' :
  Face.pendingInterestTable f' = Face.pendingInterestTable f →
  Face.timers f' = Face.timers f →
  Face.nextTimerID f' = Face.nextTimerID f →
  Face.onConnectedCallbacks f' = Face.onConnectedCallbacks f →
  Face.pitRemoveRequests f' = Face.pitRemoveRequests f →
  Face.lastEntryId f ≤ Face.lastEntryId f' →
  (Face.readyStatus f' = Face.OPENED → Face.readyStatus f = Face.OPENED) →
  Face.trace f' = Face.trace f →
  frame f f'.
Proof.
  intros. unfold frame. repeat split; try done.
  exists []. by rewrite app_nil_r.
Qed.

Create HintDb frames.

#[local] Hint Resolve frame_refl : frames.
#[local] Hint Extern 1 (frame _ (Face.emit _ _)) =>
  (apply frame_emit; reflexivity) : frames.
#[local] Hint Extern 2 (frame _ _) =>
  (apply frame_same; simpl; solve [reflexivity | lia | done]) : frames.

Lemma unsetInterestFilter_frame id f : frame f (Face.unsetInterestFilter id f).
Proof. auto with frames. Qed.

Lemma removeRegisteredPrefix_loop_frame id f :
  ∀ backwards later count g,
    frame f g →
    frame f (Face.removeRegisteredPrefix_loop id backwards later count g).2.
Proof.
  induction backwards as [|e backwards IH]; intros later count g Hg; [done|].
  cbn [Face.removeRegisteredPrefix_loop].
  destruct (bool_decide _); [|by apply IH].
  apply IH. destruct (0 <? _); [|done].
  eapply frame_trans; [exact Hg|apply unsetInterestFilter_frame].
Qed.

Lemma removeRegisteredPrefix_frame id f :
  frame f (Face.removeRegisteredPrefix id f).
Proof.
  unfold Face.removeRegisteredPrefix.
  pose proof (removeRegisteredPrefix_loop_frame id f
                (reverse (Face.registeredPrefixTable f)) [] 0 f
                (frame_refl f)) as Hloop.
  destruct (Face.removeRegisteredPrefix_loop _ _ _ _ _) as [[table count] g].
  simpl in Hloop.
  assert (frame f (Face.set_registeredPrefixTable table g)) as Hg.
  { eapply frame_trans; [exact Hloop|auto with frames]. }
  destruct (count =? 0); [|done].
  simpl. destruct (Face.indexOf _ _); [done|].
  eapply frame_trans; [exact Hg|auto with frames].
Qed.

Section Decomposition.

Context `{Face.Collaborators}.

Lemma interest_filters_frame interest table :
  ∀ f, frame f
         (fold_left
            (λ f entry,
               if Face.doesMatch (Face.entry_filter entry)
                    (interest_name interest)
               then Face.emit (Face.CallOnInterest entry interest) f
               else f)
            table f).
Proof.
  induction table as [|entry table IH]; intros f; [apply frame_refl|].
  simpl. destruct (Face.doesMatch _ _); [|apply IH].
  eapply frame_trans; [|apply IH]. auto with frames.
Qed.

Lemma helper_keeps_queue f id i od ot :
  Face.onConnectedCallbacks
    (Face.after (Face.expressInterestHelper id i od ot f))
  = Face.onConnectedCallbacks f.
Proof.
  unfold Face.expressInterestHelper.
  destruct (_ <? _); [done|].
  destruct (id ≫= _); destruct (negb _); done.
Qed.

Lemma drain_micro :
  ∀ callbacks f,
    Face.onConnectedCallbacks f = callbacks →
    rtc (micro true) f (Face.drain callbacks f).
Proof.
  induction callbacks as [|d rest IH]; intros f Hq; [apply rtc_refl|].
  cbn [Face.drain].
  eapply rtc_l; [by apply (micro_dequeue true f d rest)|].
  apply IH. by rewrite helper_keeps_queue.
Qed.

Lemma micro_sending_mono f f' : micro false f f' → micro true f f'.
Proof.
  intros Hm. destruct Hm; try done.
  - by apply micro_frame.
  - apply micro_enqueue.
  - apply micro_remove.
  - apply micro_data.
  - apply micro_fire.
Qed.

Lemma alloc_fields allocate f :
  Face.pendingInterestTable (alloc allocate f) = Face.pendingInterestTable f ∧
  Face.timers (alloc allocate f) = Face.timers f ∧
  Face.nextTimerID (alloc allocate f) = Face.nextTimerID f ∧
  Face.onConnectedCallbacks (alloc allocate f) = Face.onConnectedCallbacks f ∧
  Face.pitRemoveRequests (alloc allocate f) = Face.pitRemoveRequests f ∧
  Face.readyStatus (alloc allocate f) = Face.readyStatus f ∧
  Face.connectionInfo (alloc allocate f) = Face.connectionInfo f ∧
  Face.transport_connectionInfo (alloc allocate f)
    = Face.transport_connectionInfo f ∧
  Face.trace (alloc allocate f) = Face.trace f ∧
  Face.lastEntryId f ≤ Face.lastEntryId (alloc allocate f).
Proof. destruct allocate; simpl; repeat split; try done; lia. Qed.

Lemma alloc_frame allocate f : frame f (alloc allocate f).
Proof.
  destruct (alloc_fields allocate f)
    as (? & ? & ? & ? & ? & ? & ? & ? & ? & ?).
  apply frame_same; try done. congruence.
Qed.

Lemma reconnect_micro f allocate i od ot :
  rtc (micro (bool_decide (Face.readyStatus f = Face.OPENED))) f
    (Face.after
       (Face.reconnectAndExpressInterest (new_id f allocate) i od ot
          (alloc allocate f))).
Proof.
  destruct (alloc_fields allocate f)
    as (Hp & Ht & Hn & Hq & Hr & Hs & Hc & Htc & Htr & Hl).
  unfold Face.reconnectAndExpressInterest. rewrite Hc, Htc, Hs.
  destruct (Face.connectionInfo f) as [info|];
    [|apply rtc_once, micro_frame, alloc_frame].
  destruct (negb _ || _).
  - cbn [Face.after].
    eapply rtc_l; [apply (micro_enqueue _ _ allocate i od ot)|].
    apply rtc_once, micro_frame.
    eapply frame_trans; [|apply frame_emit; reflexivity].
    apply frame_same; simpl; rewrite ?Hq; try done; lia.
  - destruct (Face.readyStatus f) eqn:Hst; cbn [Face.after];
      try apply rtc_once, micro_frame, alloc_frame.
    + apply rtc_once. rewrite Hq. apply (micro_enqueue _ _ allocate i od ot).
    + apply rtc_once. by apply micro_express.
Qed.

Lemma expressInterest_micro f i od ot :
  rtc (micro (bool_decide (Face.readyStatus f = Face.OPENED))) f
    (Face.after (Face.expressInterest i od ot f)).
Proof.
  cbv [Face.expressInterest Face.bind Face.getNextEntryId Face.read Face.ret
       Face.exec].
  cbn [Face.connectionInfo Face.set_lastEntryId].
  change (Face.set_lastEntryId (Face.lastEntryId f + 1) f) with (alloc true f).
  change (Some (Face.lastEntryId f + 1)) with (new_id f true).
  destruct (Face.connectionInfo f) as [info|].
  - pose proof (reconnect_micro f true i (Face.AppOnData od)
                  (match ot with
                   | Some g => Face.AppOnTimeout g
                   | None => Face.EmptyOnTimeout
                   end)) as Hr.
    destruct (Face.reconnectAndExpressInterest _ _ _ _ _); exact Hr.
  - cbn [Face.after]. apply rtc_once, micro_frame.
    eapply frame_trans; [apply (alloc_frame true)|auto with frames].
Qed.

Lemma reconnect_after_frame f g i od ot :
  frame f g →
  Face.readyStatus g = Face.readyStatus f →
  rtc (micro (bool_decide (Face.readyStatus f = Face.OPENED))) f
    (Face.after (Face.reconnectAndExpressInterest None i od ot g)).
Proof.
  intros Hg Hst. eapply rtc_l; [apply micro_frame, Hg|].
  rewrite <- Hst. apply (reconnect_micro g false).
Qed.

Lemma onIsLocalResult_micro f g id prefix onInterest flags onRegisterFailed b :
  frame f g →
  Face.readyStatus g = Face.readyStatus f →
  rtc (micro (bool_decide (Face.readyStatus f = Face.OPENED))) f
    (Face.after
       (Face.onIsLocalResult id prefix onInterest flags onRegisterFailed b g)).
Proof.
  intros Hg Hst.
  cbv [Face.onIsLocalResult Face.bind Face.setInterestFilter
       Face.getNextEntryId Face.ret Face.exec].
  match goal with
  | |- context [Face.reconnectAndExpressInterest None ?ci ?od ?ot] =>
      set (commandInterest := ci); set (onData := od); set (onTimeout := ot)
  end.
  destruct (negb (id =? 0)).
  - destruct onInterest as [h|].
    + match goal with
      | |- context [Face.reconnectAndExpressInterest _ _ _ _ ?g'] =>
          pose proof (reconnect_after_frame f g' commandInterest onData
                        onTimeout) as Hr
      end.
      destruct (Face.reconnectAndExpressInterest _ _ _ _ _);
        apply Hr; try done;
        (eapply frame_trans; [exact Hg|]);
        apply frame_same; simpl; try done; lia.
    + match goal with
      | |- context [Face.reconnectAndExpressInterest _ _ _ _ ?g'] =>
          pose proof (reconnect_after_frame f g' commandInterest onData
                        onTimeout) as Hr
      end.
      destruct (Face.reconnectAndExpressInterest _ _ _ _ _);
        apply Hr; try done;
        (eapply frame_trans; [exact Hg|]);
        apply frame_same; simpl; try done; lia.
  - pose proof (reconnect_after_frame f g commandInterest onData onTimeout
                  Hg Hst) as Hr.
    destruct (Face.reconnectAndExpressInterest _ _ _ _ _); exact Hr.
Qed.

Lemma registerPrefix_micro f prefix onInterest onRegisterFailed flags :
  rtc (micro (bool_decide (Face.readyStatus f = Face.OPENED))) f
    (Face.after
       (Face.registerPrefix prefix onInterest onRegisterFailed flags f)).
Proof.
  cbv [Face.registerPrefix Face.bind Face.getNextEntryId Face.read Face.ret
       Face.exec Face.nfdRegisterPrefix Face.throw Face.isLocal].
  cbn [Face.connectionInfo Face.set_lastEntryId Face.commandKeyChain
       Face.commandCertificateName Face.registeredPrefixRemoveRequests].
  set (fa := Face.set_lastEntryId (Face.lastEntryId f + 1) f).
  assert (Hfa : frame f fa) by (subst fa; apply frame_same; simpl; try done; lia).
  destruct (Face.connectionInfo f) as [info|] eqn:Hci;
    [|cbn [Face.after]; apply rtc_once, micro_frame;
      eapply frame_trans; [exact Hfa|auto with frames]].
  destruct (Face.indexOf _ _);
    [cbn [Face.after]; apply rtc_once, micro_frame;
     eapply frame_trans; [exact Hfa|auto with frames]|].
  destruct (negb (Face.commandKeyChain fa));
    [by apply rtc_once, micro_frame|].
  destruct (Name_size _ =? 0); [by apply rtc_once, micro_frame|].
  assert (Face.connectionInfo fa = Some info) as -> by done.
  destruct (Face.transport_isLocal info) as [b|];
    [|cbn [Face.after]; apply rtc_once, micro_frame;
      eapply frame_trans; [exact Hfa|auto with frames]].
  pose proof (onIsLocalResult_micro f fa (Face.lastEntryId f + 1) prefix
                onInterest flags
                (match onRegisterFailed with
                 | Some g => Face.AppOnRegisterFailed g
                 | None => Face.EmptyOnRegisterFailed
                 end) b Hfa eq_refl) as Hr.
  destruct (Face.onIsLocalResult _ _ _ _ _ _ fa); exact Hr.
Qed.

(** Every event is a sequence of small steps, and sends are processed only
    when the Face is OPENED or is being opened. *)
Lemma step_micro f e : rtc (micro (may_send f e)) f (Face.step f e).
Proof.
  destruct e; cbn [Face.step may_send].
  - apply expressInterest_micro.
  - apply expressInterest_micro.
  - apply rtc_once, micro_remove.
  - apply registerPrefix_micro.
  - apply rtc_once, micro_frame, removeRegisteredPrefix_frame.
  - apply rtc_once, micro_frame.
    cbv [Face.setInterestFilter Face.bind Face.getNextEntryId Face.ret
         Face.exec]. cbn [Face.after].
    apply frame_same; simpl; try done; lia.
  - apply rtc_once, micro_frame, unsetInterestFilter_frame.
  - apply rtc_once, micro_frame. auto with frames.
  - apply rtc_once, micro_frame. unfold Face.close.
    destruct (Face.readyStatus f); auto with frames.
    eapply frame_trans; [|apply frame_emit; reflexivity]. auto with frames.
  - destruct (Face.transport_connectionInfo f); [|apply rtc_refl].
    unfold Face.onopenCallback.
    eapply rtc_l; [by apply micro_opened|].
    eapply rtc_trans; [by apply drain_micro|].
    apply rtc_once, micro_frame. auto with frames.
  - destruct (Face.transport_connectionInfo f); [|apply rtc_refl].
    apply rtc_once, micro_frame. unfold Face.closeByTransport.
    eapply frame_trans; [|apply frame_emit; reflexivity]. auto with frames.
  - destruct element as [i|d|].
    + apply rtc_once, micro_frame, interest_filters_frame.
    + apply rtc_once, micro_data.
    + apply rtc_refl.
  - apply rtc_once, micro_fire.
Qed.

End Decomposition.

(** ** What the small steps do to the fields *)

Section Fields.

Context `{Face.Collaborators}.

Lemma helper_cases f id i od ot :
  helper_result f id i od ot
    (Face.after (Face.expressInterestHelper id i od ot f)).
Proof.
  destruct (decide (Z.of_nat (length (Face.wireEncode i))
                    ≤ Face.getMaxNdnPacketSize)) as [Hfits|Hbig];
    fold (fits i) in *.
  - destruct (removal_request f id) as [index|] eqn:Hreq.
    + rewrite (helper_suppressed _ _ _ _ _ _ Hfits Hreq).
      destruct id as [x|]; [|done]. simpl in Hreq.
      by eapply helper_result_suppressed.
    + rewrite (helper_inserts _ _ _ _ _ Hfits Hreq).
      by apply helper_result_inserted.
  - rewrite (helper_too_large _ _ _ _ _ Hbig). by apply helper_result_too_large.
Qed.

Lemma send_unless_timeout_fields i f :
  let f' := send_unless_timeout i f in
  Face.pendingInterestTable f' = Face.pendingInterestTable f ∧
  Face.timers f' = Face.timers f ∧
  Face.nextTimerID f' = Face.nextTimerID f ∧
  Face.onConnectedCallbacks f' = Face.onConnectedCallbacks f ∧
  Face.pitRemoveRequests f' = Face.pitRemoveRequests f ∧
  Face.lastEntryId f' = Face.lastEntryId f ∧
  Face.readyStatus f' = Face.readyStatus f ∧
  Face.trace f'
    = Face.trace f
      ++ (if Name_match Face.timeoutPrefix (interest_name i) then []
          else [Face.TransportSend (Face.wireEncode i)]).
Proof.
  unfold send_unless_timeout.
  destruct (Name_match _ _); simpl; repeat split; try done.
  by rewrite app_nil_r.
Qed.

Lemma removePendingInterest_fields id f :
  let f' := Face.removePendingInterest (Some id) f in
  Face.pendingInterestTable f'
    = entries_without_id id (Face.pendingInterestTable f) ∧
  Face.timers f'
    = filter (λ tm, Face.timer_id tm
                    ∉ map Face.timerID
                        (reverse (entries_with_id id
                                    (Face.pendingInterestTable f))))
        (Face.timers f) ∧
  Face.nextTimerID f' = Face.nextTimerID f ∧
  Face.onConnectedCallbacks f' = Face.onConnectedCallbacks f ∧
  Face.lastEntryId f' = Face.lastEntryId f ∧
  Face.readyStatus f' = Face.readyStatus f ∧
  Face.trace f' = Face.trace f ∧
  (Face.pitRemoveRequests f' = Face.pitRemoveRequests f
   ∨ (Face.pitRemoveRequests f' = Face.pitRemoveRequests f ++ [id]
      ∧ entries_with_id id (Face.pendingInterestTable f) = []
      ∧ id ∉ Face.pitRemoveRequests f)).
Proof.
  cbn zeta. rewrite removePendingInterest_spec. cbn zeta.
  destruct (entries_with_id id (Face.pendingInterestTable f)) eqn:E.
  - case_bool_decide; simpl; repeat split; try done; auto.
  - simpl. repeat split; try done; auto.
Qed.

Lemma onReceivedData_fields data f :
  let f' := Face.onReceivedElement (Face.ElementData data) f in
  let matched :=
    matching (data_name data) (reverse (Face.pendingInterestTable f)) in
  Face.pendingInterestTable f'
    = not_matching (data_name data) (Face.pendingInterestTable f) ∧
  Face.timers f'
    = filter (λ tm, Face.timer_id tm ∉ map Face.timerID matched)
        (Face.timers f) ∧
  Face.nextTimerID f' = Face.nextTimerID f ∧
  Face.onConnectedCallbacks f' = Face.onConnectedCallbacks f ∧
  Face.pitRemoveRequests f' = Face.pitRemoveRequests f ∧
  Face.lastEntryId f' = Face.lastEntryId f ∧
  Face.readyStatus f' = Face.readyStatus f ∧
  Face.trace f' = Face.trace f ++ flat_map (onData_effects data) matched.
Proof. cbn zeta. rewrite onReceivedData_spec. by cbn. Qed.

Lemma fire_fields t f :
  let f' := Face.fire t f in
  match pending_timer t f with
  | None => f' = f
  | Some tm =>
      tm ∈ Face.timers f ∧ Face.timer_id tm = t ∧
      Face.pendingInterestTable f'
        = without_first (Face.timerID (Face.timer_entry tm))
            (Face.pendingInterestTable f) ∧
      Face.timers f' = filter (λ tm', Face.timer_id tm' ≠ t) (Face.timers f) ∧
      Face.nextTimerID f' = Face.nextTimerID f ∧
      Face.onConnectedCallbacks f' = Face.onConnectedCallbacks f ∧
      Face.pitRemoveRequests f' = Face.pitRemoveRequests f ∧
      Face.lastEntryId f' = Face.lastEntryId f ∧
      Face.readyStatus f' = Face.readyStatus f ∧
      Face.trace f'
        = Face.trace f ++ onTimeout_effects (Face.timer_entry tm)
  end.
Proof.
  cbn zeta. unfold Face.fire, pending_timer.
  destruct (list_find _ (Face.timers f)) as [[index tm]|] eqn:Hfind;
    [|done].
  apply list_find_Some in Hfind as (Hl & Ht & _).
  simpl. rewrite timeoutCallback_spec. simpl.
  repeat split; try done. by eapply list_elem_of_lookup_2.
Qed.

End Fields.

(** ** Steps that only shrink the tables *)

Lemma sublist_map {A B} (g : A → B) (l1 l2 : list A) :
  l1 `sublist_of` l2 → map g l1 `sublist_of` map g l2.
Proof.
  induction 1; simpl; [constructor|by apply sublist_skip|by apply sublist_cons].
Qed.

Lemma Forall_sublist {A} (P : A → Prop) (l1 l2 : list A) :
  l1 `sublist_of` l2 → Forall P l2 → Forall P l1.
Proof.
  intros Hsub Hall. apply Forall_forall. intros x Hx.
  eapply Forall_forall; [exact Hall|]. by eapply elem_of_sublist.
Qed.

Lemma elem_of_map_sublist {A B} (g : A → B) (l1 l2 : list A) y :
  l1 `sublist_of` l2 → y ∈ map g l1 → y ∈ map g l2.
Proof. intros Hsub Hy. eapply elem_of_sublist; [exact Hy|by apply sublist_map]. Qed.

Section Shrinking.

Context `{Face.Collaborators}.

Lemma frame_shrinks f f' : frame f f' → shrinks f f'.
Proof.
  intros (Hp & Ht & Hn & Hq & Hr & Hl & _ & effects & Htr & Hquiet).
  unfold shrinks. rewrite Hp, Ht, Hn, Hq, Hr.
  repeat split; try done; auto.
  exists effects. split; [done|].
  apply Forall_forall. intros eff Hin.
  apply list_elem_of_In in Hin.
  pose proof (proj1 (forallb_forall _ _) Hquiet eff Hin) as Hq'.
  by destruct eff.
Qed.

Lemma opened_shrinks f : shrinks f (Face.set_readyStatus Face.OPENED f).
Proof.
  unfold shrinks. simpl. repeat split; try done; auto; try lia.
  exists []. split; [by rewrite app_nil_r|constructor].
Qed.

Lemma removePendingInterest_shrinks id f :
  shrinks f (Face.removePendingInterest id f).
Proof.
  destruct id as [id|]; [|apply frame_shrinks, frame_refl].
  destruct (removePendingInterest_fields id f)
    as (Hp & Ht & Hn & Hq & Hl & _ & Htr & Hr).
  unfold shrinks. rewrite Hp, Ht, Hn, Hq, Hl, Htr.
  split; [apply sublist_filter|]. split; [apply sublist_filter|].
  repeat split; try done.
  - destruct Hr as [->|(-> & _)]; eauto.
  - exists []. by rewrite app_nil_r.
Qed.

Lemma matching_in name table e :
  e ∈ matching name (reverse table) →
  e ∈ table ∧ Face.matchesName (Face.interest e) name = true.
Proof.
  unfold matching. intros Hin.
  apply list_elem_of_filter in Hin as [Hm Hin].
  rewrite elem_of_reverse in Hin. split; [exact Hin|exact Hm].
Qed.

Lemma onReceivedData_shrinks data f :
  shrinks f (Face.onReceivedElement (Face.ElementData data) f).
Proof.
  destruct (onReceivedData_fields data f)
    as (Hp & Ht & Hn & Hq & Hr & Hl & _ & Htr).
  unfold shrinks. rewrite Hp, Ht, Hn, Hq, Hl, Hr, Htr.
  split; [apply sublist_filter|]. split; [apply sublist_filter|].
  repeat split; try done; auto.
  eexists. split; [done|].
  apply Forall_forall. intros eff Hin.
  apply list_elem_of_In, in_flat_map in Hin as (e & He & Hin).
  apply list_elem_of_In, matching_in in He as [He _].
  unfold onData_effects in Hin. destruct Hin as [<-|Hin]; [done|].
  destruct (Face.onData e); [done|].
  destruct (Face.decodeStatusCode _) as [code|];
    [destruct (code =? 200); [done|]|];
    by destruct Hin as [<-|[]].
Qed.

Lemma fire_shrinks t f : shrinks f (Face.fire t f).
Proof.
  pose proof (fire_fields t f) as Hf. cbn zeta in Hf.
  destruct (pending_timer t f) as [tm|];
    [|rewrite Hf; apply frame_shrinks, frame_refl].
  destruct Hf as (Hin & Hid & Hp & Ht & Hn & Hq & Hr & Hl & _ & Htr).
  unfold shrinks. rewrite Hp, Ht, Hn, Hq, Hl, Hr, Htr.
  split.
  { unfold without_first. destruct (list_find _ _) as [[index x]|];
      [apply sublist_delete|done]. }
  split; [apply sublist_filter|].
  repeat split; try done; auto.
  eexists. split; [done|].
  unfold onTimeout_effects. constructor; [by exists tm|].
  destruct (Face.onTimeout _); by repeat constructor.
Qed.

End Shrinking.

(** ** The fields after [expressInterestHelper] *)

Section HelperFields.

Context `{Face.Collaborators}.

Lemma helper_fields f id i od ot :
  let f' := Face.after (Face.expressInterestHelper id i od ot f) in
  helper_rejected f f' i ∨ helper_skipped f f' id i
  ∨ helper_added f f' id i od ot.
Proof.
  cbn zeta. destruct (helper_cases f id i od ot) as [Hbig|x index Hfits -> Hidx|Hfits Hreq].
  - left. by split.
  - right. left.
    destruct (send_unless_timeout_fields i
                (Face.set_pitRemoveRequests
                   (delete index (Face.pitRemoveRequests f)) f))
      as (Hp & Ht & Hn & Hq & Hr & Hl & Hs & Htr).
    unfold helper_skipped. rewrite Hp, Ht, Hn, Hq, Hl, Hs, Htr.
    split; [done|]. split; [|by repeat split].
    exists x, index. by rewrite Hr.
  - right. right.
    match goal with
    | |- helper_added _ (send_unless_timeout i ?g) _ _ _ _ =>
        destruct (send_unless_timeout_fields i g)
          as (Hp & Ht & Hn & Hq & Hr & Hl & Hs & Htr)
    end.
    unfold helper_added. rewrite Hp, Ht, Hn, Hq, Hl, Hs, Htr, Hr.
    by repeat split.
Qed.

End HelperFields.

(** ** Invariants of the Face *)

Section RunInvariant.

Context `{Face.Collaborators}.

(** A property of the Face that every small step keeps is kept by every
    event. *)
Variable Inv : Face.t → Prop.

Hypothesis Inv_micro :
  ∀ sending f f', micro sending f f' → Inv f → Inv f'.

Lemma rtc_micro_invariant sending f f' :
  rtc (micro sending) f f' → Inv f → Inv f'.
Proof.
  induction 1 as [|f g h Hm _ IH]; [done|].
  intros HI. apply IH. by eapply Inv_micro.
Qed.

Lemma step_invariant f e : Inv f → Inv (Face.step f e).
Proof. apply (rtc_micro_invariant (may_send f e)), step_micro. Qed.

Lemma run_invariant events : ∀ f, Inv f → Inv (Face.run f events).
Proof.
  induction events as [|e events IH]; intros f HI; [done|].
  simpl. apply IH. by apply step_invariant.
Qed.

End RunInvariant.

Section Invariant.

Context `{Face.Collaborators}.

(** The small steps in four kinds: those that shrink the tables, and the
    three that deal with a send. *)
Variable Inv : Face.t → Prop.

Hypothesis Inv_shrinks : ∀ f f', shrinks f f' → Inv f → Inv f'.

Hypothesis Inv_enqueue :
  ∀ f allocate i od ot,
    Inv f →
    Inv (Face.set_onConnectedCallbacks
           (Face.onConnectedCallbacks f
              ++ [Face.mkDeferred (new_id f allocate) i od ot])
           (alloc allocate f)).

Hypothesis Inv_dequeue :
  ∀ f d rest g',
    Face.onConnectedCallbacks f = d :: rest →
    Inv f →
    helper_outcome (Face.set_onConnectedCallbacks rest f) g'
      (Face.deferred_id d) (Face.deferred_interest d) (Face.deferred_onData d)
      (Face.deferred_onTimeout d) →
    Inv g'.

Hypothesis Inv_express :
  ∀ f allocate i od ot g',
    Inv f →
    helper_outcome (alloc allocate f) g' (new_id f allocate) i od ot →
    Inv g'.

Lemma micro_invariant sending f f' : micro sending f f' → Inv f → Inv f'.
Proof.
  intros Hm HI.
  destruct Hm as [f' Hf| | | d rest _ Hq | allocate i od ot _ | | | ].
  - eapply Inv_shrinks; [by apply frame_shrinks|done].
  - eapply Inv_shrinks; [apply opened_shrinks|done].
  - by apply Inv_enqueue.
  - eapply Inv_dequeue; [exact Hq|exact HI|apply helper_fields].
  - eapply Inv_express; [exact HI|apply helper_fields].
  - eapply Inv_shrinks; [apply removePendingInterest_shrinks|done].
  - eapply Inv_shrinks; [apply onReceivedData_shrinks|done].
  - eapply Inv_shrinks; [apply fire_shrinks|done].
Qed.

(** Without sends in process, two kinds are left. *)
Lemma micro_invariant_quiet f f' : micro false f f' → Inv f → Inv f'.
Proof.
  intros Hm HI.
  destruct Hm as [f' Hf| Hs | | d rest Hs Hq | allocate i od ot Hs | | | ];
    try done.
  - eapply Inv_shrinks; [by apply frame_shrinks|done].
  - by apply Inv_enqueue.
  - eapply Inv_shrinks; [apply removePendingInterest_shrinks|done].
  - eapply Inv_shrinks; [apply onReceivedData_shrinks|done].
  - eapply Inv_shrinks; [apply fire_shrinks|done].
Qed.

End Invariant.

(** ** At most one callback per PIT entry *)

Lemma count_app test l1 l2 :
  count test (l1 ++ l2) = (count test l1 + count test l2)%nat.
Proof. unfold count. by rewrite List.filter_app, length_app. Qed.

Lemma count_nil test : count test [] = 0%nat.
Proof. done. Qed.

Lemma count_cons test eff l :
  count test (eff :: l)
  = ((if test eff then 1 else 0) + count test l)%nat.
Proof. unfold count. simpl. by destruct (test eff). Qed.

Lemma count_zero test l :
  (∀ eff, eff ∈ l → test eff = false) → count test l = 0%nat.
Proof.
  induction l as [|eff l IH]; intros Hall; [done|].
  rewrite count_cons, (Hall eff) by left. simpl.
  apply IH. intros e He. apply Hall. by right.
Qed.

Lemma count_positive test l :
  count test l ≠ 0%nat → ∃ eff, eff ∈ l ∧ test eff = true.
Proof.
  induction l as [|eff l IH]; [done|].
  rewrite count_cons. destruct (test eff) eqn:Ht.
  - intros _. exists eff. split; [left|done].
  - simpl. intros Hc. destruct (IH Hc) as (e & He & Hte).
    exists e. split; [by right|done].
Qed.

Lemma NoDup_map_same {A} (g : A → Z) (l : list A) x y :
  NoDup (map g l) → x ∈ l → y ∈ l → g x = g y → x = y.
Proof.
  induction l as [|a l IH]; intros Hnd Hx Hy Hg; [by apply elem_of_nil in Hx|].
  simpl in Hnd. apply NoDup_cons in Hnd as [Hna Hnd].
  apply elem_of_cons in Hx as [->|Hx]; apply elem_of_cons in Hy as [->|Hy].
  - done.
  - exfalso. apply Hna. rewrite Hg. by apply (list_elem_of_fmap_2 g).
  - exfalso. apply Hna. rewrite <- Hg. by apply (list_elem_of_fmap_2 g).
  - by apply IH.
Qed.

Lemma filter_none {A} (P : A → Prop) `{∀ x, Decision (P x)} (l : list A) :
  (∀ x, x ∈ l → ¬ P x) → filter P l = [].
Proof.
  induction l as [|a l IH]; intros Hall; [done|].
  rewrite filter_cons. destruct (decide (P a)) as [Ha|Ha].
  - exfalso. by apply (Hall a); [left|].
  - apply IH. intros x Hx. apply Hall. by right.
Qed.

Lemma NoDup_map_filter_length {A} (g : A → Z) (l : list A) t :
  NoDup (map g l) → (length (filter (λ x, g x = t) l) ≤ 1)%nat.
Proof.
  induction l as [|a l IH]; intros Hnd; [simpl; lia|].
  simpl in Hnd. apply NoDup_cons in Hnd as [Hna Hnd].
  rewrite filter_cons. destruct (decide (g a = t)) as [Ha|Ha]; [|by apply IH].
  rewrite filter_none; [simpl; lia|].
  intros x Hx Hgx. apply Hna. rewrite Ha, <- Hgx.
  by apply (list_elem_of_fmap_2 g).
Qed.

(** The callbacks that Data calls: one [onData] per matched entry. *)
Lemma count_onData_effects `{Face.Collaborators} data t entries :
  count (is_invocation t) (flat_map (onData_effects data) entries)
  = length (filter (λ e, Face.timerID e = t) entries).
Proof.
  induction entries as [|e entries IH]; [done|].
  cbn [flat_map]. rewrite count_app, IH, filter_cons.
  unfold onData_effects. rewrite count_cons. cbn [is_invocation].
  assert (count (is_invocation t)
            match Face.onData e with
            | Face.AppOnData _ => []
            | Face.RegisterResponse_onData response =>
                match Face.decodeStatusCode (data_content data) with
                | Some statusCode =>
                    if statusCode =? 200 then []
                    else [Face.CallOnRegisterFailed
                            (Face.response_onRegisterFailed response)
                            (Face.response_prefix response)]
                | None => [Face.CallOnRegisterFailed
                             (Face.response_onRegisterFailed response)
                             (Face.response_prefix response)]
                end
            end = 0%nat) as ->.
  { destruct (Face.onData e); [done|].
    destruct (Face.decodeStatusCode _) as [code|]; [|done].
    by destruct (code =? 200). }
  case_bool_decide; destruct (decide (Face.timerID e = t)); try done.
Qed.

Lemma count_onTimeout_effects t e :
  count (is_invocation t) (onTimeout_effects e)
  = if bool_decide (Face.timerID e = t) then 1%nat else 0%nat.
Proof.
  unfold onTimeout_effects. rewrite count_cons. cbn [is_invocation].
  assert (count (is_invocation t)
            match Face.onTimeout e with
            | Face.RegisterResponse_onTimeout response =>
                [Face.CallOnRegisterFailed
                   (Face.response_onRegisterFailed response)
                   (Face.response_prefix response)]
            | _ => []
            end = 0%nat) as -> by (by destruct (Face.onTimeout e)).
  case_bool_decide; simpl; lia.
Qed.

Lemma count_sends `{Face.Collaborators} t i :
  count (is_invocation t) (sends i) = 0%nat.
Proof. unfold sends. by destruct (Name_match _ _). Qed.

(** A step that shrinks the table and the timers, whose callbacks are for
    handles that were in the table or pending and are in neither any
    more. *)
Lemma callbacks_inv_shrink f f' effects :
  callbacks_inv f →
  Face.pendingInterestTable f' `sublist_of` Face.pendingInterestTable f →
  Face.timers f' `sublist_of` Face.timers f →
  Face.nextTimerID f' = Face.nextTimerID f →
  Face.trace f' = Face.trace f ++ effects →
  (∀ t, (count (is_invocation t) effects ≤ 1)%nat) →
  (∀ t, count (is_invocation t) effects ≠ 0%nat →
        (t ∈ map Face.timerID (Face.pendingInterestTable f)
         ∨ t ∈ map Face.timer_id (Face.timers f)) ∧
        (t ∉ map Face.timerID (Face.pendingInterestTable f')) ∧
        (t ∉ map Face.timer_id (Face.timers f'))) →
  callbacks_inv f'.
Proof.
  intros (Hnd & Hlt & Htm & Hzero & Hone) Hp Ht Hn Htr Hle Hgone.
  unfold callbacks_inv. rewrite Hn, Htr.
  split; [eapply sublist_NoDup; [exact Hnd|by apply sublist_map]|].
  split; [by eapply Forall_sublist|].
  split; [by eapply Forall_sublist|].
  split.
  - intros t Hcase. rewrite count_app.
    destruct (decide (count (is_invocation t) effects = 0%nat)) as [Hz|Hnz].
    + rewrite Hz, Nat.add_0_r. apply Hzero.
      destruct Hcase as [Hc|[Hc|Hc]]; [left|right; left|right; right; done];
        by eapply elem_of_map_sublist.
    + exfalso. destruct (Hgone t Hnz) as (Hwas & Hnp & Hnt).
      destruct Hcase as [Hc|[Hc|Hc]]; [done|done|].
      destruct Hwas as [Hw|Hw].
      * apply list_elem_of_fmap in Hw as (e & -> & He).
        pose proof (proj1 (Forall_forall _ _) Hlt e He). simpl in *. lia.
      * apply list_elem_of_fmap in Hw as (tm & -> & He).
        pose proof (proj1 (Forall_forall _ _) Htm tm He) as [_ ?]. lia.
  - intros t. rewrite count_app.
    destruct (decide (count (is_invocation t) effects = 0%nat)) as [Hz|Hnz].
    + rewrite Hz, Nat.add_0_r. apply Hone.
    + destruct (Hgone t Hnz) as (Hwas & _).
      rewrite Hzero by tauto. apply Hle.
Qed.

Lemma count_quiet t effects :
  forallb quiet effects = true → count (is_invocation t) effects = 0%nat.
Proof.
  intros Hq. apply count_zero. intros eff Hin.
  apply list_elem_of_In in Hin.
  pose proof (proj1 (forallb_forall _ _) Hq eff Hin). by destruct eff.
Qed.

Lemma callbacks_inv_same f f' :
  Face.pendingInterestTable f' = Face.pendingInterestTable f →
  Face.timers f' = Face.timers f →
  Face.nextTimerID f' = Face.nextTimerID f →
  Face.trace f' = Face.trace f →
  callbacks_inv f → callbacks_inv f'.
Proof.
  intros Hp Ht Hn Htr. unfold callbacks_inv. by rewrite Hp, Ht, Hn, Htr.
Qed.

(** A step that appends effects without callbacks and leaves the table and
    the timers alone. *)
Lemma callbacks_inv_effects f f' effects :
  Face.pendingInterestTable f' = Face.pendingInterestTable f →
  Face.timers f' = Face.timers f →
  Face.nextTimerID f' = Face.nextTimerID f →
  Face.trace f' = Face.trace f ++ effects →
  (∀ t, count (is_invocation t) effects = 0%nat) →
  callbacks_inv f → callbacks_inv f'.
Proof.
  intros Hp Ht Hn Htr Hz Hinv.
  apply (callbacks_inv_shrink f f' effects); try done.
  - by rewrite Hp.
  - by rewrite Ht.
  - intros t. rewrite Hz. lia.
  - intros t Hnz. by rewrite Hz in Hnz.
Qed.

Lemma without_first_gone t l :
  NoDup (map Face.timerID l) → t ∉ map Face.timerID (without_first t l).
Proof.
  intros Hnd. unfold without_first.
  destruct (list_find _ l) as [[index x]|] eqn:Hfind.
  - apply list_find_Some in Hfind as (Hl & Hx & _).
    rewrite delete_take_drop.
    rewrite <- (take_drop_middle l index x Hl) in Hnd.
    rewrite map_app in Hnd. simpl in Hnd.
    apply NoDup_app in Hnd as (_ & Hdisj & Hnd).
    apply NoDup_cons in Hnd as [Hnx _].
    rewrite map_app. intros Hin. apply elem_of_app in Hin as [Hin|Hin].
    + apply (Hdisj t Hin). rewrite Hx. left.
    + apply Hnx. by rewrite Hx.
  - apply list_find_None in Hfind. intros Hin.
    apply list_elem_of_fmap in Hin as (e & -> & He).
    by apply (proj1 (Forall_forall _ _) Hfind e He).
Qed.

(** [expressInterestHelper] adds an entry with the next timer handle. *)
Lemma callbacks_inv_added f f' e delay effects :
  callbacks_inv f →
  Face.timerID e = Face.nextTimerID f →
  Face.pendingInterestTable f' = Face.pendingInterestTable f ++ [e] →
  Face.timers f' = Face.timers f ++ [Face.mkTimer (Face.nextTimerID f) e delay] →
  Face.nextTimerID f' = Face.nextTimerID f + 1 →
  Face.trace f' = Face.trace f ++ effects →
  (∀ t, count (is_invocation t) effects = 0%nat) →
  callbacks_inv f'.
Proof.
  intros (Hnd & Hlt & Htm & Hzero & Hone) He Hp Ht Hn Htr Hz.
  unfold callbacks_inv. rewrite Hp, Ht, Hn, Htr, !map_app. simpl.
  split; [|split; [|split; [|split]]].
  - apply NoDup_app. split; [done|]. split; [|apply NoDup_singleton].
    intros x Hx Hin. apply list_elem_of_singleton in Hin.
    apply list_elem_of_fmap in Hx as (e' & -> & He').
    pose proof (proj1 (Forall_forall _ _) Hlt e' He'). simpl in *. lia.
  - apply Forall_app. split.
    + eapply Forall_impl; [exact Hlt|]. intros x Hx. simpl in *. lia.
    + constructor; [lia|constructor].
  - apply Forall_app. split.
    + eapply Forall_impl; [exact Htm|]. intros x [Hx1 Hx2]. split; [done|lia].
    + constructor; [simpl; split; [done|lia]|constructor].
  - intros t Hcase. rewrite count_app, Hz, Nat.add_0_r. apply Hzero.
    destruct Hcase as [Hc|[Hc|Hc]].
    + apply elem_of_app in Hc as [Hc|Hc]; [by left|].
      apply list_elem_of_singleton in Hc. right; right. lia.
    + apply elem_of_app in Hc as [Hc|Hc]; [by right; left|].
      apply list_elem_of_singleton in Hc. right; right. lia.
    + right; right. lia.
  - intros t. rewrite count_app, Hz, Nat.add_0_r. apply Hone.
Qed.

Section CallbacksInvariant.

Context `{Face.Collaborators}.

Lemma callbacks_inv_helper g g' id i od ot :
  callbacks_inv g → helper_outcome g g' id i od ot → callbacks_inv g'.
Proof.
  intros Hinv [[_ ->]|[Hs|Ha]]; [done| |].
  - destruct Hs as (_ & _ & Hp & Ht & Hn & _ & _ & _ & Htr).
    eapply callbacks_inv_effects; try done. intros t. apply count_sends.
  - destruct Ha as (_ & _ & _ & Hp & Ht & Hn & _ & _ & _ & Htr).
    eapply (callbacks_inv_added g g' (new_entry g id i od ot)); try done.
    intros t. apply count_sends.
Qed.

Lemma callbacks_inv_data data f :
  callbacks_inv f →
  callbacks_inv (Face.onReceivedElement (Face.ElementData data) f).
Proof.
  intros Hinv. pose proof Hinv as (Hnd & Hlt & Htm & Hzero & Hone).
  destruct (onReceivedData_fields data f)
    as (Hp & Ht & Hn & _ & _ & _ & _ & Htr).
  set (matched := matching (data_name data)
                    (reverse (Face.pendingInterestTable f))) in *.
  assert (Hsub : matched `sublist_of` reverse (Face.pendingInterestTable f))
    by apply sublist_filter.
  assert (Hndm : NoDup (map Face.timerID matched)).
  { eapply sublist_NoDup; [|apply sublist_map, Hsub].
    change (NoDup (Face.timerID <$> reverse (Face.pendingInterestTable f))).
    rewrite fmap_reverse, reverse_Permutation. exact Hnd. }
  eapply (callbacks_inv_shrink f _ _ Hinv); [| |exact Hn|exact Htr| |].
  - rewrite Hp. apply sublist_filter.
  - rewrite Ht. apply sublist_filter.
  - intros t. rewrite count_onData_effects.
    by apply NoDup_map_filter_length.
  - intros t. rewrite count_onData_effects. intros Hnz.
    destruct (filter _ matched) as [|e m] eqn:Hf; [done|].
    assert (e ∈ filter (λ e, Face.timerID e = t) matched) as Hin
      by (rewrite Hf; left).
    apply list_elem_of_filter in Hin as [Het Hin].
    destruct (matching_in _ _ _ Hin) as [Hep Hem].
    split; [left; rewrite <- Het; by apply (list_elem_of_fmap_2 Face.timerID)|].
    split.
    + rewrite Hp. intros Hc.
      apply list_elem_of_fmap in Hc as (e' & He't & He').
      apply list_elem_of_filter in He' as [Hnm He'].
      assert (e = e') as <-.
      { apply (NoDup_map_same Face.timerID (Face.pendingInterestTable f));
          [exact Hnd|exact Hep|exact He'|].
        simpl in Het. by rewrite Het, He't. }
      by apply Hnm.
    + rewrite Ht. intros Hc.
      apply list_elem_of_fmap in Hc as (tm & Htmt & Htm').
      apply list_elem_of_filter in Htm' as [Hnot _].
      apply Hnot. rewrite <- Htmt, <- Het.
      by apply (list_elem_of_fmap_2 Face.timerID).
Qed.

Lemma callbacks_inv_fire t f :
  callbacks_inv f → callbacks_inv (Face.fire t f).
Proof.
  intros Hinv. pose proof Hinv as (Hnd & Hlt & Htm & Hzero & Hone).
  pose proof (fire_fields t f) as Hf. cbn zeta in Hf.
  destruct (pending_timer t f) as [tm|]; [|by rewrite Hf].
  destruct Hf as (Hin & Hid & Hp & Ht & Hn & _ & _ & _ & _ & Htr).
  destruct (proj1 (Forall_forall _ _) Htm tm Hin) as [Hsame _].
  eapply (callbacks_inv_shrink f _ _ Hinv); [| |exact Hn|exact Htr| |].
  - rewrite Hp. unfold without_first.
    destruct (list_find _ _) as [[index x]|]; [apply sublist_delete|done].
  - rewrite Ht. apply sublist_filter.
  - intros t'. rewrite count_onTimeout_effects. case_bool_decide; lia.
  - intros t'. rewrite count_onTimeout_effects.
    case_bool_decide as Ht'; [intros _|done].
    assert (t' = t) as -> by congruence.
    split; [right; rewrite <- Hid; by apply (list_elem_of_fmap_2 Face.timer_id)|].
    split.
    + rewrite Hp, <- Hsame, Hid. by apply without_first_gone.
    + rewrite Ht. intros Hc.
      apply list_elem_of_fmap in Hc as (tm' & Ht2 & Htm').
      by apply list_elem_of_filter in Htm' as [Hne _].
Qed.

Lemma callbacks_inv_micro sending f f' :
  micro sending f f' → callbacks_inv f → callbacks_inv f'.
Proof.
  intros Hm Hinv.
  destruct Hm as [f' Hf| |allocate i od ot|d rest _ Hq|allocate i od ot _|id| |].
  - destruct Hf as (Hp & Ht & Hn & _ & _ & _ & _ & effects & Htr & Hquiet).
    eapply callbacks_inv_effects; try done.
    intros t. by apply count_quiet.
  - done.
  - destruct (alloc_fields allocate f)
      as (Hp & Ht & Hn & _ & _ & _ & _ & _ & Htr & _).
    by eapply callbacks_inv_same.
  - eapply callbacks_inv_helper; [|apply helper_fields].
    by eapply callbacks_inv_same.
  - eapply callbacks_inv_helper; [|apply helper_fields].
    destruct (alloc_fields allocate f)
      as (Hp & Ht & Hn & _ & _ & _ & _ & _ & Htr & _).
    by eapply callbacks_inv_same.
  - destruct id as [id|]; [|done].
    destruct (removePendingInterest_fields id f)
      as (Hp & Ht & Hn & _ & _ & _ & Htr & _).
    eapply (callbacks_inv_shrink f _ [] Hinv);
      [rewrite Hp; apply sublist_filter|rewrite Ht; apply sublist_filter
      |done|by rewrite app_nil_r| |]; intros t; [unfold count; simpl; lia|done].
  - by apply callbacks_inv_data.
  - by apply callbacks_inv_fire.
Qed.

Lemma callbacks_inv_create info : callbacks_inv (Face.create info).
Proof.
  unfold callbacks_inv, count. simpl.
  split; [constructor|]. split; [constructor|]. split; [constructor|].
  split; [done|]. intros _. lia.
Qed.

Lemma callbacks_inv_run info events :
  callbacks_inv (Face.run (Face.create info) events).
Proof.
  apply (run_invariant callbacks_inv callbacks_inv_micro),
    callbacks_inv_create.
Qed.

End CallbacksInvariant.

Lemma count_invocation_split t trace :
  count (is_invocation t) trace
  = (count (is_onData_of t) trace + count (is_onTimeout_of t) trace)%nat.
Proof.
  induction trace as [|eff trace IH]; [done|].
  rewrite !count_cons, IH.
  destruct eff; simpl; try lia; case_bool_decide; lia.
Qed.

Lemma count_prefix test (l1 l2 : list Face.Effect) :
  l1 `prefix_of` l2 → (count test l1 ≤ count test l2)%nat.
Proof. intros [k ->]. rewrite count_app. lia. Qed.

Section TraceGrows.

Context `{Face.Collaborators}.

(** Effects are only ever appended to the trace. *)
Lemma trace_grows_micro f0 sending f f' :
  micro sending f f' →
  Face.trace f0 `prefix_of` Face.trace f →
  Face.trace f0 `prefix_of` Face.trace f'.
Proof.
  apply (micro_invariant (λ f, Face.trace f0 `prefix_of` Face.trace f)).
  - intros g g' (_ & _ & _ & _ & _ & _ & effects & -> & _) Hpre.
    by apply prefix_app_r.
  - intros g allocate i od ot Hpre. simpl.
    by destruct (alloc_fields allocate g)
      as (_ & _ & _ & _ & _ & _ & _ & _ & -> & _).
  - intros g d rest g' _ Hpre [[_ ->]|[Hs|Ha]]; [done| |].
    + destruct Hs as (_ & _ & _ & _ & _ & _ & _ & _ & ->).
      by apply prefix_app_r.
    + destruct Ha as (_ & _ & _ & _ & _ & _ & _ & _ & _ & ->).
      by apply prefix_app_r.
  - intros g allocate i od ot g' Hpre Hout.
    destruct (alloc_fields allocate g)
      as (_ & _ & _ & _ & _ & _ & _ & _ & Htr & _).
    destruct Hout as [[_ ->]|[Hs|Ha]]; [by rewrite Htr| |].
    + destruct Hs as (_ & _ & _ & _ & _ & _ & _ & _ & ->).
      rewrite Htr. by apply prefix_app_r.
    + destruct Ha as (_ & _ & _ & _ & _ & _ & _ & _ & _ & ->).
      rewrite Htr. by apply prefix_app_r.
Qed.

Lemma trace_grows f events :
  Face.trace f `prefix_of` Face.trace (Face.run f events).
Proof.
  apply (run_invariant (λ g, Face.trace f `prefix_of` Face.trace g)); [|done].
  intros sending g g'. apply trace_grows_micro.
Qed.

Lemma run_app f events1 events2 :
  Face.run f (events1 ++ events2) = Face.run (Face.run f events1) events2.
Proof. unfold Face.run. apply fold_left_app. Qed.

End TraceGrows.

Lemma count_member test (eff : Face.Effect) l :
  eff ∈ l → test eff = true → (1 ≤ count test l)%nat.
Proof.
  induction l as [|x l IH]; intros Hin Ht; [by apply elem_of_nil in Hin|].
  rewrite count_cons. apply elem_of_cons in Hin as [<-|Hin].
  - rewrite Ht. lia.
  - specialize (IH Hin Ht). lia.
Qed.

(** C2. Along every sequence of events of a Face, the [onData] and the
    [onTimeout] of a PIT entry (an entry is known by its timer handle) are
    called at most once in total: each at most once, and never both. Data
    that matches an entry takes it out of the table and clears its timer,
    so that from then on [onData] has been called once and [onTimeout]
    never is; a timer that fires takes its entry out of the table, so that
    from then on [onTimeout] has been called once and [onData] never is. *)
Theorem callbacks_at_most_once `{H : Face.Collaborators} :
  (∀ info events t,
     let trace := Face.trace (Face.run (Face.create info) events) in
     (count (is_onData_of t) trace + count (is_onTimeout_of t) trace ≤ 1)%nat)
  ∧ (∀ info events data e later,
       let f := Face.run (Face.create info) events in
       e ∈ Face.pendingInterestTable f →
       Face.matchesName (Face.interest e) (data_name data) = true →
       let f' := Face.step f (Face.Received (Face.ElementData data)) in
       (e ∉ Face.pendingInterestTable f') ∧
       pending_timer (Face.timerID e) f' = None ∧
       let trace := Face.trace (Face.run f' later) in
       count (is_onData_of (Face.timerID e)) trace = 1%nat ∧
       count (is_onTimeout_of (Face.timerID e)) trace = 0%nat)
  ∧ (∀ info events t tm later,
       let f := Face.run (Face.create info) events in
       pending_timer t f = Some tm →
       let f' := Face.step f (Face.TimerFired t) in
       (∀ e, e ∈ Face.pendingInterestTable f' → Face.timerID e ≠ t) ∧
       pending_timer t f' = None ∧
       let trace := Face.trace (Face.run f' later) in
       count (is_onTimeout_of t) trace = 1%nat ∧
       count (is_onData_of t) trace = 0%nat).
Proof.
  assert (Hone : ∀ info events t,
    (count (is_onData_of t) (Face.trace (Face.run (Face.create info) events))
     + count (is_onTimeout_of t)
         (Face.trace (Face.run (Face.create info) events)) ≤ 1)%nat).
  { intros info events t. rewrite <- count_invocation_split.
    by destruct (callbacks_inv_run info events) as (_ & _ & _ & _ & Hle). }
  split; [exact Hone|]. split.
  - intros info events data e later f He Hm f'.
    pose proof (callbacks_inv_run info events) as Hinv. fold f in Hinv.
    subst f'. cbn [Face.step].
    destruct (onReceivedData_fields data f)
      as (Hp & Ht & _ & _ & _ & _ & _ & Htr).
    assert (Hmatched : e ∈ matching (data_name data)
                             (reverse (Face.pendingInterestTable f))).
    { apply list_elem_of_filter. split; [exact Hm|by apply elem_of_reverse]. }
    split; [|split].
    + rewrite Hp. intros Hin. apply list_elem_of_filter in Hin as [Hnm _].
      by apply Hnm.
    + unfold pending_timer.
      destruct (list_find _ _) as [[index tm]|] eqn:Hfind; [exfalso|done].
      apply list_find_Some in Hfind as (Hl & Hid & _).
      apply list_elem_of_lookup_2 in Hl. rewrite Ht in Hl.
      apply list_elem_of_filter in Hl as [Hnot _]. apply Hnot.
      rewrite Hid. by apply (list_elem_of_fmap_2 Face.timerID).
    + cbn zeta.
      pose proof (Hone info (events ++ [Face.Received (Face.ElementData data)]
                               ++ later) (Face.timerID e)) as Hle.
      rewrite run_app, run_app in Hle. fold f in Hle.
      change (Face.run f [Face.Received (Face.ElementData data)])
        with (Face.onReceivedElement (Face.ElementData data) f) in Hle.
      assert (1 ≤ count (is_onData_of (Face.timerID e))
                    (Face.trace
                       (Face.run
                          (Face.onReceivedElement (Face.ElementData data) f)
                          later)))%nat as Hge.
      { etrans; [|apply count_prefix, trace_grows].
        rewrite Htr, count_app.
        assert (1 ≤ count (is_onData_of (Face.timerID e))
                      (flat_map (onData_effects data)
                         (matching (data_name data)
                            (reverse (Face.pendingInterestTable f)))))%nat;
          [|lia].
        apply (count_member _ (Face.CallOnData e data)).
        - apply list_elem_of_In, in_flat_map. exists e.
          split; [by apply list_elem_of_In|left; done].
        - simpl. by apply bool_decide_eq_true_2. }
      lia.
  - intros info events t tm later f Hpending f'.
    pose proof (callbacks_inv_run info events) as Hinv. fold f in Hinv.
    pose proof Hinv as (Hnd & _ & Htm & _ & _).
    subst f'. cbn [Face.step].
    pose proof (fire_fields t f) as Hf. cbn zeta in Hf. rewrite Hpending in Hf.
    destruct Hf as (Hin & Hid & Hp & Ht & _ & _ & _ & _ & _ & Htr).
    destruct (proj1 (Forall_forall _ _) Htm tm Hin) as [Hsame _].
    split; [|split].
    + intros e He Het. rewrite Hp, <- Hsame, Hid in He.
      apply (without_first_gone t _ Hnd).
      apply list_elem_of_fmap. exists e. split; [by symmetry|exact He].
    + unfold pending_timer.
      destruct (list_find _ _) as [[index tm']|] eqn:Hfind; [exfalso|done].
      apply list_find_Some in Hfind as (Hl & Hid' & _).
      apply list_elem_of_lookup_2 in Hl. rewrite Ht in Hl.
      by apply list_elem_of_filter in Hl as [Hnot _].
    + cbn zeta.
      pose proof (Hone info (events ++ [Face.TimerFired t] ++ later) t) as Hle.
      rewrite run_app, run_app in Hle. fold f in Hle.
      change (Face.run f [Face.TimerFired t]) with (Face.fire t f) in Hle.
      assert (1 ≤ count (is_onTimeout_of t)
                    (Face.trace (Face.run (Face.fire t f) later)))%nat as Hge.
      { etrans; [|apply count_prefix, trace_grows].
        rewrite Htr, count_app.
        assert (1 ≤ count (is_onTimeout_of t)
                      (onTimeout_effects (Face.timer_entry tm)))%nat; [|lia].
        apply (count_member _ (Face.CallOnTimeout (Face.timer_entry tm))).
        - unfold onTimeout_effects. left.
        - simpl. apply bool_decide_eq_true_2. congruence. }
      lia.
Qed.

Lemma callbacks_at_most_once_witness :
  let H := example_collaborators in
  let f := Face.run (Face.create (Some 7)) one_pending_events in
  one_pending_entry ∈ Face.pendingInterestTable f ∧
  Face.matchesName (Face.interest one_pending_entry)
    (data_name one_pending_data) = true ∧
  let f' := Face.step f (Face.Received (Face.ElementData one_pending_data)) in
  (one_pending_entry ∉ Face.pendingInterestTable f') ∧
  pending_timer (Face.timerID one_pending_entry) f' = None ∧
  let trace := Face.trace (Face.run f' [Face.TimerFired 1]) in
  count (is_onData_of (Face.timerID one_pending_entry)) trace = 1%nat ∧
  count (is_onTimeout_of (Face.timerID one_pending_entry)) trace = 0%nat.
Proof.
  intros H f.
  assert (Hin : one_pending_entry ∈ Face.pendingInterestTable f)
    by (vm_compute; left).
  assert (Hm : Face.matchesName (Face.interest one_pending_entry)
                 (data_name one_pending_data) = true) by reflexivity.
  split; [exact Hin|]. split; [exact Hm|].
  exact (proj1 (proj2 (callbacks_at_most_once (H := H))) (Some 7)
           one_pending_events one_pending_data one_pending_entry
           [Face.TimerFired 1] Hin Hm).
Defined.

(** ** Nothing oversized enters the table or leaves through the transport *)

Section Small.

Context `{Face.Collaborators}.

Lemma small_same f f' :
  Face.pendingInterestTable f' = Face.pendingInterestTable f →
  Face.timers f' = Face.timers f →
  Face.trace f' = Face.trace f →
  small f → small f'.
Proof. intros Hp Ht Htr. unfold small. by rewrite Hp, Ht, Htr. Qed.

Lemma small_sends i : fits i → Forall small_send (sends i).
Proof.
  intros Hfits. unfold sends. destruct (Name_match _ _); by repeat constructor.
Qed.

Lemma small_helper g g' id i od ot :
  small g → helper_outcome g g' id i od ot → small g'.
Proof.
  intros (Hp & Ht & Htr) [[_ ->]|[Hs|Ha]]; [done| |].
  - destruct Hs as (Hfits & _ & Hp' & Ht' & _ & _ & _ & _ & Htr').
    unfold small. rewrite Hp', Ht', Htr'.
    split; [done|]. split; [done|].
    apply Forall_app. split; [done|by apply small_sends].
  - destruct Ha as (Hfits & _ & _ & Hp' & Ht' & _ & _ & _ & _ & Htr').
    unfold small. rewrite Hp', Ht', Htr'.
    split; [apply Forall_app; split; [done|by repeat constructor]|].
    split; [apply Forall_app; split; [done|by repeat constructor]|].
    apply Forall_app. split; [done|by apply small_sends].
Qed.

Lemma small_micro sending f f' : micro sending f f' → small f → small f'.
Proof.
  apply (micro_invariant small).
  - intros g g' (Hp & Ht & _ & _ & _ & _ & effects & Htr & Horigin)
      (Hsp & Hst & Hstr).
    unfold small. rewrite Htr.
    split; [by eapply Forall_sublist|]. split; [by eapply Forall_sublist|].
    apply Forall_app. split; [done|].
    eapply Forall_impl; [exact Horigin|]. intros eff Ho. by destruct eff.
  - intros g allocate i od ot Hs.
    destruct (alloc_fields allocate g)
      as (Hp & Ht & _ & _ & _ & _ & _ & _ & Htr & _).
    by eapply small_same.
  - intros g d rest g' _ Hs Hout.
    eapply small_helper; [|exact Hout]. by eapply small_same.
  - intros g allocate i od ot g' Hs Hout.
    eapply small_helper; [|exact Hout].
    destruct (alloc_fields allocate g)
      as (Hp & Ht & _ & _ & _ & _ & _ & _ & Htr & _).
    by eapply small_same.
Qed.

Lemma small_run info events : small (Face.run (Face.create info) events).
Proof.
  apply (run_invariant small small_micro).
  unfold small. simpl. by repeat split.
Qed.

End Small.

(** C7. An Interest whose encoding is longer than 8800 bytes makes
    [expressInterestHelper] throw before it touches the Face: no PIT entry,
    no timer, nothing sent. On an open Face the exception reaches the
    caller of [expressInterest]. Along every sequence of events, the
    Interests in the table and behind the pending timers and all the bytes
    handed to the transport fit in 8800 bytes. An Interest of exactly 8800
    bytes is processed as usual: it is sent (unless its name is under
    [/local/timeout]) and entered in the table with its timer (unless its
    removal has been requested). *)
Theorem oversized_interest_rejected `{H : Face.Collaborators} :
  Face.getMaxNdnPacketSize = 8800
  ∧ (∀ f id i od ot,
       8800 < Z.of_nat (length (Face.wireEncode i)) →
       Face.expressInterestHelper id i od ot f
       = Face.Thrown Face.EncodedInterestTooLarge f)
  ∧ (∀ f i od ot info,
       8800 < Z.of_nat (length (Face.wireEncode i)) →
       Face.readyStatus f = Face.OPENED →
       Face.connectionInfo f = Some info →
       Face.transport_connectionInfo f = Some info →
       ∃ f', Face.expressInterest i od ot f
             = Face.Thrown Face.EncodedInterestTooLarge f' ∧
             Face.pendingInterestTable f' = Face.pendingInterestTable f ∧
             Face.timers f' = Face.timers f ∧
             Face.trace f' = Face.trace f)
  ∧ (∀ info events, small (Face.run (Face.create info) events))
  ∧ (∀ f id i od ot,
       Z.of_nat (length (Face.wireEncode i)) = 8800 →
       ∃ f', Face.expressInterestHelper id i od ot f = Face.Returned tt f' ∧
             (Name_match Face.timeoutPrefix (interest_name i) = false →
              Face.trace f'
              = Face.trace f ++ [Face.TransportSend (Face.wireEncode i)]) ∧
             (removal_request f id = None →
              Face.pendingInterestTable f'
              = Face.pendingInterestTable f ++ [new_entry f id i od ot] ∧
              Face.timers f'
              = Face.timers f
                ++ [Face.mkTimer (Face.nextTimerID f)
                      (new_entry f id i od ot) (timeoutMilliseconds i)])).
Proof.
  split; [reflexivity|]. split; [|split; [|split]].
  - intros f id i od ot Hbig. apply helper_too_large.
    unfold fits, Face.getMaxNdnPacketSize, Face.MAX_NDN_PACKET_SIZE. lia.
  - intros f i od ot info Hbig Hst Hci Htci.
    cbv [Face.expressInterest Face.bind Face.getNextEntryId Face.read Face.ret
         Face.exec].
    cbn [Face.connectionInfo Face.set_lastEntryId]. rewrite Hci.
    unfold Face.reconnectAndExpressInterest.
    cbn [Face.connectionInfo Face.transport_connectionInfo Face.readyStatus
         Face.set_lastEntryId].
    rewrite Hci, Htci, Hst.
    rewrite bool_decide_eq_true_2 by done.
    rewrite bool_decide_eq_false_2 by done. cbn [negb orb].
    rewrite helper_too_large
      by (unfold fits, Face.getMaxNdnPacketSize, Face.MAX_NDN_PACKET_SIZE; lia).
    eexists. by repeat split.
  - apply small_run.
  - intros f id i od ot Hsize.
    assert (Hfits : fits i)
      by (unfold fits, Face.getMaxNdnPacketSize, Face.MAX_NDN_PACKET_SIZE; lia).
    pose proof (helper_fields f id i od ot) as Hout. cbn zeta in Hout.
    unfold Face.expressInterestHelper in *.
    destruct (Z.ltb_spec Face.getMaxNdnPacketSize
                (Z.of_nat (length (Face.wireEncode i))));
      [unfold fits in Hfits; lia|].
    eexists. split; [reflexivity|]. cbn [Face.after] in Hout.
    destruct Hout as [[Hn _]|[Hs|Ha]]; [done| |].
    + destruct Hs as (_ & (x & index & -> & Hidx & _) & _ & _ & _ & _ & _ & _ & Htr).
      split.
      * intros Hnt. rewrite Htr. unfold sends. by rewrite Hnt.
      * intros Hreq. unfold removal_request in Hreq. simpl in Hreq. congruence.
    + destruct Ha as (_ & _ & _ & Hp & Ht & _ & _ & _ & _ & Htr).
      split; [|done].
      intros Hnt. rewrite Htr. unfold sends. by rewrite Hnt.
Qed.

Lemma oversized_interest_rejected_witness :
  let H := example_collaborators in
  8800 < Z.of_nat (length (Face.wireEncode (interest_of_size 8801))) ∧
  Face.expressInterestHelper (Some 2) (interest_of_size 8801)
    (Face.AppOnData 1%nat) Face.EmptyOnTimeout one_pending
  = Face.Thrown Face.EncodedInterestTooLarge one_pending.
Proof.
  intros H.
  assert (Hbig : 8800 < Z.of_nat (length (Face.wireEncode (interest_of_size 8801))))
    by (vm_compute; reflexivity).
  split; [exact Hbig|].
  exact (proj1 (proj2 (oversized_interest_rejected (H := H))) one_pending
           (Some 2) (interest_of_size 8801) (Face.AppOnData 1%nat)
           Face.EmptyOnTimeout Hbig).
Defined.

(** ** Interests under /local/timeout *)

Section TimeoutPrefix.

Context `{Face.Collaborators}.

Lemma sends_not_timeout i : Forall not_timeout_send (sends i).
Proof.
  unfold sends. destruct (Name_match _ _) eqn:Hm; [constructor|].
  constructor; [|constructor]. by exists i.
Qed.

Lemma not_timeout_helper g g' id i od ot :
  Forall not_timeout_send (Face.trace g) →
  helper_outcome g g' id i od ot →
  Forall not_timeout_send (Face.trace g').
Proof.
  intros Hg [[_ ->]|[Hs|Ha]]; [done| |].
  - destruct Hs as (_ & _ & _ & _ & _ & _ & _ & _ & ->).
    apply Forall_app. split; [done|apply sends_not_timeout].
  - destruct Ha as (_ & _ & _ & _ & _ & _ & _ & _ & _ & ->).
    apply Forall_app. split; [done|apply sends_not_timeout].
Qed.

Lemma not_timeout_micro sending f f' :
  micro sending f f' →
  Forall not_timeout_send (Face.trace f) →
  Forall not_timeout_send (Face.trace f').
Proof.
  apply (micro_invariant (λ f, Forall not_timeout_send (Face.trace f))).
  - intros g g' (_ & _ & _ & _ & _ & _ & effects & -> & Horigin) Hg.
    apply Forall_app. split; [done|].
    eapply Forall_impl; [exact Horigin|]. intros eff Ho. by destruct eff.
  - intros g allocate i od ot Hg. simpl.
    by destruct (alloc_fields allocate g)
      as (_ & _ & _ & _ & _ & _ & _ & _ & -> & _).
  - intros g d rest g' _ Hg Hout.
    by eapply not_timeout_helper; [|exact Hout].
  - intros g allocate i od ot g' Hg Hout.
    eapply not_timeout_helper; [|exact Hout].
    by destruct (alloc_fields allocate g)
      as (_ & _ & _ & _ & _ & _ & _ & _ & -> & _).
Qed.

Lemma not_timeout_run info events :
  Forall not_timeout_send (Face.trace (Face.run (Face.create info) events)).
Proof.
  apply (run_invariant (λ f, Forall not_timeout_send (Face.trace f))
           not_timeout_micro).
  constructor.
Qed.

(** On a Face whose pending timers have handles below [nextTimerID], the
    timer of a new entry is the one that its handle fires. *)
Lemma new_timer_pending f f' e delay :
  callbacks_inv f →
  Face.timers f' = Face.timers f ++ [Face.mkTimer (Face.nextTimerID f) e delay] →
  pending_timer (Face.nextTimerID f) f'
  = Some (Face.mkTimer (Face.nextTimerID f) e delay).
Proof.
  intros (_ & _ & Htm & _) Ht. unfold pending_timer. rewrite Ht.
  destruct (list_find _ _) as [[index tm]|] eqn:Hfind.
  - apply list_find_Some in Hfind as (Hl & Hid & _). simpl. f_equal.
    apply lookup_app_Some in Hl as [Hl|[_ Hl]].
    + apply list_elem_of_lookup_2 in Hl.
      destruct (proj1 (Forall_forall _ _) Htm tm Hl) as [_ Hlt]. lia.
    + destruct (index - length (Face.timers f))%nat; simpl in Hl; [|done].
      congruence.
  - exfalso. apply list_find_None in Hfind.
    apply Forall_app in Hfind as [_ Hnew].
    inversion Hnew as [|? ? Hne _]; subst. by apply Hne.
Qed.

(** On an open Face whose transport holds the connection info of the
    Face, [reconnectAndExpressInterest] goes straight to
    [expressInterestHelper]. *)
Lemma reconnect_opened g info id i od ot :
  Face.connectionInfo g = Some info →
  Face.transport_connectionInfo g = Some info →
  Face.readyStatus g = Face.OPENED →
  Face.reconnectAndExpressInterest id i od ot g
  = Face.expressInterestHelper id i od ot g.
Proof.
  intros Hci Htr Hs. unfold Face.reconnectAndExpressInterest.
  rewrite Hci, Htr, Hs.
  rewrite bool_decide_eq_true_2 by done.
  by rewrite bool_decide_eq_false_2 by done.
Qed.

(** [expressInterest] on an open Face, for an Interest that fits and whose
    new id has no removal request. *)
Lemma expressInterest_opened f info i od ot :
  Face.connectionInfo f = Some info →
  Face.transport_connectionInfo f = Some info →
  Face.readyStatus f = Face.OPENED →
  fits i →
  Face.indexOf (Face.lastEntryId f + 1) (Face.pitRemoveRequests f) = None →
  let e := expressed_entry f i od ot in
  ∃ f', Face.expressInterest i od ot f
        = Face.Returned (Face.lastEntryId f + 1) f' ∧
        Face.pendingInterestTable f' = Face.pendingInterestTable f ++ [e] ∧
        Face.timers f'
        = Face.timers f
          ++ [Face.mkTimer (Face.timerID e) e (timeoutMilliseconds i)] ∧
        Face.trace f' = Face.trace f ++ sends i.
Proof.
  intros Hci Htc Hs Hfits Hreq. cbn zeta.
  cbv [Face.expressInterest Face.bind Face.getNextEntryId Face.read Face.ret
       Face.exec].
  cbn [Face.connectionInfo Face.set_lastEntryId]. rewrite Hci.
  set (fa := Face.set_lastEntryId (Face.lastEntryId f + 1) f).
  rewrite (reconnect_opened fa info) by done.
  rewrite (helper_inserts fa) by done.
  eexists. split; [reflexivity|].
  unfold send_unless_timeout, sends, expressed_entry.
  destruct (Name_match _ _); cbn; by rewrite ?app_nil_r.
Qed.

(** [expressInterest] on a new Face, then the report of the open
    connection: the deferred send is processed. *)
Lemma expressInterest_then_open info i od ot :
  fits i →
  let f0 := Face.create (Some info) in
  let f := Face.run f0 [Face.ExpressInterest i od ot; Face.TransportOpened] in
  let e := expressed_entry f0 i od ot in
  Face.pendingInterestTable f = [e] ∧
  Face.timers f = [Face.mkTimer (Face.timerID e) e (timeoutMilliseconds i)] ∧
  Face.trace f = Face.TransportConnect info :: sends i ++ [Face.CallOnOpen].
Proof.
  intros Hfits. cbn zeta.
  cbn [Face.run fold_left Face.step].
  cbv [Face.expressInterest Face.bind Face.getNextEntryId Face.read Face.ret
       Face.exec Face.reconnectAndExpressInterest].
  cbn [Face.create Face.connectionInfo Face.set_lastEntryId
       Face.transport_connectionInfo Face.readyStatus Face.lastEntryId].
  rewrite bool_decide_eq_false_2 by done. cbn [negb orb Face.after].
  cbv -[Face.expressInterestHelper Z.add expressed_entry timeoutMilliseconds
        sends].
  match goal with
  | |- context [Face.expressInterestHelper ?id i ?od' ?ot' ?g] =>
      rewrite (helper_inserts g id i od' ot' Hfits eq_refl)
  end.
  unfold send_unless_timeout, sends, expressed_entry.
  by destruct (Name_match _ _).
Qed.

End TimeoutPrefix.

(** C6. Nothing of an Interest whose name is under [/local/timeout] is
    ever handed to the transport. When the encoding of such an Interest is
    at most 8800 bytes and no removal has been requested for its id,
    [expressInterest] on an open Face, and on a new Face once the
    connection opens, still inserts the PIT entry and sets the timer of the
    Interest lifetime, whose firing calls the [onTimeout] of the entry. An
    Interest that is not under the prefix and whose encoding is at most 8800
    bytes has its encoded bytes sent. (A larger encoding makes
    [expressInterestHelper] throw before anything is inserted.) *)
Theorem timeout_prefix_not_sent `{H : Face.Collaborators} :
  (∀ f id i od ot,
     Name_match Face.timeoutPrefix (interest_name i) = true →
     Face.trace (Face.after (Face.expressInterestHelper id i od ot f))
     = Face.trace f)
  ∧ (∀ info events,
       Forall not_timeout_send
         (Face.trace (Face.run (Face.create info) events)))
  ∧ (∀ info events id i od ot,
       let f := Face.run (Face.create info) events in
       Name_match Face.timeoutPrefix (interest_name i) = true →
       fits i →
       removal_request f id = None →
       let f' := Face.after (Face.expressInterestHelper id i od ot f) in
       let e := new_entry f id i od ot in
       Face.pendingInterestTable f' = Face.pendingInterestTable f ++ [e] ∧
       Face.timers f'
       = Face.timers f
         ++ [Face.mkTimer (Face.timerID e) e (timeoutMilliseconds i)] ∧
       Face.trace (Face.fire (Face.timerID e) f')
       = Face.trace f ++ onTimeout_effects e)
  ∧ (∀ f id i od ot,
       Name_match Face.timeoutPrefix (interest_name i) = false →
       fits i →
       Face.trace (Face.after (Face.expressInterestHelper id i od ot f))
       = Face.trace f ++ [Face.TransportSend (Face.wireEncode i)])
  ∧ (∀ info0 events info i od ot,
       let f := Face.run (Face.create info0) events in
       Face.connectionInfo f = Some info →
       Face.transport_connectionInfo f = Some info →
       Face.readyStatus f = Face.OPENED →
       fits i →
       Face.indexOf (Face.lastEntryId f + 1) (Face.pitRemoveRequests f)
       = None →
       let e := expressed_entry f i od ot in
       ∃ f', Face.expressInterest i od ot f
             = Face.Returned (Face.lastEntryId f + 1) f' ∧
             Face.pendingInterestTable f'
             = Face.pendingInterestTable f ++ [e] ∧
             Face.timers f'
             = Face.timers f
               ++ [Face.mkTimer (Face.timerID e) e (timeoutMilliseconds i)] ∧
             Face.trace f'
             = Face.trace f
               ++ (if Name_match Face.timeoutPrefix (interest_name i)
                   then []
                   else [Face.TransportSend (Face.wireEncode i)]) ∧
             Face.trace (Face.fire (Face.timerID e) f')
             = Face.trace f' ++ onTimeout_effects e)
  ∧ (∀ info i od ot,
       fits i →
       let f0 := Face.create (Some info) in
       let f := Face.run f0
                  [Face.ExpressInterest i od ot; Face.TransportOpened] in
       let e := expressed_entry f0 i od ot in
       Face.pendingInterestTable f = [e] ∧
       Face.timers f
       = [Face.mkTimer (Face.timerID e) e (timeoutMilliseconds i)] ∧
       Face.trace f
       = Face.TransportConnect info
         :: (if Name_match Face.timeoutPrefix (interest_name i)
             then []
             else [Face.TransportSend (Face.wireEncode i)])
         ++ [Face.CallOnOpen]).
Proof.
  split; [|split; [|split; [|split; [|split]]]].
  - intros f id i od ot Hm.
    destruct (helper_fields f id i od ot) as [[_ ->]|[Hs|Ha]]; [done| |].
    + destruct Hs as (_ & _ & _ & _ & _ & _ & _ & _ & ->).
      unfold sends. by rewrite Hm, app_nil_r.
    + destruct Ha as (_ & _ & _ & _ & _ & _ & _ & _ & _ & ->).
      unfold sends. by rewrite Hm, app_nil_r.
  - apply not_timeout_run.
  - intros info events id i od ot f Hm Hfits Hreq f' e.
    pose proof (callbacks_inv_run info events) as Hinv. fold f in Hinv.
    destruct (helper_fields f id i od ot) as [[Hn _]|[Hs|Ha]]; [done| |].
    + destruct Hs as (_ & (x & index & -> & Hidx & _) & _).
      unfold removal_request in Hreq. simpl in Hreq. congruence.
    + destruct Ha as (_ & _ & _ & Hp & Ht & _ & _ & _ & _ & Htr).
      fold f' e in Hp, Ht, Htr.
      split; [done|]. split; [done|].
      pose proof (new_timer_pending f f' e _ Hinv Ht) as Hpending.
      pose proof (fire_fields (Face.nextTimerID f) f') as Hfire.
      cbn zeta in Hfire. rewrite Hpending in Hfire.
      destruct Hfire as (_ & _ & _ & _ & _ & _ & _ & _ & _ & Hfire).
      change (Face.timerID e) with (Face.nextTimerID f).
      rewrite Hfire, Htr. unfold sends. rewrite Hm, app_nil_r. done.
  - intros f id i od ot Hm Hfits.
    destruct (helper_fields f id i od ot) as [[Hn _]|[Hs|Ha]]; [done| |].
    + destruct Hs as (_ & _ & _ & _ & _ & _ & _ & _ & ->).
      unfold sends. by rewrite Hm.
    + destruct Ha as (_ & _ & _ & _ & _ & _ & _ & _ & _ & ->).
      unfold sends. by rewrite Hm.
  - intros info0 events info i od ot f Hci Htc Hs Hfits Hreq e.
    pose proof (callbacks_inv_run info0 events) as Hinv. fold f in Hinv.
    destruct (expressInterest_opened f info i od ot Hci Htc Hs Hfits Hreq)
      as (f' & Hr & Hp & Ht & Htr).
    fold e in Hp, Ht.
    exists f'. split; [done|]. split; [done|]. split; [done|].
    split; [exact Htr|].
    pose proof (new_timer_pending f f' e _ Hinv Ht) as Hpending.
    pose proof (fire_fields (Face.nextTimerID f) f') as Hfire.
    cbn zeta in Hfire. rewrite Hpending in Hfire.
    by destruct Hfire as (_ & _ & _ & _ & _ & _ & _ & _ & _ & Hfire).
  - intros info i od ot Hfits. by apply expressInterest_then_open.
Qed.

Lemma timeout_prefix_not_sent_witness :
  let H := example_collaborators in
  let i := timeout_interest in
  let plain := Interest_of_name [[97]] in
  let od := Face.AppOnData 3%nat in
  let ot := Face.AppOnTimeout 4%nat in
  let f := Face.run (Face.create (Some 7)) one_pending_events in
  (Name_match Face.timeoutPrefix (interest_name i) = true ∧
   Name_match Face.timeoutPrefix (interest_name plain) = false ∧
   fits i ∧ fits plain ∧
   removal_request f (Some 2) = None ∧
   Face.connectionInfo f = Some 7 ∧
   Face.transport_connectionInfo f = Some 7 ∧
   Face.readyStatus f = Face.OPENED ∧
   Face.indexOf (Face.lastEntryId f + 1) (Face.pitRemoveRequests f) = None) ∧
  Face.trace (Face.after (Face.expressInterestHelper (Some 2) i od ot f))
  = Face.trace f ∧
  (let f' := Face.after (Face.expressInterestHelper (Some 2) i od ot f) in
   let e := new_entry f (Some 2) i od ot in
   Face.pendingInterestTable f' = Face.pendingInterestTable f ++ [e] ∧
   Face.timers f'
   = Face.timers f
     ++ [Face.mkTimer (Face.timerID e) e (timeoutMilliseconds i)] ∧
   Face.trace (Face.fire (Face.timerID e) f')
   = Face.trace f ++ onTimeout_effects e) ∧
  Face.trace (Face.after (Face.expressInterestHelper (Some 2) plain od ot f))
  = Face.trace f ++ [Face.TransportSend (Face.wireEncode plain)] ∧
  (let e := expressed_entry f i 3%nat (Some 4%nat) in
   ∃ f', Face.expressInterest i 3%nat (Some 4%nat) f
         = Face.Returned (Face.lastEntryId f + 1) f' ∧
         Face.pendingInterestTable f' = Face.pendingInterestTable f ++ [e] ∧
         Face.timers f'
         = Face.timers f
           ++ [Face.mkTimer (Face.timerID e) e (timeoutMilliseconds i)] ∧
         Face.trace f'
         = Face.trace f
           ++ (if Name_match Face.timeoutPrefix (interest_name i)
               then []
               else [Face.TransportSend (Face.wireEncode i)]) ∧
         Face.trace (Face.fire (Face.timerID e) f')
         = Face.trace f' ++ onTimeout_effects e) ∧
  (let f0 := Face.create (Some 7) in
   let g := Face.run f0
              [Face.ExpressInterest plain 3%nat (Some 4%nat);
               Face.TransportOpened] in
   let e := expressed_entry f0 plain 3%nat (Some 4%nat) in
   Face.pendingInterestTable g = [e] ∧
   Face.timers g
   = [Face.mkTimer (Face.timerID e) e (timeoutMilliseconds plain)] ∧
   Face.trace g
   = Face.TransportConnect 7
     :: (if Name_match Face.timeoutPrefix (interest_name plain)
         then []
         else [Face.TransportSend (Face.wireEncode plain)])
     ++ [Face.CallOnOpen]).
Proof.
  intros H i plain od ot f.
  assert (Name_match Face.timeoutPrefix (interest_name i) = true) as Hm
    by reflexivity.
  assert (Name_match Face.timeoutPrefix (interest_name plain) = false) as Hp
    by reflexivity.
  assert (fits i) as Hfi by (vm_compute; discriminate).
  assert (fits plain) as Hfp by (vm_compute; discriminate).
  assert (removal_request f (Some 2) = None) as Hreq
    by (vm_compute; reflexivity).
  assert (Face.connectionInfo f = Some 7) as Hci by (vm_compute; reflexivity).
  assert (Face.transport_connectionInfo f = Some 7) as Htc
    by (vm_compute; reflexivity).
  assert (Face.readyStatus f = Face.OPENED) as Hs
    by (vm_compute; reflexivity).
  assert (Face.indexOf (Face.lastEntryId f + 1) (Face.pitRemoveRequests f)
          = None) as Hidx by (vm_compute; reflexivity).
  split; [done|].
  pose proof (timeout_prefix_not_sent (H := H))
    as (P1 & _ & P3 & P4 & P5 & P6).
  split; [exact (P1 f (Some 2) i od ot Hm)|].
  split; [exact (P3 (Some 7) one_pending_events (Some 2) i od ot Hm Hfi
                   Hreq)|].
  split; [exact (P4 f (Some 2) plain od ot Hp Hfp)|].
  split; [exact (P5 (Some 7) one_pending_events 7 i 3%nat (Some 4%nat)
                   Hci Htc Hs Hfi Hidx)|].
  exact (P6 7 plain 3%nat (Some 4%nat) Hfp).
Defined.

(** The claim that an Interest under [/local/timeout] always gets its PIT
    entry and its timer fails for an Interest whose encoding is too large:
    [expressInterest] on an open Face throws, and the table and the pending
    timers are as before. *)
Lemma timeout_prefix_oversized_counterexample :
  let H := example_collaborators in
  let i := oversized_timeout_interest in
  let f := one_pending in
  Name_match Face.timeoutPrefix (interest_name i) = true ∧
  Z.of_nat (length (Face.wireEncode i)) = 8801 ∧
  Face.readyStatus f = Face.OPENED ∧
  Face.expressInterest i 3%nat (Some 4%nat) f
  = Face.Thrown Face.EncodedInterestTooLarge
      (Face.set_lastEntryId 2 f) ∧
  Face.pendingInterestTable
    (Face.after (Face.expressInterest i 3%nat (Some 4%nat) f))
  = Face.pendingInterestTable f ∧
  Face.timers (Face.after (Face.expressInterest i 3%nat (Some 4%nat) f))
  = Face.timers f ∧
  Forall (λ e, Face.interest e ≠ i)
    (Face.pendingInterestTable
       (Face.after (Face.expressInterest i 3%nat (Some 4%nat) f))).
Proof.
  vm_compute. repeat split; try done.
  repeat constructor. discriminate.
Qed.

(** ** Ids come from [getNextEntryId] *)

Lemma id_le_mono b b' id : b ≤ b' → id_le b id → id_le b' id.
Proof. intros Hb Hid x Hx. specialize (Hid x Hx). lia. Qed.

Lemma effect_id_le_mono b b' eff :
  b ≤ b' → effect_id_le b eff → effect_id_le b' eff.
Proof. intros Hb. destruct eff; simpl; try done; by apply id_le_mono. Qed.

Lemma id_le_new_id f allocate :
  id_le (Face.lastEntryId (alloc allocate f)) (new_id f allocate).
Proof. destruct allocate; simpl; intros x [= <-]. lia. Qed.

Section IdsBounded.

Context `{Face.Collaborators}.

Lemma ids_bounded_grow f f' :
  Face.pendingInterestTable f' = Face.pendingInterestTable f →
  Face.timers f' = Face.timers f →
  Face.onConnectedCallbacks f' = Face.onConnectedCallbacks f →
  Face.trace f' = Face.trace f →
  Face.lastEntryId f ≤ Face.lastEntryId f' →
  ids_bounded f → ids_bounded f'.
Proof.
  intros Hp Ht Hq Htr Hl (Bp & Bq & Bt & Btr).
  unfold ids_bounded. rewrite Hp, Ht, Hq, Htr.
  repeat split.
  - eapply Forall_impl; [exact Bp|]. intros e. by apply id_le_mono.
  - eapply Forall_impl; [exact Bq|]. intros e. by apply id_le_mono.
  - eapply Forall_impl; [exact Bt|]. intros e. by apply id_le_mono.
  - eapply Forall_impl; [exact Btr|]. intros e. by apply effect_id_le_mono.
Qed.

Lemma sends_id_le b i : Forall (effect_id_le b) (sends i).
Proof.
  unfold sends. destruct (Name_match _ _); repeat constructor.
Qed.

Lemma ids_bounded_helper g g' id i od ot :
  ids_bounded g →
  id_le (Face.lastEntryId g) id →
  helper_outcome g g' id i od ot →
  ids_bounded g'.
Proof.
  intros (Bp & Bq & Bt & Btr) Hid
    [(_ & ->)|[(_ & _ & Hp & Ht & _ & Hq & Hl & _ & Htr)
              |(_ & _ & _ & Hp & Ht & _ & Hq & Hl & _ & Htr)]].
  - done.
  - unfold ids_bounded. rewrite Hp, Ht, Hq, Hl, Htr.
    repeat split; try done.
    apply Forall_app. split; [done|apply sends_id_le].
  - unfold ids_bounded. rewrite Hp, Ht, Hq, Hl, Htr.
    repeat split; try done.
    + apply Forall_app. split; [done|]. by repeat constructor.
    + apply Forall_app. split; [done|]. by repeat constructor.
    + apply Forall_app. split; [done|apply sends_id_le].
Qed.

Lemma ids_bounded_micro sending f f' :
  micro sending f f' → ids_bounded f → ids_bounded f'.
Proof.
  apply (micro_invariant ids_bounded).
  - intros g g' (Hp & Ht & _ & Hq & Hl & _ & effects & Htr & Horigin)
      (Bp & Bq & Bt & Btr).
    unfold ids_bounded. rewrite Hq, Htr. repeat split.
    + eapply Forall_impl; [by eapply Forall_sublist|].
      intros e. by apply id_le_mono.
    + eapply Forall_impl; [exact Bq|]. intros e. by apply id_le_mono.
    + eapply Forall_impl; [by eapply Forall_sublist|].
      intros e. by apply id_le_mono.
    + apply Forall_app. split.
      * eapply Forall_impl; [exact Btr|].
        intros e. by apply effect_id_le_mono.
      * apply Forall_forall. intros eff Hin.
        pose proof (proj1 (Forall_forall _ _) Horigin eff Hin) as Ho.
        apply (effect_id_le_mono (Face.lastEntryId g)); [done|].
        destruct eff; simpl in *; try done.
        -- by apply (proj1 (Forall_forall _ _) Bp).
        -- destruct Ho as (tm & Htm & <-).
           by apply (proj1 (Forall_forall _ _) Bt).
  - intros g allocate i od ot Hg.
    destruct (alloc_fields allocate g)
      as (Hp & Ht & _ & Hq & _ & _ & _ & _ & Htr & Hl).
    pose proof (ids_bounded_grow g (alloc allocate g) Hp Ht Hq Htr Hl Hg)
      as (Bp & Bq & Bt & Btr).
    unfold ids_bounded. cbn -[alloc new_id]. repeat split; try done.
    apply Forall_app. rewrite Hq in Bq. split; [done|].
    repeat constructor. cbn -[alloc new_id]. apply id_le_new_id.
  - intros g d rest g' Hq (Bp & Bq & Bt & Btr) Hout.
    rewrite Hq in Bq. inversion Bq as [|? ? Hd Hrest]; subst.
    eapply (ids_bounded_helper (Face.set_onConnectedCallbacks rest g));
      [|exact Hd|exact Hout].
    by repeat split.
  - intros g allocate i od ot g' Hg Hout.
    destruct (alloc_fields allocate g)
      as (Hp & Ht & _ & Hq & _ & _ & _ & _ & Htr & Hl).
    eapply ids_bounded_helper; [|apply id_le_new_id|exact Hout].
    by apply (ids_bounded_grow g).
Qed.

Lemma ids_bounded_create info : ids_bounded (Face.create info).
Proof. unfold ids_bounded. simpl. repeat split; constructor. Qed.

Lemma ids_bounded_run info events :
  ids_bounded (Face.run (Face.create info) events).
Proof.
  apply (run_invariant ids_bounded); [|apply ids_bounded_create].
  apply ids_bounded_micro.
Qed.

End IdsBounded.

(** ** Removal before the send *)

Lemma count_deferred_cons id d q :
  count_deferred id (d :: q)
  = ((if decide (Face.deferred_id d = Some id) then 1 else 0)
     + count_deferred id q)%nat.
Proof. unfold count_deferred. rewrite filter_cons. by destruct (decide _). Qed.

Lemma count_deferred_snoc id q d :
  count_deferred id (q ++ [d])
  = (count_deferred id q
     + (if decide (Face.deferred_id d = Some id) then 1 else 0))%nat.
Proof.
  unfold count_deferred. rewrite filter_app, length_app, filter_cons.
  by destruct (decide _).
Qed.

Lemma count_requests_cons id x r :
  count_requests id (x :: r)
  = ((if decide (x = id) then 1 else 0) + count_requests id r)%nat.
Proof. unfold count_requests. rewrite filter_cons. by destruct (decide _). Qed.

Lemma count_requests_app id r1 r2 :
  count_requests id (r1 ++ r2)
  = (count_requests id r1 + count_requests id r2)%nat.
Proof. unfold count_requests. by rewrite filter_app, length_app. Qed.

Lemma count_requests_absent id r : id ∉ r → count_requests id r = 0%nat.
Proof.
  induction r as [|x r IH]; [done|]. intros Hn.
  apply not_elem_of_cons in Hn as [Hne Hn].
  rewrite count_requests_cons, IH by done.
  destruct (decide (x = id)); [congruence|done].
Qed.

Lemma count_requests_member id r : id ∈ r → (1 ≤ count_requests id r)%nat.
Proof.
  induction r as [|x r IH]; intros Hin; [by apply elem_of_nil in Hin|].
  rewrite count_requests_cons. apply elem_of_cons in Hin as [<-|Hin].
  - destruct (decide (id = id)); [lia|done].
  - specialize (IH Hin). lia.
Qed.

Lemma count_requests_delete id r index x :
  r !! index = Some x →
  count_requests id r
  = ((if decide (x = id) then 1 else 0)
     + count_requests id (delete index r))%nat.
Proof.
  revert index. induction r as [|y r IH]; intros [|index]; simpl; try done.
  - intros [= ->]. by rewrite count_requests_cons.
  - intros Hl. rewrite !count_requests_cons, (IH index Hl). lia.
Qed.

Section Suppression.

Context `{Face.Collaborators}.

Variable id : Z.

Lemma no_entry_shrinks f f' : shrinks f f' → no_entry id f → no_entry id f'.
Proof.
  intros (Hp & Ht & _) (Np & Nt).
  split; by eapply Forall_sublist.
Qed.

Lemma uncalled_shrinks f f' :
  shrinks f f' → no_entry id f → uncalled id f → uncalled id f'.
Proof.
  intros (_ & _ & _ & _ & _ & _ & effects & Htr & Horigin) (Np & Nt) Hu.
  unfold uncalled in *. rewrite Htr, count_app, Hu. simpl.
  apply count_zero. intros eff Hin.
  pose proof (proj1 (Forall_forall _ _) Horigin eff Hin) as Ho.
  destruct eff; simpl in *; try done.
  - apply bool_decide_eq_false_2.
    by apply (proj1 (Forall_forall _ _) Np).
  - destruct Ho as (tm & Htm & <-). apply bool_decide_eq_false_2.
    by apply (proj1 (Forall_forall _ _) Nt).
Qed.

Lemma count_for_id_sends i :
  count (is_invocation_for_id id) (sends i) = 0%nat.
Proof. unfold sends. by destruct (Name_match _ _). Qed.

Lemma new_id_other f allocate :
  id ≤ Face.lastEntryId f → new_id f allocate ≠ Some id.
Proof. destruct allocate; simpl; [|done]. intros Hl [= Heq]. lia. Qed.

(** [expressInterestHelper] on a Face where the id has been removed: a send
    with the id uses up one removal request. *)
Lemma suppressed_helper g g' id' i od ot :
  id ≤ Face.lastEntryId g → no_entry id g → uncalled id g →
  (count_deferred id (Face.onConnectedCallbacks g)
   + (if decide (id' = Some id) then 1 else 0)
   ≤ count_requests id (Face.pitRemoveRequests g))%nat →
  helper_outcome g g' id' i od ot →
  suppressed id g'.
Proof.
  intros Hl (Np & Nt) Hu Hc
    [(_ & ->)
    |[(_ & (x & index & -> & Hidx & Hr) & Hp & Ht & _ & Hq & Hl' & _ & Htr)
     |(_ & Hreq & Hr & Hp & Ht & _ & Hq & Hl' & _ & Htr)]].
  - unfold suppressed, no_entry. repeat split; try done. lia.
  - unfold suppressed, no_entry, uncalled in *.
    rewrite Hp, Ht, Hq, Hl', Htr, Hr, count_app, count_for_id_sends.
    apply indexOf_Some in Hidx as [Hlook _].
    rewrite (count_requests_delete id _ _ _ Hlook) in Hc.
    repeat split; try done; [lia|].
    destruct (decide (Some x = Some id)), (decide (x = id));
      try congruence; lia.
  - assert (id' ≠ Some id) as Hne.
    { intros ->. simpl in Hreq. apply indexOf_None in Hreq.
      rewrite (count_requests_absent _ _ Hreq) in Hc.
      destruct (decide (Some id = Some id)); [lia|done]. }
    unfold suppressed, no_entry, uncalled in *.
    rewrite Hp, Ht, Hq, Hl', Htr, Hr, count_app, count_for_id_sends.
    repeat split; try done.
    + apply Forall_app. split; [done|]. by repeat constructor.
    + apply Forall_app. split; [done|]. by repeat constructor.
    + lia.
    + destruct (decide (id' = Some id)); [done|]. lia.
Qed.

Lemma suppressed_micro sending f f' :
  micro sending f f' → suppressed id f → suppressed id f'.
Proof.
  apply (micro_invariant (suppressed id)).
  - intros g g' Hs (Hl & Hn & Hu & Hc).
    pose proof (no_entry_shrinks _ _ Hs Hn) as Hn'.
    pose proof (uncalled_shrinks _ _ Hs Hn Hu) as Hu'.
    destruct Hs as (_ & _ & _ & Hq & Hl' & Hr & _).
    unfold suppressed. rewrite Hq.
    split; [lia|]. split; [done|]. split; [done|].
    destruct Hr as [->|(x & ->)]; [done|]. rewrite count_requests_app. lia.
  - intros g allocate i od ot (Hl & (Np & Nt) & Hu & Hc).
    destruct (alloc_fields allocate g)
      as (Hp & Ht & _ & Hq & Hr & _ & _ & _ & Htr & Hl').
    unfold suppressed, no_entry, uncalled in *.
    cbn -[alloc new_id count_deferred count_requests count].
    rewrite Hp, Ht, Hr, Htr, count_deferred_snoc. cbn [Face.deferred_id].
    destruct (decide (new_id g allocate = Some id)) as [Heq|_];
      [by apply new_id_other in Heq|].
    repeat split; try done; lia.
  - intros g d rest g' Hq (Hl & Hn & Hu & Hc) Hout.
    rewrite Hq, count_deferred_cons in Hc.
    eapply (suppressed_helper (Face.set_onConnectedCallbacks rest g));
      [..|exact Hout]; try done.
    cbn -[count_deferred count_requests]. lia.
  - intros g allocate i od ot g' (Hl & (Np & Nt) & Hu & Hc) Hout.
    destruct (alloc_fields allocate g)
      as (Hp & Ht & _ & Hq & Hr & _ & _ & _ & Htr & Hl').
    eapply (suppressed_helper (alloc allocate g)); [..|exact Hout].
    + lia.
    + unfold no_entry. by rewrite Hp, Ht.
    + unfold uncalled. by rewrite Htr.
    + rewrite Hq, Hr.
      destruct (decide (new_id g allocate = Some id)) as [Heq|_];
        [by apply new_id_other in Heq|lia].
Qed.

Lemma suppressed_run events :
  ∀ f, suppressed id f → suppressed id (Face.run f events).
Proof. apply (run_invariant (suppressed id)), suppressed_micro. Qed.

(** While the Face is not OPENED no send is processed. *)
Lemma waiting_micro f f' : micro false f f' → waiting id f → waiting id f'.
Proof.
  apply (micro_invariant_quiet (waiting id)).
  - intros g g' Hs (Hn & Hu & Hc & Hz).
    pose proof (no_entry_shrinks _ _ Hs Hn) as Hn'.
    pose proof (uncalled_shrinks _ _ Hs Hn Hu) as Hu'.
    destruct Hs as (_ & _ & _ & Hq & Hl' & _).
    unfold waiting. rewrite Hq.
    split; [done|]. split; [done|]. split; [done|].
    intros Hlt. apply Hz. lia.
  - intros g allocate i od ot ((Np & Nt) & Hu & Hc & Hz).
    destruct (alloc_fields allocate g)
      as (Hp & Ht & _ & Hq & Hr & _ & _ & _ & Htr & Hl').
    unfold waiting, no_entry, uncalled in *.
    cbn -[alloc new_id count_deferred count_requests count].
    rewrite Hp, Ht, Htr, count_deferred_snoc. cbn [Face.deferred_id].
    split; [done|]. split; [done|].
    destruct (decide (new_id g allocate = Some id)) as [Heq|Hne].
    + destruct allocate; [|done]. simpl in Heq. injection Heq as Heq.
      rewrite Hz by lia. split; [lia|]. simpl. intros Hlt. lia.
    + split; [lia|]. intros Hlt. rewrite Hz; lia.
Qed.

Lemma quiet_status f f' :
  micro false f f' →
  Face.readyStatus f ≠ Face.OPENED → Face.readyStatus f' ≠ Face.OPENED.
Proof.
  intros Hm Hs.
  destruct Hm as [f' Hf|Hs'|allocate i od ot|d rest Hs' Hq
                 |allocate i od ot Hs'|rid|data|t]; try done.
  - destruct Hf as (_ & _ & _ & _ & _ & _ & Hst & _).
    intros Ho. by apply Hs, Hst.
  - destruct (alloc_fields allocate f)
      as (_ & _ & _ & _ & _ & Hst & _).
    cbn -[alloc new_id]. by rewrite Hst.
  - destruct rid as [rid|]; [|done].
    destruct (removePendingInterest_fields rid f)
      as (_ & _ & _ & _ & _ & Hst & _).
    by rewrite Hst.
  - destruct (onReceivedData_fields data f)
      as (_ & _ & _ & _ & _ & _ & Hst & _).
    by rewrite Hst.
  - pose proof (fire_fields t f) as Hf. cbn zeta in Hf.
    destruct (pending_timer t f); [|by rewrite Hf].
    destruct Hf as (_ & _ & _ & _ & _ & _ & _ & _ & Hst & _).
    by rewrite Hst.
Qed.

Lemma quiet_lastEntryId bound f f' :
  micro false f f' →
  bound ≤ Face.lastEntryId f → bound ≤ Face.lastEntryId f'.
Proof.
  apply (micro_invariant_quiet (λ g, bound ≤ Face.lastEntryId g)).
  - intros g g' (_ & _ & _ & _ & Hl & _) Hb. lia.
  - intros g allocate i od ot Hb.
    destruct (alloc_fields allocate g)
      as (_ & _ & _ & _ & _ & _ & _ & _ & _ & Hl').
    cbn -[alloc new_id]. lia.
Qed.

Lemma quiet_step f e :
  not_opening e → Face.readyStatus f ≠ Face.OPENED →
  rtc (micro false) f (Face.step f e).
Proof.
  intros He Hs. pose proof (step_micro f e) as Hm.
  assert (may_send f e = false) as Heq.
  { destruct e; try done; simpl; by apply bool_decide_eq_false_2. }
  by rewrite Heq in Hm.
Qed.

Lemma quiet_rtc f f' :
  rtc (micro false) f f' →
  waiting id f → Face.readyStatus f ≠ Face.OPENED →
  waiting id f' ∧ Face.readyStatus f' ≠ Face.OPENED
  ∧ Face.lastEntryId f ≤ Face.lastEntryId f'.
Proof.
  induction 1 as [f|f g h Hm _ IH]; intros Hw Hs.
  - split; [done|]. split; [done|]. lia.
  - destruct (IH (waiting_micro _ _ Hm Hw) (quiet_status _ _ Hm Hs))
      as (Hw' & Hs' & Hl').
    split; [done|]. split; [done|].
    pose proof (quiet_lastEntryId (Face.lastEntryId f) _ _ Hm). lia.
Qed.

Lemma quiet_run events :
  ∀ f, Forall not_opening events →
       waiting id f → Face.readyStatus f ≠ Face.OPENED →
       waiting id (Face.run f events)
       ∧ Face.readyStatus (Face.run f events) ≠ Face.OPENED
       ∧ Face.lastEntryId f ≤ Face.lastEntryId (Face.run f events).
Proof.
  induction events as [|e events IH]; intros f Hall Hw Hs.
  - split; [done|]. split; [done|]. simpl. lia.
  - inversion Hall as [|? ? He Hrest]; subst.
    destruct (quiet_rtc _ _ (quiet_step f e He Hs) Hw Hs)
      as (Hw1 & Hs1 & Hl1).
    destruct (IH _ Hrest Hw1 Hs1) as (Hw2 & Hs2 & Hl2).
    split; [done|]. split; [done|].
    change (Face.run f (e :: events))
      with (Face.run (Face.step f e) events).
    lia.
Qed.

(** An id that has not been handed out yet is nowhere in the Face. *)
Lemma waiting_fresh f :
  ids_bounded f → Face.lastEntryId f < id → waiting id f.
Proof.
  intros (Bp & Bq & Bt & Btr) Hlt.
  assert (Hother : ∀ x, id_le (Face.lastEntryId f) x → x ≠ Some id).
  { intros x Hle Heq. specialize (Hle id Heq). lia. }
  assert (count_deferred id (Face.onConnectedCallbacks f) = 0%nat) as Hz.
  { unfold count_deferred. rewrite filter_none; [done|].
    intros d Hd. apply Hother.
    by apply (proj1 (Forall_forall _ _) Bq). }
  unfold waiting, no_entry, uncalled. rewrite Hz.
  repeat split; try done; try lia.
  - eapply Forall_impl; [exact Bp|]. intros e. apply Hother.
  - eapply Forall_impl; [exact Bt|]. intros e. apply Hother.
  - apply count_zero. intros eff Hin.
    pose proof (proj1 (Forall_forall _ _) Btr eff Hin) as Hb.
    destruct eff; simpl in *; try done;
      by apply bool_decide_eq_false_2, Hother.
Qed.

(** The removal of an id that is in no entry leaves its request. *)
Lemma waiting_removed f :
  waiting id f → id ≤ Face.lastEntryId f →
  suppressed id (Face.removePendingInterest (Some id) f).
Proof.
  intros ((Np & Nt) & Hu & Hc & _) Hl.
  assert (entries_with_id id (Face.pendingInterestTable f) = []) as Hnil.
  { unfold entries_with_id. apply filter_none. intros e He.
    by apply (proj1 (Forall_forall _ _) Np). }
  rewrite (removePendingInterest_absent _ _ Hnil).
  case_bool_decide as Hin.
  - unfold suppressed, no_entry. repeat split; try done.
    pose proof (count_requests_member _ _ Hin). lia.
  - unfold suppressed, no_entry, uncalled. simpl.
    repeat split; try done.
    rewrite count_requests_app, count_requests_cons.
    destruct (decide (id = id)); [lia|done].
Qed.

End Suppression.

Section ExpressInterestId.

Context `{Face.Collaborators}.

(** [expressInterest] returns the id that [getNextEntryId] hands out. *)
Lemma expressInterest_returns f i od ot x f' :
  Face.expressInterest i od ot f = Face.Returned x f' →
  x = Face.lastEntryId f + 1.
Proof.
  cbv [Face.expressInterest Face.bind Face.getNextEntryId Face.read Face.ret
       Face.exec].
  cbn [Face.connectionInfo Face.set_lastEntryId].
  destruct (Face.connectionInfo f).
  - destruct (Face.reconnectAndExpressInterest _ _ _ _ _); [|done].
    by intros [= <- _].
  - by intros [= <- _].
Qed.

Lemma reconnect_lastEntryId g id i od ot :
  Face.readyStatus g ≠ Face.OPENED →
  Face.lastEntryId
    (Face.after (Face.reconnectAndExpressInterest id i od ot g))
  = Face.lastEntryId g.
Proof.
  intros Hs. unfold Face.reconnectAndExpressInterest.
  destruct (Face.connectionInfo g) as [info|]; [|done].
  destruct (negb _ || _); [done|].
  by destruct (Face.readyStatus g).
Qed.

Lemma expressInterest_allocates f i od ot :
  Face.readyStatus f ≠ Face.OPENED →
  Face.lastEntryId (Face.step f (Face.ExpressInterest i od ot))
  = Face.lastEntryId f + 1.
Proof.
  intros Hs. cbn [Face.step].
  cbv [Face.expressInterest Face.bind Face.getNextEntryId Face.read Face.ret
       Face.exec].
  cbn [Face.connectionInfo Face.set_lastEntryId].
  destruct (Face.connectionInfo f) as [info|]; [|done].
  match goal with
  | |- context [Face.reconnectAndExpressInterest ?a ?b ?c ?d ?g] =>
      pose proof (reconnect_lastEntryId g a b c d Hs) as Hr;
      destruct (Face.reconnectAndExpressInterest a b c d g)
  end; exact Hr.
Qed.

End ExpressInterestId.

(** C5. [removePendingInterest] called before the send of its Interest
    has been processed does not keep the Interest from being sent. The
    Interest [/a] is expressed on a new Face, before the connection is
    open, and gets the id 1; [removePendingInterest(1)] records the removal
    request; when the transport reports the open connection,
    [expressInterestHelper] finds the request, erases it and adds no PIT
    entry and no timer, but does not return there, and the encoding of the
    Interest is handed to the transport. *)
Theorem removal_before_send_still_sends :
  let H := example_collaborators in
  let f := Face.run (Face.create (Some 7))
             [Face.ExpressInterestName [[97]] 1%nat (Some 2%nat);
              Face.RemovePendingInterest (Some 1)] in
  let f' := Face.step f Face.TransportOpened in
  Face.pitRemoveRequests f = [1] ∧
  map Face.deferred_id (Face.onConnectedCallbacks f) = [Some 1] ∧
  Face.pitRemoveRequests f' = [] ∧
  Face.pendingInterestTable f' = [] ∧
  Face.timers f' = [] ∧
  Face.trace f' = Face.trace f ++ [Face.TransportSend [97]; Face.CallOnOpen] ∧
  Face.TransportSend [97] ∈ Face.trace f' ∧
  Face.TransportSend [97] ∉ Face.trace f.
Proof.
  vm_compute. repeat split; try done.
  - apply list_elem_of_In. simpl. tauto.
  - intros Hin. apply list_elem_of_In in Hin. simpl in Hin.
    destruct Hin as [Hin|[]]. discriminate.
Qed.

(** ** Registering a prefix *)

Section Registration.

Context `{Face.Collaborators}.

Lemma helper_tables f id i od ot :
  let f' := Face.after (Face.expressInterestHelper id i od ot f) in
  Face.interestFilterTable f' = Face.interestFilterTable f ∧
  Face.registeredPrefixTable f' = Face.registeredPrefixTable f.
Proof.
  cbn zeta.
  destruct (helper_cases f id i od ot) as [Hbig|x index Hfits -> Hidx|Hfits Hreq];
    [done| |]; unfold send_unless_timeout; by destruct (negb _).
Qed.

Lemma reconnect_tables g id i od ot :
  let g' := Face.after (Face.reconnectAndExpressInterest id i od ot g) in
  Face.interestFilterTable g' = Face.interestFilterTable g ∧
  Face.registeredPrefixTable g' = Face.registeredPrefixTable g.
Proof.
  cbn zeta. unfold Face.reconnectAndExpressInterest.
  destruct (Face.connectionInfo g) as [info|]; [|done].
  destruct (negb _ || _); [done|].
  destruct (Face.readyStatus g); try done.
  apply helper_tables.
Qed.

Lemma onIsLocalResult_tables g id prefix onInterest flags onRegisterFailed b :
  id ≠ 0 →
  let g' := Face.after
              (Face.onIsLocalResult id prefix onInterest flags
                 onRegisterFailed b g) in
  Face.interestFilterTable g'
  = Face.interestFilterTable g
    ++ match onInterest with
       | Some onInterest =>
           [Face.mkInterestFilterEntry (Face.lastEntryId g + 1)
              (Face.mkInterestFilter prefix None) onInterest]
       | None => []
       end ∧
  Face.registeredPrefixTable g'
  = Face.registeredPrefixTable g
    ++ [Face.mkRegisteredPrefix id prefix
          match onInterest with
          | Some _ => Face.lastEntryId g + 1
          | None => 0
          end].
Proof.
  intros Hid. cbn zeta.
  cbv [Face.onIsLocalResult Face.bind Face.setInterestFilter
       Face.getNextEntryId Face.ret Face.exec].
  match goal with
  | |- context [Face.reconnectAndExpressInterest None ?ci ?od ?ot] =>
      set (commandInterest := ci); set (onData := od); set (onTimeout := ot)
  end.
  apply Z.eqb_neq in Hid. rewrite Hid. cbn [negb].
  destruct onInterest as [h|].
  - match goal with
    | |- context [Face.reconnectAndExpressInterest _ _ _ _ ?g'] =>
        pose proof (reconnect_tables g' None commandInterest onData
                      onTimeout) as Hr
    end.
    cbn zeta in Hr.
    destruct (Face.reconnectAndExpressInterest _ _ _ _ _);
      destruct Hr as [-> ->]; simpl; by rewrite app_nil_r || done.
  - match goal with
    | |- context [Face.reconnectAndExpressInterest _ _ _ _ ?g'] =>
        pose proof (reconnect_tables g' None commandInterest onData
                      onTimeout) as Hr
    end.
    cbn zeta in Hr.
    destruct (Face.reconnectAndExpressInterest _ _ _ _ _);
      destruct Hr as [-> ->]; simpl; by rewrite app_nil_r || done.
Qed.






End Registration.




(** * More of the sources *)

(** ** The segment fetcher: how a fetch goes on and how it ends *)

Lemma fetcher_run_app verify rs :
  ∀ this pending this' pending' rest,
    SegmentFetcher.run verify this pending rs
      = SegmentFetcher.Fetching this' pending' →
    SegmentFetcher.run verify this pending (rs ++ rest)
    = SegmentFetcher.run verify this' pending' rest.
Proof.
  induction rs as [|r rs IH]; intros this pending this' pending' rest Hrun.
  - simpl in Hrun. by injection Hrun as -> ->.
  - cbn [SegmentFetcher.run app] in *.
    destruct (match r with
              | SegmentFetcher.GotData data =>
                  SegmentFetcher.onData verify this pending data
              | SegmentFetcher.TimedOut =>
                  SegmentFetcher.onTimeout this pending
              end) as [this1 [interest|content|code|]]; try done.
    by apply IH.
Qed.

Lemma fetch_app verify base rs this pending rest :
  SegmentFetcher.fetch verify base rs = SegmentFetcher.Fetching this pending →
  SegmentFetcher.fetch verify base (rs ++ rest)
  = SegmentFetcher.run verify this pending rest.
Proof. unfold SegmentFetcher.fetch. simpl. apply fetcher_run_app. Qed.

(** X1. A timeout of the Interest in flight ends the fetch with
    [onError(INTEREST_TIMEOUT)]: the Interest is not expressed again, and no
    later response is looked at. *)
Theorem fetch_timeout_ends_fetch verify base responses this pending rest :
  SegmentFetcher.fetch verify base responses
    = SegmentFetcher.Fetching this pending →
  SegmentFetcher.fetch verify base
    (responses ++ SegmentFetcher.TimedOut :: rest)
  = SegmentFetcher.Failed SegmentFetcher.INTEREST_TIMEOUT.
Proof. intros Hrun. by rewrite (fetch_app _ _ _ _ _ _ Hrun). Qed.

Lemma fetch_timeout_ends_fetch_witness :
  SegmentFetcher.fetch (λ _, true) (Interest_of_name [[120]])
    (take 2 scenario_responses ++ SegmentFetcher.TimedOut
       :: drop 2 scenario_responses)
  = SegmentFetcher.Failed SegmentFetcher.INTEREST_TIMEOUT.
Proof.
  eapply (fetch_timeout_ends_fetch (λ _, true) (Interest_of_name [[120]])
            (take 2 scenario_responses)).
  reflexivity.
Defined.

(** X2. A Data packet that fails [verifySegment] ends the fetch with
    [SEGMENT_VERIFICATION_FAILED], whatever its name is; a verified packet
    whose name does not end with a segment number ends it with
    [DATA_HAS_NO_SEGMENT]. No later response is looked at. *)
Theorem fetch_bad_data_ends_fetch verify base responses this pending d rest :
  SegmentFetcher.fetch verify base responses
    = SegmentFetcher.Fetching this pending →
  (verify d = false →
   SegmentFetcher.fetch verify base
     (responses ++ SegmentFetcher.GotData d :: rest)
   = SegmentFetcher.Failed SegmentFetcher.SEGMENT_VERIFICATION_FAILED)
  ∧ (verify d = true →
     endsWithSegmentNumber (data_name d) = false →
     SegmentFetcher.fetch verify base
       (responses ++ SegmentFetcher.GotData d :: rest)
     = SegmentFetcher.Failed SegmentFetcher.DATA_HAS_NO_SEGMENT).
Proof.
  intros Hrun. rewrite (fetch_app _ _ _ _ _ _ Hrun).
  cbn [SegmentFetcher.run]. unfold SegmentFetcher.onData.
  split.
  - by intros ->.
  - by intros -> ->.
Qed.

Lemma fetch_bad_data_ends_fetch_witness :
  let verify := λ d : Data, bool_decide (data_content d ≠ Some [2]) in
  let second := mkData (scenario_name 1) (Some [2]) [] in
  verify second = false ∧
  SegmentFetcher.fetch verify (Interest_of_name [[120]])
    (take 1 scenario_responses ++ SegmentFetcher.GotData second
       :: drop 2 scenario_responses)
  = SegmentFetcher.Failed SegmentFetcher.SEGMENT_VERIFICATION_FAILED.
Proof.
  intros verify second. split; [reflexivity|].
  pose proof (λ this pending Hrun,
                proj1 (fetch_bad_data_ends_fetch verify
                         (Interest_of_name [[120]])
                         (take 1 scenario_responses) this pending second
                         (drop 2 scenario_responses) Hrun)) as Hends.
  eapply Hends; reflexivity.
Defined.

Lemma fetcher_run_prefix verify rs :
  ∀ this pending rest this' pending',
    SegmentFetcher.run verify this pending (rs ++ rest)
      = SegmentFetcher.Fetching this' pending' →
    ∃ this0 pending0,
      SegmentFetcher.run verify this pending rs
        = SegmentFetcher.Fetching this0 pending0.
Proof.
  induction rs as [|r rs IH]; intros this pending rest this' pending' Hrun.
  - by exists this, pending.
  - cbn [SegmentFetcher.run app] in *.
    destruct (match r with
              | SegmentFetcher.GotData data =>
                  SegmentFetcher.onData verify this pending data
              | SegmentFetcher.TimedOut =>
                  SegmentFetcher.onTimeout this pending
              end) as [this1 [interest|content|code|]]; try done.
    by eapply IH.
Qed.

(** When [onData] goes on with one more Interest, it is the one that
    [fetchNextSegment] makes for the number of parts collected so far. *)
Lemma onData_next verify this oi d this1 next :
  SegmentFetcher.onData verify this oi d
    = (this1, SegmentFetcher.ExpressInterest next) →
  SegmentFetcher.ExpressInterest next
  = SegmentFetcher.fetchNextSegment oi (data_name d)
      (Z.of_nat (length (SegmentFetcher.contentParts this1))).
Proof.
  intros Hd. pose proof (onData_cases verify this oi d) as Hc.
  rewrite Hd in Hc. simpl in Hc.
  inversion Hc as [code|s Hs Hne Hthis Hact|a Hs parts' Ha Hthis Hact].
  - reflexivity.
  - subst. rewrite Ha. subst parts'. cbn [SegmentFetcher.contentParts].
    rewrite length_app. simpl.
    by replace (Z.of_nat (length (SegmentFetcher.contentParts this) + 1))
      with (Z.of_nat (length (SegmentFetcher.contentParts this)) + 1) by lia.
Qed.

Lemma fetcher_run_selectors verify rs :
  ∀ this pending this' pending',
    SegmentFetcher.run verify this pending rs
      = SegmentFetcher.Fetching this' pending' →
    childSelector pending' = childSelector pending ∧
    interestLifetimeMilliseconds pending'
      = interestLifetimeMilliseconds pending ∧
    (rs = [] → pending' = pending) ∧
    (rs ≠ [] → mustBeFresh pending' = false).
Proof.
  induction rs as [|r rs IH]; intros this pending this' pending' Hrun.
  - simpl in Hrun. injection Hrun as -> ->. done.
  - cbn [SegmentFetcher.run] in Hrun.
    destruct r as [d|]; [|done].
    destruct (SegmentFetcher.onData verify this pending d)
      as [this1 [next|content|code|]] eqn:Hd; try done.
    apply onData_next in Hd. injection Hd as ->.
    destruct (IH _ _ _ _ Hrun) as (Hc & Hl & Hnil & Hcons).
    split; [by rewrite Hc|]. split; [by rewrite Hl|]. split; [done|].
    intros _. destruct rs as [|r' rs']; [by rewrite Hnil|by apply Hcons].
Qed.

(** X3. As long as a fetch goes on, every Interest after the first keeps
    the ChildSelector 1 that the first Interest was given and the lifetime
    of the base Interest; MustBeFresh is true in the first Interest only. *)
Theorem fetch_interest_selectors verify base responses this pending :
  SegmentFetcher.fetch verify base responses
    = SegmentFetcher.Fetching this pending →
  childSelector pending = Some 1 ∧
  interestLifetimeMilliseconds pending = interestLifetimeMilliseconds base ∧
  mustBeFresh pending = bool_decide (responses = []).
Proof.
  unfold SegmentFetcher.fetch. simpl. intros Hrun.
  destruct (fetcher_run_selectors _ _ _ _ _ _ Hrun) as (Hc & Hl & Hnil & Hcons).
  split; [by rewrite Hc|]. split; [by rewrite Hl|].
  destruct responses as [|r rs].
  - by rewrite Hnil.
  - by rewrite Hcons.
Qed.

Lemma fetch_interest_selectors_witness :
  let base :=
    setInterestLifetimeMilliseconds (Interest_of_name [[120]]) 1000 in
  let this := SegmentFetcher.mk [Some [1]; Some [2]] in
  let pending :=
    mkInterest (appendSegment [[120]; [253; 1]] 2) (Some 1) false (Some 1000)
      [] in
  SegmentFetcher.fetch (λ _, true) base (take 2 scenario_responses)
  = SegmentFetcher.Fetching this pending ∧
  childSelector pending = Some 1 ∧
  interestLifetimeMilliseconds pending = Some 1000 ∧
  mustBeFresh pending = false.
Proof.
  intros base this pending. split; [reflexivity|].
  exact (fetch_interest_selectors (λ _, true) base
           (take 2 scenario_responses) this pending eq_refl).
Defined.

(** X4. As long as a fetch goes on after a Data packet, the Interest in
    flight asks for the segment whose number is the count of parts
    collected so far, under the name of that Data packet without its last
    component. *)
Theorem fetch_asks_for_next_segment verify base responses d this pending :
  SegmentFetcher.fetch verify base (responses ++ [SegmentFetcher.GotData d])
    = SegmentFetcher.Fetching this pending →
  interest_name pending
  = appendSegment (getPrefix_drop_last (data_name d))
      (Z.of_nat (length (SegmentFetcher.contentParts this))).
Proof.
  unfold SegmentFetcher.fetch. simpl. intros Hrun.
  destruct (fetcher_run_prefix _ _ _ _ _ _ _ Hrun) as (this0 & p0 & Hpre).
  rewrite (fetcher_run_app _ _ _ _ _ _ _ Hpre) in Hrun.
  cbn [SegmentFetcher.run] in Hrun.
  destruct (SegmentFetcher.onData verify this0 p0 d)
    as [this1 [next|content|code|]] eqn:Hd; try done.
  injection Hrun as -> ->.
  apply onData_next in Hd. by injection Hd as ->.
Qed.

Lemma fetch_asks_for_next_segment_witness :
  let this := SegmentFetcher.mk [Some [1]; Some [2]] in
  let pending :=
    mkInterest (appendSegment [[120]; [253; 1]] 2) (Some 1) false None [] in
  SegmentFetcher.fetch (λ _, true) (Interest_of_name [[120]])
    (take 1 scenario_responses
     ++ [SegmentFetcher.GotData (mkData (scenario_name 1) (Some [2]) [])])
  = SegmentFetcher.Fetching this pending ∧
  interest_name pending = appendSegment [[120]; [253; 1]] 2.
Proof.
  intros this pending. split; [reflexivity|].
  exact (fetch_asks_for_next_segment (λ _, true) (Interest_of_name [[120]])
           (take 1 scenario_responses)
           (mkData (scenario_name 1) (Some [2]) []) this pending eq_refl).
Defined.

(** ** The pipelined fetcher: the window-filling loop and the counters *)

Lemma window_names_S prefix first k :
  window_names prefix first (S k)
  = (prefix ++ [segmentComponent first])
    :: window_names prefix (first + 1) k.
Proof.
  unfold window_names. simpl. rewrite Z.add_0_r. f_equal.
  rewrite <- seq_shift, map_map. apply map_ext. intros j.
  do 3 f_equal. lia.
Qed.

Lemma send_loop_fields fuel prefix :
  ∀ c e,
    let k := Z.to_nat (ContentContext.snd_una c + ContentContext.snd_wnd c
                       - ContentContext.snd_nxt c) in
    (k ≤ fuel)%nat →
    let r := ContentContext.send_loop fuel c prefix e in
    r.2 = e ++ window_names prefix (ContentContext.snd_nxt c) k ∧
    ContentContext.snd_nxt r.1 = ContentContext.snd_nxt c + Z.of_nat k ∧
    ContentContext.interest_sent r.1
      = ContentContext.interest_sent c + Z.of_nat k ∧
    ContentContext.snd_wnd r.1 = ContentContext.snd_wnd c ∧
    ContentContext.snd_una r.1 = ContentContext.snd_una c ∧
    same_counters c r.1.
Proof.
  induction fuel as [|fuel IH]; intros c e k Hk; cbn zeta.
  - assert (k = 0%nat) as -> by lia. simpl. rewrite app_nil_r.
    unfold same_counters. repeat split; lia.
  - cbn [ContentContext.send_loop].
    destruct (Z.ltb_spec (ContentContext.snd_nxt c - ContentContext.snd_una c)
                (ContentContext.snd_wnd c)) as [Hlt|Hge].
    + match goal with
      | |- context [ContentContext.send_loop fuel ?c' prefix ?e'] =>
          set (c1 := c'); set (e1 := e')
      end.
      assert (ContentContext.snd_nxt c1 = ContentContext.snd_nxt c + 1)
        as Hn1 by reflexivity.
      assert (ContentContext.snd_una c1 = ContentContext.snd_una c)
        as Hu1 by reflexivity.
      assert (ContentContext.snd_wnd c1 = ContentContext.snd_wnd c)
        as Hw1 by reflexivity.
      assert (ContentContext.interest_sent c1
              = ContentContext.interest_sent c + 1) as Hi1 by reflexivity.
      assert (same_counters c c1) as Hs1 by (by unfold same_counters).
      destruct k as [|k'] eqn:Ek; [lia|].
      destruct (IH c1 e1) as (Hnames & Hnxt & Hsent & Hwnd & Huna & Hsame).
      { rewrite Hn1, Hu1, Hw1. lia. }
      rewrite Hn1, Hu1, Hw1 in Hnames, Hnxt, Hsent.
      replace (Z.to_nat (ContentContext.snd_una c + ContentContext.snd_wnd c
                         - (ContentContext.snd_nxt c + 1))) with k'
        in Hnames, Hnxt, Hsent by lia.
      rewrite Hnames, Hnxt, Hsent, Hwnd, Huna, Hi1, Hw1, Hu1.
      subst e1. rewrite window_names_S, <- (assoc_L (++)). simpl.
      split; [done|]. split; [lia|]. split; [lia|]. split; [done|].
      split; [done|].
      destruct Hs1 as (? & ? & ? & ? & ? & ?).
      destruct Hsame as (? & ? & ? & ? & ? & ?).
      unfold same_counters. repeat split; congruence || lia.
    + assert (k = 0%nat) as -> by lia. simpl. rewrite app_nil_r.
      unfold same_counters. repeat split; lia.
Qed.

(** X5. The window-filling loop of the pipelined fetcher expresses
    Interests for exactly the segments [snd_nxt], [snd_nxt + 1], ... up to
    [snd_una + snd_wnd - 1], in this order, each under the given prefix; it
    moves [snd_nxt] to [snd_una + snd_wnd], counts each Interest in
    [interest_sent], and does nothing when the window is full. *)
Theorem send_fills_window (c : ContentContext.t) (prefix : Name) :
  let r := ContentContext.send c prefix in
  let k := Z.to_nat (ContentContext.snd_una c + ContentContext.snd_wnd c
                     - ContentContext.snd_nxt c) in
  r.2 = window_names prefix (ContentContext.snd_nxt c) k ∧
  ContentContext.snd_nxt r.1 = ContentContext.snd_nxt c + Z.of_nat k ∧
  ContentContext.interest_sent r.1
    = ContentContext.interest_sent c + Z.of_nat k ∧
  ContentContext.snd_wnd r.1 = ContentContext.snd_wnd c ∧
  ContentContext.snd_una r.1 = ContentContext.snd_una c.
Proof.
  cbn zeta. unfold ContentContext.send.
  destruct (send_loop_fields
              (Z.to_nat (ContentContext.snd_wnd c
                         - (ContentContext.snd_nxt c
                            - ContentContext.snd_una c)))
              prefix c [])
    as (Hnames & Hnxt & Hsent & Hwnd & Huna & _); [lia|].
  rewrite Hnames, Hnxt, Hsent, Hwnd, Huna. done.
Qed.

Lemma same_counters_refl c : same_counters c c.
Proof. by unfold same_counters. Qed.

Lemma same_counters_trans a b c :
  same_counters a b → same_counters b c → same_counters a c.
Proof.
  intros (? & ? & ? & ? & ? & ?) (? & ? & ? & ? & ? & ?).
  unfold same_counters. repeat split; congruence || lia.
Qed.

Lemma slide_loop_counters fuel :
  ∀ c, same_counters c (ContentContext.slide_loop fuel c) ∧
       ContentContext.interest_sent (ContentContext.slide_loop fuel c)
       = ContentContext.interest_sent c.
Proof.
  induction fuel as [|fuel IH]; intros c; [by split|].
  cbn [ContentContext.slide_loop].
  destruct (ContentContext.ooo_table c !! _); [|by split].
  match goal with
  | |- context [ContentContext.slide_loop fuel ?c'] =>
      destruct (IH c') as [Hs Hi]; rewrite Hi; split; [|done];
      apply (same_counters_trans c c'); [|done]
  end.
  unfold same_counters. simpl. repeat split; lia.
Qed.

(** What [onData] does to the counters: the packet is counted, every
    Interest it expresses is counted, and [totalBlocks] moves with
    [snd_una]. *)
Lemma onData_counters c i d :
  let r := ContentContext.onData c i d in
  ContentContext.pkt_recved (ContentContext.context r)
    = ContentContext.pkt_recved c + 1 ∧
  ContentContext.interest_sent (ContentContext.context r)
    = ContentContext.interest_sent c
      + Z.of_nat (length (ContentContext.expressed r)) ∧
  ContentContext.dups (ContentContext.context r) = ContentContext.dups c ∧
  ContentContext.timed_out (ContentContext.context r)
    = ContentContext.timed_out c ∧
  ContentContext.max_retrans (ContentContext.context r)
    = ContentContext.max_retrans c ∧
  ContentContext.totalBlocks (ContentContext.context r)
    - ContentContext.snd_una (ContentContext.context r)
    = ContentContext.totalBlocks c - ContentContext.snd_una c ∧
  (ContentContext.terminated c = true →
   ContentContext.terminated (ContentContext.context r) = true).
Proof.
  cbn zeta. unfold ContentContext.onData.
  set (c0 := ContentContext.set_pkt_recved (ContentContext.pkt_recved c + 1) c).
  destruct (data_content d); [|simpl; repeat split; try done; lia].
  destruct (get_last (data_name d) ≫= toSegment) as [seg|];
    [|simpl; repeat split; try done; lia].
  destruct (if 0 <? Z.of_nat (length (data_finalBlockId d))
            then option_map Some (toSegment (data_finalBlockId d))
            else Some None) as [final|];
    [|simpl; repeat split; try done; lia].
  destruct (negb (seg =? ContentContext.snd_una c0)).
  - destruct ((ContentContext.snd_nxt _ <=? seg) || _);
      simpl; repeat split; try done; lia.
  - set (c1 := ContentContext.slide (ContentContext.advance c0)).
    assert (same_counters (ContentContext.advance c0) c1
            ∧ ContentContext.interest_sent c1
              = ContentContext.interest_sent c) as [Hs1 Hi1].
    { subst c1. unfold ContentContext.slide.
      destruct (slide_loop_counters
                  (size (ContentContext.ooo_table (ContentContext.advance c0)))
                  (ContentContext.advance c0)) as [Hs Hi].
      split; [done|]. by rewrite Hi. }
    destruct Hs1 as (Hp & Hd & Ht & Hm & Hb & Hterm).
    simpl in Hp, Hd, Ht, Hm, Hb, Hterm.
    destruct (match final with
              | Some final => ContentContext.snd_una c1 =? final + 1
              | None => false
              end).
    + simpl. rewrite Hp, Hd, Ht, Hm, Hi1. repeat split; try done; lia.
    + set (c2 := if ContentContext.snd_wnd c1 <? ContentContext.max_window c1
                 then ContentContext.set_snd_wnd
                        (ContentContext.snd_wnd c1 + 1) c1
                 else c1).
      assert (same_counters c1 c2
              ∧ ContentContext.interest_sent c2
                = ContentContext.interest_sent c1) as [Hs2 Hi2].
      { subst c2. destruct (_ <? _); by split. }
      destruct Hs2 as (Hp2 & Hd2 & Ht2 & Hm2 & Hb2 & Hterm2).
      destruct (send_loop_fields
                  (Z.to_nat (ContentContext.snd_wnd c2
                             - (ContentContext.snd_nxt c2
                                - ContentContext.snd_una c2)))
                  (getPrefix_drop_last (data_name d)) c2 [])
        as (Hnames & _ & Hsent & _ & Huna & Hs3); [lia|].
      fold (ContentContext.send c2 (getPrefix_drop_last (data_name d)))
        in Hnames, Hsent, Huna, Hs3.
      destruct (ContentContext.send c2 (getPrefix_drop_last (data_name d)))
        as [c3 names].
      simpl in Hnames, Hsent, Huna, Hs3 |- *.
      destruct Hs3 as (Hp3 & Hd3 & Ht3 & Hm3 & Hb3 & Hterm3).
      rewrite Hnames. unfold window_names. rewrite length_map, length_seq.
      rewrite Hsent, Hi2, Hi1, Hp3, Hp2, Hp, Hd3, Hd2, Hd, Ht3, Ht2, Ht,
        Hm3, Hm2, Hm, Hterm3, Hterm2, Hterm.
      repeat split; try done; lia.
Qed.

Lemma onTimeout_counters c i :
  let r := ContentContext.onTimeout c i in
  ContentContext.pkt_recved (ContentContext.context r)
    = ContentContext.pkt_recved c + 1 ∧
  ContentContext.interest_sent (ContentContext.context r)
    = ContentContext.interest_sent c
      + Z.of_nat (length (ContentContext.expressed r)) ∧
  ContentContext.dups (ContentContext.context r) = ContentContext.dups c ∧
  ContentContext.max_retrans (ContentContext.context r)
    = ContentContext.max_retrans c ∧
  ContentContext.totalBlocks (ContentContext.context r)
    - ContentContext.snd_una (ContentContext.context r)
    = ContentContext.totalBlocks c - ContentContext.snd_una c ∧
  ContentContext.terminated (ContentContext.context r)
    = ContentContext.terminated c.
Proof.
  cbn zeta. unfold ContentContext.onTimeout. simpl.
  destruct (ContentContext.terminated c) eqn:Hterm; simpl;
    repeat split; try done; lia.
Qed.

Lemma accounted_step s e : accounted s → accounted (ContentContext.step s e).
Proof.
  intros (Hflight & Hblocks & Hdups & Hretrans).
  destruct e as [i content finalBlockId|i]; cbn [ContentContext.step];
    destruct (ContentContext.inflight s !! i) as [name|] eqn:Hi;
    try done.
  - destruct (onData_counters (ContentContext.ctx s) (Interest_of_name name)
                (mkData name content finalBlockId))
      as (Hp & Hs & Hd & _ & Hm & Hb & _).
    unfold accounted. cbn [ContentContext.ctx ContentContext.inflight].
    rewrite Hp, Hs, Hd, Hm, length_app, length_delete by (by rewrite Hi).
    apply lookup_lt_Some in Hi. repeat split; try done; lia.
  - destruct (onTimeout_counters (ContentContext.ctx s)
                (Interest_of_name name))
      as (Hp & Hs & Hd & Hm & Hb & _).
    unfold accounted. cbn [ContentContext.ctx ContentContext.inflight].
    rewrite Hp, Hs, Hd, Hm, length_app, length_delete by (by rewrite Hi).
    apply lookup_lt_Some in Hi. repeat split; try done; lia.
Qed.

(** X6. In every state of a pipelined fetch, the Interests in flight are
    the Interests sent and not yet answered by Data or by a timeout
    ([interest_sent - pkt_recved]), [totalBlocks] equals [snd_una], and
    [dups] is 0: no duplicate is ever counted. *)
Theorem pipeline_counters (prefix : Name) (events : list ContentContext.Event) :
  let s := ContentContext.run (ContentContext.start prefix) events in
  ContentContext.interest_sent (ContentContext.ctx s)
    - ContentContext.pkt_recved (ContentContext.ctx s)
  = Z.of_nat (length (ContentContext.inflight s)) ∧
  ContentContext.totalBlocks (ContentContext.ctx s)
  = ContentContext.snd_una (ContentContext.ctx s) ∧
  ContentContext.dups (ContentContext.ctx s) = 0.
Proof.
  cbn zeta.
  assert (accounted (ContentContext.run (ContentContext.start prefix) events))
    as (Hflight & Hblocks & Hdups & _); [|done].
  assert (accounted (ContentContext.start prefix)) as Hstart
    by (by unfold accounted).
  revert Hstart. generalize (ContentContext.start prefix).
  induction events as [|e events IH]; intros s Hs; [done|].
  simpl. apply IH. by apply accounted_step.
Qed.

(** X7. A timeout before the fetch has terminated expresses the Interest
    again, however often it has timed out before: after any number of
    timeouts in a row of the same Interest it is still in flight, each
    timeout counted in [timed_out] and each retry in [interest_sent].
    [max_retrans] is never looked at. *)
Theorem pipeline_retries_without_limit
    (s : ContentContext.System) (others : list Name) (name : Name) (n : nat) :
  ContentContext.inflight s = others ++ [name] →
  ContentContext.terminated (ContentContext.ctx s) = false →
  let s' := ContentContext.run s
              (replicate n (ContentContext.Expire (length others))) in
  ContentContext.inflight s' = others ++ [name] ∧
  ContentContext.timed_out (ContentContext.ctx s')
    = ContentContext.timed_out (ContentContext.ctx s) + Z.of_nat n ∧
  ContentContext.interest_sent (ContentContext.ctx s')
    = ContentContext.interest_sent (ContentContext.ctx s) + Z.of_nat n ∧
  ContentContext.terminated (ContentContext.ctx s') = false ∧
  ContentContext.max_retrans (ContentContext.ctx s')
    = ContentContext.max_retrans (ContentContext.ctx s).
Proof.
  revert s. induction n as [|n IH]; intros s Hflight Hterm; cbn zeta.
  - simpl. repeat split; try done; lia.
  - cbn [replicate ContentContext.run fold_left].
    set (s1 := ContentContext.step s (ContentContext.Expire (length others))).
    assert (ContentContext.inflight s1 = others ++ [name]
            ∧ ContentContext.timed_out (ContentContext.ctx s1)
              = ContentContext.timed_out (ContentContext.ctx s) + 1
            ∧ ContentContext.interest_sent (ContentContext.ctx s1)
              = ContentContext.interest_sent (ContentContext.ctx s) + 1
            ∧ ContentContext.terminated (ContentContext.ctx s1) = false
            ∧ ContentContext.max_retrans (ContentContext.ctx s1)
              = ContentContext.max_retrans (ContentContext.ctx s))
      as (Hf1 & Ht1 & Hs1 & Hterm1 & Hm1).
    { subst s1. cbn [ContentContext.step]. rewrite Hflight.
      rewrite list_lookup_middle by done.
      unfold ContentContext.onTimeout. simpl. rewrite Hterm. simpl.
      rewrite Hterm.
      replace (delete (length others) (others ++ [name])) with others.
      - done.
      - rewrite delete_take_drop, take_app_length.
        replace (S (length others)) with (length (others ++ [name]))
          by (rewrite length_app; simpl; lia).
        by rewrite drop_all, app_nil_r. }
    destruct (IH s1 Hf1 Hterm1) as (Hf & Ht & Hs & Hterm' & Hm).
    fold (ContentContext.run s1
            (replicate n (ContentContext.Expire (length others)))).
    rewrite Hf, Ht, Hs, Hterm', Hm, Ht1, Hs1, Hm1.
    repeat split; try done; lia.
Qed.

Lemma pipeline_retries_without_limit_witness :
  let s := ContentContext.run (ContentContext.start [[120]])
             (replicate 7 (ContentContext.Expire 0)) in
  ContentContext.inflight s = [appendSegment [[120]] 0] ∧
  ContentContext.timed_out (ContentContext.ctx s) = 7 ∧
  ContentContext.interest_sent (ContentContext.ctx s) = 8 ∧
  ContentContext.terminated (ContentContext.ctx s) = false ∧
  ContentContext.max_retrans (ContentContext.ctx s) = 5.
Proof.
  exact (pipeline_retries_without_limit (ContentContext.start [[120]]) []
           (appendSegment [[120]] 0) 7 eq_refl eq_refl).
Defined.

(** X8. Once the fetch has terminated it stays terminated, and a timeout
    after that only counts the packet: no Interest is expressed, and the
    window and the timeout counter stay as they are. *)
Theorem pipeline_stays_terminated
    (s : ContentContext.System) (events : list ContentContext.Event) :
  ContentContext.terminated (ContentContext.ctx s) = true →
  let s' := ContentContext.run s events in
  ContentContext.terminated (ContentContext.ctx s') = true ∧
  (forallb ContentContext.is_Expire events = true →
   ContentContext.inflight s' `sublist_of` ContentContext.inflight s ∧
   ContentContext.interest_sent (ContentContext.ctx s')
     = ContentContext.interest_sent (ContentContext.ctx s) ∧
   ContentContext.timed_out (ContentContext.ctx s')
     = ContentContext.timed_out (ContentContext.ctx s) ∧
   ContentContext.snd_wnd (ContentContext.ctx s')
     = ContentContext.snd_wnd (ContentContext.ctx s) ∧
   ContentContext.snd_nxt (ContentContext.ctx s')
     = ContentContext.snd_nxt (ContentContext.ctx s)).
Proof.
  revert s. induction events as [|e events IH]; intros s Hterm; cbn zeta.
  - simpl. done.
  - cbn [ContentContext.run fold_left].
    fold (ContentContext.run (ContentContext.step s e) events).
    set (s1 := ContentContext.step s e).
    assert (ContentContext.terminated (ContentContext.ctx s1) = true)
      as Hterm1.
    { subst s1. destruct e as [i content finalBlockId|i];
        cbn [ContentContext.step];
        destruct (ContentContext.inflight s !! i) as [name|]; try done.
      - by apply onData_counters.
      - cbn [ContentContext.ctx].
        destruct (onTimeout_counters (ContentContext.ctx s)
                    (Interest_of_name name)) as (_ & _ & _ & _ & _ & ->).
        done. }
    destruct (IH s1 Hterm1) as [Hstay Hquiet]. split; [done|].
    intros Hall. cbn [forallb] in Hall.
    apply andb_prop in Hall as [He Hall].
    destruct (Hquiet Hall) as (Hsub & Hsent & Htimed & Hwnd & Hnxt).
    rewrite Hsent, Htimed, Hwnd, Hnxt.
    destruct e as [i content finalBlockId|i]; [done|].
    subst s1. cbn [ContentContext.step] in *.
    destruct (ContentContext.inflight s !! i) as [name|]; [|done].
    unfold ContentContext.onTimeout in *. simpl in *. rewrite Hterm in *.
    simpl in *. rewrite !app_nil_r in Hsub |- *.
    split; [|done].
    etrans; [exact Hsub|apply sublist_delete].
Qed.

Lemma pipeline_stays_terminated_witness :
  let s := ContentContext.run (ContentContext.start [[120]])
             [ContentContext.Deliver 0 (Some [170]) (segmentComponent 0)] in
  let s' := ContentContext.run s [ContentContext.Expire 0] in
  ContentContext.terminated (ContentContext.ctx s) = true ∧
  ContentContext.terminated (ContentContext.ctx s') = true.
Proof.
  intros s s'. split; [reflexivity|].
  exact (proj1 (pipeline_stays_terminated s [ContentContext.Expire 0]
                  eq_refl)).
Defined.

(** ** The number helpers: decimal strings *)

Lemma digits_fold_acc digits :
  ∀ acc,
    fold_left (λ result digit, result * 10 + digit) digits acc
    = acc * 10 ^ Z.of_nat (length digits) + digits_value digits.
Proof.
  unfold digits_value.
  induction digits as [|d digits IH]; intros acc.
  - simpl. lia.
  - cbn [fold_left length]. rewrite (IH (acc * 10 + d)), (IH (0 * 10 + d)).
    rewrite Nat2Z.inj_succ, Z.pow_succ_r by lia. lia.
Qed.

Lemma digits_value_cons d digits :
  digits_value (d :: digits)
  = d * 10 ^ Z.of_nat (length digits) + digits_value digits.
Proof.
  unfold digits_value at 1. cbn [fold_left]. rewrite digits_fold_acc. lia.
Qed.

Lemma digits_value_snoc digits d :
  digits_value (digits ++ [d]) = digits_value digits * 10 + d.
Proof. unfold digits_value. by rewrite fold_left_app. Qed.

Lemma digits_value_nonneg digits :
  Forall (λ d, 0 ≤ d ≤ 9) digits → 0 ≤ digits_value digits.
Proof.
  induction digits as [|d digits IH] using rev_ind; intros Hall; [done|].
  apply Forall_app in Hall as [Hall Hd].
  inversion Hd; subst. rewrite digits_value_snoc.
  specialize (IH Hall). lia.
Qed.

Lemma digits_value_pos digits :
  digits ≠ [] → Forall (λ d, 0 ≤ d ≤ 9) digits → hd 1 digits ≠ 0 →
  0 < digits_value digits.
Proof.
  destruct digits as [|d digits]; [done|]. intros _ Hall Hhd.
  inversion Hall as [|? ? Hd Hrest]; subst. simpl in Hhd.
  rewrite digits_value_cons.
  pose proof (digits_value_nonneg _ Hrest).
  assert (0 < 10 ^ Z.of_nat (length digits)) by (apply Z.pow_pos_nonneg; lia).
  nia.
Qed.

Lemma ArrayToNum_digits digits :
  Throughput.ArrayToNum (map (λ digit, 48 + digit) digits)
  = digits_value digits.
Proof.
  unfold Throughput.ArrayToNum, digits_value. generalize 0.
  induction digits as [|d digits IH]; intros acc; [done|].
  cbn [map fold_left]. rewrite IH. f_equal. lia.
Qed.

Lemma toString_loop_value fuel :
  ∀ value digits,
    0 < value < 2 ^ Z.of_nat fuel →
    digits_value (Throughput.toString_loop fuel value digits)
    = value * 10 ^ Z.of_nat (length digits) + digits_value digits.
Proof.
  induction fuel as [|fuel IH]; intros value digits Hv.
  - simpl in Hv. lia.
  - cbn [Throughput.toString_loop].
    destruct (Z.ltb_spec value 10) as [Hlt|Hge].
    + apply digits_value_cons.
    + rewrite Nat2Z.inj_succ, Z.pow_succ_r in Hv by lia.
      rewrite IH.
      * rewrite digits_value_cons. cbn [length].
        rewrite Nat2Z.inj_succ, Z.pow_succ_r by lia.
        pose proof (Z.div_mod value 10). lia.
      * split; [apply Z.div_str_pos; lia|].
        apply Z.div_lt_upper_bound; lia.
Qed.

Lemma toString_fuel value :
  0 < value → value < 2 ^ Z.of_nat (S (Z.to_nat (Z.log2 value))).
Proof.
  intros Hv. pose proof (Z.log2_nonneg value).
  replace (Z.of_nat (S (Z.to_nat (Z.log2 value))))
    with (Z.succ (Z.log2 value)) by lia.
  by apply Z.log2_spec.
Qed.

Lemma reading_prefix (bytes : list Z) :
  ∀ acc k,
    0 ≤ acc → Forall (λ b, 48 ≤ b ≤ 57) bytes →
    0 ≤ fold_left (λ result b, result * 10 + (b - 48)) (take k bytes) acc
    ≤ fold_left (λ result b, result * 10 + (b - 48)) bytes acc.
Proof.
  induction bytes as [|b bytes IH]; intros acc k Hacc Hall.
  - rewrite take_nil. simpl. lia.
  - apply Forall_cons in Hall as [Hb Hall].
    destruct k as [|k].
    + cbn [take fold_left].
      pose proof (IH (acc * 10 + (b - 48)) 0%nat ltac:(lia) Hall) as Hk.
      rewrite take_0 in Hk. cbn [fold_left] in Hk. lia.
    + cbn [take fold_left]. apply IH; [lia|done].
Qed.

Lemma exact_reading_bound (bytes : list Z) :
  Forall (λ b, 48 ≤ b ≤ 57) bytes →
  Throughput.ArrayToNum bytes < 2 ^ 53 →
  exact_reading bytes.
Proof.
  intros Hall Hbound k. unfold Throughput.ArrayToNum in *.
  pose proof (reading_prefix bytes 0 k ltac:(lia) Hall). lia.
Qed.

Lemma toString_loop_range :
  ∀ fuel value acc,
    0 ≤ value → Forall (λ d, 0 ≤ d ≤ 9) acc →
    Forall (λ d, 0 ≤ d ≤ 9) (Throughput.toString_loop fuel value acc).
Proof.
  induction fuel as [|fuel IH]; intros value acc Hpos Hacc; [done|].
  cbn [Throughput.toString_loop].
  destruct (Z.ltb_spec value 10).
  - constructor; [lia|done].
  - apply IH; [by apply Z.div_pos; lia|].
    constructor; [|done].
    pose proof (Z.mod_pos_bound value 10 ltac:(lia)). lia.
Qed.

Lemma NumToArray_range (value : Z) :
  Forall (λ b, 48 ≤ b ≤ 57) (Throughput.NumToArray value).
Proof.
  unfold Throughput.NumToArray.
  destruct (Z.leb_spec value 0) as [Hle|Hpos]; [done|].
  apply Forall_map.
  eapply Forall_impl;
    [apply toString_loop_range; [lia|constructor]|].
  intros d Hd. simpl in Hd. simpl. lia.
Qed.

(** X9. [ArrayToNum] reads back what [NumToArray] writes, for every safe
    integer [value] (the integers below 2^53 in absolute value, which a
    JavaScript number holds exactly): [ArrayToNum(NumToArray(value))] is
    [value] when [value ≥ 0] (0 is written as the empty array, which reads
    as 0) and 0 when [value] is negative. No round of the loop of
    [ArrayToNum] leaves the safe integers, so the doubles of the source
    round nothing. *)
Theorem ArrayToNum_NumToArray (value : Z) :
  safe_integer value →
  Throughput.ArrayToNum (Throughput.NumToArray value) = Z.max 0 value ∧
  exact_reading (Throughput.NumToArray value).
Proof.
  intros [_ Hsafe].
  assert (Throughput.ArrayToNum (Throughput.NumToArray value)
          = Z.max 0 value) as Hread.
  { unfold Throughput.NumToArray.
    destruct (Z.leb_spec value 0) as [Hle|Hpos].
    - change (Throughput.ArrayToNum []) with 0. lia.
    - rewrite ArrayToNum_digits. unfold Throughput.toString.
      rewrite toString_loop_value by (split; [done|by apply toString_fuel]).
      change (digits_value []) with 0.
      change (Z.of_nat (length [])) with 0.
      lia. }
  split; [exact Hread|].
  apply exact_reading_bound; [apply NumToArray_range|].
  rewrite Hread. lia.
Qed.

Lemma ArrayToNum_NumToArray_witness :
  safe_integer 8800 ∧
  Throughput.ArrayToNum (Throughput.NumToArray 8800) = Z.max 0 8800 ∧
  exact_reading (Throughput.NumToArray 8800).
Proof.
  assert (safe_integer 8800) as Hs by (split; reflexivity).
  split; [exact Hs|]. exact (ArrayToNum_NumToArray 8800 Hs).
Defined.

Lemma toString_loop_digits digits :
  digits ≠ [] → Forall (λ d, 0 ≤ d ≤ 9) digits → hd 1 digits ≠ 0 →
  ∀ fuel acc,
    digits_value digits < 2 ^ Z.of_nat fuel →
    Throughput.toString_loop fuel (digits_value digits) acc = digits ++ acc.
Proof.
  induction digits as [|d digits IH] using rev_ind; [done|].
  intros _ Hall Hhd fuel acc Hfuel.
  apply Forall_app in Hall as [Hall Hd]. inversion Hd as [|? ? Hd9 _]; subst.
  rewrite digits_value_snoc in *.
  destruct digits as [|d0 digits].
  - simpl in Hhd. change (digits_value []) with 0 in *.
    destruct fuel as [|fuel]; [simpl in Hfuel; lia|].
    cbn [Throughput.toString_loop].
    destruct (Z.ltb_spec (0 * 10 + d) 10); [|lia]. simpl. f_equal; lia.
  - assert (0 < digits_value (d0 :: digits)) as Hpos
      by (by apply digits_value_pos).
    destruct fuel as [|fuel]; [simpl in Hfuel; lia|].
    rewrite Nat2Z.inj_succ, Z.pow_succ_r in Hfuel by lia.
    cbn [Throughput.toString_loop].
    destruct (Z.ltb_spec (digits_value (d0 :: digits) * 10 + d) 10); [lia|].
    replace ((digits_value (d0 :: digits) * 10 + d) / 10)
      with (digits_value (d0 :: digits))
      by (apply Z.div_unique with (r := d); lia).
    replace ((digits_value (d0 :: digits) * 10 + d) mod 10) with d
      by (apply Z.mod_unique with (q := digits_value (d0 :: digits)); lia).
    rewrite IH; [by rewrite <- (assoc_L (++))|done|done|done|lia].
Qed.

(** X10. [NumToArray] writes back what [ArrayToNum] reads from a string
    of digit characters that does not start with the character 0 (the
    empty string included) and whose value is a safe integer (below 2^53):
    [NumToArray(ArrayToNum(bytes)) = bytes]. No round of the loop of
    [ArrayToNum] leaves the safe integers, so the doubles of the source
    round nothing. *)
Theorem NumToArray_ArrayToNum (bytes : list Z) :
  decimal_string bytes →
  safe_integer (Throughput.ArrayToNum bytes) →
  Throughput.NumToArray (Throughput.ArrayToNum bytes) = bytes ∧
  exact_reading bytes.
Proof.
  intros [Hall Hhd] [_ Hsafe].
  split; [|by apply exact_reading_bound].
  assert (bytes = map (λ digit, 48 + digit) (map (λ b, b - 48) bytes))
    as Hbytes.
  { rewrite map_map. rewrite <- (map_id bytes) at 1.
    apply map_ext. intros b. lia. }
  set (digits := map (λ b, b - 48) bytes) in *.
  assert (Forall (λ d, 0 ≤ d ≤ 9) digits) as Hdigits.
  { subst digits. apply Forall_map. eapply Forall_impl; [exact Hall|].
    intros b Hb. simpl in Hb. lia. }
  rewrite Hbytes at 1. rewrite ArrayToNum_digits.
  destruct bytes as [|b bytes]; [done|].
  assert (digits ≠ []) as Hne by done.
  assert (hd 1 digits ≠ 0) as Hhd' by (subst digits; simpl in *; lia).
  pose proof (digits_value_pos _ Hne Hdigits Hhd') as Hpos.
  unfold Throughput.NumToArray.
  destruct (Z.leb_spec (digits_value digits) 0); [lia|].
  unfold Throughput.toString.
  rewrite (toString_loop_digits _ Hne Hdigits Hhd')
    by (by apply toString_fuel).
  by rewrite app_nil_r.
Qed.

Lemma NumToArray_ArrayToNum_witness :
  (decimal_string [52; 48; 51] ∧
   safe_integer (Throughput.ArrayToNum [52; 48; 51])) ∧
  Throughput.NumToArray (Throughput.ArrayToNum [52; 48; 51]) = [52; 48; 51] ∧
  exact_reading [52; 48; 51].
Proof.
  assert (decimal_string [52; 48; 51]) as Hd.
  { split; [repeat constructor; lia|simpl; lia]. }
  assert (safe_integer (Throughput.ArrayToNum [52; 48; 51])) as Hs
    by (split; reflexivity).
  split; [done|]. exact (NumToArray_ArrayToNum [52; 48; 51] Hd Hs).
Defined.

(** ** The Face before the connection is open *)

Section QuietRun.

Context `{Face.Collaborators}.

(** A property that the small steps keep while no send is processed is
    kept by every event but the report of the open connection, as long as
    the Face is not OPENED. *)
Variable Inv : Face.t → Prop.

Hypothesis Inv_quiet : ∀ f f', micro false f f' → Inv f → Inv f'.

Lemma quiet_rtc_invariant f f' :
  rtc (micro false) f f' →
  Inv f → Face.readyStatus f ≠ Face.OPENED →
  Inv f' ∧ Face.readyStatus f' ≠ Face.OPENED.
Proof.
  induction 1 as [f|f g h Hm _ IH]; intros HI Hs; [done|].
  apply IH; [by eapply Inv_quiet|by eapply quiet_status].
Qed.

Lemma quiet_run_invariant events :
  ∀ f, Forall not_opening events →
       Inv f → Face.readyStatus f ≠ Face.OPENED →
       Inv (Face.run f events)
       ∧ Face.readyStatus (Face.run f events) ≠ Face.OPENED.
Proof.
  induction events as [|e events IH]; intros f Hall HI Hs; [done|].
  inversion Hall as [|? ? He Hrest]; subst.
  destruct (quiet_rtc_invariant _ _ (quiet_step f e He Hs) HI Hs)
    as [HI1 Hs1].
  change (Face.run f (e :: events)) with (Face.run (Face.step f e) events).
  by apply IH.
Qed.

End QuietRun.

Section BeforeOpen.

Context `{Face.Collaborators}.

Lemma silent_since_micro f0 f f' :
  micro false f f' → silent_since f0 f → silent_since f0 f'.
Proof.
  apply (micro_invariant_quiet (silent_since f0)).
  - intros g g' (Hp & Ht & _ & _ & _ & _ & effects & Htr & Horigin)
      ((sofar & Hsofar & Hquiet) & Hpit & Htimers).
    split; [|split; by etrans].
    exists (sofar ++ effects). rewrite Htr, Hsofar, (assoc_L (++)).
    split; [done|]. rewrite forallb_app, Hquiet. simpl.
    apply forallb_forall. intros eff Hin. apply list_elem_of_In in Hin.
    pose proof (proj1 (Forall_forall _ _) Horigin eff Hin) as Ho.
    by destruct eff.
  - intros g allocate i od ot (Hsilent & Hpit & Htimers).
    destruct (alloc_fields allocate g)
      as (Hp & Ht & _ & _ & _ & _ & _ & _ & Htr & _).
    unfold silent_since. cbn -[alloc new_id]. by rewrite Hp, Ht, Htr.
Qed.

End BeforeOpen.

(** X11. On a Face built by [new Face(transport, connectionInfo)]
    ([getConnectionInfo] is null, so [connectAndExecute] is never called):
    as long as the Face is not OPENED and the transport does not report the
    open connection, no call of [expressInterest], [removePendingInterest],
    [registerPrefix], [removeRegisteredPrefix], [setInterestFilter],
    [unsetInterestFilter], [setCommandSigningInfo] or [close], no incoming
    packet, no timer and no close by the transport makes the Face hand a
    packet to the transport, add a PIT entry or start a timer, and the Face
    does not become OPENED: Interests expressed in the meantime wait in
    [onConnectedCallbacks]. ([putData] and [send] are not among these
    events: they hand their packet to the transport whatever the state of
    the Face is.) *)
Theorem nothing_sent_before_open `{H : Face.Collaborators}
    (info : option Face.ConnectionInfo) (before events : list Face.Event) :
  let f := Face.run (Face.create info) before in
  Face.readyStatus f ≠ Face.OPENED →
  Forall not_opening events →
  let f' := Face.run f events in
  Face.readyStatus f' ≠ Face.OPENED ∧
  (∃ effects, Face.trace f' = Face.trace f ++ effects ∧
              forallb (λ eff, negb (is_send eff)) effects = true) ∧
  Face.pendingInterestTable f' `sublist_of` Face.pendingInterestTable f ∧
  Face.timers f' `sublist_of` Face.timers f.
Proof.
  intros f Hs Hall. cbn zeta.
  destruct (quiet_run_invariant (silent_since f) (silent_since_micro f)
              events f Hall) as [Hsilent Hs']; [|done|by split].
  split; [|done]. exists []. by rewrite app_nil_r.
Qed.

Lemma nothing_sent_before_open_witness :
  let H := example_collaborators in
  let before := [Face.ExpressInterestName [[97]] 1%nat (Some 2%nat)] in
  let events := [Face.ExpressInterestName [[98]] 3%nat None;
                 Face.RemovePendingInterest (Some 1);
                 Face.Received (Face.ElementData one_pending_data)] in
  let f := Face.run (Face.create (Some 7)) before in
  let f' := Face.run f events in
  (Face.readyStatus f ≠ Face.OPENED ∧ Forall not_opening events) ∧
  Face.readyStatus f' ≠ Face.OPENED ∧
  (∃ effects, Face.trace f' = Face.trace f ++ effects ∧
              forallb (λ eff, negb (is_send eff)) effects = true) ∧
  Face.pendingInterestTable f' `sublist_of` Face.pendingInterestTable f ∧
  Face.timers f' `sublist_of` Face.timers f.
Proof.
  intros H before events f f'.
  assert (Face.readyStatus f ≠ Face.OPENED) as Hs
    by (vm_compute; discriminate).
  assert (Forall not_opening events) as Hall
    by (repeat constructor; discriminate).
  split; [done|].
  exact (nothing_sent_before_open (H := H) (Some 7) before events Hs Hall).
Defined.

(** ** The Face: incoming packets *)

Section Incoming.

Context `{Face.Collaborators}.

Lemma fold_onInterest interest table :
  ∀ f,
    fold_left
      (λ f entry,
         if Face.doesMatch (Face.entry_filter entry) (interest_name interest)
         then Face.emit (Face.CallOnInterest entry interest) f
         else f)
      table f
    = Face.set_trace
        (Face.trace f
           ++ map (λ e, Face.CallOnInterest e interest)
                (matching_filters (interest_name interest) table)) f.
Proof.
  unfold matching_filters.
  induction table as [|entry table IH]; intros f.
  - simpl. rewrite app_nil_r. by destruct f.
  - cbn [fold_left]. rewrite IH, filter_cons.
    destruct (Face.doesMatch _ _) eqn:Hm.
    + destruct (decide (true = true)); [|done].
      unfold Face.emit, Face.set_trace. simpl.
      by rewrite <- (assoc_L (++)).
    + by destruct (decide (false = true)).
Qed.

Lemma not_matching_all name table :
  matching name table = [] → not_matching name table = table.
Proof.
  unfold matching, not_matching.
  induction table as [|e table IH]; [done|].
  rewrite !filter_cons.
  destruct (decide (Face.matchesName (Face.interest e) name = true)); [done|].
  destruct (decide (Face.matchesName (Face.interest e) name ≠ true)); [|done].
  intros Hnil. by rewrite IH.
Qed.

End Incoming.

(** X12. An incoming Interest calls the [onInterest] of every entry of the
    interest filter table whose filter matches the name, once each and in
    the order of the table, and the dispatch itself changes nothing else in
    the Face; an Interest that matches no filter is dropped without a
    trace. This is the dispatch for callbacks that leave the interest
    filter table alone while it runs: the loop of the source reads the
    table again at every round, so a callback that calls
    [unsetInterestFilter] or [setInterestFilter] changes which entries the
    later rounds see. *)
Theorem interest_calls_matching_filters `{H : Face.Collaborators}
    (f : Face.t) (interest : Interest) :
  Face.step f (Face.Received (Face.ElementInterest interest))
  = Face.set_trace
      (Face.trace f
         ++ map (λ e, Face.CallOnInterest e interest)
              (matching_filters (interest_name interest)
                 (Face.interestFilterTable f))) f.
Proof. cbn [Face.step Face.onReceivedElement]. apply fold_onInterest. Qed.

(** X13. An incoming Data packet takes every PIT entry whose Interest
    matches the name out of the table, cancels the timers of these entries
    and calls the [onData] of each, the entry expressed last first; the
    other entries and their timers stay. A Data packet that matches no entry
    leaves the Face exactly as it was. *)
Theorem data_satisfies_matching_entries `{H : Face.Collaborators}
    (f : Face.t) (data : Data) :
  let f' := Face.step f (Face.Received (Face.ElementData data)) in
  let matched := matching (data_name data) (Face.pendingInterestTable f) in
  Face.pendingInterestTable f'
    = not_matching (data_name data) (Face.pendingInterestTable f) ∧
  Face.timers f'
    = filter (λ tm, Face.timer_id tm ∉ map Face.timerID matched)
        (Face.timers f) ∧
  Face.trace f'
    = Face.trace f ++ flat_map (onData_effects data) (reverse matched) ∧
  (matched = [] → f' = f).
Proof.
  cbn zeta. cbn [Face.step].
  destruct (onReceivedData_fields data f)
    as (Hp & Ht & _ & _ & _ & _ & _ & Htr).
  assert (matching (data_name data) (reverse (Face.pendingInterestTable f))
          = reverse (matching (data_name data) (Face.pendingInterestTable f)))
    as Hrev by (unfold matching; apply filter_reverse).
  rewrite Hrev in Ht, Htr.
  split; [done|]. split; [|split; [done|]].
  - rewrite Ht. apply list_filter_iff. intros tm.
    rewrite <- (reverse_involutive
                  (matching (data_name data) (Face.pendingInterestTable f)))
      at 2.
    rewrite (fmap_reverse _ (reverse _)), elem_of_reverse. done.
  - intros Hnil. rewrite onReceivedData_spec. cbn zeta.
    rewrite Hrev, Hnil, (not_matching_all _ _ Hnil). simpl.
    rewrite clearTimeouts_nil, app_nil_r. by destruct f.
Qed.

Lemma data_satisfies_matching_entries_witness :
  let H := example_collaborators in
  let unsolicited := mkData [[98]] (Some [170]) [] in
  matching (data_name unsolicited) (Face.pendingInterestTable one_pending)
    = [] ∧
  Face.step one_pending (Face.Received (Face.ElementData unsolicited))
  = one_pending.
Proof.
  intros H unsolicited. split; [reflexivity|].
  apply (proj2 (proj2 (proj2 (data_satisfies_matching_entries (H := H)
                                one_pending unsolicited)))).
  reflexivity.
Defined.

(** ** The Face: when the connection opens *)

Section Opening.

Context `{Face.Collaborators}.

Lemma helper_trace f id i od ot :
  Face.trace (Face.after (Face.expressInterestHelper id i od ot f))
  = Face.trace f
    ++ (if Z.of_nat (length (Face.wireEncode i)) <=? Face.getMaxNdnPacketSize
        then sends i else []).
Proof.
  destruct (helper_fields f id i od ot)
    as [(Hbig & ->)|[(Hfits & _ & _ & _ & _ & _ & _ & _ & Htr)
                    |(Hfits & _ & _ & _ & _ & _ & _ & _ & _ & Htr)]];
    unfold fits in *.
  - destruct (Z.leb_spec (Z.of_nat (length (Face.wireEncode i)))
                Face.getMaxNdnPacketSize); [done|by rewrite app_nil_r].
  - destruct (Z.leb_spec (Z.of_nat (length (Face.wireEncode i)))
                Face.getMaxNdnPacketSize); [done|lia].
  - destruct (Z.leb_spec (Z.of_nat (length (Face.wireEncode i)))
                Face.getMaxNdnPacketSize); [done|lia].
Qed.

Lemma helper_keeps_status f id i od ot :
  Face.readyStatus (Face.after (Face.expressInterestHelper id i od ot f))
  = Face.readyStatus f.
Proof.
  destruct (helper_fields f id i od ot)
    as [(_ & ->)|[(_ & _ & _ & _ & _ & _ & _ & Hs & _)
                 |(_ & _ & _ & _ & _ & _ & _ & _ & Hs & _)]]; done.
Qed.

Lemma drain_fields callbacks :
  ∀ f,
    Face.trace (Face.drain callbacks f)
    = Face.trace f ++ flat_map deferred_sends callbacks ∧
    Face.readyStatus (Face.drain callbacks f) = Face.readyStatus f ∧
    Face.onConnectedCallbacks (Face.drain callbacks f)
    = match callbacks with
      | [] => Face.onConnectedCallbacks f
      | _ :: _ => []
      end.
Proof.
  induction callbacks as [|d rest IH]; intros f.
  - simpl. by rewrite app_nil_r.
  - cbn [Face.drain flat_map].
    match goal with
    | |- context [Face.drain rest ?g] =>
        destruct (IH g) as (Htr & Hs & Hq); rewrite Htr, Hs, Hq
    end.
    rewrite helper_trace, helper_keeps_status, helper_keeps_queue.
    cbn [Face.trace Face.readyStatus Face.onConnectedCallbacks
         Face.set_onConnectedCallbacks].
    unfold deferred_sends at 2. rewrite <- (assoc_L (++)).
    split; [done|]. split; [done|]. by destruct rest.
Qed.

End Opening.

(** X14. When the transport reports the open connection, the Face becomes
    OPENED and processes the deferred sends in the order in which they were
    requested: each encoding goes to the transport, except that a send whose
    encoding is too large is skipped (its exception is caught, the later
    sends still happen) and a name under [/local/timeout] is not sent. Then
    [onopen] is called, and the queue is empty. *)
Theorem open_processes_deferred_sends `{H : Face.Collaborators}
    (f : Face.t) (info : Face.ConnectionInfo) :
  Face.transport_connectionInfo f = Some info →
  let f' := Face.step f Face.TransportOpened in
  Face.readyStatus f' = Face.OPENED ∧
  Face.onConnectedCallbacks f' = [] ∧
  Face.trace f'
  = Face.trace f
    ++ flat_map deferred_sends (Face.onConnectedCallbacks f)
    ++ [Face.CallOnOpen].
Proof.
  intros Hinfo. cbn zeta. cbn [Face.step]. rewrite Hinfo.
  unfold Face.onopenCallback.
  change (Face.onConnectedCallbacks (Face.set_readyStatus Face.OPENED f))
    with (Face.onConnectedCallbacks f).
  destruct (drain_fields (Face.onConnectedCallbacks f)
              (Face.set_readyStatus Face.OPENED f)) as (Htr & Hs & Hq).
  unfold Face.emit, Face.set_trace.
  cbn [Face.readyStatus Face.onConnectedCallbacks Face.trace].
  rewrite Htr, Hs, Hq.
  cbn [Face.readyStatus Face.onConnectedCallbacks Face.trace
       Face.set_readyStatus].
  rewrite <- (assoc_L (++)).
  split; [done|]. split; [|done].
  by destruct (Face.onConnectedCallbacks f).
Qed.

Lemma open_processes_deferred_sends_witness :
  let H := example_collaborators in
  let f := Face.run (Face.create (Some 7))
             [Face.ExpressInterestName [[97]] 1%nat None;
              Face.ExpressInterest (interest_of_size 8801) 2%nat None;
              Face.ExpressInterest timeout_interest 3%nat None;
              Face.ExpressInterestName [[98]] 4%nat None] in
  let f' := Face.step f Face.TransportOpened in
  Face.transport_connectionInfo f = Some 7 ∧
  Face.readyStatus f' = Face.OPENED ∧
  Face.onConnectedCallbacks f' = [] ∧
  Face.trace f'
  = Face.trace f
    ++ [Face.TransportSend [97]; Face.TransportSend [98]; Face.CallOnOpen].
Proof.
  intros H f f'. split; [reflexivity|].
  destruct (open_processes_deferred_sends (H := H) f 7 eq_refl)
    as (Hs & Hq & Htr).
  split; [exact Hs|]. split; [exact Hq|].
  etrans; [exact Htr|]. f_equal.
Defined.

(** ** The Face: interest filters and registered prefixes *)

Lemma unsetInterestFilter_loop_spec id :
  ∀ backwards later,
    Face.unsetInterestFilter_loop id backwards later
    = filter (λ e, Face.interestFilterId e ≠ id) (reverse backwards) ++ later.
Proof.
  induction backwards as [|entry rest IH]; intros later; [done|].
  cbn [Face.unsetInterestFilter_loop].
  rewrite reverse_cons, filter_app, filter_cons, !IH.
  case_bool_decide as Hid.
  - destruct (decide (Face.interestFilterId entry ≠ id)); [done|].
    by rewrite app_nil_r.
  - destruct (decide (Face.interestFilterId entry ≠ id)); [|done].
    by rewrite <- (assoc_L (++)).
Qed.

Lemma unsetInterestFilter_spec id f :
  Face.unsetInterestFilter id f
  = Face.set_interestFilterTable
      (filter (λ e, Face.interestFilterId e ≠ id) (Face.interestFilterTable f))
      f.
Proof.
  unfold Face.unsetInterestFilter.
  by rewrite unsetInterestFilter_loop_spec, reverse_involutive, app_nil_r.
Qed.

Lemma filter_all {A} (P : A → Prop) `{∀ x, Decision (P x)} (l : list A) :
  Forall P l → filter P l = l.
Proof.
  induction l as [|a l IH]; intros Hall; [done|].
  inversion Hall; subst. rewrite filter_cons.
  destruct (decide (P a)); [|done]. by rewrite IH.
Qed.

(** X15. [unsetInterestFilter] removes every entry of the interest filter
    table with the given id, keeps the other entries in their order and
    changes nothing else. With an id that no entry has it leaves the Face
    exactly as it was: unlike [removePendingInterest] it records no removal
    request. *)
Theorem unsetInterestFilter_removes_entries `{H : Face.Collaborators}
    (f : Face.t) (id : Z) :
  let f' := Face.step f (Face.UnsetInterestFilter id) in
  f' = Face.set_interestFilterTable
         (filter (λ e, Face.interestFilterId e ≠ id)
            (Face.interestFilterTable f)) f ∧
  (Forall (λ e, Face.interestFilterId e ≠ id) (Face.interestFilterTable f) →
   f' = f).
Proof.
  cbn zeta. cbn [Face.step]. rewrite unsetInterestFilter_spec.
  split; [done|]. intros Hall. rewrite (filter_all _ _ Hall). by destruct f.
Qed.

Lemma unsetInterestFilter_removes_entries_witness :
  let H := example_collaborators in
  Forall (λ e, Face.interestFilterId e ≠ 9)
    (Face.interestFilterTable two_filters) ∧
  Face.step two_filters (Face.UnsetInterestFilter 9) = two_filters.
Proof.
  intros H.
  assert (Forall (λ e, Face.interestFilterId e ≠ 9)
            (Face.interestFilterTable two_filters)) as Hall
    by (repeat constructor; done).
  split; [exact Hall|].
  exact (proj2 (unsetInterestFilter_removes_entries (H := H) two_filters 9)
           Hall).
Defined.

Lemma removeRegisteredPrefix_loop_spec id :
  ∀ backwards later count g,
    let r := Face.removeRegisteredPrefix_loop id backwards later count g in
    r.1.1
    = filter (λ p, Face.registeredPrefixId p ≠ id) (reverse backwards)
      ++ later ∧
    r.1.2 = count + Z.of_nat (length (prefixes_with_id id backwards)) ∧
    Face.interestFilterTable r.2
    = filter (λ e, Face.interestFilterId e ∉ related_filters id backwards)
        (Face.interestFilterTable g) ∧
    Face.registeredPrefixRemoveRequests r.2
    = Face.registeredPrefixRemoveRequests g ∧
    Face.trace r.2 = Face.trace g.
Proof.
  unfold related_filters, prefixes_with_id.
  induction backwards as [|entry rest IH]; intros later count g; cbn zeta.
  - simpl. repeat split; try lia.
    symmetry. apply filter_all, Forall_forall. intros x _.
    apply not_elem_of_nil.
  - cbn [Face.removeRegisteredPrefix_loop].
    rewrite reverse_cons, filter_app, !filter_cons.
    case_bool_decide as Hid.
    + destruct (decide (Face.registeredPrefixId entry ≠ id)) as [Hne|_];
        [done|].
      destruct (decide (Face.registeredPrefixId entry = id)) as [_|Hne];
        [|done].
      match goal with
      | |- context [Face.removeRegisteredPrefix_loop id rest later ?c ?g'] =>
          destruct (IH later c g') as (Ht & Hc & Hf & Hr & Htr)
      end.
      rewrite Ht, Hc, Hf, Hr, Htr, app_nil_r. cbn [length].
      split; [done|]. split; [lia|].
      destruct (Z.ltb_spec 0 (Face.relatedInterestFilterId entry))
        as [Hpos|Hnone].
      * destruct (decide (Face.registeredPrefixId entry = id
                          ∧ 0 < Face.relatedInterestFilterId entry))
          as [_|Hno]; [|tauto].
        rewrite unsetInterestFilter_spec. cbn [map].
        cbn [Face.interestFilterTable Face.set_interestFilterTable
             Face.registeredPrefixRemoveRequests Face.trace].
        split; [|done].
        rewrite list_filter_filter. apply list_filter_iff. intros x.
        rewrite not_elem_of_cons. tauto.
      * destruct (decide (Face.registeredPrefixId entry = id
                          ∧ 0 < Face.relatedInterestFilterId entry))
          as [Hyes|_]; [lia|done].
    + destruct (decide (Face.registeredPrefixId entry ≠ id)) as [_|Hne];
        [|done].
      destruct (decide (Face.registeredPrefixId entry = id)) as [Heq|_];
        [done|].
      destruct (decide (Face.registeredPrefixId entry = id
                        ∧ 0 < Face.relatedInterestFilterId entry))
        as [Hyes|_]; [tauto|].
      destruct (IH (entry :: later) count g) as (Ht & Hc & Hf & Hr & Htr).
      rewrite Ht, Hc, Hf, Hr, Htr, <- (assoc_L (++)). done.
Qed.

Lemma removeRegisteredPrefix_fields `{Face.Collaborators} id f :
  let f' := Face.removeRegisteredPrefix id f in
  Face.registeredPrefixTable f'
  = filter (λ p, Face.registeredPrefixId p ≠ id)
      (Face.registeredPrefixTable f) ∧
  Face.interestFilterTable f'
  = filter (λ e, Face.interestFilterId e
                 ∉ related_filters id (Face.registeredPrefixTable f))
      (Face.interestFilterTable f) ∧
  Face.registeredPrefixRemoveRequests f'
  = match prefixes_with_id id (Face.registeredPrefixTable f) with
    | [] => if bool_decide (id ∈ Face.registeredPrefixRemoveRequests f)
            then Face.registeredPrefixRemoveRequests f
            else Face.registeredPrefixRemoveRequests f ++ [id]
    | _ :: _ => Face.registeredPrefixRemoveRequests f
    end ∧
  Face.trace f' = Face.trace f.
Proof.
  cbn zeta. unfold Face.removeRegisteredPrefix.
  destruct (removeRegisteredPrefix_loop_spec id
              (reverse (Face.registeredPrefixTable f)) [] 0 f)
    as (Ht & Hc & Hf & Hr & Htr).
  destruct (Face.removeRegisteredPrefix_loop id
              (reverse (Face.registeredPrefixTable f)) [] 0 f)
    as [[table count] g].
  cbn [fst snd] in Ht, Hc, Hf, Hr, Htr.
  rewrite reverse_involutive, app_nil_r in Ht.
  assert (length (prefixes_with_id id (reverse (Face.registeredPrefixTable f)))
          = length (prefixes_with_id id (Face.registeredPrefixTable f)))
    as Hlen.
  { unfold prefixes_with_id. by rewrite filter_reverse, length_reverse. }
  rewrite Hlen in Hc.
  assert (Face.interestFilterTable g
          = filter (λ e, Face.interestFilterId e
                         ∉ related_filters id (Face.registeredPrefixTable f))
              (Face.interestFilterTable f)) as Hf'.
  { rewrite Hf. apply list_filter_iff. intros x. unfold related_filters.
    by rewrite filter_reverse, fmap_reverse, elem_of_reverse. }
  cbn zeta.
  change (Face.registeredPrefixRemoveRequests
            (Face.set_registeredPrefixTable table g))
    with (Face.registeredPrefixRemoveRequests g).
  rewrite Hr.
  destruct (prefixes_with_id id (Face.registeredPrefixTable f))
    as [|p ps] eqn:Hfound; cbn [length] in Hc.
  - destruct (Z.eqb_spec count 0) as [_|Hnonzero]; [|lia].
    destruct (Face.indexOf id (Face.registeredPrefixRemoveRequests f))
      as [index|] eqn:Hidx.
    + rewrite bool_decide_eq_true_2.
      * cbn [Face.registeredPrefixTable Face.interestFilterTable Face.trace
             Face.registeredPrefixRemoveRequests
             Face.set_registeredPrefixTable].
        by rewrite Hr, Htr, Ht, Hf'.
      * destruct (decide (id ∈ Face.registeredPrefixRemoveRequests f))
          as [Hin|Hout]; [done|].
        apply indexOf_None in Hout. congruence.
    + apply indexOf_None in Hidx. rewrite bool_decide_eq_false_2 by done.
      cbn [Face.registeredPrefixTable Face.interestFilterTable Face.trace
           Face.registeredPrefixRemoveRequests
           Face.set_registeredPrefixTable
           Face.set_registeredPrefixRemoveRequests].
      by rewrite Htr, Ht, Hf'.
  - destruct (Z.eqb_spec count 0) as [Hzero|_]; [lia|].
    cbn [Face.registeredPrefixTable Face.interestFilterTable Face.trace
         Face.registeredPrefixRemoveRequests
         Face.set_registeredPrefixTable].
    by rewrite Hr, Htr, Ht, Hf'.
Qed.

(** X16. [removeRegisteredPrefix] removes every entry of the registered
    prefix table with the given id and, for each removed entry that records
    a related interest filter (an id above 0), every interest filter entry
    with that id; the other entries of both tables stay in their order.
    Only when no registered prefix has the id, the id is recorded in
    [registeredPrefixRemoveRequests], once. Nothing is called or sent. *)
Theorem removeRegisteredPrefix_removes_entries `{H : Face.Collaborators}
    (f : Face.t) (id : Z) :
  let f' := Face.step f (Face.RemoveRegisteredPrefix id) in
  Face.registeredPrefixTable f'
  = filter (λ p, Face.registeredPrefixId p ≠ id)
      (Face.registeredPrefixTable f) ∧
  Face.interestFilterTable f'
  = filter (λ e, Face.interestFilterId e
                 ∉ related_filters id (Face.registeredPrefixTable f))
      (Face.interestFilterTable f) ∧
  Face.registeredPrefixRemoveRequests f'
  = match prefixes_with_id id (Face.registeredPrefixTable f) with
    | [] => if bool_decide (id ∈ Face.registeredPrefixRemoveRequests f)
            then Face.registeredPrefixRemoveRequests f
            else Face.registeredPrefixRemoveRequests f ++ [id]
    | _ :: _ => Face.registeredPrefixRemoveRequests f
    end ∧
  Face.trace f' = Face.trace f ∧
  Face.pendingInterestTable f' = Face.pendingInterestTable f.
Proof.
  cbn zeta. cbn [Face.step].
  destruct (removeRegisteredPrefix_frame id f) as (Hp & _).
  destruct (removeRegisteredPrefix_fields id f) as (Ht & Hf & Hr & Htr).
  done.
Qed.

(** ** The Face: which events touch the filter and prefix tables *)

Section Tables.

Context `{Face.Collaborators}.

Lemma same_tables_refl f : same_tables f f.
Proof. by unfold same_tables. Qed.

Lemma same_tables_trans f g h :
  same_tables f g → same_tables g h → same_tables f h.
Proof.
  intros (H1 & H2 & H3) (K1 & K2 & K3). unfold same_tables.
  by rewrite K1, K2, K3.
Qed.

Lemma helper_same_tables f id i od ot :
  same_tables f (Face.after (Face.expressInterestHelper id i od ot f)).
Proof.
  destruct (helper_cases f id i od ot)
    as [Hbig|x index Hfits -> Hidx|Hfits Hreq];
    [apply same_tables_refl| |];
    unfold send_unless_timeout; by destruct (negb _).
Qed.

Lemma helper_keeps_lastEntryId f id i od ot :
  Face.lastEntryId (Face.after (Face.expressInterestHelper id i od ot f))
  = Face.lastEntryId f.
Proof.
  destruct (helper_fields f id i od ot)
    as [(_ & ->)|[(_ & _ & _ & _ & _ & _ & Hl & _)
                 |(_ & _ & _ & _ & _ & _ & _ & Hl & _)]]; done.
Qed.

Lemma reconnect_same_tables g id i od ot :
  let g' := Face.after (Face.reconnectAndExpressInterest id i od ot g) in
  same_tables g g' ∧ Face.lastEntryId g' = Face.lastEntryId g.
Proof.
  cbn zeta. unfold Face.reconnectAndExpressInterest.
  destruct (Face.connectionInfo g) as [info|]; [|done].
  destruct (negb _ || _); [done|].
  destruct (Face.readyStatus g); try done.
  split; [apply helper_same_tables|apply helper_keeps_lastEntryId].
Qed.

Lemma expressInterest_same_tables f i od ot :
  let f' := Face.after (Face.expressInterest i od ot f) in
  same_tables f f' ∧ Face.lastEntryId f' = Face.lastEntryId f + 1.
Proof.
  cbn zeta.
  cbv [Face.expressInterest Face.bind Face.getNextEntryId Face.read Face.ret
       Face.exec].
  cbn [Face.connectionInfo Face.set_lastEntryId].
  destruct (Face.connectionInfo f) as [info|]; [|done].
  match goal with
  | |- context [Face.reconnectAndExpressInterest ?a ?b ?c ?d ?g] =>
      destruct (reconnect_same_tables g a b c d) as [Hs Hl];
      destruct (Face.reconnectAndExpressInterest a b c d g)
  end; done.
Qed.

Lemma drain_same_tables callbacks :
  ∀ f, same_tables f (Face.drain callbacks f)
       ∧ Face.lastEntryId (Face.drain callbacks f) = Face.lastEntryId f.
Proof.
  induction callbacks as [|d rest IH]; intros f; [done|].
  cbn [Face.drain].
  match goal with
  | |- context [Face.drain rest ?g] => destruct (IH g) as [Hs Hl]
  end.
  split.
  - eapply same_tables_trans; [|exact Hs].
    eapply same_tables_trans; [|apply helper_same_tables]. done.
  - by rewrite Hl, helper_keeps_lastEntryId.
Qed.

(** Only [registerPrefix], [removeRegisteredPrefix], [setInterestFilter]
    and [unsetInterestFilter] touch the two tables. *)
Lemma step_same_tables f e :
  table_event e = false → same_tables f (Face.step f e).
Proof.
  destruct e as [i od ot|name od ot|id| | | | |name| | | |element|t];
    try done; intros _; cbn [Face.step].
  - apply expressInterest_same_tables.
  - apply expressInterest_same_tables.
  - destruct id as [id|]; [|done].
    rewrite removePendingInterest_spec. cbn zeta.
    destruct (entries_with_id id (Face.pendingInterestTable f)); [|done].
    by case_bool_decide.
  - unfold Face.close. by destruct (Face.readyStatus f).
  - destruct (Face.transport_connectionInfo f); [|done].
    unfold Face.onopenCallback.
    destruct (drain_same_tables
                (Face.onConnectedCallbacks
                   (Face.set_readyStatus Face.OPENED f))
                (Face.set_readyStatus Face.OPENED f)) as [Hs _].
    exact Hs.
  - by destruct (Face.transport_connectionInfo f).
  - destruct element as [interest|data|]; [| |done].
    + cbn [Face.onReceivedElement]. by rewrite fold_onInterest.
    + by rewrite onReceivedData_spec.
  - unfold Face.fire.
    destruct (list_find _ (Face.timers f)) as [[index tm]|]; [|done].
    by rewrite timeoutCallback_spec.
Qed.

Lemma lastEntryId_bound_micro bound sending f f' :
  micro sending f f' →
  bound ≤ Face.lastEntryId f → bound ≤ Face.lastEntryId f'.
Proof.
  apply (micro_invariant (λ g, bound ≤ Face.lastEntryId g)).
  - intros g g' (_ & _ & _ & _ & Hl & _) Hb. lia.
  - intros g allocate i od ot Hb.
    destruct (alloc_fields allocate g)
      as (_ & _ & _ & _ & _ & _ & _ & _ & _ & Hl').
    cbn -[alloc new_id]. lia.
  - intros g d rest g' _ Hb
      [(_ & ->)|[(_ & _ & _ & _ & _ & _ & Hl & _)
                |(_ & _ & _ & _ & _ & _ & _ & Hl & _)]];
      [done|by rewrite Hl..].
  - intros g allocate i od ot g' Hb Hout.
    destruct (alloc_fields allocate g)
      as (_ & _ & _ & _ & _ & _ & _ & _ & _ & Hl').
    destruct Hout as [(_ & ->)|[(_ & _ & _ & _ & _ & _ & Hl & _)
                               |(_ & _ & _ & _ & _ & _ & _ & Hl & _)]];
      [lia|rewrite Hl; lia..].
Qed.

(** No event lowers [lastEntryId]. *)
Lemma lastEntryId_mono_step f e :
  Face.lastEntryId f ≤ Face.lastEntryId (Face.step f e).
Proof.
  apply (step_invariant (λ g, Face.lastEntryId f ≤ Face.lastEntryId g));
    [|lia].
  intros sending g g'. apply lastEntryId_bound_micro.
Qed.

Lemma lastEntryId_mono_run events :
  ∀ f, Face.lastEntryId f ≤ Face.lastEntryId (Face.run f events).
Proof.
  induction events as [|e events IH]; intros f; [simpl; lia|].
  change (Face.run f (e :: events)) with (Face.run (Face.step f e) events).
  pose proof (lastEntryId_mono_step f e). pose proof (IH (Face.step f e)).
  lia.
Qed.

End Tables.

Section TableIds.

Context `{Face.Collaborators}.

Lemma onIsLocalResult_lastEntryId g id prefix onInterest flags
    onRegisterFailed b :
  id ≠ 0 →
  Face.lastEntryId
    (Face.after
       (Face.onIsLocalResult id prefix onInterest flags onRegisterFailed b g))
  = Face.lastEntryId g
    + match onInterest with Some _ => 1 | None => 0 end.
Proof.
  intros Hid.
  cbv [Face.onIsLocalResult Face.bind Face.setInterestFilter
       Face.getNextEntryId Face.ret Face.exec].
  match goal with
  | |- context [Face.reconnectAndExpressInterest None ?ci ?od ?ot] =>
      set (commandInterest := ci); set (onData := od); set (onTimeout := ot)
  end.
  apply Z.eqb_neq in Hid. rewrite Hid. cbn [negb].
  destruct onInterest as [h|];
    match goal with
    | |- context [Face.reconnectAndExpressInterest _ _ _ _ ?g'] =>
        destruct (reconnect_same_tables g' None commandInterest onData
                    onTimeout) as [_ Hl];
        destruct (Face.reconnectAndExpressInterest _ _ _ _ _)
    end; cbn [Face.after] in Hl |- *; rewrite Hl; simpl; lia.
Qed.

(** [registerPrefix] either leaves the two tables alone or adds the
    registered prefix and, with an [onInterest], the filter. *)
Lemma registerPrefix_cases f prefix onInterest onRegisterFailed flags :
  0 ≤ Face.lastEntryId f →
  let f' := Face.step f
              (Face.RegisterPrefix prefix onInterest onRegisterFailed
                 flags) in
  (Face.interestFilterTable f' = Face.interestFilterTable f ∧
   Face.registeredPrefixTable f' = Face.registeredPrefixTable f)
  ∨ (Face.interestFilterTable f'
     = Face.interestFilterTable f ++ new_filters f prefix onInterest ∧
     Face.registeredPrefixTable f'
     = Face.registeredPrefixTable f
       ++ [new_registeredPrefix f prefix onInterest] ∧
     Face.lastEntryId f'
     = Face.lastEntryId f + 1
       + match onInterest with Some _ => 1 | None => 0 end).
Proof.
  intros Hpos. cbn zeta. cbn [Face.step].
  cbv [Face.registerPrefix Face.bind Face.getNextEntryId Face.read Face.ret
       Face.exec Face.nfdRegisterPrefix Face.throw Face.isLocal].
  cbn [Face.connectionInfo Face.set_lastEntryId Face.commandKeyChain
       Face.commandCertificateName Face.registeredPrefixRemoveRequests].
  destruct (Face.connectionInfo f) as [info|] eqn:Hci; [|by left].
  set (fa := Face.set_lastEntryId (Face.lastEntryId f + 1) f).
  change (Face.registeredPrefixRemoveRequests fa)
    with (Face.registeredPrefixRemoveRequests f).
  change (Face.commandKeyChain fa) with (Face.commandKeyChain f).
  change (Face.commandCertificateName fa)
    with (Face.commandCertificateName f).
  destruct (Face.indexOf _ _); [by left|].
  destruct (Face.commandKeyChain f); [|by left]. cbn [negb].
  destruct (Name_size _ =? 0); [by left|]. cbn beta.
  assert (Face.connectionInfo fa = Some info) as -> by done.
  destruct (Face.transport_isLocal info) as [b|]; [|by left].
  right.
  assert (Face.lastEntryId f + 1 ≠ 0) as Hid by lia.
  pose proof (onIsLocalResult_tables fa (Face.lastEntryId f + 1) prefix
                onInterest flags
                (match onRegisterFailed with
                 | Some g => Face.AppOnRegisterFailed g
                 | None => Face.EmptyOnRegisterFailed
                 end) b Hid) as Hr.
  pose proof (onIsLocalResult_lastEntryId fa (Face.lastEntryId f + 1) prefix
                onInterest flags
                (match onRegisterFailed with
                 | Some g => Face.AppOnRegisterFailed g
                 | None => Face.EmptyOnRegisterFailed
                 end) b Hid) as Hl.
  cbn zeta in Hr.
  destruct (Face.onIsLocalResult _ _ _ _ _ _ fa);
    cbn [Face.after] in Hr, Hl |- *;
    destruct Hr as [-> ->]; rewrite Hl;
    unfold new_filters, new_registeredPrefix;
    subst fa; cbn [Face.lastEntryId Face.set_lastEntryId
                   Face.interestFilterTable Face.registeredPrefixTable];
    by replace (Face.lastEntryId f + 1 + 1) with (Face.lastEntryId f + 2)
      by lia.
Qed.

Lemma NoDup_snoc_fresh {A} (g : A → Z) (l : list A) (x : A) bound :
  Forall (λ y, g y ≤ bound) l → bound < g x →
  NoDup (map g l) → NoDup (map g (l ++ [x])).
Proof.
  intros Hall Hx Hnd. rewrite map_app. apply NoDup_app.
  split; [done|]. split; [|apply NoDup_singleton].
  intros y Hy Hy'. apply list_elem_of_singleton in Hy' as ->.
  apply list_elem_of_fmap in Hy as (z & Hz & Hin).
  pose proof (proj1 (Forall_forall _ _) Hall z Hin) as Hle. simpl in Hle.
  lia.
Qed.

Lemma tables_bounded_shrink f f' :
  Face.lastEntryId f ≤ Face.lastEntryId f' →
  Face.interestFilterTable f' `sublist_of` Face.interestFilterTable f →
  Face.registeredPrefixTable f' `sublist_of` Face.registeredPrefixTable f →
  tables_bounded f → tables_bounded f'.
Proof.
  intros Hl Hf Hp (Hpos & Bf & Bp & Nf & Np).
  unfold tables_bounded. split; [lia|].
  split; [|split; [|split]].
  - eapply Forall_impl; [by eapply Forall_sublist|]. intros e He.
    simpl in He. lia.
  - eapply Forall_impl; [by eapply Forall_sublist|]. intros e He.
    simpl in He. lia.
  - eapply sublist_NoDup; [exact Nf|by apply sublist_map].
  - eapply sublist_NoDup; [exact Np|by apply sublist_map].
Qed.

Lemma tables_bounded_step f e :
  tables_bounded f → tables_bounded (Face.step f e).
Proof.
  intros Hb. pose proof (lastEntryId_mono_step f e) as Hl.
  destruct (table_event e) eqn:He.
  - destruct e as [| | |prefix oi orf flags|id|flt oi|id| | | | | |];
      try done; clear He.
    + destruct Hb as (Hpos & Bf & Bp & Nf & Np).
      destruct (registerPrefix_cases f prefix oi orf flags Hpos)
        as [[Hf Hp]|(Hf & Hp & Hl')].
      * apply (tables_bounded_shrink f); [done|by rewrite Hf|by rewrite Hp|].
        by repeat split.
      * unfold tables_bounded. rewrite Hf, Hp, Hl'.
        split; [destruct oi; lia|]. split; [|split; [|split]].
        -- apply Forall_app. split.
           ++ eapply Forall_impl; [exact Bf|]. intros e He. simpl in He.
              destruct oi; lia.
           ++ unfold new_filters. destruct oi; repeat constructor; simpl; lia.
        -- apply Forall_app. split.
           ++ eapply Forall_impl; [exact Bp|]. intros e He. simpl in He.
              destruct oi; lia.
           ++ repeat constructor; simpl; destruct oi; lia.
        -- unfold new_filters. destruct oi as [oi|];
             [|by rewrite app_nil_r].
           apply (NoDup_snoc_fresh _ _ _ (Face.lastEntryId f)); [|simpl; lia|done].
           eapply Forall_impl; [exact Bf|]. intros e He. simpl in He. lia.
        -- apply (NoDup_snoc_fresh _ _ _ (Face.lastEntryId f)); [|simpl; lia|done].
           eapply Forall_impl; [exact Bp|]. intros e He. simpl in He. lia.
    + apply (tables_bounded_shrink f); [done| | |done]; cbn [Face.step];
        destruct (removeRegisteredPrefix_fields id f) as (Hp & Hf & _);
        [rewrite Hf|rewrite Hp]; apply sublist_filter.
    + destruct Hb as (Hpos & Bf & Bp & Nf & Np).
      unfold tables_bounded. cbn.
      split; [lia|]. split; [|split; [|split; [|done]]].
      * apply Forall_app. split; [|repeat constructor; simpl; lia].
        eapply Forall_impl; [exact Bf|]. intros e He. simpl in He. lia.
      * eapply Forall_impl; [exact Bp|]. intros e He. simpl in He. lia.
      * apply (NoDup_snoc_fresh _ _ _ (Face.lastEntryId f)); [|simpl; lia|done].
        eapply Forall_impl; [exact Bf|]. intros e He. simpl in He. lia.
    + apply (tables_bounded_shrink f); [done| | |done]; cbn [Face.step];
        rewrite unsetInterestFilter_spec; [apply sublist_filter|done].
  - destruct (step_same_tables f e He) as (Hf & Hp & _).
    apply (tables_bounded_shrink f); [done|by rewrite Hf|by rewrite Hp|done].
Qed.

Lemma tables_bounded_run info events :
  tables_bounded (Face.run (Face.create info) events).
Proof.
  assert (tables_bounded (Face.create info)) as Hstart.
  { unfold tables_bounded. simpl. repeat split; try done; constructor. }
  revert Hstart. generalize (Face.create info).
  induction events as [|e events IH]; intros f Hf; [done|].
  simpl. apply IH. by apply tables_bounded_step.
Qed.

End TableIds.

(** X17. In every state of a Face built by
    [new Face(transport, connectionInfo)] ([getConnectionInfo] is null, so
    [connectAndExecute] is never called and [nfdRegisterPrefix] runs at
    most once for each [registerPrefix]) the ids in the interest filter
    table are pairwise distinct, and so are the ids in the registered
    prefix table; each of them is an id that [getNextEntryId] has handed
    out, between 1 and [lastEntryId]. *)
Theorem table_ids_are_unique `{H : Face.Collaborators}
    (info : option Face.ConnectionInfo) (events : list Face.Event) :
  let f := Face.run (Face.create info) events in
  NoDup (map Face.interestFilterId (Face.interestFilterTable f)) ∧
  NoDup (map Face.registeredPrefixId (Face.registeredPrefixTable f)) ∧
  Forall (λ e, 0 < Face.interestFilterId e ≤ Face.lastEntryId f)
    (Face.interestFilterTable f) ∧
  Forall (λ p, 0 < Face.registeredPrefixId p ≤ Face.lastEntryId f)
    (Face.registeredPrefixTable f).
Proof.
  cbn zeta. by destruct (tables_bounded_run info events) as (_ & ? & ? & ? & ?).
Qed.

Lemma filter_fresh_snoc {A} (g : A → Z) (l : list A) (x : A) bound :
  Forall (λ y, g y ≤ bound) l → bound < g x →
  filter (λ y, g y ≠ g x) (l ++ [x]) = l.
Proof.
  intros Hall Hx. rewrite filter_app, filter_cons.
  destruct (decide (g x ≠ g x)) as [Hne|_]; [done|].
  rewrite filter_nil, app_nil_r. apply filter_all.
  eapply Forall_impl; [exact Hall|]. intros y Hy. simpl in Hy. lia.
Qed.

(** X18. [unsetInterestFilter] with the id that [setInterestFilter] has
    just returned undoes it: the interest filter table is as it was before,
    and the Face differs from the one before only by the id that was used
    up. *)
Theorem unsetInterestFilter_undoes_setInterestFilter
    `{H : Face.Collaborators}
    (info : option Face.ConnectionInfo) (events : list Face.Event)
    (flt : Face.InterestFilter) (onInterest : Face.AppFunction) :
  let f := Face.run (Face.create info) events in
  let id := Face.lastEntryId f + 1 in
  let f1 := Face.step f (Face.SetInterestFilter flt onInterest) in
  Face.setInterestFilter flt onInterest f = Face.Returned id f1 ∧
  Face.interestFilterTable f1
  = Face.interestFilterTable f
    ++ [Face.mkInterestFilterEntry id flt onInterest] ∧
  Face.step f1 (Face.UnsetInterestFilter id) = Face.set_lastEntryId id f.
Proof.
  cbn zeta. split; [done|]. split; [done|].
  cbn [Face.step]. rewrite unsetInterestFilter_spec.
  destruct (tables_bounded_run info events) as (_ & Bf & _).
  set (f := Face.run (Face.create info) events) in *.
  cbn.
  rewrite (filter_fresh_snoc Face.interestFilterId _
             (Face.mkInterestFilterEntry (Face.lastEntryId f + 1) flt
                onInterest) (Face.lastEntryId f)).
  - by destruct f.
  - eapply Forall_impl; [exact Bf|]. intros e He. simpl in He. lia.
  - simpl. lia.
Qed.

Section RoundTrips.

Context `{Face.Collaborators}.

Lemma filter_middle {A} (g : A → Z) (before after : list A) (x : A) :
  NoDup (map g (before ++ x :: after)) →
  filter (λ y, g y ≠ g x) (before ++ x :: after) = before ++ after ∧
  filter (λ y, g y = g x) (before ++ x :: after) = [x].
Proof.
  intros Hnd. rewrite map_app in Hnd. cbn [map] in Hnd.
  apply NoDup_app in Hnd as (_ & Hsep & Hnd).
  apply NoDup_cons in Hnd as [Hx _].
  assert (Forall (λ y, g y ≠ g x) before) as Hb.
  { apply Forall_forall. intros y Hy Heq. apply (Hsep (g y)).
    - apply list_elem_of_fmap. by exists y.
    - rewrite Heq. left. }
  assert (Forall (λ y, g y ≠ g x) after) as Ha.
  { apply Forall_forall. intros y Hy Heq. apply Hx. rewrite <- Heq.
    apply list_elem_of_fmap. by exists y. }
  rewrite !filter_app, !filter_cons.
  destruct (decide (g x ≠ g x)) as [Hne|_]; [done|].
  destruct (decide (g x = g x)) as [_|Hne]; [|done].
  rewrite (filter_all _ before Hb), (filter_all _ after Ha).
  split; [done|].
  rewrite (filter_none _ before), (filter_none _ after); [done| |].
  - intros y Hy. by apply (proj1 (Forall_forall _ _) Ha y Hy).
  - intros y Hy. by apply (proj1 (Forall_forall _ _) Hb y Hy).
Qed.

Lemma filter_neq_length {A} (g : A → Z) (l : list A) (x : Z) :
  NoDup (map g l) →
  (length l ≤ S (length (filter (λ y, g y ≠ x) l)))%nat.
Proof.
  induction l as [|y l IH]; intros Hnd; [simpl; lia|].
  cbn [map] in Hnd. apply NoDup_cons in Hnd as [Hy Hnd].
  rewrite filter_cons. destruct (decide (g y ≠ x)) as [Hne|Heq].
  - specialize (IH Hnd). simpl. lia.
  - assert (g y = x) as <- by (destruct (decide (g y = x)); [done|tauto]).
    rewrite filter_all; [simpl; lia|].
    apply Forall_forall. intros z Hz Hgz. apply Hy. rewrite <- Hgz.
    apply list_elem_of_fmap. by exists z.
Qed.

End RoundTrips.

(** X19. On a Face built by [new Face(transport, connectionInfo)]
    ([getConnectionInfo] is null, [connectAndExecute] is never called),
    [removeRegisteredPrefix] with the id of an entry of the registered
    prefix table takes out that one entry and the one interest filter entry
    that [nfdRegisterPrefix] made with it (the filter with the related
    filter id of the entry; none when that id is 0), and nothing else: the
    other entries of both tables stay in their order, and no removal
    request is recorded. So once the entries of a registration are in the
    tables, [removeRegisteredPrefix] with the id that [registerPrefix]
    returned undoes exactly them. *)
Theorem removeRegisteredPrefix_undoes_registration
    `{H : Face.Collaborators}
    (info : option Face.ConnectionInfo) (events : list Face.Event)
    (before after : list Face.RegisteredPrefix) (p : Face.RegisteredPrefix) :
  let f := Face.run (Face.create info) events in
  Face.registeredPrefixTable f = before ++ p :: after →
  let f' := Face.step f
              (Face.RemoveRegisteredPrefix (Face.registeredPrefixId p)) in
  Face.registeredPrefixTable f' = before ++ after ∧
  Face.interestFilterTable f'
  = filter (λ e, Face.interestFilterId e ≠ Face.relatedInterestFilterId p)
      (Face.interestFilterTable f) ∧
  (length (Face.interestFilterTable f)
   ≤ S (length (Face.interestFilterTable f')))%nat ∧
  Face.registeredPrefixRemoveRequests f'
  = Face.registeredPrefixRemoveRequests f ∧
  Face.trace f' = Face.trace f.
Proof.
  intros f Htable f'.
  destruct (tables_bounded_run info events) as (_ & Bf & _ & Nf & Np).
  fold f in Bf, Nf, Np.
  destruct (removeRegisteredPrefix_fields (Face.registeredPrefixId p) f)
    as (Hp & Hf & Hr & Htr).
  change (Face.removeRegisteredPrefix (Face.registeredPrefixId p) f)
    with f' in Hp, Hf, Hr, Htr.
  rewrite Htable in Np, Hp, Hf, Hr.
  destruct (filter_middle Face.registeredPrefixId before after p Np)
    as [Hout Hin].
  unfold prefixes_with_id in Hr. rewrite Hin in Hr.
  rewrite Hout in Hp.
  assert (Face.interestFilterTable f'
          = filter (λ e, Face.interestFilterId e
                         ≠ Face.relatedInterestFilterId p)
              (Face.interestFilterTable f)) as Hfilters.
  { rewrite Hf. unfold related_filters.
    assert (filter (λ q, Face.registeredPrefixId q = Face.registeredPrefixId p
                         ∧ 0 < Face.relatedInterestFilterId q)
              (before ++ p :: after)
            = if decide (0 < Face.relatedInterestFilterId p) then [p]
              else []) as ->.
    { rewrite (list_filter_iff _
                 (λ q, 0 < Face.relatedInterestFilterId q
                       ∧ Face.registeredPrefixId q
                         = Face.registeredPrefixId p))
        by (intros q; tauto).
      rewrite <- (list_filter_filter
                    (λ q, 0 < Face.relatedInterestFilterId q)
                    (λ q, Face.registeredPrefixId q
                          = Face.registeredPrefixId p)).
      rewrite Hin, filter_cons, filter_nil.
      by destruct (decide (0 < Face.relatedInterestFilterId p)). }
    destruct (decide (0 < Face.relatedInterestFilterId p)) as [Hrel|Hrel];
      cbn [map].
    - apply list_filter_iff. intros e.
      by rewrite list_elem_of_singleton.
    - rewrite !filter_all; [done| |].
      + eapply Forall_impl; [exact Bf|]. intros e He. simpl in He. lia.
      + apply Forall_forall. intros e _. apply not_elem_of_nil. }
  split; [exact Hp|]. split; [exact Hfilters|].
  split; [|by split].
  rewrite Hfilters. by apply filter_neq_length.
Qed.

Lemma removeRegisteredPrefix_undoes_registration_witness :
  let H := example_collaborators in
  let events :=
    [Face.ExpressInterestName [[97]] 1%nat (Some 2%nat);
     Face.TransportOpened;
     Face.SetCommandSigningInfo [[1]];
     Face.RegisterPrefix [[97; 112; 112]] (Some 5%nat) (Some 6%nat) 0] in
  let p := Face.mkRegisteredPrefix 2 [[97; 112; 112]] 3 in
  let f := Face.run (Face.create (Some 7)) events in
  let f' := Face.step f
              (Face.RemoveRegisteredPrefix (Face.registeredPrefixId p)) in
  Face.registeredPrefixTable f = [] ++ p :: [] ∧
  Face.registeredPrefixTable f' = [] ++ [] ∧
  Face.interestFilterTable f'
  = filter (λ e, Face.interestFilterId e ≠ Face.relatedInterestFilterId p)
      (Face.interestFilterTable f) ∧
  (length (Face.interestFilterTable f)
   ≤ S (length (Face.interestFilterTable f')))%nat ∧
  Face.registeredPrefixRemoveRequests f'
  = Face.registeredPrefixRemoveRequests f ∧
  Face.trace f' = Face.trace f.
Proof.
  intros H events p f f'.
  assert (Face.registeredPrefixTable f = [] ++ p :: []) as Htable
    by (vm_compute; reflexivity).
  split; [exact Htable|].
  exact (removeRegisteredPrefix_undoes_registration (H := H) (Some 7)
           events [] [] p Htable).
Defined.

Section EarlyRemoval.

Context `{Face.Collaborators}.

Lemma removeRegisteredPrefix_loop_none id :
  ∀ backwards later count g,
    Forall (λ p, Face.registeredPrefixId p ≠ id) backwards →
    Face.removeRegisteredPrefix_loop id backwards later count g
    = (reverse backwards ++ later, count, g).
Proof.
  induction backwards as [|entry rest IH]; intros later count g Hall.
  - done.
  - apply Forall_cons in Hall as [Hne Hall].
    cbn [Face.removeRegisteredPrefix_loop].
    rewrite bool_decide_eq_false_2 by done.
    rewrite IH by done. by rewrite reverse_cons, <- app_assoc.
Qed.

Lemma removeRegisteredPrefix_unknown id f :
  Forall (λ p, Face.registeredPrefixId p ≠ id) (Face.registeredPrefixTable f) →
  id ∉ Face.registeredPrefixRemoveRequests f →
  Face.removeRegisteredPrefix id f
  = Face.set_registeredPrefixRemoveRequests
      (Face.registeredPrefixRemoveRequests f ++ [id]) f.
Proof.
  intros Hall Hout. unfold Face.removeRegisteredPrefix.
  rewrite removeRegisteredPrefix_loop_none
    by (apply Forall_reverse; exact Hall).
  rewrite reverse_involutive, app_nil_r. cbn [Z.eqb].
  apply indexOf_None in Hout.
  change (Face.registeredPrefixRemoveRequests
            (Face.set_registeredPrefixTable (Face.registeredPrefixTable f) f))
    with (Face.registeredPrefixRemoveRequests f).
  rewrite Hout. by destruct f.
Qed.

Lemma indexOf_snoc_fresh id l :
  id ∉ l → Face.indexOf id (l ++ [id]) = Some (length l).
Proof.
  induction l as [|y l IH]; intros Hout; simpl.
  - by rewrite bool_decide_eq_true_2.
  - apply not_elem_of_cons in Hout as [Hne Hout].
    rewrite bool_decide_eq_false_2 by done. by rewrite IH.
Qed.

Lemma delete_snoc {A} (l : list A) (x : A) : delete (length l) (l ++ [x]) = l.
Proof. induction l as [|y l IH]; simpl; [done|]. by rewrite IH. Qed.

End EarlyRemoval.

(** X20. [removeRegisteredPrefix] with an id that has no registered prefix
    yet is not ignored: the id is recorded as a removal request.  If it is
    the very id that the next [registerPrefix] is given, that
    [registerPrefix] returns the id and uses up the request, but registers
    nothing: the tables are as before, nothing is sent, no callback is
    called and, whatever the command signing info is, nothing is thrown. *)
Theorem removal_request_cancels_registerPrefix `{H : Face.Collaborators}
    (info0 : option Face.ConnectionInfo) (events : list Face.Event)
    (prefix : Name) (onInterest onRegisterFailed : option Face.AppFunction)
    (flags : Face.ForwardingFlags) :
  let f := Face.run (Face.create info0) events in
  let id := Face.lastEntryId f + 1 in
  Face.connectionInfo f ≠ None →
  id ∉ Face.registeredPrefixRemoveRequests f →
  let f1 := Face.removeRegisteredPrefix id f in
  Face.registeredPrefixRemoveRequests f1
  = Face.registeredPrefixRemoveRequests f ++ [id] ∧
  Face.registerPrefix prefix onInterest onRegisterFailed flags f1
  = Face.Returned id (Face.set_lastEntryId id f).
Proof.
  intros f id Hci Hout f1.
  destruct (tables_bounded_run info0 events) as (_ & _ & Bp & _).
  fold f in Bp.
  assert (f1 = Face.set_registeredPrefixRemoveRequests
                 (Face.registeredPrefixRemoveRequests f ++ [id]) f) as ->.
  { apply removeRegisteredPrefix_unknown; [|done].
    eapply Forall_impl; [exact Bp|]. intros p Hp. simpl in Hp.
    subst id. lia. }
  split; [done|]. subst id.
  cbv [Face.registerPrefix Face.bind Face.getNextEntryId Face.read Face.ret
       Face.exec Face.nfdRegisterPrefix].
  set (fa := Face.set_lastEntryId _ (Face.set_registeredPrefixRemoveRequests
                                       _ f)).
  change (Face.connectionInfo (Face.set_registeredPrefixRemoveRequests
            (Face.registeredPrefixRemoveRequests f
             ++ [Face.lastEntryId f + 1]) f))
    with (Face.connectionInfo f).
  change (Face.lastEntryId (Face.set_registeredPrefixRemoveRequests
            (Face.registeredPrefixRemoveRequests f
             ++ [Face.lastEntryId f + 1]) f))
    with (Face.lastEntryId f) in *.
  change (Face.connectionInfo fa) with (Face.connectionInfo f).
  destruct (Face.connectionInfo f) as [info|] eqn:Hinfo; [|done].
  change (Face.registeredPrefixRemoveRequests fa)
    with (Face.registeredPrefixRemoveRequests f ++ [Face.lastEntryId f + 1]).
  rewrite (indexOf_snoc_fresh _ _ Hout).
  change (Face.registeredPrefixRemoveRequests fa)
    with (Face.registeredPrefixRemoveRequests f ++ [Face.lastEntryId f + 1]).
  rewrite delete_snoc. subst fa. by destruct f.
Qed.

Lemma removal_request_cancels_registerPrefix_witness :
  let H := example_collaborators in
  let f := one_pending in
  let id := Face.lastEntryId f + 1 in
  let f1 := Face.removeRegisteredPrefix id f in
  (Face.connectionInfo f ≠ None ∧
   id ∉ Face.registeredPrefixRemoveRequests f) ∧
  Face.registeredPrefixRemoveRequests f1
  = Face.registeredPrefixRemoveRequests f ++ [id] ∧
  Face.registerPrefix [[97; 112; 112]] (Some 5%nat) (Some 6%nat) 0 f1
  = Face.Returned id (Face.set_lastEntryId id f).
Proof.
  intros H f id f1.
  assert (Face.connectionInfo f ≠ None) as Hci
    by (vm_compute; discriminate).
  assert (id ∉ Face.registeredPrefixRemoveRequests f) as Hout
    by (vm_compute; apply not_elem_of_nil).
  split; [done|].
  exact (removal_request_cancels_registerPrefix (H := H) (Some 7)
           [Face.ExpressInterestName [[97]] 1%nat (Some 2%nat);
            Face.TransportOpened]
           [[97; 112; 112]] (Some 5%nat) (Some 6%nat) 0 Hci Hout).
Defined.

Section EntryIds.

Context `{Face.Collaborators}.

Lemma registerPrefix_lastEntryId f prefix onInterest onRegisterFailed flags :
  0 ≤ Face.lastEntryId f →
  Face.lastEntryId f + 1
  ≤ Face.lastEntryId
      (Face.after
         (Face.registerPrefix prefix onInterest onRegisterFailed flags f)).
Proof.
  intros Hpos.
  cbv [Face.registerPrefix Face.bind Face.getNextEntryId Face.read Face.ret
       Face.exec Face.nfdRegisterPrefix Face.throw Face.isLocal].
  cbn [Face.connectionInfo Face.set_lastEntryId Face.commandKeyChain
       Face.commandCertificateName Face.registeredPrefixRemoveRequests].
  destruct (Face.connectionInfo f) as [info|] eqn:Hci; [|simpl; lia].
  set (fa := Face.set_lastEntryId (Face.lastEntryId f + 1) f).
  change (Face.registeredPrefixRemoveRequests fa)
    with (Face.registeredPrefixRemoveRequests f).
  change (Face.commandKeyChain fa) with (Face.commandKeyChain f).
  change (Face.commandCertificateName fa)
    with (Face.commandCertificateName f).
  destruct (Face.indexOf _ _); [simpl; lia|].
  destruct (Face.commandKeyChain f); [|simpl; lia]. cbn [negb].
  destruct (Name_size _ =? 0); [simpl; lia|]. cbn beta.
  assert (Face.connectionInfo fa = Some info) as -> by done.
  destruct (Face.transport_isLocal info) as [b|]; [|simpl; lia].
  assert (Face.lastEntryId f + 1 ≠ 0) as Hid by lia.
  pose proof (onIsLocalResult_lastEntryId fa (Face.lastEntryId f + 1) prefix
                onInterest flags
                (match onRegisterFailed with
                 | Some g => Face.AppOnRegisterFailed g
                 | None => Face.EmptyOnRegisterFailed
                 end) b Hid) as Hl.
  destruct (Face.onIsLocalResult _ _ _ _ _ _ fa);
    cbn [Face.after] in Hl |- *; rewrite Hl;
    subst fa; cbn [Face.lastEntryId Face.set_lastEntryId];
    destruct onInterest; lia.
Qed.

Lemma registerPrefix_returns f prefix onInterest onRegisterFailed flags x f' :
  Face.registerPrefix prefix onInterest onRegisterFailed flags f
  = Face.Returned x f' →
  x = Face.lastEntryId f + 1.
Proof.
  cbv [Face.registerPrefix Face.bind Face.getNextEntryId Face.read Face.ret
       Face.exec].
  cbn [Face.connectionInfo Face.set_lastEntryId].
  destruct (Face.connectionInfo f).
  - destruct (Face.nfdRegisterPrefix _ _ _ _ _ _ _ _); [|done].
    by intros [= <- _].
  - by intros [= <- _].
Qed.

(** The id that a call returns is the next one, and the call leaves
    [lastEntryId] at least that high. *)
Lemma returned_id_next f e id :
  0 ≤ Face.lastEntryId f →
  returned_id f e = Some id →
  id = Face.lastEntryId f + 1 ∧ id ≤ Face.lastEntryId (Face.step f e).
Proof.
  intros Hpos.
  destruct e as [i od ot|name od ot|x|prefix oi orf flags|x|flt oi|x|name| | |
                 |element|tm]; try done;
    cbn [returned_id Face.step].
  - destruct (expressInterest_same_tables f i od ot) as [_ Hl].
    cbn zeta in Hl. rewrite Hl.
    destruct (Face.expressInterest i od ot f) as [x f'|] eqn:Hr; [|done].
    intros [= <-]. apply expressInterest_returns in Hr. lia.
  - unfold Face.expressInterest_name.
    match goal with
    | |- context [Face.expressInterest ?i od ot f] =>
        destruct (expressInterest_same_tables f i od ot) as [_ Hl];
        cbn zeta in Hl; rewrite Hl;
        destruct (Face.expressInterest i od ot f) as [x f'|] eqn:Hr; [|done]
    end.
    intros [= <-]. apply expressInterest_returns in Hr. lia.
  - pose proof (registerPrefix_lastEntryId f prefix oi orf flags Hpos) as Hl.
    destruct (Face.registerPrefix prefix oi orf flags f) as [x f'|] eqn:Hr;
      [|done].
    intros [= <-]. apply registerPrefix_returns in Hr. lia.
  - cbv [Face.setInterestFilter Face.bind Face.getNextEntryId Face.ret
         Face.exec]. cbn. intros [= <-]. lia.
Qed.

End EntryIds.

(** X21. The ids that [expressInterest], [registerPrefix] and
    [setInterestFilter] return come from one counter and strictly increase:
    an id returned by any of them is positive and smaller than every id
    that any of them returns later, whatever happens in between. *)
Theorem entry_ids_increase `{H : Face.Collaborators}
    (info : option Face.ConnectionInfo) (before between : list Face.Event)
    (e1 e2 : Face.Event) (id1 id2 : Z) :
  let f := Face.run (Face.create info) before in
  returned_id f e1 = Some id1 →
  returned_id (Face.run (Face.step f e1) between) e2 = Some id2 →
  0 < id1 < id2.
Proof.
  intros f H1 H2.
  pose proof (proj1 (tables_bounded_run info before)) as Hpos. fold f in Hpos.
  destruct (returned_id_next f e1 id1 Hpos H1) as [-> Hle].
  pose proof (lastEntryId_mono_run between (Face.step f e1)) as Hmono.
  apply returned_id_next in H2 as [-> _]; lia.
Qed.

Lemma entry_ids_increase_witness :
  let H := example_collaborators in
  let e1 := Face.ExpressInterestName [[99]] 4%nat None in
  let e2 := Face.SetInterestFilter (Face.mkInterestFilter [[100]] None)
              5%nat in
  let between :=
    [Face.SetInterestFilter (Face.mkInterestFilter [[98]] None) 3%nat] in
  returned_id one_pending e1 = Some 2 ∧
  returned_id (Face.run (Face.step one_pending e1) between) e2 = Some 4 ∧
  0 < 2 < 4.
Proof.
  intros H e1 e2 between.
  split; [reflexivity|]. split; [reflexivity|].
  exact (entry_ids_increase (H := H) (Some 7)
           [Face.ExpressInterestName [[97]] 1%nat (Some 2%nat);
            Face.TransportOpened]
           between e1 e2 2 4 eq_refl eq_refl).
Defined.

(** ** The Face: the pending timers and the pending interest table *)

Section Timers.

Context `{Face.Collaborators}.

Lemma NoDup_fmap_eq {A B} (g : A → B) (l : list A) x y :
  NoDup (map g l) → x ∈ l → y ∈ l → g x = g y → x = y.
Proof.
  induction l as [|z l IH]; intros Hnd Hx Hy Hg.
  - by apply elem_of_nil in Hx.
  - cbn [map] in Hnd. apply NoDup_cons in Hnd as [Hz Hnd].
    apply elem_of_cons in Hx as [->|Hx]; apply elem_of_cons in Hy as [->|Hy].
    + done.
    + exfalso. apply Hz. rewrite Hg. apply list_elem_of_fmap. by exists y.
    + exfalso. apply Hz. rewrite <- Hg. apply list_elem_of_fmap. by exists x.
    + by apply IH.
Qed.

Lemma filter_ext_in {A} (P Q : A → Prop) `{∀ x, Decision (P x)}
    `{∀ x, Decision (Q x)} (l : list A) :
  (∀ x, x ∈ l → P x ↔ Q x) → filter P l = filter Q l.
Proof.
  induction l as [|x l IH]; intros Hiff; [done|].
  rewrite !filter_cons.
  assert (filter P l = filter Q l) as ->.
  { apply IH. intros y Hy. apply Hiff. by right. }
  destruct (decide (P x)) as [HP|HP], (decide (Q x)) as [HQ|HQ]; try done;
    exfalso; [apply HQ|apply HP]; by apply (Hiff x); [left|].
Qed.

Lemma map_filter_comm {A B} (g : A → B) (Q : B → Prop)
    `{∀ y, Decision (Q y)} (l : list A) :
  map g (filter (λ x, Q (g x)) l) = filter Q (map g l).
Proof.
  induction l as [|x l IH]; [done|].
  cbn [map]. rewrite !filter_cons. destruct (decide (Q (g x))); cbn [map];
    by rewrite IH.
Qed.

(** Cancelling the timers of the entries that a step removes from the
    table keeps the timers in line with the table. *)
Lemma clear_removed (Q : Face.PendingInterest → Prop)
    `{∀ e, Decision (Q e)} (timers : list Face.Timer)
    (removed : list Face.PendingInterest) :
  NoDup (map Face.timerID (map Face.timer_entry timers)) →
  Forall (λ tm, Face.timer_id tm = Face.timerID (Face.timer_entry tm))
    timers →
  (∀ e, e ∈ removed ↔ Q e ∧ e ∈ map Face.timer_entry timers) →
  map Face.timer_entry
    (filter (λ tm, Face.timer_id tm ∉ map Face.timerID removed) timers)
  = filter (λ e, ¬ Q e) (map Face.timer_entry timers).
Proof.
  intros Hnd Hid Hrem.
  rewrite <- (map_filter_comm Face.timer_entry (λ e, ¬ Q e)).
  f_equal. apply filter_ext_in. intros tm Htm.
  assert (Face.timer_entry tm ∈ map Face.timer_entry timers) as Hin.
  { apply list_elem_of_fmap. by exists tm. }
  pose proof (proj1 (Forall_forall _ _) Hid tm Htm) as Heq. simpl in Heq.
  split; intros Hno HQ; apply Hno.
  - apply list_elem_of_fmap. exists (Face.timer_entry tm).
    split; [done|]. by apply Hrem.
  - apply list_elem_of_fmap in HQ as (e & He & Hin').
    apply Hrem in Hin' as [HQ Hin'].
    by rewrite (NoDup_fmap_eq Face.timerID _ (Face.timer_entry tm) e Hnd Hin
                  Hin') by congruence.
Qed.

Lemma without_first_filter t (table : list Face.PendingInterest) :
  NoDup (map Face.timerID table) →
  without_first t table = filter (λ e, Face.timerID e ≠ t) table.
Proof.
  unfold without_first.
  induction table as [|e table IH]; intros Hnd; [done|].
  cbn [map] in Hnd. apply NoDup_cons in Hnd as [He Hnd].
  cbn [list_find]. rewrite filter_cons.
  destruct (decide (Face.timerID e = t)) as [Ht|Ht].
  - destruct (decide (Face.timerID e ≠ t)) as [Hne|_]; [done|].
    cbn. symmetry. apply filter_all, Forall_forall. intros e' He' Heq.
    apply He. rewrite Ht, <- Heq. apply list_elem_of_fmap. by exists e'.
  - destruct (decide (Face.timerID e ≠ t)) as [_|Hno]; [|done].
    rewrite <- (IH Hnd).
    by destruct (list_find _ table) as [[index e']|].
Qed.

Lemma timers_of_table_micro sending f f' :
  micro sending f f' →
  callbacks_inv f ∧ timers_of_table f →
  callbacks_inv f' ∧ timers_of_table f'.
Proof.
  intros Hm [Hinv Htab]. split; [by eapply callbacks_inv_micro|].
  pose proof (callbacks_inv_micro _ _ _ Hm Hinv) as Hinv'.
  destruct Hinv' as (Hnd' & _ & Hid' & _).
  destruct Hinv as (Hnd & _ & Hid & _).
  destruct Htab as (Htab & _ & _).
  assert (Face.pendingInterestTable f' = map Face.timer_entry (Face.timers f'))
    as Hgoal; [|].
  2:{ split; [done|]. split.
      - assert (map Face.timer_id (Face.timers f')
                = map Face.timerID (Face.pendingInterestTable f')) as ->;
          [|done].
        rewrite Hgoal, map_map. apply map_ext_Forall.
        eapply Forall_impl; [exact Hid'|]. by intros tm [-> _].
      - eapply Forall_impl; [exact Hid'|]. by intros tm [-> _]. }
  assert (Forall (λ tm, Face.timer_id tm = Face.timerID (Face.timer_entry tm))
            (Face.timers f)) as Hids.
  { eapply Forall_impl; [exact Hid|]. by intros tm [-> _]. }
  rewrite Htab in Hnd.
  destruct Hm as [f' (Hp & Ht & _)| |allocate i od ot|d rest _ Hq
                 |allocate i od ot _|id|data|t].
  - by rewrite Hp, Ht.
  - done.
  - destruct (alloc_fields allocate f) as (Hp & Ht & _).
    cbn -[alloc]. by rewrite Hp, Ht.
  - destruct (helper_fields (Face.set_onConnectedCallbacks rest f)
                (Face.deferred_id d) (Face.deferred_interest d)
                (Face.deferred_onData d) (Face.deferred_onTimeout d))
      as [(_ & ->)|[(_ & _ & Hp & Ht & _)|(_ & _ & _ & Hp & Ht & _)]].
    + done.
    + by rewrite Hp, Ht.
    + rewrite Hp, Ht, map_app. cbn. by rewrite Htab.
  - destruct (alloc_fields allocate f) as (Hpa & Hta & _).
    destruct (helper_fields (alloc allocate f) (new_id f allocate) i od ot)
      as [(_ & ->)|[(_ & _ & Hp & Ht & _)|(_ & _ & _ & Hp & Ht & _)]].
    + by rewrite Hpa, Hta.
    + by rewrite Hp, Ht, Hpa, Hta.
    + rewrite Hp, Ht, map_app, Hpa, Hta. cbn. by rewrite Htab.
  - destruct id as [id|]; [|done].
    rewrite removePendingInterest_spec. cbn zeta.
    assert (entries_without_id id (Face.pendingInterestTable f)
            = map Face.timer_entry
                (filter (λ tm, Face.timer_id tm
                               ∉ map Face.timerID
                                   (reverse
                                      (entries_with_id id
                                         (Face.pendingInterestTable f))))
                   (Face.timers f))) as Heq.
    { rewrite (clear_removed
                 (λ e, Face.pendingInterestId e = Some id)); [|done..|].
      - unfold entries_without_id. by rewrite Htab.
      - intros e. rewrite elem_of_reverse. unfold entries_with_id.
        rewrite list_elem_of_filter. by rewrite Htab. }
    destruct (entries_with_id id (Face.pendingInterestTable f)) eqn:Hw;
      [case_bool_decide|]; exact Heq.
  - rewrite onReceivedData_spec. cbn zeta. cbn.
    rewrite (clear_removed
               (λ e, Face.matchesName (Face.interest e) (data_name data)
                     = true)); [|done..|].
    + unfold not_matching. by rewrite Htab.
    + intros e. unfold matching.
      rewrite list_elem_of_filter, elem_of_reverse. by rewrite Htab.
  - pose proof (fire_fields t f) as Hf. cbn zeta in Hf.
    destruct (pending_timer t f) as [tm|]; [|by rewrite Hf].
    destruct Hf as (Htm & Ht & Hp & Hts & _).
    rewrite Hp, Hts, without_first_filter by by rewrite Htab.
    rewrite Htab.
    rewrite <- (map_filter_comm Face.timer_entry
                  (λ e, Face.timerID e ≠ Face.timerID (Face.timer_entry tm))).
    f_equal. apply filter_ext_in. intros tm' Htm'.
    pose proof (proj1 (Forall_forall _ _) Hids tm' Htm') as E1.
    pose proof (proj1 (Forall_forall _ _) Hids tm Htm) as E2.
    simpl in E1, E2. by rewrite <- E1, <- E2, Ht.
Qed.

Lemma timers_of_table_run info events :
  timers_of_table (Face.run (Face.create info) events).
Proof.
  apply (run_invariant (λ f, callbacks_inv f ∧ timers_of_table f)
           timers_of_table_micro).
  split; [apply callbacks_inv_create|].
  split; [done|]. split; [apply NoDup_nil_2|apply Forall_nil_2].
Qed.

End Timers.

(** X22. In every state of a Face built by
    [new Face(transport, connectionInfo)] ([getConnectionInfo] is null, so
    [connectAndExecute] and its retry timer are never started) the pending
    timers of the Face, which are those that [expressInterestHelper] has
    set, are exactly the timers of the entries of the pending interest
    table: each entry has one pending timer, under the handle that the
    entry records as its [timerID], no two entries share a handle, and no
    timer is pending for an entry that has left the table. *)
Theorem pending_timers_follow_table `{H : Face.Collaborators}
    (info : option Face.ConnectionInfo) (events : list Face.Event) :
  let f := Face.run (Face.create info) events in
  Face.pendingInterestTable f = map Face.timer_entry (Face.timers f) ∧
  NoDup (map Face.timer_id (Face.timers f)) ∧
  Forall (λ tm, Face.timer_id tm = Face.timerID (Face.timer_entry tm))
    (Face.timers f).
Proof. apply timers_of_table_run. Qed.

(** ** The Face: the ids of pending Interests *)

Section PendingIds.

Context `{Face.Collaborators}.

Lemma sublist_omap {A B} (g : A → option B) (l1 l2 : list A) :
  l1 `sublist_of` l2 → omap g l1 `sublist_of` omap g l2.
Proof.
  induction 1 as [|x l1 l2 _ IH|x l1 l2 _ IH]; cbn [omap list_omap].
  - done.
  - destruct (g x); [by constructor|done].
  - destruct (g x); [by constructor|done].
Qed.

Lemma pending_ids_bound f :
  ids_bounded f → Forall (λ x, x ≤ Face.lastEntryId f) (pending_ids f).
Proof.
  intros (Bp & Bq & _). unfold pending_ids.
  apply Forall_app. split; apply Forall_forall; intros x Hx;
    apply list_elem_of_omap in Hx as (y & Hy & Hid).
  - by apply (proj1 (Forall_forall _ _) Bp y Hy).
  - by apply (proj1 (Forall_forall _ _) Bq y Hy).
Qed.

Lemma pending_ids_shrinks f f' :
  shrinks f f' → NoDup (pending_ids f) → NoDup (pending_ids f').
Proof.
  intros (Hp & _ & _ & Hq & _) Hnd.
  eapply sublist_NoDup; [exact Hnd|].
  unfold pending_ids. rewrite Hq.
  apply sublist_app; [by apply sublist_omap|done].
Qed.

Lemma pending_ids_micro sending f f' :
  micro sending f f' →
  ids_bounded f ∧ NoDup (pending_ids f) →
  ids_bounded f' ∧ NoDup (pending_ids f').
Proof.
  intros Hm [Hb Hnd]. split; [by eapply ids_bounded_micro|].
  pose proof (pending_ids_bound f Hb) as Hle.
  assert (Hfresh : ∀ allocate,
            NoDup (pending_ids f ++ from_option (λ x, [x]) []
                                     (new_id f allocate))).
  { intros [|]; cbn; [|by rewrite app_nil_r].
    apply NoDup_app. split; [done|]. split; [|apply NoDup_singleton].
    intros x Hx Hx'. apply list_elem_of_singleton in Hx' as ->.
    pose proof (proj1 (Forall_forall _ _) Hle _ Hx) as Hbound.
    simpl in Hbound. lia. }
  destruct Hm as [f' Hf| |allocate i od ot|d rest _ Hq
                 |allocate i od ot _|id|data|t].
  - eapply pending_ids_shrinks; [by apply frame_shrinks|done].
  - done.
  - destruct (alloc_fields allocate f) as (Hp & _).
    unfold pending_ids. cbn -[alloc new_id]. rewrite Hp, omap_app.
    rewrite (assoc_L (++)). cbn -[new_id].
    specialize (Hfresh allocate). unfold pending_ids in Hfresh.
    by destruct (new_id f allocate).
  - unfold pending_ids in Hnd |- *. rewrite Hq in Hnd.
    cbn [omap list_omap] in Hnd.
    assert (NoDup (omap Face.pendingInterestId (Face.pendingInterestTable f)
                   ++ omap Face.deferred_id rest)) as Hrest.
    { eapply sublist_NoDup; [exact Hnd|].
      apply sublist_app; [done|].
      destruct (Face.deferred_id d); [by constructor|done]. }
    destruct (helper_fields (Face.set_onConnectedCallbacks rest f)
                (Face.deferred_id d) (Face.deferred_interest d)
                (Face.deferred_onData d) (Face.deferred_onTimeout d))
      as [(_ & ->)|[(_ & _ & Hp & _ & _ & Hc & _)
                   |(_ & _ & _ & Hp & _ & _ & Hc & _)]].
    + done.
    + by rewrite Hp, Hc.
    + rewrite Hp, Hc, omap_app. cbn.
      rewrite <- (assoc_L (++)).
      by destruct (Face.deferred_id d).
  - destruct (alloc_fields allocate f) as (Hpa & _ & _ & Hqa & _).
    unfold pending_ids in *.
    destruct (helper_fields (alloc allocate f) (new_id f allocate) i od ot)
      as [(_ & ->)|[(_ & _ & Hp & _ & _ & Hc & _)
                   |(_ & _ & _ & Hp & _ & _ & Hc & _)]].
    + by rewrite Hpa, Hqa.
    + by rewrite Hp, Hc, Hpa, Hqa.
    + rewrite Hp, Hc, Hpa, Hqa, omap_app. cbn -[new_id].
      specialize (Hfresh allocate).
      eapply NoDup_Permutation_proper; [|exact Hfresh].
      destruct (new_id f allocate); cbn; [|by rewrite !app_nil_r].
      rewrite <- !(assoc_L (++)). apply Permutation_app_head.
      apply Permutation_app_comm.
  - eapply pending_ids_shrinks; [apply removePendingInterest_shrinks|done].
  - eapply pending_ids_shrinks; [apply onReceivedData_shrinks|done].
  - eapply pending_ids_shrinks; [apply fire_shrinks|done].
Qed.

Lemma pending_ids_run info events :
  NoDup (pending_ids (Face.run (Face.create info) events)).
Proof.
  apply (run_invariant (λ f, ids_bounded f ∧ NoDup (pending_ids f))
           pending_ids_micro).
  split; [apply ids_bounded_create|apply NoDup_nil_2].
Qed.

Lemma NoDup_omap_count {A} (g : A → option Z) (l : list A) id :
  NoDup (omap g l) → (length (filter (λ e, g e = Some id) l) ≤ 1)%nat.
Proof.
  induction l as [|e l IH]; intros Hnd; [simpl; lia|].
  cbn [omap list_omap] in Hnd. rewrite filter_cons.
  destruct (decide (g e = Some id)) as [Heq|Hne].
  - rewrite Heq in Hnd. apply NoDup_cons in Hnd as [Hout _].
    rewrite filter_none; [simpl; lia|].
    intros e' He' Heq'. apply Hout. apply list_elem_of_omap. by exists e'.
  - apply IH. destruct (g e); [by apply NoDup_cons in Hnd as [_ ?]|done].
Qed.

End PendingIds.

(** X23. In every state of a Face built by
    [new Face(transport, connectionInfo)] ([getConnectionInfo] is null, so
    [connectAndExecute] is never called and every send is processed at most
    once) no two entries of the pending interest table have the same
    [pendingInterestId], and no deferred send has the id of an entry or of
    another deferred send: the ids of what is pending are pairwise
    distinct. So [removePendingInterest] finds at most one entry with the
    id it is given. *)
Theorem pending_interest_ids_are_unique `{H : Face.Collaborators}
    (info : option Face.ConnectionInfo) (events : list Face.Event) :
  let f := Face.run (Face.create info) events in
  NoDup (omap Face.pendingInterestId (Face.pendingInterestTable f)
         ++ omap Face.deferred_id (Face.onConnectedCallbacks f)) ∧
  ∀ id, (length (entries_with_id id (Face.pendingInterestTable f)) ≤ 1)%nat.
Proof.
  cbn zeta. pose proof (pending_ids_run info events) as Hnd.
  split; [exact Hnd|]. intros id.
  apply (NoDup_omap_count Face.pendingInterestId).
  by apply NoDup_app in Hnd as [? _].
Qed.

(** ** The Face: [removePendingInterest] is final *)

Section Cancelled.

Context `{Face.Collaborators}.

Variable id : Z.
Variable n : nat.

Lemma called_shrinks f f' :
  shrinks f f' → no_entry id f →
  count (is_invocation_for_id id) (Face.trace f')
  = count (is_invocation_for_id id) (Face.trace f).
Proof.
  intros (_ & _ & _ & _ & _ & _ & effects & Htr & Horigin) (Np & Nt).
  rewrite Htr, count_app.
  rewrite (count_zero _ effects); [lia|]. intros eff Hin.
  pose proof (proj1 (Forall_forall _ _) Horigin eff Hin) as Ho.
  destruct eff; simpl in *; try done.
  - apply bool_decide_eq_false_2.
    by apply (proj1 (Forall_forall _ _) Np).
  - destruct Ho as (tm & Htm & <-). apply bool_decide_eq_false_2.
    by apply (proj1 (Forall_forall _ _) Nt).
Qed.

Lemma cancelled_helper g g' id' i od ot :
  id ≤ Face.lastEntryId g → no_entry id g →
  count (is_invocation_for_id id) (Face.trace g) = n →
  (count_deferred id (Face.onConnectedCallbacks g)
   + (if decide (id' = Some id) then 1 else 0)
   ≤ count_requests id (Face.pitRemoveRequests g))%nat →
  helper_outcome g g' id' i od ot →
  cancelled id n g'.
Proof.
  intros Hl (Np & Nt) Hu Hc
    [(_ & ->)
    |[(_ & (x & index & -> & Hidx & Hr) & Hp & Ht & _ & Hq & Hl' & _ & Htr)
     |(_ & Hreq & Hr & Hp & Ht & _ & Hq & Hl' & _ & Htr)]].
  - unfold cancelled, no_entry. repeat split; try done. lia.
  - unfold cancelled, no_entry in *.
    rewrite Hp, Ht, Hq, Hl', Htr, Hr, count_app, count_for_id_sends.
    apply indexOf_Some in Hidx as [Hlook _].
    rewrite (count_requests_delete id _ _ _ Hlook) in Hc.
    repeat split; try done; [lia|].
    destruct (decide (Some x = Some id)), (decide (x = id));
      try congruence; lia.
  - assert (id' ≠ Some id) as Hne.
    { intros ->. simpl in Hreq. apply indexOf_None in Hreq.
      rewrite (count_requests_absent _ _ Hreq) in Hc.
      destruct (decide (Some id = Some id)); [lia|done]. }
    unfold cancelled, no_entry in *.
    rewrite Hp, Ht, Hq, Hl', Htr, Hr, count_app, count_for_id_sends.
    repeat split; try done.
    + apply Forall_app. split; [done|]. by repeat constructor.
    + apply Forall_app. split; [done|]. by repeat constructor.
    + lia.
    + destruct (decide (id' = Some id)); [done|]. lia.
Qed.

Lemma cancelled_micro sending f f' :
  micro sending f f' → cancelled id n f → cancelled id n f'.
Proof.
  apply (micro_invariant (cancelled id n)).
  - intros g g' Hs (Hl & Hn & Hu & Hc).
    pose proof (no_entry_shrinks _ _ _ Hs Hn) as Hn'.
    pose proof (called_shrinks _ _ Hs Hn) as Hu'.
    destruct Hs as (_ & _ & _ & Hq & Hl' & Hr & _).
    unfold cancelled. rewrite Hq, Hu'.
    split; [lia|]. split; [done|]. split; [done|].
    destruct Hr as [->|(x & ->)]; [done|]. rewrite count_requests_app. lia.
  - intros g allocate i od ot (Hl & (Np & Nt) & Hu & Hc).
    destruct (alloc_fields allocate g)
      as (Hp & Ht & _ & Hq & Hr & _ & _ & _ & Htr & Hl').
    unfold cancelled, no_entry in *.
    cbn -[alloc new_id count_deferred count_requests count].
    rewrite Hp, Ht, Hr, Htr, count_deferred_snoc. cbn [Face.deferred_id].
    destruct (decide (new_id g allocate = Some id)) as [Heq|_];
      [by apply new_id_other in Heq|].
    repeat split; try done; lia.
  - intros g d rest g' Hq (Hl & Hn & Hu & Hc) Hout.
    rewrite Hq, count_deferred_cons in Hc.
    eapply (cancelled_helper (Face.set_onConnectedCallbacks rest g));
      [..|exact Hout]; try done.
    cbn -[count_deferred count_requests]. lia.
  - intros g allocate i od ot g' (Hl & (Np & Nt) & Hu & Hc) Hout.
    destruct (alloc_fields allocate g)
      as (Hp & Ht & _ & Hq & Hr & _ & _ & _ & Htr & Hl').
    eapply (cancelled_helper (alloc allocate g)); [..|exact Hout].
    + lia.
    + unfold no_entry. by rewrite Hp, Ht.
    + by rewrite Htr.
    + rewrite Hq, Hr.
      destruct (decide (new_id g allocate = Some id)) as [Heq|_];
        [by apply new_id_other in Heq|lia].
Qed.

Lemma cancelled_run events :
  ∀ f, cancelled id n f → cancelled id n (Face.run f events).
Proof. apply (run_invariant (cancelled id n)), cancelled_micro. Qed.

End Cancelled.

Section Removal.

Context `{Face.Collaborators}.

Lemma count_deferred_omap id queue :
  id ∉ omap Face.deferred_id queue → count_deferred id queue = 0%nat.
Proof.
  intros Hout. unfold count_deferred. rewrite filter_none; [done|].
  intros d Hd Hid. apply Hout. apply list_elem_of_omap. by exists d.
Qed.

(** [removePendingInterest] with an id that has been handed out leaves
    nothing behind that could call a callback of the id. *)
Lemma cancelled_after_removal info events id :
  let f := Face.run (Face.create info) events in
  id ≤ Face.lastEntryId f →
  cancelled id (count (is_invocation_for_id id) (Face.trace f))
    (Face.removePendingInterest (Some id) f).
Proof.
  intros f Hl.
  pose proof (pending_ids_run info events) as Hnd. fold f in Hnd.
  pose proof (timers_of_table_micro false f _ (micro_remove _ _ (Some id))
                (conj (callbacks_inv_run info events)
                   (timers_of_table_run info events))) as [_ (Htab & _)].
  destruct (removePendingInterest_fields id f)
    as (Hp & Ht & _ & Hq & Hl' & _ & Htr & Hr).
  cbn zeta in Hp, Ht, Hq, Hl', Htr, Hr.
  assert (Forall (λ e, Face.pendingInterestId e ≠ Some id)
            (Face.pendingInterestTable
               (Face.removePendingInterest (Some id) f))) as Np.
  { rewrite Hp. unfold entries_without_id. apply Forall_forall.
    intros e He. by apply list_elem_of_filter in He as [? _]. }
  unfold cancelled. rewrite Hl', Htr, Hq.
  split; [done|]. split; [|split; [done|]].
  - split; [done|]. rewrite Htab in Np.
    apply Forall_forall. intros tm Htm.
    apply (proj1 (Forall_forall _ _) Np).
    apply list_elem_of_fmap. by exists tm.
  - unfold pending_ids in Hnd.
    apply NoDup_app in Hnd as (_ & Hsep & Hqnd).
    destruct (entries_with_id id (Face.pendingInterestTable f))
      as [|e rest] eqn:Hwith.
    + pose proof (NoDup_omap_count Face.deferred_id _ id Hqnd) as Hone.
      fold (count_deferred id (Face.onConnectedCallbacks f)) in Hone.
      rewrite (removePendingInterest_absent _ _ Hwith).
      case_bool_decide as Hin.
      * pose proof (count_requests_member _ _ Hin). lia.
      * change (Face.pitRemoveRequests
                  (Face.set_pitRemoveRequests
                     (Face.pitRemoveRequests f ++ [id]) f))
          with (Face.pitRemoveRequests f ++ [id]).
        rewrite count_requests_app, count_requests_cons.
        destruct (decide (id = id)); [lia|done].
    + rewrite count_deferred_omap; [lia|].
      apply Hsep. apply list_elem_of_omap. exists e.
      assert (e ∈ entries_with_id id (Face.pendingInterestTable f)) as Hin
        by (rewrite Hwith; left).
      unfold entries_with_id in Hin.
      by apply list_elem_of_filter in Hin as [? ?].
Qed.

End Removal.

(** X24. [removePendingInterest] is final, on a Face built by
    [new Face(transport, connectionInfo)] ([getConnectionInfo] is null, so
    [connectAndExecute] is never called) and when it is called between the
    events of the Face (not from inside a callback that the Face is
    calling for an incoming Data packet, whose entries have been taken out
    of the table already). After it has been called with an id that
    [expressInterest] has returned, neither the [onData] nor the
    [onTimeout] of an entry with that id is called any more, whatever
    events follow, and no PIT entry and no pending timer carries the id:
    this holds whether the Interest was in the table, was still waiting for
    the connection, or was gone already. *)
Theorem removePendingInterest_is_final `{H : Face.Collaborators}
    (info : option Face.ConnectionInfo) (events later : list Face.Event)
    (id : Z) :
  let f := Face.run (Face.create info) events in
  id ≤ Face.lastEntryId f →
  let f' := Face.run (Face.step f (Face.RemovePendingInterest (Some id)))
              later in
  count (is_invocation_for_id id) (Face.trace f')
  = count (is_invocation_for_id id) (Face.trace f) ∧
  no_entry id f'.
Proof.
  intros f Hl f'.
  pose proof (cancelled_run id _ later _
                (cancelled_after_removal info events id Hl))
    as (_ & Hn & Hc & _).
  by split.
Qed.

Lemma removePendingInterest_is_final_witness :
  let H := example_collaborators in
  let f := one_pending in
  let later := [Face.Received (Face.ElementData one_pending_data);
                Face.TimerFired 1] in
  let f' := Face.run (Face.step f (Face.RemovePendingInterest (Some 1)))
              later in
  1 ≤ Face.lastEntryId f ∧
  count (is_invocation_for_id 1) (Face.trace f')
  = count (is_invocation_for_id 1) (Face.trace f) ∧
  no_entry 1 f'.
Proof.
  intros H f later f'.
  assert (1 ≤ Face.lastEntryId f) as Hl by (vm_compute; discriminate).
  split; [exact Hl|].
  exact (removePendingInterest_is_final (H := H) (Some 7)
           one_pending_events later 1 Hl).
Defined.

(** ** The Face: a registration that gets no answer *)

Section RegistrationTimeout.

Context `{Face.Collaborators}.


End RegistrationTimeout.



(** ** The Face: a closed Face *)

Section Closed.

Context `{Face.Collaborators}.










End Closed.



(** X27. The ways in which [registerPrefix] fails before anything is
    sent, on a Face with connection info and without a removal request for
    the new id: without a command KeyChain it throws, with an empty command
    certificate name it throws, and when [transport.isLocal] reports an
    error it calls [onRegisterFailed(prefix)] and returns the id. In all
    three cases nothing is inserted in the tables, nothing is sent, and the
    Face changes only by the id that is used up (and the call of
    [onRegisterFailed]). *)
Theorem registerPrefix_fails_before_sending `{H : Face.Collaborators}
    (f : Face.t) (info : Face.ConnectionInfo) (prefix : Name)
    (onInterest onRegisterFailed : option Face.AppFunction)
    (flags : Face.ForwardingFlags) :
  Face.connectionInfo f = Some info →
  Face.indexOf (Face.lastEntryId f + 1)
    (Face.registeredPrefixRemoveRequests f) = None →
  let id := Face.lastEntryId f + 1 in
  let response :=
    registration_response prefix onInterest onRegisterFailed flags in
  let call := Face.registerPrefix prefix onInterest onRegisterFailed flags in
  (Face.commandKeyChain f = false →
   call f = Face.Thrown Face.CommandKeyChainNotSet
              (Face.set_lastEntryId id f)) ∧
  (Face.commandKeyChain f = true →
   Name_size (Face.commandCertificateName f) = 0 →
   call f = Face.Thrown Face.CommandCertificateNameNotSet
              (Face.set_lastEntryId id f)) ∧
  (Face.commandKeyChain f = true →
   Name_size (Face.commandCertificateName f) ≠ 0 →
   Face.transport_isLocal info = Face.IsLocalError →
   call f = Face.Returned id
              (Face.emit (registration_failed response)
                 (Face.set_lastEntryId id f))).
Proof.
  intros Hci Hidx id response call. subst call.
  cbv [Face.registerPrefix Face.bind Face.getNextEntryId Face.read Face.ret
       Face.exec Face.nfdRegisterPrefix Face.throw Face.isLocal].
  cbn [Face.connectionInfo Face.set_lastEntryId Face.commandKeyChain
       Face.commandCertificateName Face.registeredPrefixRemoveRequests].
  rewrite Hci.
  set (fa := Face.set_lastEntryId (Face.lastEntryId f + 1) f).
  change (Face.registeredPrefixRemoveRequests fa)
    with (Face.registeredPrefixRemoveRequests f).
  change (Face.commandKeyChain fa) with (Face.commandKeyChain f).
  change (Face.commandCertificateName fa)
    with (Face.commandCertificateName f).
  rewrite Hidx.
  split; [|split].
  - by intros ->.
  - intros -> Hcert. cbn [negb]. apply Z.eqb_eq in Hcert. by rewrite Hcert.
  - intros -> Hcert Hlocal. cbn [negb]. apply Z.eqb_neq in Hcert.
    rewrite Hcert. cbn beta.
    assert (Face.connectionInfo fa = Some info) as -> by done.
    by rewrite Hlocal.
Qed.

Lemma registerPrefix_fails_before_sending_witness :
  let H := example_collaborators in
  let f := one_pending in
  (Face.connectionInfo f = Some 7 ∧
   Face.indexOf (Face.lastEntryId f + 1)
     (Face.registeredPrefixRemoveRequests f) = None ∧
   Face.commandKeyChain f = false) ∧
  Face.registerPrefix [[97; 112; 112]] (Some 5%nat) (Some 6%nat) 0 f
  = Face.Thrown Face.CommandKeyChainNotSet
      (Face.set_lastEntryId (Face.lastEntryId f + 1) f).
Proof.
  intros H f.
  assert (Face.connectionInfo f = Some 7) as Hci by (vm_compute; reflexivity).
  assert (Face.indexOf (Face.lastEntryId f + 1)
            (Face.registeredPrefixRemoveRequests f) = None) as Hidx
    by (vm_compute; reflexivity).
  assert (Face.commandKeyChain f = false) as Hkey
    by (vm_compute; reflexivity).
  split; [done|].
  exact (proj1 (registerPrefix_fails_before_sending (H := H) f 7
                  [[97; 112; 112]] (Some 5%nat) (Some 6%nat) 0 Hci Hidx)
           Hkey).
Defined.
